(** * An explicit-free-list allocator (mm.c): model and properties

    The allocator of [mm.c] keeps boundary-tagged blocks in one contiguous
    heap, links the free ones in a doubly linked LIFO list that ends in the
    prologue block, places by first fit and coalesces on free.

    The model is a shallow embedding with explicit state passing.  The heap
    is a flat store of machine words indexed by byte address; every access
    of [mm.c] is a word access ([GET], [PUT] and the link macros), and in
    a well-formed heap every accessed address is a multiple of the word
    size, so that no two accesses overlap in part.  The store is total:
    an access outside the heap, undefined in C, reads or writes a cell of
    its own.  Values of type [size_t] and [uintptr_t] are integers taken
    modulo [2 ^ (8 * WSIZE)]; pointer arithmetic is plain integer
    arithmetic. *)

From Stdlib Require Import ZArith List Lia Bool.
Import ListNotations.
Local Open Scope Z_scope.

(** The two data models the source is written for ("32-bit and 64-bit
    clean"): [sizeof(void * )] is 4 or 8, [int] has 32 bits in both. *)
Inductive arch : Set := ILP32 | LP64.
Existing Class arch.

(** The globals of [mm.c] ([heap_listp], [free_listp]) together with the
    store and the three cursors of the heap primitive. *)
Record heap : Type := mkHeap {
  mem : Z -> Z;
  mem_start_brk : Z;
  mem_brk : Z;
  mem_max_addr : Z;
  heap_listp : Z;
  free_listp : Z
}.

Definition set_mem (s : heap) (m : Z -> Z) : heap :=
  mkHeap m (mem_start_brk s) (mem_brk s) (mem_max_addr s)
         (heap_listp s) (free_listp s).

Definition set_mem_brk (s : heap) (b : Z) : heap :=
  mkHeap (mem s) (mem_start_brk s) b (mem_max_addr s)
         (heap_listp s) (free_listp s).

Definition set_heap_listp (s : heap) (p : Z) : heap :=
  mkHeap (mem s) (mem_start_brk s) (mem_brk s) (mem_max_addr s)
         p (free_listp s).

Definition set_free_listp (s : heap) (p : Z) : heap :=
  mkHeap (mem s) (mem_start_brk s) (mem_brk s) (mem_max_addr s)
         (heap_listp s) p.

(** Output lines of the consistency checker, one constructor per [printf]
    of [checkblock], [checkheap] and [printblock]; the argument is the
    pointer that the line prints. *)
Inductive diag : Set :=
| HeapLine (p : Z)
| BadPrologueHeader
| NotAligned (p : Z)
| HeaderFooterMismatch (p : Z)
| NextOutOfBounds (p : Z)
| PrevOutOfBounds (p : Z)
| AllocatedInFreeList (p : Z)
| EscapedCoalescing (p : Z)
| PrevNotFree (p : Z)
| NextNotFree (p : Z)
| ProloguePrevNotFree (p : Z)
| NotInFreeList (p : Z)
| BadEpilogueHeader
| EndOfHeap (p : Z)
| BlockLine (p : Z).

Section Model.
Context {abi : arch}.

(** ** Constants and macros *)

Definition WSIZE : Z := match abi with ILP32 => 4 | LP64 => 8 end.
Definition DSIZE : Z := 2 * WSIZE.
Definition CHUNKSIZE : Z := Z.shiftl 1 12.

Definition word_modulus : Z := 2 ^ (8 * WSIZE).

(** Arithmetic on [size_t] wraps around. *)
Definition wrap (x : Z) : Z := x mod word_modulus.

Definition NULL : Z := 0.

(** [(void * )-1], what the heap primitive returns on failure. *)
Definition MINUS1 : Z := wrap (-1).

(** The conversion [(int)size] of [mm_realloc]: the low 32 bits read as a
    two's complement number (what gcc and clang do for a value that [int]
    cannot hold). *)
Definition to_int (x : Z) : Z :=
  let r := x mod 2 ^ 32 in
  if r <? 2 ^ 31 then r else r - 2 ^ 32.

Definition MAX (x y : Z) : Z := if x >? y then x else y.

Definition PACK (size alloc : Z) : Z := Z.lor size alloc.

(** A read yields a word, whatever integer the cell holds. *)
Definition GET (s : heap) (p : Z) : Z := wrap (mem s p).

Definition PUT (s : heap) (p val : Z) : heap :=
  set_mem s (fun q => if q =? p then val else mem s q).

Definition GET_SIZE (s : heap) (p : Z) : Z :=
  Z.land (GET s p) (wrap (Z.lnot (DSIZE - 1))).

Definition GET_ALLOC (s : heap) (p : Z) : Z := Z.land (GET s p) 1.

Definition HDRP (bp : Z) : Z := bp - WSIZE.

Definition FTRP (s : heap) (bp : Z) : Z :=
  bp + GET_SIZE s (HDRP bp) - DSIZE.

Definition NEXT_BLKP (s : heap) (bp : Z) : Z :=
  bp + GET_SIZE s (bp - WSIZE).

Definition PREV_BLKP (s : heap) (bp : Z) : Z :=
  bp - GET_SIZE s (bp - DSIZE).

Definition GET_NEXT_PTR (s : heap) (bp : Z) : Z := GET s (bp + WSIZE).
Definition GET_PREV_PTR (s : heap) (bp : Z) : Z := GET s bp.

Definition SET_NEXT_PTR (s : heap) (bp qp : Z) : heap := PUT s (bp + WSIZE) qp.
Definition SET_PREV_PTR (s : heap) (bp qp : Z) : heap := PUT s bp qp.

(** ** The heap primitive *)

(** Modelled from the spec: [mem_sbrk], [mem_heap_lo] and [mem_heap_hi]
    are declared in memlib.h and defined in memlib.c, which is not among
    the sources.  The spec gives "extend(n_bytes) -> address | error,
    contiguous with prior extensions" and two queries for the current
    bounds; a request that would pass [mem_max_addr] is refused and
    leaves the heap as it was. *)
Definition mem_sbrk (s : heap) (incr : Z) : Z * heap :=
  if (incr <? 0) || (mem_max_addr s <? mem_brk s + incr)
  then (MINUS1, s)
  else (mem_brk s, set_mem_brk s (mem_brk s + incr)).

Definition mem_heap_lo (s : heap) : Z := mem_start_brk s.
Definition mem_heap_hi (s : heap) : Z := mem_brk s - 1.

(** [memcpy] on the flat store.  [mm_realloc] only copies a block size,
    which is a multiple of the word size, between word addresses. *)
Fixpoint memcpy_words (n : nat) (s : heap) (dst src : Z) : heap :=
  match n with
  | O => s
  | S k => memcpy_words k (PUT s dst (GET s src)) (dst + WSIZE) (src + WSIZE)
  end.

Definition memcpy (s : heap) (dst src n : Z) : heap :=
  memcpy_words (Z.to_nat (n / WSIZE)) s dst src.

(** ** Free-list primitives *)

(** [insert_in_free_list] (mm.c 419-426): LIFO insertion; the three
    stores and the new head, in the order of the source. *)
Definition insert_in_free_list (s : heap) (bp : Z) : heap :=
  let s1 := SET_NEXT_PTR s bp (free_listp s) in
  let s2 := SET_PREV_PTR s1 (free_listp s1) bp in
  let s3 := SET_PREV_PTR s2 bp NULL in
  set_free_listp s3 bp.

(** [remove_from_free_list] (mm.c 435-443): the links are read again
    after the first store, as the macros do. *)
Definition remove_from_free_list (s : heap) (bp : Z) : heap :=
  let s1 :=
    if negb (GET_PREV_PTR s bp =? NULL)
    then SET_NEXT_PTR s (GET_PREV_PTR s bp) (GET_NEXT_PTR s bp)
    else set_free_listp s (GET_NEXT_PTR s bp) in
  SET_PREV_PTR s1 (GET_NEXT_PTR s1 bp) (GET_PREV_PTR s1 bp).

(** ** Coalescing, heap extension, search and placement *)

(** [coalesce] (mm.c 282-325).  The two flags are C [bool]s, and [size]
    is a [size_t].  The chain of four tests of the source is exhaustive;
    the last [else] stands for falling through to the insertion. *)
Definition coalesce (s : heap) (bp : Z) : Z * heap :=
  let NEXT_ALLOC := negb (GET_ALLOC s (HDRP (NEXT_BLKP s bp)) =? 0) in
  let PREV_ALLOC := negb (GET_ALLOC s (FTRP s (PREV_BLKP s bp)) =? 0) in
  let size := GET_SIZE s (HDRP bp) in
  if PREV_ALLOC && NEXT_ALLOC then
    (bp, insert_in_free_list s bp)
  else if PREV_ALLOC && negb NEXT_ALLOC then
    let size := wrap (size + GET_SIZE s (HDRP (NEXT_BLKP s bp))) in
    let s1 := remove_from_free_list s (NEXT_BLKP s bp) in
    let s2 := PUT s1 (HDRP bp) (PACK size 0) in
    let s3 := PUT s2 (FTRP s2 bp) (PACK size 0) in
    (bp, insert_in_free_list s3 bp)
  else if negb PREV_ALLOC && NEXT_ALLOC then
    let size := wrap (size + GET_SIZE s (HDRP (PREV_BLKP s bp))) in
    let bp := PREV_BLKP s bp in
    let s1 := remove_from_free_list s bp in
    let s2 := PUT s1 (HDRP bp) (PACK size 0) in
    let s3 := PUT s2 (FTRP s2 bp) (PACK size 0) in
    (bp, insert_in_free_list s3 bp)
  else if negb PREV_ALLOC && negb NEXT_ALLOC then
    let size := wrap (size + wrap (GET_SIZE s (HDRP (PREV_BLKP s bp))
                                   + GET_SIZE s (HDRP (NEXT_BLKP s bp)))) in
    let s1 := remove_from_free_list s (PREV_BLKP s bp) in
    let s2 := remove_from_free_list s1 (NEXT_BLKP s1 bp) in
    let bp := PREV_BLKP s2 bp in
    let s3 := PUT s2 (HDRP bp) (PACK size 0) in
    let s4 := PUT s3 (FTRP s3 bp) (PACK size 0) in
    (bp, insert_in_free_list s4 bp)
  else
    (bp, insert_in_free_list s bp).

(** [extend_heap] (mm.c 334-353); null when the heap primitive
    refuses. *)
Definition extend_heap (s : heap) (words : Z) : Z * heap :=
  let size :=
    if negb (words mod 2 =? 0)
    then wrap ((words + 1) * WSIZE)
    else wrap (words * WSIZE) in
  let (bp, s1) := mem_sbrk s size in
  if bp =? MINUS1 then (NULL, s1)
  else
    let s2 := PUT s1 (HDRP bp) (PACK size 0) in
    let s3 := PUT s2 (FTRP s2 bp) (PACK size 0) in
    let s4 := PUT s3 (HDRP (NEXT_BLKP s3 bp)) (PACK 0 1) in
    coalesce s4 bp.

(** The loop of [find_fit].  Nothing in the code bounds the walk, so the
    model takes fuel: [None] means the fuel ran out, [Some NULL] is the
    "no fit" result of the source. *)
Fixpoint find_fit_from (fuel : nat) (s : heap) (asize bp : Z) : option Z :=
  match fuel with
  | O => None
  | S fuel' =>
      if GET_ALLOC s (HDRP bp) =? 0 then
        if asize <=? GET_SIZE s (HDRP bp) then Some bp
        else find_fit_from fuel' s asize (GET_NEXT_PTR s bp)
      else Some NULL
  end.

Definition find_fit (fuel : nat) (s : heap) (asize : Z) : option Z :=
  find_fit_from fuel s asize (free_listp s).

(** [place] (mm.c 387-408); [csize - asize] is a [size_t]
    difference. *)
Definition place (s : heap) (bp asize : Z) : heap :=
  let csize := GET_SIZE s (HDRP bp) in
  if 4 * WSIZE <=? wrap (csize - asize) then
    let s1 := PUT s (HDRP bp) (PACK asize 1) in
    let s2 := PUT s1 (FTRP s1 bp) (PACK asize 1) in
    let s3 := remove_from_free_list s2 bp in
    let bp := NEXT_BLKP s3 bp in
    let s4 := PUT s3 (HDRP bp) (PACK (wrap (csize - asize)) 0) in
    let s5 := PUT s4 (FTRP s4 bp) (PACK (wrap (csize - asize)) 0) in
    snd (coalesce s5 bp)
  else
    let s1 := PUT s (HDRP bp) (PACK csize 1) in
    let s2 := PUT s1 (FTRP s1 bp) (PACK csize 1) in
    remove_from_free_list s2 bp.

(** ** The allocator interface *)

(** The size adjustment that [mm_malloc] and [mm_realloc] both spell out:
    [if (size <= DSIZE) asize = 2 * DSIZE;
     else asize = DSIZE * ((size + DSIZE + (DSIZE - 1)) / DSIZE);] *)
Definition adjust_size (size : Z) : Z :=
  if size <=? DSIZE then 2 * DSIZE
  else wrap (DSIZE * (wrap (size + DSIZE + (DSIZE - 1)) / DSIZE)).

(** [mm_init] (mm.c 113-132); the result is 0 or -1. *)
Definition mm_init (s : heap) : Z * heap :=
  let (p, s0) := mem_sbrk s (6 * WSIZE) in
  let s0 := set_heap_listp s0 p in
  if heap_listp s0 =? MINUS1 then (-1, s0)
  else
    let s1 := PUT s0 (heap_listp s0) 0 in
    let s2 := PUT s1 (heap_listp s1 + 1 * WSIZE) (PACK (2 * DSIZE) 1) in
    let s3 := PUT s2 (heap_listp s2 + 2 * WSIZE) 0 in
    let s4 := PUT s3 (heap_listp s3 + 3 * WSIZE) 0 in
    let s5 := PUT s4 (heap_listp s4 + 4 * WSIZE) (PACK (2 * DSIZE) 1) in
    let s6 := PUT s5 (heap_listp s5 + 5 * WSIZE) (PACK 0 1) in
    let s7 := set_heap_listp s6 (heap_listp s6 + 2 * WSIZE) in
    let s8 := set_free_listp s7 (heap_listp s7) in
    let (bp, s9) := extend_heap s8 (CHUNKSIZE / WSIZE) in
    if bp =? NULL then (-1, s9) else (0, s9).

(** [mm_malloc] (mm.c 143-172); the fuel is that of [find_fit]. *)
Definition mm_malloc (fuel : nat) (s : heap) (size : Z) : option (Z * heap) :=
  if size <=? 0 then Some (NULL, s)
  else
    let asize := adjust_size size in
    match find_fit fuel s asize with
    | None => None
    | Some bp =>
        if negb (bp =? NULL) then Some (bp, place s bp asize)
        else
          let extendsize := MAX asize CHUNKSIZE in
          let (bp, s1) := extend_heap s (extendsize / WSIZE) in
          if bp =? NULL then Some (NULL, s1)
          else Some (bp, place s1 bp asize)
    end.

(** [mm_free] (mm.c 181-195). *)
Definition mm_free (s : heap) (bp : Z) : heap :=
  if bp =? NULL then s
  else
    let size := GET_SIZE s (HDRP bp) in
    let s1 := PUT s (HDRP bp) (PACK size 0) in
    let s2 := PUT s1 (FTRP s1 bp) (PACK size 0) in
    snd (coalesce s2 bp).

(** [mm_realloc] (mm.c 210-266).  The first two tests are on
    [(int)size], the third on [size]; the result of the inner
    [mm_malloc] goes to [memcpy] and to the caller as it is. *)
Definition mm_realloc (fuel : nat) (s : heap) (bp size : Z)
  : option (Z * heap) :=
  if to_int size <? 0 then Some (NULL, s)
  else if to_int size =? 0 then Some (NULL, mm_free s bp)
  else if 0 <? size then
    if bp =? NULL then mm_malloc fuel s size
    else
      let oldsize := GET_SIZE s (HDRP bp) in
      let asize := adjust_size size in
      if asize <=? oldsize then Some (bp, s)
      else
        let next_alloc := GET_ALLOC s (HDRP (NEXT_BLKP s bp)) in
        let csize := wrap (oldsize + GET_SIZE s (HDRP (NEXT_BLKP s bp))) in
        if (next_alloc =? 0) && (asize <=? csize) then
          let s1 := remove_from_free_list s (NEXT_BLKP s bp) in
          let s2 := PUT s1 (HDRP bp) (PACK csize 1) in
          let s3 := PUT s2 (FTRP s2 bp) (PACK csize 1) in
          Some (bp, s3)
        else
          match mm_malloc fuel s size with
          | None => None
          | Some (new_ptr, s1) =>
              let s2 := memcpy s1 new_ptr bp oldsize in
              let s3 := mm_free s2 bp in
              Some (new_ptr, s3)
          end
  else Some (NULL, s).

(** ** The consistency checker *)

(** [checkblock] (mm.c 456-471).  Without braces, the test of
    [prev_link] is not under the test [GET_ALLOC(bp) == 0]. *)
Definition checkblock (s : heap) (bp : Z) : list diag :=
  (if negb (bp mod DSIZE =? 0) then [NotAligned bp] else []) ++
  (if negb (GET s (HDRP bp) =? GET s (FTRP s bp))
   then [HeaderFooterMismatch bp] else []) ++
  (if GET_ALLOC s bp =? 0 then
     if (GET_NEXT_PTR s bp <? mem_heap_lo s)
        || (mem_heap_hi s <? GET_NEXT_PTR s bp)
     then [NextOutOfBounds (GET_NEXT_PTR s bp)] else []
   else []) ++
  (if negb (GET_PREV_PTR s bp =? NULL) then
     if (GET_PREV_PTR s bp <? mem_heap_lo s)
        || (mem_heap_hi s <? GET_PREV_PTR s bp)
     then [PrevOutOfBounds (GET_PREV_PTR s bp)] else []
   else []).

(** The body of the first loop of [checkheap] (the free-list pass), for
    the list entry [bp]. *)
Definition check_free_entry (s : heap) (bp : Z) : list diag :=
  (if negb (GET_ALLOC s (HDRP bp) =? 0)
   then [AllocatedInFreeList bp] else []) ++
  (if negb (GET_ALLOC s (PREV_BLKP s bp) =? 1)
      || negb (GET_ALLOC s (NEXT_BLKP s bp) =? 1)
   then [EscapedCoalescing bp] else []) ++
  (if negb (bp =? free_listp s) then
     if negb (GET_ALLOC s (GET_PREV_PTR s (HDRP bp)) =? 0)
     then [PrevNotFree bp] else []
   else []) ++
  (if negb (GET_ALLOC s (GET_NEXT_PTR s (HDRP bp)) =? 0)
   then [NextNotFree bp] else []).

(** [for (bp = free_listp; bp != heap_listp; bp = GET_NEXT_PTR(bp))] *)
Fixpoint check_free_list (fuel : nat) (s : heap) (bp : Z)
  : option (list diag) :=
  match fuel with
  | O => None
  | S fuel' =>
      if bp =? heap_listp s then Some []
      else
        match check_free_list fuel' s (GET_NEXT_PTR s bp) with
        | None => None
        | Some rest => Some (check_free_entry s bp ++ rest)
        end
  end.

(** The inner loop of the second pass: is [bp] met on the free list?
    ([flag] of the source.) *)
Fixpoint in_free_list (fuel : nat) (s : heap) (bp2 bp : Z) : option bool :=
  match fuel with
  | O => None
  | S fuel' =>
      if bp2 =? heap_listp s then Some false
      else if bp2 =? bp then Some true
      else in_free_list fuel' s (GET_NEXT_PTR s bp2) bp
  end.

(** The second loop of [checkheap], over the blocks in address order;
    [printblock] is passed in because it calls back into [checkheap].
    The result carries the block at which the loop stopped. *)
Fixpoint check_heap_blocks (fuel : nat) (printblock : Z -> option (list diag))
    (s : heap) (verbose : bool) (bp : Z) : option (list diag * Z) :=
  match fuel with
  | O => None
  | S fuel' =>
      if 0 <? GET_SIZE s (HDRP bp) then
        match (if verbose then printblock bp else Some []) with
        | None => None
        | Some o1 =>
            match (if GET_ALLOC s (HDRP bp) =? 0
                   then in_free_list fuel s (free_listp s) bp
                   else Some true) with
            | None => None
            | Some flag =>
                match check_heap_blocks fuel' printblock s verbose
                        (NEXT_BLKP s bp) with
                | None => None
                | Some (rest, stop) =>
                    Some (o1 ++ checkblock s bp
                             ++ (if flag then [] else [NotInFreeList bp])
                             ++ rest, stop)
                end
            end
        end
      else Some ([], bp)
  end.

(** [checkheap] and [printblock] call each other: [checkheap] prints the
    prologue with [printblock], whose first statement is
    [checkheap(false)].  One unit of fuel is spent per call of
    [checkheap]. *)
Fixpoint checkheap (fuel : nat) (verbose : bool) (s : heap)
  : option (list diag) :=
  match fuel with
  | O => None
  | S fuel' =>
      let printblock (bp : Z) : option (list diag) :=
        match checkheap fuel' false s with
        | None => None
        | Some o =>
            Some (o ++ (if GET_SIZE s (HDRP bp) =? 0
                        then [EndOfHeap bp] else [BlockLine bp]))
        end in
      let o0 := if verbose then [HeapLine (heap_listp s)] else [] in
      let o1 :=
        if negb (GET_SIZE s (HDRP (heap_listp s)) =? 2 * DSIZE)
           || (GET_ALLOC s (HDRP (heap_listp s)) =? 0)
        then [BadPrologueHeader] else [] in
      let o2 := checkblock s (heap_listp s) in
      match printblock (heap_listp s) with
      | None => None
      | Some o3 =>
          match check_free_list fuel s (free_listp s) with
          | None => None
          | Some o4 =>
              let o5 :=
                if negb (heap_listp s =? free_listp s)
                   && negb (GET_ALLOC s (GET_PREV_PTR s (HDRP (heap_listp s)))
                            =? 0)
                then [ProloguePrevNotFree (heap_listp s)] else [] in
              match check_heap_blocks fuel printblock s verbose
                      (NEXT_BLKP s (heap_listp s)) with
              | None => None
              | Some (o6, bp) =>
                  match (if verbose then printblock bp else Some []) with
                  | None => None
                  | Some o7 =>
                      let o8 :=
                        if negb (GET_SIZE s (HDRP bp) =? 0)
                           || (GET_ALLOC s (HDRP bp) =? 0)
                        then [BadEpilogueHeader] else [] in
                      Some (o0 ++ o1 ++ o2 ++ o3 ++ o4 ++ o5 ++ o6
                               ++ o7 ++ o8)
                  end
              end
          end
      end
  end.

(** ** Walks used to state properties *)

(** The [n]-th block reached from [bp] by following [next_link]. *)
Fixpoint link_nth (s : heap) (bp : Z) (n : nat) : Z :=
  match n with
  | O => bp
  | S k => link_nth s (GET_NEXT_PTR s bp) k
  end.

Definition free_list_nth (s : heap) (n : nat) : Z :=
  link_nth s (free_listp s) n.

(** The free list as the checker walks it: from [bp] along [next_link]
    until the prologue, at most [fuel] entries. *)
Fixpoint free_walk (fuel : nat) (s : heap) (bp : Z) : list Z :=
  match fuel with
  | O => []
  | S fuel' =>
      if bp =? heap_listp s then []
      else bp :: free_walk fuel' s (GET_NEXT_PTR s bp)
  end.

(** The blocks as the checker walks them: from [bp] in address order
    until a header of size zero, at most [fuel] blocks. *)
Fixpoint heap_walk (fuel : nat) (s : heap) (bp : Z) : list Z :=
  match fuel with
  | O => []
  | S fuel' =>
      if 0 <? GET_SIZE s (HDRP bp)
      then bp :: heap_walk fuel' s (NEXT_BLKP s bp)
      else []
  end.

Fixpoint occurrences (x : Z) (l : list Z) : nat :=
  match l with
  | [] => O
  | y :: l' => if y =? x then S (occurrences x l') else occurrences x l'
  end.

(** Invariant I4 on the two walks: a block after the prologue is free
    exactly when the free list holds it once. *)
Definition free_iff_listed_once (fuel : nat) (s : heap) : bool :=
  forallb
    (fun b => Bool.eqb (GET_ALLOC s (HDRP b) =? 0)
                       (Nat.eqb (occurrences b
                                   (free_walk fuel s (free_listp s))) 1))
    (heap_walk fuel s (NEXT_BLKP s (heap_listp s))).

(** ** A well-formed heap *)

(** What a size field can hold: a multiple of [DSIZE] that fits a word. *)
Definition is_size (x : Z) : Prop :=
  0 <= x < word_modulus /\ x mod DSIZE = 0.

(** The word address [x] is not one of the words of block [b] (header,
    payload and footer). *)
Definition outside_block (s : heap) (b x : Z) : Prop :=
  x < HDRP b \/ HDRP (NEXT_BLKP s b) <= x.

(** [chain s b bs e]: starting at block [b], the blocks [bs] follow each
    other in address order, each of at least the minimum size and with a
    footer equal to its header, up to the epilogue header before [e]. *)
Inductive chain (s : heap) : Z -> list Z -> Z -> Prop :=
| chain_end (e : Z) :
    GET s (HDRP e) = PACK 0 1 -> chain s e [] e
| chain_block (b : Z) (bs : list Z) (e : Z) :
    2 * DSIZE <= GET_SIZE s (HDRP b) ->
    GET s (FTRP s b) = GET s (HDRP b) ->
    chain s (NEXT_BLKP s b) bs e ->
    chain s b (b :: bs) e.

(** [x] is one of the two link words of a block of [bs]. *)
Definition link_word (bs : list Z) (x : Z) : Prop :=
  exists c, In c bs /\ (x = c \/ x = c + WSIZE).


(** Every word in which [s'] differs from [s] satisfies [A]. *)
Definition changed_only (A : Z -> Prop) (s s' : heap) : Prop :=
  forall x, mem s' x <> mem s x -> A x.


(** Where [mm_free] may write when it merges the blocks from [lo] up to
    (not including) [hi]: the words of the merged block, from its header
    to the word before the header of [hi], and link words of the blocks
    [fl]. *)
Definition frame_of_free (fl : list Z) (lo hi x : Z) : Prop :=
  HDRP lo <= x < HDRP hi \/ link_word fl x.

(** Different blocks are at least a minimum block apart. *)
Definition spaced (bs : list Z) : Prop :=
  forall c d, In c bs -> In d bs -> c <> d ->
    c + 2 * DSIZE <= d \/ d + 2 * DSIZE <= c.


(** ** The heap invariant *)

(** Following [next_link] from [p] one meets the blocks [l] in turn and
    arrives at [t]. *)
Fixpoint next_links (s : heap) (p : Z) (l : list Z) (t : Z) : Prop :=
  match l with
  | [] => p = t
  | b :: l' => p = b /\ next_links s (GET_NEXT_PTR s b) l' t
  end.

(** The [prev_link] of each block of [l] names the block before it in
    [l], that of the first one names [p]. *)
Fixpoint prev_links (s : heap) (p : Z) (l : list Z) : Prop :=
  match l with
  | [] => True
  | b :: l' => GET_PREV_PTR s b = p /\ prev_links s b l'
  end.

(** [fl] is the free list of [s]: linked forward from [free_listp] to
    the prologue, which ends it, and backward from the prologue to the
    null [prev_link] of the first entry. *)
Definition linked (s : heap) (fl : list Z) : Prop :=
  next_links s (free_listp s) fl (heap_listp s)
  /\ prev_links s NULL (fl ++ [heap_listp s]).

(** The blocks that [filter] keeps when the blocks from [lo] up to (not
    including) [hi] become the one block [lo]. *)
Definition merged (lo hi : Z) (bs : list Z) : list Z :=
  filter (fun d => (d <=? lo) || (hi <=? d)) bs.

(** The list [fl] without the blocks from [lo] up to [hi]. *)
Definition unlisted (lo hi : Z) (fl : list Z) : list Z :=
  filter (fun d => (d <? lo) || (hi <=? d)) fl.

(** The blocks [bs] with [r] put in after [b]. *)
Definition split_at (b r : Z) (bs : list Z) : list Z :=
  flat_map (fun d => if d =? b then [b; r] else [d]) bs.

(** [x] is a word of the block [c], from its header to its footer. *)
Definition block_word (s : heap) (c x : Z) : Prop :=
  HDRP c <= x < HDRP (NEXT_BLKP s c).

(** [x] is a word of one of the blocks [fl], or a link word of the
    prologue. *)
Definition free_word (s : heap) (fl : list Z) (x : Z) : Prop :=
  (exists c, In c fl /\ block_word s c x)
  \/ x = heap_listp s \/ x = heap_listp s + WSIZE.

(** From [s] to [s'] no word of an allocated block of [bs], other than
    the blocks [except], has changed: header, payload and footer read as
    before. *)
Definition keeps_allocated (s s' : heap) (bs except : list Z) : Prop :=
  forall d, In d bs -> ~ In d except -> GET_ALLOC s (HDRP d) = 1 ->
    forall x, block_word s d x -> mem s' x = mem s x.

(** The shape of the heap between two calls of the interface, without
    the agreement of allocation bits and free list: the blocks [bs],
    prologue first, tile the heap from [heap_listp] to the break, inside
    the address space; the prologue is allocated; [fl] is the free list
    in list order, without repetition, made of blocks other than the
    prologue, linked forward from [free_listp] to the prologue and
    backward from the prologue to a null [prev_link]. *)
Record heap_shape (s : heap) (bs fl : list Z) : Prop := {
  sh_chain : chain s (heap_listp s) bs (mem_brk s);
  sh_prologue_in : In (heap_listp s) bs;
  sh_low : DSIZE <= heap_listp s;
  sh_brk : mem_brk s <= mem_max_addr s;
  sh_max : mem_max_addr s <= word_modulus;
  sh_prologue : GET_ALLOC s (HDRP (heap_listp s)) = 1;
  sh_linked : linked s fl;
  sh_nodup : NoDup (fl ++ [heap_listp s]);
  sh_sub : forall b, In b fl -> In b bs
}.

(** What follows a free block is marked allocated: no two free blocks
    are adjacent. *)
Definition coalesced (s : heap) (bs : list Z) : Prop :=
  forall b, In b bs -> GET_ALLOC s (HDRP b) = 0 ->
    GET_ALLOC s (HDRP (NEXT_BLKP s b)) = 1.

(** The invariant: the heap has its shape, a block is on the free list
    exactly when its header says free, and no two free blocks are
    adjacent. *)
Definition heap_inv (s : heap) (bs fl : list Z) : Prop :=
  heap_shape s bs fl
  /\ (forall b, In b bs -> (GET_ALLOC s (HDRP b) = 0 <-> In b fl))
  /\ coalesced s bs.

(** ** The frame of the heap *)

(** The heap that [mm_init] builds before it asks for the first chunk:
    padding, prologue and epilogue, and an empty free list. *)
Definition init_frame (s : heap) : heap :=
  let s0 := set_heap_listp (set_mem_brk s (mem_brk s + 6 * WSIZE)) (mem_brk s) in
  let s1 := PUT s0 (heap_listp s0) 0 in
  let s2 := PUT s1 (heap_listp s1 + 1 * WSIZE) (PACK (2 * DSIZE) 1) in
  let s3 := PUT s2 (heap_listp s2 + 2 * WSIZE) 0 in
  let s4 := PUT s3 (heap_listp s3 + 3 * WSIZE) 0 in
  let s5 := PUT s4 (heap_listp s4 + 4 * WSIZE) (PACK (2 * DSIZE) 1) in
  let s6 := PUT s5 (heap_listp s5 + 5 * WSIZE) (PACK 0 1) in
  let s7 := set_heap_listp s6 (heap_listp s6 + 2 * WSIZE) in
  set_free_listp s7 (heap_listp s7).

(** ** Runs of the interface *)

(** [served s live]: the heap [s] is reached from a heap primitive with
    an aligned break by a successful [mm_init] followed by calls that
    respect the contract of the interface, and [live] are the blocks the
    caller holds: those that [mm_malloc] and [mm_realloc] have returned
    and that were not passed to [mm_free] or [mm_realloc] since.  Sizes
    are such that the size adjustment does not wrap around; [mm_free]
    and [mm_realloc] are called on held blocks only; [mm_realloc] with
    a size that is zero as the [int] the code tests gives the block up,
    and a call of [mm_realloc] with a positive size that returns NULL
    ends the run. *)
Inductive served : heap -> list Z -> Prop :=
| served_init (s : heap) :
    0 <= mem_brk s -> mem_max_addr s <= word_modulus ->
    mem_brk s mod DSIZE = 0 ->
    fst (mm_init s) = 0 ->
    served (snd (mm_init s)) []
| served_malloc (s : heap) (live : list Z) (size : Z) (fuel : nat)
    (p : Z) (s' : heap) :
    served s live ->
    0 < size -> size + DSIZE + (DSIZE - 1) < word_modulus ->
    mm_malloc fuel s size = Some (p, s') ->
    served s' (if p =? NULL then live else p :: live)
| served_free (s : heap) (live : list Z) (p : Z) :
    served s live -> In p live ->
    served (mm_free s p) (filter (fun d => negb (d =? p)) live)
| served_realloc (s : heap) (live : list Z) (p size : Z) (fuel : nat)
    (p' : Z) (s' : heap) :
    served s live -> In p live ->
    0 <= size < word_modulus -> 0 < to_int size ->
    mm_realloc fuel s p size = Some (p', s') -> p' <> NULL ->
    served s' (p' :: filter (fun d => negb (d =? p)) live)
| served_realloc_zero (s : heap) (live : list Z) (p size : Z) (fuel : nat)
    (p' : Z) (s' : heap) :
    served s live -> In p live -> to_int size = 0 ->
    mm_realloc fuel s p size = Some (p', s') ->
    served s' (filter (fun d => negb (d =? p)) live).

End Model.

(** ** Concrete heaps *)

(** A heap primitive that has handed out nothing yet. *)
Definition fresh (start max : Z) : heap :=
  mkHeap (fun _ => 0) start start max 0 0.

Definition heap_of (r : option (Z * heap)) (dflt : heap) : heap :=
  match r with Some (_, s) => s | None => dflt end.

(** The scenarios below run on the 64-bit data model ([W = 8],
    [D = 16]), with the heap primitive starting at address 65536. *)

Definition malloc64 (s : heap) (size : Z) : Z * heap :=
  match mm_malloc (abi := LP64) 64 s size with
  | Some r => r
  | None => (0, s)
  end.

(** After [mm_init]: prologue at 65552, one free block of 4096 bytes at
    65584, epilogue header at 69672. *)
Definition lp64_init : heap :=
  snd (mm_init (abi := LP64) (fresh 65536 (65536 + 1048576))).

(** Two, then four, blocks of 32 bytes at 65584, 65616, 65648 and 65680,
    each from [mm_malloc(16)]; the rest of the chunk is free. *)
Definition lp64_two : heap :=
  snd (malloc64 (snd (malloc64 lp64_init 16)) 16).

Definition lp64_four : heap :=
  snd (malloc64 (snd (malloc64 lp64_two 16)) 16).

(** The first and the third of the four blocks freed again: the block at
    65616 is allocated between two free neighbours. *)
Definition lp64_holes : heap :=
  mm_free (abi := LP64) (mm_free (abi := LP64) lp64_four 65584) 65648.

(** [lp64_holes] at the moment [mm_free] hands 65616 to [coalesce]: its
    header and footer say free. *)
Definition lp64_holes_marked : heap :=
  PUT (PUT lp64_holes 65608 (PACK 32 0)) 65632 (PACK 32 0).

(** A heap primitive that refuses everything after the first chunk, and
    on it one block from [mm_malloc(16)] at 65584. *)
Definition lp64_tight : heap :=
  snd (malloc64
         (snd (mm_init (abi := LP64) (fresh 65536 (65536 + 48 + 4096)))) 16).

(** The heap after [mm_init] and [mm_malloc(SIZE_MAX)]. *)
Definition lp64_after_huge : heap :=
  snd (malloc64 lp64_init (2 ^ 64 - 1)).

(** ** Tactics for concrete heaps *)

(** The chain of a concrete heap, block by block. *)
Ltac concrete_chain :=
  match goal with
  | |- chain ?s ?b ?l ?e =>
      let vb := eval vm_compute in b in
      let ve := eval vm_compute in e in
      replace b with vb by (vm_compute; reflexivity);
      replace e with ve by (vm_compute; reflexivity)
  end;
  repeat (apply chain_block;
          [ vm_compute; discriminate
          | vm_compute; reflexivity
          | match goal with
            | |- chain _ ?b _ _ =>
                let v := eval vm_compute in b in
                replace b with v by (vm_compute; reflexivity)
            end ]);
  apply chain_end; vm_compute; reflexivity.

(** Membership in a list of numerals. *)
Ltac concrete_in := vm_compute; repeat (first [left; reflexivity | right]).

(** The shape of a concrete heap. *)
Ltac concrete_shape :=
  constructor;
  [ concrete_chain
  | concrete_in
  | vm_compute; discriminate
  | vm_compute; discriminate
  | vm_compute; discriminate
  | vm_compute; reflexivity
  | vm_compute; repeat split
  | repeat (apply NoDup_cons; [vm_compute; lia|]); apply NoDup_nil
  | let b := fresh "b" in let Hb := fresh "Hb" in
    intros b Hb; vm_compute in Hb |- *; lia ].

(** A property of every block of a list of numerals, one block at a
    time. *)
Ltac each_block Hb tac :=
  simpl in Hb;
  repeat (destruct Hb as [<-|Hb]; [tac|]);
  destruct Hb.

(** Decides the comparisons of a goal and leaves the rest to [lia]. *)
Ltac compare_all :=
  repeat match goal with
         | |- context [?a <=? ?b] => destruct (Z.leb_spec a b)
         | |- context [?a <? ?b] => destruct (Z.ltb_spec a b)
         | |- context [?a =? ?b] => destruct (Z.eqb_spec a b)
         end;
  simpl; try reflexivity; try lia.

(** * Properties *)


Section Basics.
Context {abi : arch}.

Lemma WSIZE_cases : WSIZE = 4 \/ WSIZE = 8.
Proof. unfold WSIZE; destruct abi; auto. Qed.

Lemma word_modulus_cases :
  (WSIZE = 4 /\ DSIZE = 8 /\ word_modulus = 2 ^ 32) \/
  (WSIZE = 8 /\ DSIZE = 16 /\ word_modulus = 2 ^ 64).
Proof. unfold word_modulus, DSIZE, WSIZE; destruct abi; auto. Qed.

Lemma wrap_range x : 0 <= wrap x < word_modulus.
Proof.
  unfold wrap. apply Z.mod_pos_bound.
  destruct word_modulus_cases as [(_ & _ & ->)|(_ & _ & ->)]; lia.
Qed.

Lemma land_low_mask v k :
  0 <= k -> Z.land v (Z.lnot (Z.ones k)) = v - v mod 2 ^ k.
Proof.
  intros Hk. rewrite <- Z.ldiff_land, Z.ldiff_ones_r by assumption.
  rewrite Z.shiftl_mul_pow2, Z.shiftr_div_pow2 by assumption.
  pose proof (Z.div_mod v (2 ^ k)) as E.
  assert (2 ^ k <> 0) by (apply Z.pow_nonzero; lia).
  specialize (E H). lia.
Qed.

Lemma land_wrap_mask v m n :
  0 <= n -> 0 <= v < 2 ^ n -> Z.land v (m mod 2 ^ n) = Z.land v m.
Proof.
  intros Hn Hv. rewrite <- (Z.land_ones m n) by assumption.
  rewrite (Z.land_comm m), Z.land_assoc, Z.land_ones by assumption.
  rewrite Z.mod_small by assumption. reflexivity.
Qed.

Lemma GET_range s p : 0 <= GET s p < word_modulus.
Proof. apply wrap_range. Qed.

Lemma GET_SIZE_eq s p : GET_SIZE s p = GET s p - GET s p mod DSIZE.
Proof.
  unfold GET_SIZE. pose proof (GET_range s p) as R. unfold wrap.
  destruct word_modulus_cases as [(_ & D & M)|(_ & D & M)]; rewrite D, M in *.
  - rewrite land_wrap_mask by lia. change (8 - 1) with (Z.ones 3).
    rewrite land_low_mask by lia. reflexivity.
  - rewrite land_wrap_mask by lia. change (16 - 1) with (Z.ones 4).
    rewrite land_low_mask by lia. reflexivity.
Qed.

Lemma GET_ALLOC_eq s p : GET_ALLOC s p = GET s p mod 2.
Proof. unfold GET_ALLOC. change 1 with (Z.ones 1). rewrite Z.land_ones by lia. reflexivity. Qed.

Lemma DSIZE_divides_modulus : word_modulus mod DSIZE = 0.
Proof.
  destruct word_modulus_cases as [(_ & -> & ->)|(_ & -> & ->)]; reflexivity.
Qed.

Lemma GET_SIZE_is_size s p : is_size (GET_SIZE s p).
Proof.
  rewrite GET_SIZE_eq. pose proof (GET_range s p) as R.
  assert (D : 0 < DSIZE)
    by (destruct word_modulus_cases as [(_ & -> & _)|(_ & -> & _)]; lia).
  pose proof (Z.mod_pos_bound (GET s p) DSIZE D) as B.
  pose proof (Z.mod_le (GET s p) DSIZE (proj1 R) D) as L.
  split; [lia|].
  rewrite Zminus_mod, Z.mod_mod, Z.sub_diag by lia. reflexivity.
Qed.

Lemma wrap_is_size x : x mod DSIZE = 0 -> is_size (wrap x).
Proof.
  intros H. split; [apply wrap_range|]. unfold wrap.
  pose proof DSIZE_divides_modulus as M.
  destruct word_modulus_cases as [(_ & D & W)|(_ & D & W)];
    rewrite D, W in *.
  - rewrite Z.mod_mod_divide; [assumption|]. exists (2 ^ 29). reflexivity.
  - rewrite Z.mod_mod_divide; [assumption|]. exists (2 ^ 60). reflexivity.
Qed.

Lemma is_size_add x y : is_size x -> is_size y -> (x + y) mod DSIZE = 0.
Proof.
  intros [_ Hx] [_ Hy]. rewrite Zplus_mod, Hx, Hy. reflexivity.
Qed.

Lemma is_size_even x : is_size x -> x mod 2 = 0.
Proof.
  intros [_ H].
  destruct word_modulus_cases as [(_ & D & _)|(_ & D & _)]; rewrite D in H.
  - rewrite <- (Z.mod_mod_divide x 8 2) by (exists 4; reflexivity).
    rewrite H. reflexivity.
  - rewrite <- (Z.mod_mod_divide x 16 2) by (exists 8; reflexivity).
    rewrite H. reflexivity.
Qed.

Lemma PACK_free x : PACK x 0 = x.
Proof. apply Z.lor_0_r. Qed.

Lemma PACK_alloc x : x mod 2 = 0 -> PACK x 1 = x + 1.
Proof.
  intros H. unfold PACK. pose proof (Z.add_lor_land x 1) as E.
  change 1 with (Z.ones 1) in E at 2. rewrite Z.land_ones in E by lia.
  change (2 ^ 1) with 2 in E. lia.
Qed.

Lemma GET_PUT s p v q :
  GET (PUT s p v) q = if q =? p then wrap v else GET s q.
Proof. unfold GET, PUT; simpl. destruct (q =? p); reflexivity. Qed.

Lemma GET_PUT_same s p v : GET (PUT s p v) p = wrap v.
Proof. rewrite GET_PUT, Z.eqb_refl. reflexivity. Qed.

Lemma GET_PUT_other s p v q : q <> p -> GET (PUT s p v) q = GET s q.
Proof. intros H. rewrite GET_PUT. apply Z.eqb_neq in H. rewrite H. reflexivity. Qed.

(** A cell holding [PACK x al] reads back as size [x] and bit [al]. *)
Lemma tag_fields s p x al :
  is_size x -> al = 0 \/ al = 1 -> GET s p = PACK x al ->
  GET_SIZE s p = x /\ GET_ALLOC s p = al.
Proof.
  intros Hx Hal E. pose proof (is_size_even x Hx) as Ev.
  destruct Hx as [R M]. rewrite GET_SIZE_eq, GET_ALLOC_eq, E.
  assert (D : DSIZE = 8 \/ DSIZE = 16)
    by (destruct word_modulus_cases as [(_ & -> & _)|(_ & -> & _)]; auto).
  destruct Hal as [->| ->].
  - rewrite PACK_free. split; lia.
  - rewrite PACK_alloc by assumption.
    destruct D as [D | D]; rewrite D in *;
      split; Z.to_euclidean_division_equations; lia.
Qed.

Lemma tag_after_PUT s p x al :
  is_size x -> al = 0 \/ al = 1 ->
  GET_SIZE (PUT s p (PACK x al)) p = x /\ GET_ALLOC (PUT s p (PACK x al)) p = al.
Proof.
  intros Hx Hal. apply tag_fields; try assumption.
  rewrite GET_PUT_same. unfold wrap. apply Z.mod_small.
  pose proof (is_size_even x Hx). destruct Hx as [R M].
  destruct Hal as [-> | ->].
  - rewrite PACK_free. lia.
  - rewrite PACK_alloc by assumption.
    assert (x <> word_modulus - 1).
    { intros ->. destruct word_modulus_cases as [(_ & _ & W)|(_ & _ & W)];
        rewrite W in *; discriminate. }
    lia.
Qed.

End Basics.

(** ** The adjusted size (mm_malloc, mm_realloc) *)

Section AdjustedSize.
Context {abi : arch}.

(** As long as [size + 2 * DSIZE - 1] still fits a word, the adjusted
    size is the rounded-up request: [2 * DSIZE] for small requests,
    [DSIZE * ceil((size + DSIZE) / DSIZE)] otherwise, hence a multiple of
    [DSIZE], at least [2 * DSIZE] and with room for [size] bytes between
    the two tags. *)
Lemma adjust_size_in_range (size : Z) :
  0 < size -> size + DSIZE + (DSIZE - 1) < word_modulus ->
  (size <= DSIZE -> adjust_size size = 2 * DSIZE) /\
  (DSIZE < size ->
     adjust_size size = DSIZE * ((size + DSIZE + (DSIZE - 1)) / DSIZE)) /\
  is_size (adjust_size size) /\
  2 * DSIZE <= adjust_size size /\
  size + DSIZE <= adjust_size size.
Proof.
  intros Hpos Hfit. unfold adjust_size, is_size, wrap.
  destruct word_modulus_cases as [(_ & D & W)|(_ & D & W)];
    rewrite D, W in *.
  - destruct (Z.leb_spec size 8) as [Hs|Hs].
    + repeat split; try lia; try reflexivity.
    + rewrite (Z.mod_small (size + 8 + (8 - 1))) by lia.
      rewrite (Z.mod_small (8 * _));
        repeat split; try lia; Z.to_euclidean_division_equations; lia.
  - destruct (Z.leb_spec size 16) as [Hs|Hs].
    + repeat split; try lia; try reflexivity.
    + rewrite (Z.mod_small (size + 16 + (16 - 1))) by lia.
      rewrite (Z.mod_small (16 * _));
        repeat split; try lia; Z.to_euclidean_division_equations; lia.
Qed.

End AdjustedSize.

(** C8.  The claim gives the adjusted size for every request [s > 0] as
    [2D] or [D * ceil((s + D) / D)], always a multiple of [D] and at least
    [2D].  The code computes [size + DSIZE + (DSIZE - 1)] in [size_t]: for
    the largest request the sum wraps around and the adjusted size is
    [DSIZE], one double word, below the minimum block size [2 * DSIZE] and
    far below the request, on both data models.  [mm_malloc] then hands
    out a block of that size: after [mm_init], the call with [SIZE_MAX]
    returns 65584 with 16 in the size field of its header. *)
Theorem adjust_size_wraps_around :
  adjust_size (abi := LP64) (2 ^ 64 - 1) = 16
  /\ adjust_size (abi := LP64) (2 ^ 64 - 1) < 2 * DSIZE (abi := LP64)
  /\ adjust_size (abi := ILP32) (2 ^ 32 - 1) = 8
  /\ adjust_size (abi := ILP32) (2 ^ 32 - 1) < 2 * DSIZE (abi := ILP32)
  /\ option_map fst (mm_malloc (abi := LP64) 64 lp64_init (2 ^ 64 - 1))
     = Some 65584
  /\ GET_SIZE (abi := LP64) lp64_after_huge (HDRP (abi := LP64) 65584) = 16.
Proof. vm_compute. repeat split; reflexivity. Qed.

(** ** Dispatch of mm_realloc on the requested size *)

Section ReallocDispatch.
Context {abi : arch}.

Lemma to_int_small (size : Z) : 0 <= size < 2 ^ 31 -> to_int size = size.
Proof.
  intros H. unfold to_int. rewrite Z.mod_small by lia.
  destruct (Z.ltb_spec size (2 ^ 31)); lia.
Qed.

(** What the three tests of [mm_realloc] do, in terms of the value that
    the code tests, [(int)size]. *)
Lemma mm_realloc_dispatch (fuel : nat) (s : heap) (bp size : Z) :
  0 <= size ->
  (to_int size < 0 -> mm_realloc fuel s bp size = Some (NULL, s)) /\
  (to_int size = 0 -> mm_realloc fuel s bp size = Some (NULL, mm_free s bp)) /\
  (0 < to_int size -> bp = NULL ->
     mm_realloc fuel s bp size = mm_malloc fuel s size).
Proof.
  intros Hs. unfold mm_realloc. repeat split; intros H.
  - apply Z.ltb_lt in H. rewrite H. reflexivity.
  - rewrite H. reflexivity.
  - intros ->. destruct (Z.ltb_spec (to_int size) 0); [lia|].
    destruct (Z.eqb_spec (to_int size) 0); [lia|].
    assert (size <> 0) by (intros ->; cbv in H; discriminate).
    destruct (Z.ltb_spec 0 size); [|lia]. reflexivity.
Qed.

(** A size that passes the two [(int)] tests of [mm_realloc] is far
    enough from the top of the word for the adjustment not to wrap. *)
Lemma realloc_size_fits (size : Z) :
  0 <= size < word_modulus -> 0 < to_int size ->
  size + DSIZE + (DSIZE - 1) < word_modulus.
Proof.
  unfold to_int. intros Hs Hi.
  destruct (Z.ltb_spec (size mod 2 ^ 32) (2 ^ 31)) as [Hlow|Hhigh].
  - destruct word_modulus_cases as [(_ & D & W)|(_ & D & W)];
      rewrite D, W in *; Z.to_euclidean_division_equations; lia.
  - pose proof (Z.mod_pos_bound size (2 ^ 32)). lia.
Qed.

End ReallocDispatch.

(** C3.  The claim: [realloc(p, s)] frees [p] and returns null exactly
    when [s = 0], and proceeds to the reallocation logic for every
    [s > 0].  The code tests [(int)size], not [size].  On the 64-bit data
    model the request [2 ^ 32] is not zero, yet its low 32 bits are, and
    [mm_realloc] frees the block and returns null; the request [2 ^ 31]
    is positive and is rejected with the heap untouched. *)
Theorem mm_realloc_tests_truncated_size (fuel : nat) (s : heap) (bp : Z) :
  mm_realloc (abi := LP64) fuel s bp (2 ^ 32)
    = Some (NULL, mm_free (abi := LP64) s bp)
  /\ mm_realloc (abi := LP64) fuel s bp (2 ^ 31) = Some (NULL, s).
Proof. split; reflexivity. Qed.

(** ** First fit *)

Section FirstFit.
Context {abi : arch}.

Lemma find_fit_from_skips (s : heap) (asize : Z) (n : nat) :
  forall (fuel : nat) (bp : Z),
  (n < fuel)%nat ->
  (forall i, (i < n)%nat ->
     GET_ALLOC s (HDRP (link_nth s bp i)) = 0
     /\ GET_SIZE s (HDRP (link_nth s bp i)) < asize) ->
  find_fit_from fuel s asize bp
    = find_fit_from (fuel - n) s asize (link_nth s bp n).
Proof.
  induction n as [|n IH]; intros fuel bp Hfuel Hskip.
  - rewrite Nat.sub_0_r. reflexivity.
  - destruct fuel as [|fuel]; [lia|]. simpl.
    destruct (Hskip O ltac:(lia)) as [Ha Hs]. simpl in Ha, Hs.
    rewrite Ha. simpl.
    destruct (Z.leb_spec asize (GET_SIZE s (HDRP bp))); [lia|].
    apply IH; [lia|]. intros i Hi. apply (Hskip (S i)). lia.
Qed.

(** C5.  [find_fit] walks [next_link] from [free_listp].  If the first
    [n] blocks of the walk are free and smaller than [asize], then the
    result is decided by block [n]: it is returned when it is free and of
    size at least [asize], and the result is null when its header says
    allocated (the prologue).  So the fitting block closest to the head
    wins.  Any fuel above [n] is enough. *)
Theorem find_fit_first_fit (s : heap) (asize : Z) (n fuel : nat) :
  (n < fuel)%nat ->
  (forall i, (i < n)%nat ->
     GET_ALLOC s (HDRP (free_list_nth s i)) = 0
     /\ GET_SIZE s (HDRP (free_list_nth s i)) < asize) ->
  (GET_ALLOC s (HDRP (free_list_nth s n)) = 0 ->
   asize <= GET_SIZE s (HDRP (free_list_nth s n)) ->
   find_fit fuel s asize = Some (free_list_nth s n))
  /\ (GET_ALLOC s (HDRP (free_list_nth s n)) <> 0 ->
      find_fit fuel s asize = Some NULL).
Proof.
  intros Hfuel Hskip. unfold find_fit, free_list_nth in *.
  rewrite (find_fit_from_skips s asize n fuel (free_listp s) Hfuel Hskip).
  destruct (fuel - n)%nat as [|k] eqn:E; [lia|]. simpl. split.
  - intros Ha Hs. rewrite Ha. simpl.
    destruct (Z.leb_spec asize
                (GET_SIZE s (HDRP (link_nth s (free_listp s) n)))); [|lia].
    reflexivity.
  - intros Ha. apply Z.eqb_neq in Ha. rewrite Ha. reflexivity.
Qed.

End FirstFit.

(** ** Growing in place (mm_realloc) *)

Section ReallocInPlace.
Context {abi : arch}.

Lemma FTRP_after_header (s : heap) (bp x al : Z) :
  is_size x -> al = 0 \/ al = 1 ->
  FTRP (PUT s (HDRP bp) (PACK x al)) bp = bp + x - DSIZE.
Proof.
  intros Hx Hal. unfold FTRP.
  destruct (tag_after_PUT s (HDRP bp) x al Hx Hal) as [-> _]. reflexivity.
Qed.

Lemma wrap_small (x : Z) : 0 <= x < word_modulus -> wrap x = x.
Proof. apply Z.mod_small. Qed.

Lemma realloc_reaches_logic (fuel : nat) (s : heap) (bp size : Z) :
  bp <> NULL -> 0 < size -> 0 < to_int size ->
  mm_realloc fuel s bp size =
    let oldsize := GET_SIZE s (HDRP bp) in
    let asize := adjust_size size in
    if asize <=? oldsize then Some (bp, s)
    else
      let next_alloc := GET_ALLOC s (HDRP (NEXT_BLKP s bp)) in
      let csize := wrap (oldsize + GET_SIZE s (HDRP (NEXT_BLKP s bp))) in
      if (next_alloc =? 0) && (asize <=? csize) then
        let s1 := remove_from_free_list s (NEXT_BLKP s bp) in
        let s2 := PUT s1 (HDRP bp) (PACK csize 1) in
        let s3 := PUT s2 (FTRP s2 bp) (PACK csize 1) in
        Some (bp, s3)
      else
        match mm_malloc fuel s size with
        | None => None
        | Some (new_ptr, s1) =>
            Some (new_ptr, mm_free (memcpy s1 new_ptr bp oldsize) bp)
        end.
Proof.
  intros Hbp Hs Hi. unfold mm_realloc.
  destruct (Z.ltb_spec (to_int size) 0); [lia|].
  destruct (Z.eqb_spec (to_int size) 0); [lia|].
  destruct (Z.ltb_spec 0 size); [|lia].
  destruct (Z.eqb_spec bp NULL); [contradiction|]. reflexivity.
Qed.

(** The out-of-place path does not look at what [mm_malloc] returned:
    with a null result it still copies and frees. *)
Lemma mm_realloc_after_failed_malloc (fuel : nat) (s s1 : heap) (bp size : Z) :
  bp <> NULL -> 0 < size -> 0 < to_int size ->
  GET_SIZE s (HDRP bp) < adjust_size size ->
  GET_ALLOC s (HDRP (NEXT_BLKP s bp)) <> 0 ->
  mm_malloc fuel s size = Some (NULL, s1) ->
  mm_realloc fuel s bp size =
    Some (NULL, mm_free (memcpy s1 NULL bp (GET_SIZE s (HDRP bp))) bp).
Proof.
  intros Hbp Hs Hi Hgrow Hnext Hfail.
  rewrite (realloc_reaches_logic fuel s bp size Hbp Hs Hi). cbv zeta.
  destruct (Z.leb_spec (adjust_size size) (GET_SIZE s (HDRP bp))); [lia|].
  apply Z.eqb_neq in Hnext. rewrite Hnext, Hfail. reflexivity.
Qed.


End ReallocInPlace.

(** ** Coalescing *)

Section Coalesce.
Context {abi : arch}.

Lemma insert_at_head (s : heap) (bp : Z) :
  free_listp (insert_in_free_list s bp) = bp
  /\ GET_PREV_PTR (insert_in_free_list s bp) bp = NULL.
Proof.
  split; [reflexivity|].
  unfold insert_in_free_list, GET_PREV_PTR, SET_PREV_PTR, GET, PUT; simpl.
  rewrite Z.eqb_refl. reflexivity.
Qed.

Lemma coalesce_inserts_result (s : heap) (bp : Z) :
  exists s0, snd (coalesce s bp) = insert_in_free_list s0 (fst (coalesce s bp)).
Proof.
  unfold coalesce.
  destruct (GET_ALLOC s (HDRP (NEXT_BLKP s bp)) =? 0),
           (GET_ALLOC s (FTRP s (PREV_BLKP s bp)) =? 0);
    simpl; eexists; reflexivity.
Qed.

Lemma sum_is_size (x y : Z) : is_size x -> is_size y -> is_size (wrap (x + y)).
Proof. intros Hx Hy. apply wrap_is_size, is_size_add; assumption. Qed.

(** The order of the stores in [coalesce], by the allocation bits that
    it reads in the header of the forward neighbour and in the footer of
    the backward neighbour: removals first, then the header and after it
    the footer of the merged block, with the sum of the sizes as the
    [size_t] sum, then the insertion.  With both neighbours free the two
    neighbours are the ones of the heap before the removals provided the
    removals leave the header of [bp] and the footer before [bp]
    alone. *)
Lemma coalesce_store_order (s : heap) (bp : Z) :
  let next := NEXT_BLKP s bp in
  let prev := PREV_BLKP s bp in
  let size := GET_SIZE s (HDRP bp) in
  let nsize := GET_SIZE s (HDRP next) in
  let psize := GET_SIZE s (HDRP prev) in
  let next_alloc := GET_ALLOC s (HDRP next) in
  let prev_alloc := GET_ALLOC s (FTRP s prev) in
  (prev_alloc <> 0 -> next_alloc <> 0 ->
     coalesce s bp = (bp, insert_in_free_list s bp))
  /\ (prev_alloc <> 0 -> next_alloc = 0 ->
      let total := wrap (size + nsize) in
      let s1 := remove_from_free_list s next in
      let s2 := PUT s1 (HDRP bp) (PACK total 0) in
      let s3 := PUT s2 (bp + total - DSIZE) (PACK total 0) in
      coalesce s bp = (bp, insert_in_free_list s3 bp))
  /\ (prev_alloc = 0 -> next_alloc <> 0 ->
      let total := wrap (size + psize) in
      let s1 := remove_from_free_list s prev in
      let s2 := PUT s1 (HDRP prev) (PACK total 0) in
      let s3 := PUT s2 (prev + total - DSIZE) (PACK total 0) in
      coalesce s bp = (prev, insert_in_free_list s3 prev))
  /\ (prev_alloc = 0 -> next_alloc = 0 ->
      let total := wrap (size + wrap (psize + nsize)) in
      let s1 := remove_from_free_list s prev in
      let s2 := remove_from_free_list s1 next in
      GET s1 (HDRP bp) = GET s (HDRP bp) ->
      GET s2 (bp - DSIZE) = GET s (bp - DSIZE) ->
      let s3 := PUT s2 (HDRP prev) (PACK total 0) in
      let s4 := PUT s3 (prev + total - DSIZE) (PACK total 0) in
      coalesce s bp = (prev, insert_in_free_list s4 prev))
  /\ free_listp (snd (coalesce s bp)) = fst (coalesce s bp)
  /\ GET_PREV_PTR (snd (coalesce s bp)) (fst (coalesce s bp)) = NULL.
Proof.
  intros next prev size nsize psize next_alloc prev_alloc.
  pose proof (GET_SIZE_is_size s (HDRP bp)) as Hsize.
  pose proof (GET_SIZE_is_size s (HDRP next)) as Hnsize.
  pose proof (GET_SIZE_is_size s (HDRP prev)) as Hpsize.
  fold size in Hsize. fold nsize in Hnsize. fold psize in Hpsize.
  repeat apply conj.
  - intros Hp Hn. unfold coalesce. fold next prev next_alloc prev_alloc.
    apply Z.eqb_neq in Hp, Hn. rewrite Hp, Hn. reflexivity.
  - intros Hp Hn total s1 s2 s3. unfold coalesce.
    fold next prev next_alloc prev_alloc size nsize.
    apply Z.eqb_neq in Hp. rewrite Hp, Hn. simpl.
    fold total s1 s2.
    unfold s2 at 2.
    rewrite FTRP_after_header
      by (try (left; reflexivity); apply sum_is_size; assumption).
    reflexivity.
  - intros Hp Hn total s1 s2 s3. unfold coalesce.
    fold next prev next_alloc prev_alloc size psize.
    apply Z.eqb_neq in Hn. rewrite Hp, Hn. simpl.
    fold total s1 s2.
    unfold s2 at 2.
    rewrite FTRP_after_header
      by (try (left; reflexivity); apply sum_is_size; assumption).
    reflexivity.
  - intros Hp Hn total s1 s2 Hhdr Hftr s3 s4. unfold coalesce.
    fold next prev next_alloc prev_alloc size psize nsize.
    rewrite Hp, Hn. simpl. fold total s1.
    assert (En : NEXT_BLKP s1 bp = next).
    { unfold next, NEXT_BLKP. fold (HDRP bp).
      rewrite !GET_SIZE_eq, Hhdr. reflexivity. }
    rewrite En. fold s2.
    assert (Ep : PREV_BLKP s2 bp = prev).
    { unfold prev, PREV_BLKP. rewrite !GET_SIZE_eq, Hftr. reflexivity. }
    rewrite Ep. fold s3.
    unfold s3 at 2.
    rewrite FTRP_after_header.
    + reflexivity.
    + apply sum_is_size; [assumption|]. apply sum_is_size; assumption.
    + left; reflexivity.
  - destruct (coalesce_inserts_result s bp) as [s0 ->].
    apply insert_at_head.
  - destruct (coalesce_inserts_result s bp) as [s0 ->].
    apply insert_at_head.
Qed.

End Coalesce.

(** ** What the list primitives write *)

Section Footprints.
Context {abi : arch}.

Lemma mem_PUT (s : heap) (p v x : Z) :
  mem (PUT s p v) x = if x =? p then v else mem s x.
Proof. reflexivity. Qed.

Lemma mem_PUT_other (s : heap) (p v x : Z) :
  x <> p -> mem (PUT s p v) x = mem s x.
Proof. intros H. rewrite mem_PUT. apply Z.eqb_neq in H. rewrite H. reflexivity. Qed.

Lemma GET_ext (s s' : heap) (p : Z) : mem s p = mem s' p -> GET s p = GET s' p.
Proof. unfold GET. intros ->. reflexivity. Qed.

Lemma GET_SIZE_ext (s s' : heap) (p : Z) :
  mem s p = mem s' p -> GET_SIZE s p = GET_SIZE s' p.
Proof. unfold GET_SIZE, GET. intros ->. reflexivity. Qed.

Lemma GET_ALLOC_ext (s s' : heap) (p : Z) :
  mem s p = mem s' p -> GET_ALLOC s p = GET_ALLOC s' p.
Proof. unfold GET_ALLOC, GET. intros ->. reflexivity. Qed.

Lemma wrap_GET (s : heap) (p : Z) : wrap (GET s p) = GET s p.
Proof. apply wrap_small, GET_range. Qed.

(** [insert_in_free_list s bp] writes the two link words of [bp] and the
    [prev_link] of the old head. *)
Lemma insert_frame (s : heap) (bp x : Z) :
  x <> bp -> x <> bp + WSIZE -> x <> free_listp s ->
  mem (insert_in_free_list s bp) x = mem s x.
Proof.
  intros H1 H2 H3. unfold insert_in_free_list, SET_PREV_PTR, SET_NEXT_PTR.
  simpl. apply Z.eqb_neq in H1, H2, H3. rewrite H1, H2, H3. reflexivity.
Qed.

Lemma insert_fields (s : heap) (bp : Z) :
  mem_start_brk (insert_in_free_list s bp) = mem_start_brk s
  /\ mem_brk (insert_in_free_list s bp) = mem_brk s
  /\ mem_max_addr (insert_in_free_list s bp) = mem_max_addr s
  /\ heap_listp (insert_in_free_list s bp) = heap_listp s.
Proof. repeat split. Qed.

(** The second store of [remove_from_free_list] goes to the block that
    [next_link] named before the first store. *)
Lemma remove_next_target (s : heap) (bp : Z) :
  let s1 :=
    if negb (GET_PREV_PTR s bp =? NULL)
    then SET_NEXT_PTR s (GET_PREV_PTR s bp) (GET_NEXT_PTR s bp)
    else set_free_listp s (GET_NEXT_PTR s bp) in
  GET_NEXT_PTR s1 bp = GET_NEXT_PTR s bp.
Proof.
  cbv zeta. destruct (GET_PREV_PTR s bp =? NULL); simpl; [reflexivity|].
  unfold GET_NEXT_PTR at 1, SET_NEXT_PTR. rewrite GET_PUT.
  destruct (bp + WSIZE =? GET_PREV_PTR s bp + WSIZE); [|reflexivity].
  unfold GET_NEXT_PTR. apply wrap_GET.
Qed.

(** [remove_from_free_list s bp] writes the [next_link] of the list
    predecessor of [bp], if there is one, and the [prev_link] of its list
    successor. *)
Lemma remove_frame (s : heap) (bp x : Z) :
  (GET_PREV_PTR s bp = NULL \/ x <> GET_PREV_PTR s bp + WSIZE) ->
  x <> GET_NEXT_PTR s bp ->
  mem (remove_from_free_list s bp) x = mem s x.
Proof.
  intros H1 H2. unfold remove_from_free_list.
  rewrite remove_next_target. unfold SET_PREV_PTR.
  rewrite mem_PUT_other by assumption.
  destruct (Z.eqb_spec (GET_PREV_PTR s bp) NULL) as [E|E]; simpl.
  - reflexivity.
  - unfold SET_NEXT_PTR. apply mem_PUT_other. destruct H1; congruence.
Qed.

Lemma remove_fields (s : heap) (bp : Z) :
  mem_start_brk (remove_from_free_list s bp) = mem_start_brk s
  /\ mem_brk (remove_from_free_list s bp) = mem_brk s
  /\ mem_max_addr (remove_from_free_list s bp) = mem_max_addr s
  /\ heap_listp (remove_from_free_list s bp) = heap_listp s.
Proof.
  unfold remove_from_free_list.
  destruct (negb (GET_PREV_PTR s bp =? NULL)); repeat split.
Qed.


End Footprints.

(** ** Placement *)

Section Placement.
Context {abi : arch}.

Lemma WSIZE_pos : 0 < WSIZE.
Proof. destruct WSIZE_cases as [-> | ->]; lia. Qed.

Lemma wrap_PACK (x al : Z) :
  is_size x -> al = 0 \/ al = 1 -> wrap (PACK x al) = PACK x al.
Proof.
  intros Hx Hal. apply wrap_small.
  pose proof (is_size_even x Hx). destruct Hx as [R M].
  destruct Hal as [-> | ->].
  - rewrite PACK_free. lia.
  - rewrite PACK_alloc by assumption.
    assert (x <> word_modulus - 1).
    { intros ->. destruct word_modulus_cases as [(_ & _ & W)|(_ & _ & W)];
        rewrite W in *; discriminate. }
    lia.
Qed.

Lemma tag_fields_mem (s : heap) (p x al : Z) :
  is_size x -> al = 0 \/ al = 1 -> mem s p = PACK x al ->
  GET_SIZE s p = x /\ GET_ALLOC s p = al.
Proof.
  intros Hx Hal E. apply tag_fields; try assumption.
  unfold GET. rewrite E. apply wrap_PACK; assumption.
Qed.

Lemma coalesce_keeps_bp (s : heap) (bp : Z) :
  GET_ALLOC s (FTRP s (PREV_BLKP s bp)) <> 0 -> fst (coalesce s bp) = bp.
Proof.
  intros H. apply Z.eqb_neq in H. unfold coalesce. rewrite H.
  destruct (GET_ALLOC s (HDRP (NEXT_BLKP s bp)) =? 0); reflexivity.
Qed.

Lemma coalesce_head (s : heap) (bp : Z) :
  free_listp (snd (coalesce s bp)) = fst (coalesce s bp).
Proof.
  destruct (coalesce_inserts_result s bp) as [s0 ->]. apply insert_at_head.
Qed.

(** The order of the stores in [place s b a] for a block [b] whose
    header holds size [c >= a]: with [c - a < 4 * WSIZE], header and
    footer of [b] with size [c] marked allocated and then the removal;
    with [c - a >= 4 * WSIZE], header and footer of [b] with size [a]
    marked allocated, then the removal, then header and footer of the
    remainder at [b + a] with size [c - a] marked free, then [coalesce]
    on the remainder.  Here [a] is an adjusted size and the link words
    of the list neighbours of [b], which the removal writes, are words
    outside block [b]. *)
Lemma place_store_order (s : heap) (b a : Z) :
  let c := GET_SIZE s (HDRP b) in
  0 <= a <= c ->
  (c - a < 4 * WSIZE ->
     place s b a =
       remove_from_free_list
         (PUT (PUT s (HDRP b) (PACK c 1)) (b + c - DSIZE) (PACK c 1)) b)
  /\ (4 * WSIZE <= c - a ->
      2 * DSIZE <= a -> a mod DSIZE = 0 ->
      (GET_PREV_PTR s b = NULL
       \/ outside_block s b (GET_PREV_PTR s b + WSIZE)) ->
      outside_block s b (GET_NEXT_PTR s b) ->
      let s1 := PUT s (HDRP b) (PACK a 1) in
      let s2 := PUT s1 (b + a - DSIZE) (PACK a 1) in
      let s3 := remove_from_free_list s2 b in
      let s4 := PUT s3 (HDRP (b + a)) (PACK (c - a) 0) in
      let s5 := PUT s4 (b + c - DSIZE) (PACK (c - a) 0) in
      place s b a = snd (coalesce s5 (b + a))
      /\ fst (coalesce s5 (b + a)) = b + a
      /\ free_listp (place s b a) = b + a).
Proof.
  intros c Hle.
  pose proof (GET_SIZE_is_size s (HDRP b)) as Hc. fold c in Hc.
  pose proof WSIZE_pos as HW.
  assert (HD : DSIZE = 2 * WSIZE) by reflexivity.
  assert (Hw : wrap (c - a) = c - a)
    by (apply wrap_small; destruct Hc; lia).
  split.
  - intros Hsmall. unfold place. fold c. rewrite Hw.
    destruct (Z.leb_spec (4 * WSIZE) (c - a)); [lia|].
    rewrite FTRP_after_header by (auto; right; reflexivity). reflexivity.
  - intros Hbig Hmin Hmod Hprev0 Hnext0 s1 s2 s3 s4 s5.
    assert (Ha : is_size a) by (destruct Hc; split; [lia|assumption]).
    assert (Hr : is_size (c - a)).
    { destruct Hc as [? Hcm]. split; [lia|].
      rewrite Zminus_mod, Hcm, Hmod. reflexivity. }
    assert (Hprev : GET_PREV_PTR s b = NULL
                    \/ GET_PREV_PTR s b + WSIZE < b - WSIZE
                    \/ b + c - WSIZE <= GET_PREV_PTR s b + WSIZE)
      by exact Hprev0.
    assert (Hnext : GET_NEXT_PTR s b < b - WSIZE
                    \/ b + c - WSIZE <= GET_NEXT_PTR s b)
      by exact Hnext0.
    clear Hprev0 Hnext0.
    assert (Eplace : place s b a = snd (coalesce s5 (b + a))).
    { unfold place. fold c. rewrite Hw.
      destruct (Z.leb_spec (4 * WSIZE) (c - a)); [|lia].
      fold s1.
      assert (E1 : FTRP s1 b = b + a - DSIZE)
        by (apply FTRP_after_header; auto).
      rewrite E1. fold s2 s3.
      assert (En : NEXT_BLKP s3 b = b + a).
      { unfold NEXT_BLKP. fold (HDRP b).
        assert (Em : mem s3 (HDRP b) = PACK a 1).
        { unfold s3. rewrite remove_frame.
          - unfold s2, s1. rewrite mem_PUT_other by (unfold HDRP; lia).
            rewrite mem_PUT, Z.eqb_refl. reflexivity.
          - assert (Ep : GET_PREV_PTR s2 b = GET_PREV_PTR s b).
            { unfold GET_PREV_PTR. apply GET_ext. unfold s2, s1.
              rewrite !mem_PUT_other by (unfold HDRP; lia). reflexivity. }
            rewrite Ep. unfold HDRP.
            destruct Hprev as [?|[?|?]]; [left; assumption|right; lia..].
          - assert (Ex : GET_NEXT_PTR s2 b = GET_NEXT_PTR s b).
            { unfold GET_NEXT_PTR. apply GET_ext. unfold s2, s1.
              rewrite !mem_PUT_other by (unfold HDRP; lia). reflexivity. }
            rewrite Ex. unfold HDRP. lia. }
        destruct (tag_fields_mem s3 (HDRP b) a 1 Ha (or_intror eq_refl) Em)
          as [-> _]. reflexivity. }
      rewrite En. fold s4.
      assert (E4 : FTRP s4 (b + a) = b + c - DSIZE).
      { unfold s4. rewrite FTRP_after_header by auto. lia. }
      rewrite E4. reflexivity. }
    assert (Ekeep : fst (coalesce s5 (b + a)) = b + a).
    { apply coalesce_keeps_bp.
      assert (Ep : GET_PREV_PTR s2 b = GET_PREV_PTR s b).
      { unfold GET_PREV_PTR. apply GET_ext. unfold s2, s1.
        rewrite !mem_PUT_other by (unfold HDRP; lia). reflexivity. }
      assert (Ex : GET_NEXT_PTR s2 b = GET_NEXT_PTR s b).
      { unfold GET_NEXT_PTR. apply GET_ext. unfold s2, s1.
        rewrite !mem_PUT_other by (unfold HDRP; lia). reflexivity. }
      assert (Hkeep : forall x, HDRP b <= x < b + c - WSIZE ->
                mem s3 x = mem s2 x).
      { intros x Hx. unfold s3. apply remove_frame.
        - rewrite Ep. unfold HDRP in Hx.
          destruct Hprev as [?|[?|?]]; [left; assumption|right; lia..].
        - rewrite Ex. unfold HDRP in Hx. lia. }
      assert (Ef : mem s5 (b + a - DSIZE) = PACK a 1).
      { unfold s5, s4. rewrite !mem_PUT_other by (unfold HDRP; lia).
        rewrite Hkeep by (unfold HDRP; lia).
        unfold s2. rewrite mem_PUT, Z.eqb_refl. reflexivity. }
      assert (Eh : mem s5 (HDRP b) = PACK a 1).
      { unfold s5, s4. rewrite !mem_PUT_other by (unfold HDRP; lia).
        rewrite Hkeep by (unfold HDRP; lia).
        unfold s2, s1. rewrite mem_PUT_other by (unfold HDRP; lia).
        rewrite mem_PUT, Z.eqb_refl. reflexivity. }
      destruct (tag_fields_mem s5 _ a 1 Ha (or_intror eq_refl) Ef)
        as [Esz Eal].
      destruct (tag_fields_mem s5 _ a 1 Ha (or_intror eq_refl) Eh)
        as [Ehs _].
      assert (Epb : PREV_BLKP s5 (b + a) = b).
      { unfold PREV_BLKP. rewrite Esz. lia. }
      rewrite Epb. unfold FTRP. rewrite Ehs, Eal. discriminate. }
    repeat split; try assumption.
    rewrite Eplace, coalesce_head. exact Ekeep.
Qed.

End Placement.

(** ** The model on the end-to-end scenarios of the spec *)

(** S1: after [mm_init] the heap holds one free block of 4096 bytes, and
    [mm_malloc(1)] returns the payload two double words behind the
    prologue, in a block of 32 bytes. *)
Example scenario_first_malloc :
  heap_walk (abi := LP64) 8 lp64_init
    (NEXT_BLKP (abi := LP64) lp64_init (heap_listp lp64_init)) = [65584]
  /\ GET (abi := LP64) lp64_init (HDRP (abi := LP64) 65584) = 4096
  /\ fst (malloc64 lp64_init 1) = heap_listp lp64_init + 2 * 16
  /\ GET (abi := LP64) (snd (malloc64 lp64_init 1)) (HDRP (abi := LP64) 65584)
     = 33.
Proof. vm_compute. repeat split; reflexivity. Qed.

(** S6: two blocks from [mm_malloc(16)], freed in the order of their
    allocation, leave one free block that covers the whole chunk, and
    the free list holds it alone. *)
Example scenario_free_both :
  let s := mm_free (abi := LP64) (mm_free (abi := LP64) lp64_two 65584) 65616 in
  heap_walk (abi := LP64) 8 s (NEXT_BLKP (abi := LP64) s (heap_listp s))
    = [65584]
  /\ GET (abi := LP64) s (HDRP (abi := LP64) 65584) = 4096
  /\ free_walk (abi := LP64) 8 s (free_listp s) = [65584].
Proof. vm_compute. repeat split; reflexivity. Qed.

(** S3: shrinking with [mm_realloc] returns the same pointer and leaves
    the heap alone; growing again into the free rest of the chunk
    returns it too. *)
Example scenario_realloc_same_pointer :
  let s := snd (malloc64 lp64_init 100) in
  option_map fst (mm_realloc (abi := LP64) 64 s 65584 50) = Some 65584
  /\ GET (abi := LP64)
       (heap_of (mm_realloc (abi := LP64) 64 s 65584 50) s)
       (HDRP (abi := LP64) 65584)
     = GET (abi := LP64) s (HDRP (abi := LP64) 65584)
  /\ option_map fst (mm_realloc (abi := LP64) 64 s 65584 200) = Some 65584.
Proof. vm_compute. repeat split; reflexivity. Qed.

(** ** The claims on concrete heaps *)

(** On [lp64_holes] the free list is 65648 (32 bytes), 65584 (32 bytes),
    65712 (3968 bytes): a request of 48 bytes skips two blocks. *)
Lemma find_fit_first_fit_witness :
  find_fit (abi := LP64) 3 lp64_holes 48 = Some 65712.
Proof.
  refine (proj1 (find_fit_first_fit (abi := LP64) lp64_holes 48 2 3 _ _) _ _).
  - lia.
  - intros i Hi. destruct i as [|[|i]]; [vm_compute; auto..|lia].
  - reflexivity.
  - vm_compute. discriminate.
Defined.



(** C4.  The claim: when the inner [malloc] returns null, [realloc]
    returns null, copies nothing and does not free [p].  The code does
    not test the result of [mm_malloc]: on [lp64_tight] the block at
    65584 is allocated, [mm_malloc(5000)] returns null and leaves the
    heap as it was, and [mm_realloc(65584, 5000)] returns null after
    copying the 32 bytes of the block to address 0 and freeing it - the
    header of 65584 says free and the block is the head of the free
    list. *)
Theorem mm_realloc_frees_on_failed_malloc :
  let r := mm_realloc (abi := LP64) 64 lp64_tight 65584 5000 in
  GET_ALLOC (abi := LP64) lp64_tight (HDRP (abi := LP64) 65584) = 1
  /\ option_map fst (mm_malloc (abi := LP64) 64 lp64_tight 5000) = Some 0
  /\ mem_brk (heap_of (mm_malloc (abi := LP64) 64 lp64_tight 5000) lp64_tight)
     = mem_brk lp64_tight
  /\ option_map fst r = Some 0
  /\ GET_ALLOC (abi := LP64) (heap_of r lp64_tight) (HDRP (abi := LP64) 65584)
     = 0
  /\ free_listp (heap_of r lp64_tight) = 65584
  /\ GET (abi := LP64) lp64_tight 16 = 0
  /\ GET (abi := LP64) (heap_of r lp64_tight) 16
     = GET (abi := LP64) lp64_tight (65584 + 16).
Proof. vm_compute. repeat split; reflexivity. Qed.

(** ** The checker *)

Section Checker.
Context {abi : arch}.

(** [checkheap] prints the prologue with [printblock], and [printblock]
    starts by calling [checkheap]: no amount of fuel lets a call
    return. *)
Lemma checkheap_never_returns (fuel : nat) (verbose : bool) (s : heap) :
  checkheap fuel verbose s = None.
Proof.
  revert verbose. induction fuel as [|fuel IH]; intros verbose.
  - reflexivity.
  - simpl. rewrite IH. reflexivity.
Qed.

(** The free-list pass prints four kinds of line and none about heap
    bounds. *)
Lemma check_free_entry_lines (s : heap) (bp : Z) (d : diag) :
  In d (check_free_entry s bp) ->
  d = AllocatedInFreeList bp \/ d = EscapedCoalescing bp
  \/ d = PrevNotFree bp \/ d = NextNotFree bp.
Proof.
  unfold check_free_entry. intros H.
  repeat (apply in_app_or in H; destruct H as [H|H]);
    repeat match type of H with
           | In _ (if ?c then _ else _) => destruct c
           end;
    simpl in H; intuition auto.
Qed.

(** Which words decide the three lines about neighbours and links. *)
Lemma check_free_entry_reads (s : heap) (bp : Z) :
  (In (EscapedCoalescing bp) (check_free_entry s bp) <->
     GET_ALLOC s (PREV_BLKP s bp) <> 1 \/ GET_ALLOC s (NEXT_BLKP s bp) <> 1)
  /\ (In (PrevNotFree bp) (check_free_entry s bp) <->
       bp <> free_listp s /\ GET_ALLOC s (GET s (HDRP bp)) <> 0)
  /\ (In (NextNotFree bp) (check_free_entry s bp) <->
       GET_ALLOC s (GET s bp) <> 0).
Proof.
  unfold check_free_entry, GET_PREV_PTR, GET_NEXT_PTR.
  replace (HDRP bp + WSIZE) with bp by (unfold HDRP; lia).
  destruct (Z.eqb_spec (GET_ALLOC s (HDRP bp)) 0);
    destruct (Z.eqb_spec (GET_ALLOC s (PREV_BLKP s bp)) 1);
    destruct (Z.eqb_spec (GET_ALLOC s (NEXT_BLKP s bp)) 1);
    destruct (Z.eqb_spec bp (free_listp s));
    destruct (Z.eqb_spec (GET_ALLOC s (GET s (HDRP bp))) 0);
    destruct (Z.eqb_spec (GET_ALLOC s (GET s bp)) 0);
    simpl; intuition (try discriminate; try congruence; auto).
Qed.

End Checker.

(** C9.  The claim: the free-list pass of the checker reads the
    allocation bits of the boundary tags of the two neighbours, and checks
    that the two links lie in the heap and point at blocks with header
    bit 0.  The code of the pass tests [GET_ALLOC(PREV_BLKP(bp))] and
    [GET_ALLOC(NEXT_BLKP(bp))], the first payload word of each
    neighbour instead of a tag; it takes the links from [HDRP(bp)], so
    that the word it follows as [prev_link] is the header and the word it
    follows as [next_link] is the [prev_link]; and it contains no bounds
    test.  On the heap that [mm_init] builds, both neighbours of the only
    free block are allocated by their tags (prologue footer and epilogue
    header), and the pass prints that the block has escaped coalescing. *)
Theorem free_list_pass_reads_payload_words :
  free_walk (abi := LP64) 4 lp64_init (free_listp lp64_init) = [65584]
  /\ GET_ALLOC (abi := LP64) lp64_init
       (FTRP (abi := LP64) lp64_init
          (PREV_BLKP (abi := LP64) lp64_init 65584)) = 1
  /\ GET_ALLOC (abi := LP64) lp64_init
       (HDRP (abi := LP64) (NEXT_BLKP (abi := LP64) lp64_init 65584)) = 1
  /\ check_free_list (abi := LP64) 4 lp64_init (free_listp lp64_init)
     = Some [EscapedCoalescing 65584]
  /\ (forall (abi : arch) (s : heap) (bp p : Z),
        ~ In (NextOutOfBounds p) (check_free_entry s bp)
        /\ ~ In (PrevOutOfBounds p) (check_free_entry s bp))
  /\ (forall (abi : arch) (s : heap) (bp : Z),
        (In (EscapedCoalescing bp) (check_free_entry s bp) <->
           GET_ALLOC s (PREV_BLKP s bp) <> 1
           \/ GET_ALLOC s (NEXT_BLKP s bp) <> 1)
        /\ (In (PrevNotFree bp) (check_free_entry s bp) <->
             bp <> free_listp s /\ GET_ALLOC s (GET s (HDRP bp)) <> 0)
        /\ (In (NextNotFree bp) (check_free_entry s bp) <->
             GET_ALLOC s (GET s bp) <> 0)).
Proof.
  split; [vm_compute; reflexivity|].
  split; [vm_compute; reflexivity|].
  split; [vm_compute; reflexivity|].
  split; [vm_compute; reflexivity|].
  split.
  - intros abi s bp p.
    split; intros H; apply check_free_entry_lines in H;
      destruct H as [H|[H|[H|H]]]; discriminate.
  - intros abi s bp. apply check_free_entry_reads.
Qed.

(** ** The frame of mm_free *)

Section Chains.
Context {abi : arch}.
Variable s : heap.

Lemma DSIZE_eq : DSIZE = 2 * WSIZE.
Proof. reflexivity. Qed.

Lemma chain_head (b x : Z) (l : list Z) (e : Z) :
  chain s b (x :: l) e -> x = b.
Proof. inversion 1; reflexivity. Qed.

Lemma chain_bounds (b : Z) (bs : list Z) (e : Z) :
  chain s b bs e ->
  b <= e /\ forall d, In d bs -> b <= d /\ d + GET_SIZE s (HDRP d) <= e.
Proof.
  pose proof WSIZE_pos as HW. pose proof DSIZE_eq as HD.
  induction 1 as [e He | b bs e Hmin Hft Hch [Hle Hin]].
  - split; [lia|]. intros d [].
  - unfold NEXT_BLKP in *. fold (HDRP b) in *. split; [lia|].
    intros d [<-|Hd]; [lia|]. destruct (Hin d Hd). lia.
Qed.

Lemma chain_facts (b : Z) (bs : list Z) (e : Z) :
  chain s b bs e ->
  forall d, In d bs ->
    2 * DSIZE <= GET_SIZE s (HDRP d)
    /\ GET s (FTRP s d) = GET s (HDRP d)
    /\ (In (NEXT_BLKP s d) bs
        \/ (NEXT_BLKP s d = e /\ GET s (HDRP e) = PACK 0 1)).
Proof.
  induction 1 as [e He | b bs e Hmin Hft Hch IH]; intros d Hd.
  - destruct Hd.
  - destruct Hd as [<-|Hd].
    + repeat split; try assumption.
      inversion Hch as [e' He' E1 E2 E3 | b' bs' e' ? ? ? E1 E2 E3]; subst.
      * right. split; [reflexivity|assumption].
      * left. right. left. reflexivity.
    + destruct (IH d Hd) as (? & ? & [?|?]); repeat split; auto.
      left. right. assumption.
Qed.

Lemma chain_pred (b : Z) (bs : list Z) (e : Z) :
  chain s b bs e ->
  forall p, In p bs -> p <> b -> exists q, In q bs /\ NEXT_BLKP s q = p.
Proof.
  induction 1 as [e He | b bs e Hmin Hft Hch IH]; intros p Hp Hne.
  - destruct Hp.
  - destruct Hp as [->|Hp]; [contradiction|].
    destruct (Z.eq_dec p (NEXT_BLKP s b)) as [->|Hn].
    + exists b. split; [left|]; reflexivity.
    + destruct (IH p Hp Hn) as (q & Hq & E).
      exists q. split; [right|]; assumption.
Qed.

Lemma chain_order (b : Z) (bs : list Z) (e : Z) :
  chain s b bs e ->
  forall c d, In c bs -> In d bs -> c < d -> c + GET_SIZE s (HDRP c) <= d.
Proof.
  pose proof WSIZE_pos as HW. pose proof DSIZE_eq as HD.
  induction 1 as [e He | b bs e Hmin Hft Hch IH]; intros c d Hc Hd Hlt.
  - destruct Hc.
  - pose proof (chain_bounds _ _ _ Hch) as [_ Hin].
    unfold NEXT_BLKP in Hin. fold (HDRP b) in Hin.
    destruct Hc as [<-|Hc], Hd as [<-|Hd].
    + lia.
    + destruct (Hin d Hd). lia.
    + destruct (Hin c Hc). lia.
    + apply IH; assumption.
Qed.

(** Two different blocks of a chain are at least a minimum block apart. *)
Lemma chain_spaced (b : Z) (bs : list Z) (e : Z) :
  chain s b bs e ->
  forall c d, In c bs -> In d bs -> c <> d ->
    c + 2 * DSIZE <= d \/ d + 2 * DSIZE <= c.
Proof.
  intros Hch c d Hc Hd Hne.
  destruct (chain_facts _ _ _ Hch c Hc) as (Hcs & _).
  destruct (chain_facts _ _ _ Hch d Hd) as (Hds & _).
  destruct (Z.lt_total c d) as [Hlt|[Heq|Hgt]]; [|contradiction|].
  - left. pose proof (chain_order _ _ _ Hch c d Hc Hd Hlt). lia.
  - right. pose proof (chain_order _ _ _ Hch d c Hd Hc Hgt). lia.
Qed.

End Chains.

Section FrameSteps.
Context {abi : arch}.

Lemma changed_refl (A : Z -> Prop) (s : heap) : changed_only A s s.
Proof. intros x Hx. contradiction Hx. reflexivity. Qed.

Lemma changed_trans (A : Z -> Prop) (s1 s2 s3 : heap) :
  changed_only A s1 s2 -> changed_only A s2 s3 -> changed_only A s1 s3.
Proof.
  intros H12 H23 x Hx.
  destruct (Z.eq_dec (mem s3 x) (mem s2 x)) as [E|E]; [|auto].
  apply H12. congruence.
Qed.


Lemma changed_insert (A : Z -> Prop) (s : heap) (b : Z) :
  A b -> A (b + WSIZE) -> A (free_listp s) ->
  changed_only A s (insert_in_free_list s b).
Proof.
  intros H1 H2 H3 x Hx.
  destruct (Z.eq_dec x b); [subst; assumption|].
  destruct (Z.eq_dec x (b + WSIZE)); [subst; assumption|].
  destruct (Z.eq_dec x (free_listp s)); [subst; assumption|].
  contradiction Hx. apply insert_frame; assumption.
Qed.

Lemma changed_remove (A : Z -> Prop) (s : heap) (b : Z) :
  (GET_PREV_PTR s b = NULL \/ A (GET_PREV_PTR s b + WSIZE)) ->
  A (GET_NEXT_PTR s b) ->
  changed_only A s (remove_from_free_list s b).
Proof.
  intros H1 H2 x Hx.
  destruct (Z.eq_dec x (GET_NEXT_PTR s b)); [subst; assumption|].
  destruct (Z.eq_dec x (GET_PREV_PTR s b + WSIZE)) as [E|E].
  - destruct H1 as [H1|H1]; [|subst; assumption].
    contradiction Hx. apply remove_frame; auto.
  - contradiction Hx. apply remove_frame; auto.
Qed.

(** The store after [remove_from_free_list], word by word, when the
    block is not its own list predecessor's [next_link] slot. *)
Lemma GET_remove (s : heap) (b x : Z) :
  (GET_PREV_PTR s b = NULL \/ b <> GET_PREV_PTR s b + WSIZE) ->
  GET (remove_from_free_list s b) x =
    if x =? GET_NEXT_PTR s b then GET_PREV_PTR s b
    else if negb (GET_PREV_PTR s b =? NULL)
            && (x =? GET_PREV_PTR s b + WSIZE)
         then GET_NEXT_PTR s b
         else GET s x.
Proof.
  intros Hb. unfold remove_from_free_list.
  rewrite remove_next_target. unfold SET_PREV_PTR. rewrite GET_PUT.
  destruct (Z.eqb_spec (GET_PREV_PTR s b) NULL) as [E|E]; simpl.
  - destruct (x =? GET_NEXT_PTR s b); [|reflexivity].
    change (GET_PREV_PTR (set_free_listp s (GET_NEXT_PTR s b)) b)
      with (GET s b).
    apply wrap_GET.
  - unfold SET_NEXT_PTR, GET_PREV_PTR at 1 3. rewrite !GET_PUT.
    destruct Hb as [Hb|Hb]; [contradiction|].
    apply Z.eqb_neq in Hb. rewrite Hb.
    change (GET_PREV_PTR s b) with (GET s b).
    destruct (x =? GET_NEXT_PTR s b); [apply wrap_GET|].
    destruct (x =? GET s b + WSIZE); [|reflexivity].
    unfold GET_NEXT_PTR. apply wrap_GET.
Qed.

End FrameSteps.

Section ListSteps.
Context {abi : arch}.
Variable fl : list Z.
Hypothesis Hsp : spaced fl.







End ListSteps.

Section CoalesceFrame.
Context {abi : arch}.
Variable fl : list Z.
Hypothesis Hsp : spaced fl.


End CoalesceFrame.

Section FreeFrame.
Context {abi : arch}.

Lemma tag_not_link (s : heap) (b0 : Z) (bs : list Z) (e d : Z) :
  chain s b0 bs e -> In d bs ->
  ~ link_word bs (HDRP d) /\ ~ link_word bs (FTRP s d).
Proof.
  pose proof WSIZE_pos as HW. pose proof DSIZE_eq as HD.
  intros Hch Hd.
  destruct (chain_facts s _ _ _ Hch d Hd) as (Hdmin & _).
  split; intros (c & Hc & Hx);
    destruct (chain_facts s _ _ _ Hch c Hc) as (Hcmin & _);
    unfold FTRP, HDRP in *;
    destruct (Z.lt_total c d) as [Hlt|[Heq|Hgt]].
  - pose proof (chain_order s _ _ _ Hch c d Hc Hd Hlt) as Ho.
    unfold HDRP in Ho. lia.
  - subst c. lia.
  - pose proof (chain_order s _ _ _ Hch d c Hd Hc Hgt) as Ho.
    unfold HDRP in Ho. lia.
  - pose proof (chain_order s _ _ _ Hch c d Hc Hd Hlt) as Ho.
    unfold HDRP in Ho. lia.
  - subst c. lia.
  - pose proof (chain_order s _ _ _ Hch d c Hd Hc Hgt) as Ho.
    unfold HDRP in Ho. lia.
Qed.




Lemma coalesce_bounds (s : heap) (bp : Z) :
  mem_start_brk (snd (coalesce s bp)) = mem_start_brk s
  /\ mem_brk (snd (coalesce s bp)) = mem_brk s
  /\ mem_max_addr (snd (coalesce s bp)) = mem_max_addr s
  /\ heap_listp (snd (coalesce s bp)) = heap_listp s.
Proof.
  assert (R : forall st b,
             mem_start_brk (remove_from_free_list st b) = mem_start_brk st
             /\ mem_brk (remove_from_free_list st b) = mem_brk st
             /\ mem_max_addr (remove_from_free_list st b) = mem_max_addr st
             /\ heap_listp (remove_from_free_list st b) = heap_listp st)
    by (intros; apply remove_fields).
  unfold coalesce.
  destruct (GET_ALLOC s (HDRP (NEXT_BLKP s bp)) =? 0),
           (GET_ALLOC s (FTRP s (PREV_BLKP s bp)) =? 0);
    cbn -[remove_from_free_list];
    repeat split;
    repeat first [ rewrite (proj1 (R _ _))
                 | rewrite (proj1 (proj2 (R _ _)))
                 | rewrite (proj1 (proj2 (proj2 (R _ _))))
                 | rewrite (proj2 (proj2 (proj2 (R _ _)))) ];
    reflexivity.
Qed.


End FreeFrame.



(** * The heap invariant *)

Section ListLayer.
Context {abi : arch}.

Lemma changed_only_eq (A : Z -> Prop) (s s' : heap) (x : Z) :
  changed_only A s s' -> ~ A x -> mem s' x = mem s x.
Proof.
  intros H Hx. destruct (Z.eq_dec (mem s' x) (mem s x)) as [E|E]; [assumption|].
  contradiction Hx. apply H. assumption.
Qed.

Lemma next_links_ext (s s' : heap) (l : list Z) : forall p t,
  (forall c, In c l -> GET s' (c + WSIZE) = GET s (c + WSIZE)) ->
  next_links s p l t -> next_links s' p l t.
Proof.
  induction l as [|a l IH]; simpl; intros p t He H; [assumption|].
  destruct H as [-> H]. split; [reflexivity|].
  unfold GET_NEXT_PTR in *. rewrite He by auto. apply IH; auto.
Qed.

Lemma prev_links_ext (s s' : heap) (l : list Z) : forall p,
  (forall c, In c l -> GET s' c = GET s c) ->
  prev_links s p l -> prev_links s' p l.
Proof.
  induction l as [|a l IH]; simpl; intros p He H; [exact I|].
  destruct H as [E H]. unfold GET_PREV_PTR in *. split.
  - rewrite He by auto. assumption.
  - apply IH; auto.
Qed.

Lemma next_links_app (s : heap) (l1 l2 : list Z) : forall p t,
  next_links s p (l1 ++ l2) t <->
  exists m, next_links s p l1 m /\ next_links s m l2 t.
Proof.
  induction l1 as [|a l1 IH]; simpl; intros p t.
  - split.
    + intros H. exists p. auto.
    + intros (m & -> & H). assumption.
  - split.
    + intros [-> H]. apply IH in H. destruct H as (m & H1 & H2).
      exists m. auto.
    + intros (m & [-> H1] & H2). split; [reflexivity|].
      apply IH. exists m. auto.
Qed.

Lemma last_cons (a : Z) (l : list Z) (d : Z) : last (a :: l) d = last l a.
Proof.
  revert a d. induction l as [|b l IH]; intros a d; [reflexivity|].
  change (last (a :: b :: l) d) with (last (b :: l) d).
  rewrite !IH. reflexivity.
Qed.

Lemma prev_links_app (s : heap) (l1 l2 : list Z) : forall p,
  prev_links s p (l1 ++ l2) <->
  prev_links s p l1 /\ prev_links s (last l1 p) l2.
Proof.
  induction l1 as [|a l1 IH]; intros p.
  - simpl. tauto.
  - rewrite last_cons. simpl. rewrite IH. tauto.
Qed.

(** The target of a walk is the first block of what follows. *)
Lemma next_links_target (s : heap) (l : list Z) (p t : Z) :
  next_links s p l t -> p = hd t l.
Proof. destruct l; simpl; [auto|]. intros [-> _]. reflexivity. Qed.

Lemma last_In (l : list Z) (d : Z) : l <> [] -> In (last l d) l.
Proof.
  induction l as [|a l IH]; intros H; [contradiction|].
  destruct l as [|b l]; [left; reflexivity|].
  right. apply IH. discriminate.
Qed.

Lemma GET_insert (s : heap) (b x : Z) :
  GET (insert_in_free_list s b) x =
    if x =? b then wrap NULL
    else if x =? free_listp s then wrap b
    else if x =? b + WSIZE then wrap (free_listp s)
    else GET s x.
Proof.
  unfold insert_in_free_list, SET_PREV_PTR, SET_NEXT_PTR.
  unfold GET, PUT. simpl.
  destruct (x =? b); [reflexivity|].
  destruct (x =? free_listp s); [reflexivity|].
  destruct (x =? b + WSIZE); reflexivity.
Qed.

(** [insert_in_free_list] on a doubly linked list: the block becomes the
    first entry and the entries behind it stay as they are. *)
Lemma insert_links (s : heap) (b : Z) (fl : list Z) :
  next_links s (free_listp s) fl (heap_listp s) ->
  prev_links s NULL (fl ++ [heap_listp s]) ->
  NoDup (b :: fl ++ [heap_listp s]) ->
  spaced (b :: fl ++ [heap_listp s]) ->
  (forall c, In c (b :: fl ++ [heap_listp s]) -> 0 <= c < word_modulus) ->
  next_links (insert_in_free_list s b) (free_listp (insert_in_free_list s b))
    (b :: fl) (heap_listp (insert_in_free_list s b))
  /\ prev_links (insert_in_free_list s b) NULL
       (b :: fl ++ [heap_listp (insert_in_free_list s b)]).
Proof.
  pose proof WSIZE_pos as HW. pose proof DSIZE_eq as HD.
  intros Hn Hp Hnd Hsp Hrg.
  set (hl := heap_listp s) in *. set (h := free_listp s) in *.
  change (heap_listp (insert_in_free_list s b)) with hl.
  change (free_listp (insert_in_free_list s b)) with b.
  assert (Hh : h = hd hl fl) by (apply (next_links_target s); assumption).
  assert (HhL : In h (fl ++ [hl])).
  { rewrite Hh. destruct fl; simpl; auto. }
  assert (Hb : In b (b :: fl ++ [hl])) by (left; reflexivity).
  inversion Hnd as [|? ? Hbn Hnd']; subst.
  assert (Hhb : h <> b) by (intros E; apply Hbn; rewrite <- E; assumption).
  assert (far : forall c, In c (fl ++ [hl]) -> c <> b /\ c <> b + WSIZE
                     /\ c + WSIZE <> b /\ c + WSIZE <> b + WSIZE).
  { intros c Hc. assert (c <> b) by (intros ->; contradiction).
    destruct (Hsp c b (or_intror Hc) Hb); [assumption| |]; lia. }
  assert (far2 : forall c d, In c (fl ++ [hl]) -> In d (fl ++ [hl]) ->
                   c + WSIZE <> d).
  { intros c d Hc Hd. destruct (Z.eq_dec c d) as [->|E]; [lia|].
    destruct (Hsp c d (or_intror Hc) (or_intror Hd) E); lia. }
  destruct (far h HhL) as (_ & Hhb2 & _).
  assert (G := fun x => GET_insert s b x). fold h in G.
  assert (Wh : wrap h = h).
  { apply wrap_small, Hrg. right. assumption. }
  assert (Wb : wrap b = b) by (apply wrap_small, Hrg; left; reflexivity).
  split.
  - simpl. split; [reflexivity|].
    unfold GET_NEXT_PTR at 1. rewrite G.
    destruct (Z.eqb_spec (b + WSIZE) b); [lia|].
    destruct (Z.eqb_spec (b + WSIZE) h); [congruence|].
    rewrite Z.eqb_refl, Wh.
    apply (next_links_ext s); [|assumption].
    intros c Hc. rewrite G.
    assert (HcL : In c (fl ++ [hl])) by (apply in_or_app; auto).
    destruct (far c HcL) as (_ & _ & F3 & F4).
    destruct (Z.eqb_spec (c + WSIZE) b); [contradiction|].
    destruct (Z.eqb_spec (c + WSIZE) h) as [E|_];
      [exfalso; exact (far2 c h HcL HhL E)|].
    destruct (Z.eqb_spec (c + WSIZE) (b + WSIZE)); [contradiction|].
    reflexivity.
  - simpl. unfold GET_PREV_PTR at 1. rewrite G, Z.eqb_refl.
    split; [reflexivity|].
    destruct (fl ++ [hl]) as [|x L] eqn:EL;
      [destruct fl; discriminate|].
    assert (Ex : x = h).
    { rewrite Hh. destruct fl; simpl in *; congruence. }
    subst x. simpl in Hp. destruct Hp as [Hp0 Hp].
    simpl. split.
    + unfold GET_PREV_PTR. rewrite G.
      destruct (Z.eqb_spec h b); [contradiction|].
      rewrite Z.eqb_refl. assumption.
    + apply (prev_links_ext s); [|assumption].
      intros c Hc. rewrite G.
      destruct (far c (or_intror Hc)) as (F1 & F2 & _).
      destruct (Z.eqb_spec c b); [contradiction|].
      destruct (Z.eqb_spec c h) as [E|_].
      { exfalso. subst c. inversion Hnd'; contradiction. }
      destruct (Z.eqb_spec c (b + WSIZE)); [contradiction|].
      reflexivity.
Qed.

Lemma list_end (l : list Z) : l = [] \/ exists l' a, l = l' ++ [a].
Proof.
  destruct l as [|x l]; [left; reflexivity|right].
  destruct (exists_last (l := x :: l)) as (l' & a & E); [discriminate|].
  exists l', a. assumption.
Qed.

(** [remove_from_free_list] on a doubly linked list: the block leaves the
    list, and the entries before and behind it are linked to each
    other. *)
Lemma remove_links (s : heap) (b : Z) (l1 l2 : list Z) :
  next_links s (free_listp s) (l1 ++ b :: l2) (heap_listp s) ->
  prev_links s NULL ((l1 ++ b :: l2) ++ [heap_listp s]) ->
  NoDup ((l1 ++ b :: l2) ++ [heap_listp s]) ->
  spaced ((l1 ++ b :: l2) ++ [heap_listp s]) ->
  (forall c, In c ((l1 ++ b :: l2) ++ [heap_listp s]) ->
     0 < c < word_modulus) ->
  next_links (remove_from_free_list s b)
    (free_listp (remove_from_free_list s b)) (l1 ++ l2)
    (heap_listp (remove_from_free_list s b))
  /\ prev_links (remove_from_free_list s b) NULL
       ((l1 ++ l2) ++ [heap_listp (remove_from_free_list s b)]).
Proof.
  pose proof WSIZE_pos as HW. pose proof DSIZE_eq as HD.
  intros Hn Hp Hnd Hsp Hrg.
  rewrite (proj2 (proj2 (proj2 (remove_fields s b)))).
  set (hl := heap_listp s) in *.
  set (R := l2 ++ [hl]).
  assert (EL : (l1 ++ b :: l2) ++ [hl] = l1 ++ b :: R)
    by (rewrite <- app_assoc; reflexivity).
  rewrite EL in *.
  replace ((l1 ++ l2) ++ [hl]) with (l1 ++ R)
    by (unfold R; rewrite app_assoc; reflexivity).
  (* the links of [b] *)
  apply next_links_app in Hn. destruct Hn as (m & Hn1 & Hn2).
  simpl in Hn2. destruct Hn2 as [-> Hn2].
  apply prev_links_app in Hp. destruct Hp as [Hp1 Hp2].
  simpl in Hp2. destruct Hp2 as [Hpb Hp2].
  set (nb := GET_NEXT_PTR s b) in *. set (pb := GET_PREV_PTR s b) in *.
  assert (Enb : nb = hd hl l2) by (apply (next_links_target s); assumption).
  assert (ER : exists R', R = nb :: R').
  { unfold R. rewrite Enb. destruct l2; simpl; eauto. }
  destruct ER as (R' & ER).
  assert (HbL : In b (l1 ++ b :: R)) by (apply in_or_app; right; left; reflexivity).
  assert (HRL : forall c, In c R -> In c (l1 ++ b :: R))
    by (intros; apply in_or_app; right; right; assumption).
  assert (H1L : forall c, In c l1 -> In c (l1 ++ b :: R))
    by (intros; apply in_or_app; left; assumption).
  assert (HnbR : In nb R) by (rewrite ER; left; reflexivity).
  assert (far : forall c d, In c (l1 ++ b :: R) -> In d (l1 ++ b :: R) ->
                  c + WSIZE <> d).
  { intros c d Hc Hd. destruct (Z.eq_dec c d) as [->|E]; [lia|].
    destruct (Hsp c d Hc Hd E); lia. }
  (* the list before [b] *)
  assert (Hpb' : (l1 = [] /\ pb = NULL)
                 \/ (exists l1', l1 = l1' ++ [pb] /\ pb <> NULL)).
  { destruct (list_end l1) as [->|(l1' & a & ->)].
    - left. split; [reflexivity|]. simpl in Hpb. congruence.
    - right. exists l1'. rewrite last_last in Hpb. subst a.
      split; [reflexivity|].
      assert (0 < pb < word_modulus).
      { apply Hrg, H1L, in_or_app. right. left. reflexivity. }
      unfold NULL. lia. }
  assert (Hown : pb = NULL \/ b <> pb + WSIZE).
  { destruct Hpb' as [[_ E]|(l1' & E & _)]; [left; assumption|right].
    intros E'. apply (far pb b); [|assumption|auto].
    apply H1L. rewrite E. apply in_or_app. right. left. reflexivity. }
  assert (G := fun x => GET_remove s b x Hown). fold nb pb in G.
  set (s' := remove_from_free_list s b) in *.
  assert (Gother : forall x, x <> nb -> (pb <> NULL -> x <> pb + WSIZE) ->
                     GET s' x = GET s x).
  { intros x X1 X2. rewrite G.
    destruct (Z.eqb_spec x nb); [contradiction|].
    destruct (Z.eqb_spec pb NULL); simpl; [reflexivity|].
    destruct (Z.eqb_spec x (pb + WSIZE)); [exfalso; apply X2; auto|].
    reflexivity. }
  assert (NDR : NoDup (b :: R)) by (apply NoDup_app_remove_l in Hnd; assumption).
  assert (ND1 : forall c, In c l1 -> ~ In c (b :: R)).
  { intros c Hc Hc'. revert Hnd Hc Hc'. clear. induction l1 as [|a l IH]; simpl.
    - intros _ [].
    - intros Hnd [->|Hc] Hc'.
      + inversion Hnd as [|? ? Hni _]; subst. apply Hni.
        apply in_or_app. right. assumption.
      + inversion Hnd; subst. apply IH; assumption. }
  (* the backward links *)
  assert (Hprev : prev_links s' NULL (l1 ++ R)).
  { apply prev_links_app. split.
    - apply (prev_links_ext s); [|assumption].
      intros c Hc. apply Gother.
      + intros ->. apply (ND1 nb Hc). right. assumption.
      + intros _ E. apply (far pb c); [|auto|auto].
        destruct Hpb' as [[E1 _]|(l1' & E1 & _)].
        * subst l1. destruct Hc.
        * apply H1L. rewrite E1. apply in_or_app. right. left. reflexivity.
    - rewrite <- Hpb. rewrite ER in *. simpl. simpl in Hp2.
      destruct Hp2 as [_ Hp2]. split.
      + unfold GET_PREV_PTR. rewrite G, Z.eqb_refl. reflexivity.
      + apply (prev_links_ext s); [|assumption].
        intros c Hc. apply Gother.
        * intros ->. inversion NDR as [|? ? _ NDR']; subst.
          inversion NDR'; contradiction.
        * intros Hne E.
          destruct Hpb' as [[_ E1]|(l1' & E1 & _)]; [contradiction|].
          apply (far pb c); [| |auto].
          -- apply H1L. rewrite E1. apply in_or_app. right. left. reflexivity.
          -- apply HRL. right. assumption. }
  split; [|assumption].
  (* the forward links *)
  assert (Hn2' : next_links s' nb l2 hl).
  { apply (next_links_ext s); [|assumption].
    intros c Hc.
    assert (HcR : In c R) by (unfold R; apply in_or_app; auto).
    apply Gother.
    - apply far; auto.
    - intros Hne E. assert (c = pb) by lia. subst c.
      destruct Hpb' as [[_ E1]|(l1' & E1 & _)]; [contradiction|].
      apply (ND1 pb).
      + rewrite E1. apply in_or_app. right. left. reflexivity.
      + right. assumption. }
  destruct Hpb' as [[E1 Epb]|(l1' & E1 & Hne)].
  - subst l1. change ([] ++ l2) with l2.
    replace (free_listp s') with nb; [assumption|].
    unfold s', remove_from_free_list. fold pb. rewrite Epb. reflexivity.
  - replace (free_listp s') with (free_listp s).
    2:{ unfold s', remove_from_free_list. fold pb.
        apply Z.eqb_neq in Hne. rewrite Hne. reflexivity. }
    subst l1. rewrite <- app_assoc. simpl.
    apply next_links_app in Hn1. destruct Hn1 as (m' & Hn1 & Hn1').
    simpl in Hn1'. destruct Hn1' as [-> Hn1'].
    apply next_links_app. exists pb. split.
    + apply (next_links_ext s); [|assumption].
      intros c Hc.
      assert (HcL : In c (l1' ++ [pb])) by (apply in_or_app; auto).
      apply Gother.
      * apply far; auto.
      * intros _ E. assert (c = pb) by lia. subst c.
        rewrite <- app_assoc in Hnd. simpl in Hnd.
        apply NoDup_remove_2 in Hnd. apply Hnd.
        apply in_or_app. left. assumption.
    + simpl. split; [reflexivity|].
      unfold GET_NEXT_PTR at 1. rewrite G.
      destruct (Z.eqb_spec (pb + WSIZE) nb) as [E|_].
      { exfalso. apply (far pb nb); auto.
        apply H1L, in_or_app. right. left. reflexivity. }
      apply Z.eqb_neq in Hne. rewrite Hne, Z.eqb_refl. simpl.
      assumption.
Qed.

Lemma NoDup_end (l : list Z) (h : Z) :
  NoDup (l ++ [h]) <-> NoDup l /\ ~ In h l.
Proof.
  split.
  - intros H. pose proof (NoDup_remove l [] h H) as R.
    rewrite app_nil_r in R. assumption.
  - intros [H1 H2]. induction l as [|a l IH]; simpl.
    + repeat constructor. intros [].
    + inversion H1; subst. constructor.
      * intros Hin. apply in_app_or in Hin. destruct Hin as [Hin|[E|[]]].
        -- contradiction.
        -- apply H2. left. congruence.
      * apply IH; [assumption|]. intros Hin. apply H2. right. assumption.
Qed.

End ListLayer.

Section ChainLayer.
Context {abi : arch}.

Lemma GET_SIZE_of_GET (s s' : heap) (x y : Z) :
  GET s' x = GET s y -> GET_SIZE s' x = GET_SIZE s y.
Proof. intros E. rewrite !GET_SIZE_eq, E. reflexivity. Qed.

Lemma GET_ALLOC_of_GET (s s' : heap) (x y : Z) :
  GET s' x = GET s y -> GET_ALLOC s' x = GET_ALLOC s y.
Proof. intros E. rewrite !GET_ALLOC_eq, E. reflexivity. Qed.

Lemma alloc_bit (s : heap) (p : Z) : GET_ALLOC s p = 0 \/ GET_ALLOC s p = 1.
Proof.
  rewrite GET_ALLOC_eq. pose proof (Z.mod_pos_bound (GET s p) 2). lia.
Qed.

(** A chain only depends on the size fields, on the agreement of footers
    with headers and on the epilogue header. *)
Lemma chain_same_sizes (s s' : heap) (b : Z) (bs : list Z) (e : Z) :
  chain s b bs e ->
  (forall d, In d bs ->
     GET_SIZE s' (HDRP d) = GET_SIZE s (HDRP d)
     /\ GET s' (FTRP s d) = GET s' (HDRP d)) ->
  GET s' (HDRP e) = PACK 0 1 ->
  chain s' b bs e.
Proof.
  induction 1 as [e He | b bs e Hmin Hft Hch IH]; intros Hd He'.
  - apply chain_end. assumption.
  - destruct (Hd b (or_introl eq_refl)) as [Es Ef].
    apply chain_block.
    + rewrite Es. assumption.
    + unfold FTRP in *. rewrite Es. assumption.
    + unfold NEXT_BLKP in *. fold (HDRP b) in *. rewrite Es.
      apply IH; [|assumption]. intros d H. apply Hd. right. assumption.
Qed.

Lemma chain_ext (s s' : heap) (b : Z) (bs : list Z) (e : Z) :
  chain s b bs e ->
  (forall d, In d bs ->
     GET s' (HDRP d) = GET s (HDRP d)
     /\ GET s' (FTRP s d) = GET s (FTRP s d)) ->
  GET s' (HDRP e) = GET s (HDRP e) ->
  chain s' b bs e.
Proof.
  intros Hch Hd He. apply (chain_same_sizes s); [assumption| |].
  - intros d Hin. destruct (Hd d Hin) as [E1 E2].
    destruct (chain_facts s _ _ _ Hch d Hin) as (_ & Hf & _).
    split; [apply GET_SIZE_of_GET; assumption|congruence].
  - rewrite He. clear Hd He. induction Hch; assumption.
Qed.

Lemma chain_epilogue (s : heap) (b : Z) (bs : list Z) (e : Z) :
  chain s b bs e -> GET s (HDRP e) = PACK 0 1.
Proof. induction 1; assumption. Qed.

(** Blocks of a chain are a multiple of [DSIZE] apart. *)
Lemma chain_aligned (s : heap) (b : Z) (bs : list Z) (e : Z) :
  chain s b bs e ->
  (e - b) mod DSIZE = 0 /\ forall d, In d bs -> (d - b) mod DSIZE = 0.
Proof.
  induction 1 as [e He | b bs e Hmin Hft Hch [IHe IHd]].
  - split; [rewrite Z.sub_diag; reflexivity|]. intros d [].
  - pose proof (GET_SIZE_is_size s (HDRP b)) as [_ M].
    unfold NEXT_BLKP in *. fold (HDRP b) in *.
    assert (A : forall x, (x - (b + GET_SIZE s (HDRP b))) mod DSIZE = 0 ->
                  (x - b) mod DSIZE = 0).
    { intros x Hx.
      replace (x - b) with ((x - (b + GET_SIZE s (HDRP b)))
                            + GET_SIZE s (HDRP b)) by lia.
      rewrite Zplus_mod, Hx, M. reflexivity. }
    split; [apply A; assumption|].
    intros d [<-|Hd]; [rewrite Z.sub_diag; reflexivity|].
    apply A, IHd. assumption.
Qed.

Lemma chain_nodup (s : heap) (b : Z) (bs : list Z) (e : Z) :
  chain s b bs e -> NoDup bs.
Proof.
  pose proof WSIZE_pos as HW. pose proof DSIZE_eq as HD.
  induction 1 as [e He | b bs e Hmin Hft Hch IH]; constructor; [|assumption].
  intros Hin. destruct (chain_bounds s _ _ _ Hch) as [_ Hb].
  destruct (Hb b Hin) as [Hlo _]. unfold NEXT_BLKP in Hlo.
  fold (HDRP b) in Hlo. lia.
Qed.

(** The link words of a block lie between its header and its footer. *)
Lemma link_inside (s : heap) (b0 : Z) (bs : list Z) (e c : Z) :
  chain s b0 bs e -> In c bs ->
  HDRP c < c /\ c + WSIZE < FTRP s c.
Proof.
  pose proof WSIZE_pos as HW. pose proof DSIZE_eq as HD.
  intros Hch Hc. destruct (chain_facts s _ _ _ Hch c Hc) as (Hmin & _).
  unfold FTRP, HDRP in *. lia.
Qed.

(** A word of the block [b] is no link word of another block. *)
Lemma extent_not_link (s : heap) (b0 : Z) (bs : list Z) (e b c x : Z) :
  chain s b0 bs e -> In b bs -> In c bs -> c <> b ->
  HDRP b <= x < HDRP (NEXT_BLKP s b) ->
  x <> c /\ x <> c + WSIZE.
Proof.
  pose proof WSIZE_pos as HW. pose proof DSIZE_eq as HD.
  intros Hch Hb Hc Hne Hx.
  destruct (chain_facts s _ _ _ Hch c Hc) as (Hmin & _).
  unfold NEXT_BLKP, HDRP in *. fold (HDRP b) in *.
  destruct (Z.lt_total c b) as [Hlt|[Heq|Hgt]]; [|contradiction|].
  - pose proof (chain_order s _ _ _ Hch c b Hc Hb Hlt). unfold HDRP in *. lia.
  - pose proof (chain_order s _ _ _ Hch b c Hb Hc Hgt). unfold HDRP in *. lia.
Qed.

(** Merging the blocks from [lo] up to [hi] into one. *)
Lemma chain_skip (s s' : heap) (lo hi : Z) (x : Z) (l : list Z) (e : Z) :
  chain s x l e -> lo < x <= hi -> In hi l \/ hi = e ->
  (forall d, In d l -> hi <= d ->
     GET_SIZE s' (HDRP d) = GET_SIZE s (HDRP d)
     /\ GET s' (FTRP s d) = GET s' (HDRP d)) ->
  GET s' (HDRP e) = PACK 0 1 ->
  chain s' hi (merged lo hi l) e.
Proof.
  pose proof WSIZE_pos as HW. pose proof DSIZE_eq as HD.
  induction 1 as [e He | x l e Hmin Hft Hch IH]; intros Hx Hhi Hd He'.
  - destruct Hhi as [[]| ->]. simpl. apply chain_end. assumption.
  - destruct (chain_bounds s _ _ _ Hch) as [Hle Hb].
    unfold NEXT_BLKP in *. fold (HDRP x) in *.
    destruct (Z.eq_dec x hi) as [->|Hne].
    + assert (E : merged lo hi (hi :: l) = hi :: l).
      { unfold merged. apply forallb_filter_id. apply forallb_forall.
        intros d [<-|Hin].
        - rewrite (proj2 (Z.leb_le hi hi)) by lia. apply orb_true_r.
        - destruct (Hb d Hin).
          rewrite (proj2 (Z.leb_le hi d)) by lia. apply orb_true_r. }
      rewrite E. apply (chain_same_sizes s).
      * apply chain_block; assumption.
      * intros d Hin. apply Hd; [assumption|].
        destruct Hin as [<-|Hin]; [lia|]. destruct (Hb d Hin). lia.
      * assumption.
    + assert (E : merged lo hi (x :: l) = merged lo hi l).
      { unfold merged. simpl.
        rewrite (proj2 (Z.leb_gt x lo)) by lia.
        rewrite (proj2 (Z.leb_gt hi x)) by lia. reflexivity. }
      rewrite E. apply IH.
      * destruct Hhi as [[Hh|Hh]| ->]; [lia| |lia].
        destruct (Hb hi Hh). lia.
      * destruct Hhi as [[Hh|Hh]| ->]; [lia|auto|auto].
      * intros d Hin. apply Hd. right. assumption.
      * assumption.
Qed.

Lemma chain_merge (s s' : heap) (b0 : Z) (bs : list Z) (e lo hi : Z) :
  chain s b0 bs e -> In lo bs -> lo < hi -> In hi bs \/ hi = e ->
  GET_SIZE s' (HDRP lo) = hi - lo ->
  GET s' (hi - DSIZE) = GET s' (HDRP lo) ->
  (forall d, In d bs -> d < lo \/ hi <= d ->
     GET_SIZE s' (HDRP d) = GET_SIZE s (HDRP d)
     /\ GET s' (FTRP s d) = GET s' (HDRP d)) ->
  GET s' (HDRP e) = PACK 0 1 ->
  chain s' b0 (merged lo hi bs) e.
Proof.
  pose proof WSIZE_pos as HW. pose proof DSIZE_eq as HD.
  induction 1 as [e He | b bs e Hmin Hft Hch IH];
    intros Hlo Hlt Hhi Hsz Hfo Hd He'.
  - destruct Hlo.
  - destruct (chain_bounds s _ _ _ Hch) as [Hle Hb].
    assert (Hnx : NEXT_BLKP s b <= hi \/ hi <= b).
    { destruct Hhi as [[Hh|Hh]| ->]; [lia| |left; assumption].
      destruct (Hb hi Hh). left. lia. }
    unfold NEXT_BLKP in *. fold (HDRP b) in *.
    destruct (Z.eq_dec b lo) as [->|Hne].
    + assert (E : merged lo hi (lo :: bs) = lo :: merged lo hi bs).
      { unfold merged. simpl. rewrite Z.leb_refl. reflexivity. }
      rewrite E. apply chain_block.
      * rewrite Hsz. lia.
      * unfold FTRP. rewrite Hsz.
        replace (lo + (hi - lo) - DSIZE) with (hi - DSIZE) by lia.
        assumption.
      * unfold NEXT_BLKP. fold (HDRP lo). rewrite Hsz.
        replace (lo + (hi - lo)) with hi by lia.
        apply (chain_skip s s' lo hi _ _ _ Hch); [lia| | |assumption].
        -- destruct Hhi as [[Hh|Hh]| ->]; [lia|auto|auto].
        -- intros d Hin Hge. apply Hd; [right; assumption|lia].
    + destruct Hlo as [Hlo|Hlo]; [contradiction|].
      destruct (Hb lo Hlo) as [Hb1 Hb2].
      assert (E : merged lo hi (b :: bs) = b :: merged lo hi bs).
      { unfold merged. simpl.
        rewrite (proj2 (Z.leb_le b lo)) by lia. reflexivity. }
      rewrite E.
      destruct (Hd b (or_introl eq_refl)) as [Es Ef]; [lia|].
      apply chain_block.
      * rewrite Es. assumption.
      * unfold FTRP in *. rewrite Es. assumption.
      * unfold NEXT_BLKP. fold (HDRP b). rewrite Es.
        apply IH; try assumption.
        -- destruct Hhi as [[Hh|Hh]| ->]; [lia|auto|auto].
        -- intros d Hin Hout. apply Hd; [right; assumption|assumption].
Qed.

Lemma In_merged (lo hi d : Z) (bs : list Z) :
  In d (merged lo hi bs) <-> In d bs /\ (d <= lo \/ hi <= d).
Proof.
  unfold merged. rewrite filter_In, orb_true_iff, !Z.leb_le. tauto.
Qed.

Lemma In_unlisted (lo hi d : Z) (fl : list Z) :
  In d (unlisted lo hi fl) <-> In d fl /\ (d < lo \/ hi <= d).
Proof.
  unfold unlisted. rewrite filter_In, orb_true_iff, Z.leb_le, Z.ltb_lt. tauto.
Qed.

End ChainLayer.

Section ListOnChain.
Context {abi : arch}.
Variables (st0 : heap) (b0 : Z) (bs : list Z) (e : Z).
Hypothesis Hch0 : chain st0 b0 bs e.
Hypothesis Hlow0 : 0 < b0.
Hypothesis Hhigh0 : e <= word_modulus.

Lemma block_range (d : Z) : In d bs -> 0 < d < word_modulus.
Proof.
  pose proof WSIZE_pos as HW. pose proof DSIZE_eq as HD.
  intros Hd. destruct (chain_bounds st0 _ _ _ Hch0) as [_ Hb].
  destruct (Hb d Hd). destruct (chain_facts st0 _ _ _ Hch0 d Hd) as (? & _).
  lia.
Qed.

Lemma blocks_spaced (l : list Z) :
  (forall d, In d l -> In d bs) -> spaced l.
Proof.
  intros Hl c d Hc Hd. apply (chain_spaced st0 _ _ _ Hch0); auto.
Qed.

Lemma filter_neq_split (b : Z) (l1 l2 : list Z) :
  ~ In b l1 -> ~ In b l2 ->
  filter (fun c => negb (c =? b)) (l1 ++ b :: l2) = l1 ++ l2.
Proof.
  intros H1 H2.
  assert (F : forall l, ~ In b l -> filter (fun c => negb (c =? b)) l = l).
  { intros l Hl. apply forallb_filter_id, forallb_forall.
    intros x Hx. apply negb_true_iff, Z.eqb_neq. intros ->. contradiction. }
  rewrite filter_app. simpl. rewrite Z.eqb_refl. simpl.
  rewrite !F by assumption. reflexivity.
Qed.

(** Removing a listed block: the list loses it, and only link words of
    blocks are written. *)
Lemma remove_linked (s : heap) (fl : list Z) (b : Z) :
  NoDup (fl ++ [heap_listp s]) ->
  (forall d, In d (fl ++ [heap_listp s]) -> In d bs) ->
  linked s fl -> In b fl ->
  linked (remove_from_free_list s b) (filter (fun c => negb (c =? b)) fl)
  /\ changed_only (link_word (fl ++ [heap_listp s])) s
       (remove_from_free_list s b).
Proof.
  intros Hnd Hsub [Hn Hp] Hb.
  destruct (in_split _ _ Hb) as (l1 & l2 & E). subst fl.
  assert (Hb12 : ~ In b l1 /\ ~ In b l2).
  { rewrite <- app_assoc in Hnd. simpl in Hnd.
    apply NoDup_remove_2 in Hnd. split; intros H; apply Hnd;
      apply in_or_app; [left|right; apply in_or_app; left]; assumption. }
  rewrite filter_neq_split by tauto.
  split.
  - apply remove_links; try assumption.
    + apply blocks_spaced. assumption.
    + intros c Hc. apply block_range, Hsub. assumption.
  - assert (Hpb : GET_PREV_PTR s b = last l1 NULL).
    { apply prev_links_app in Hp. destruct Hp as [Hp _].
      apply prev_links_app in Hp. destruct Hp as [_ Hp]. simpl in Hp. tauto. }
    assert (Hnb : In (GET_NEXT_PTR s b) (l2 ++ [heap_listp s])).
    { apply next_links_app in Hn. destruct Hn as (m & _ & Hn).
      simpl in Hn. destruct Hn as [_ Hn].
      apply next_links_target in Hn. rewrite Hn.
      destruct l2; simpl; auto. }
    apply changed_remove.
    + destruct (list_end l1) as [->|(l1' & a & ->)]; [left; assumption|right].
      rewrite last_last in Hpb.
      exists a. split; [|right; congruence].
      apply in_or_app. left. apply in_or_app. left.
      apply in_or_app. right. left. reflexivity.
    + exists (GET_NEXT_PTR s b). split; [|auto].
      rewrite <- app_assoc. apply in_or_app. right. right.
      assumption.
Qed.

(** Inserting a block that is not listed: it becomes the first entry,
    and only link words of blocks are written. *)
Lemma insert_linked (s : heap) (fl : list Z) (b : Z) :
  NoDup (fl ++ [heap_listp s]) ->
  (forall d, In d (fl ++ [heap_listp s]) -> In d bs) ->
  linked s fl -> In b bs -> ~ In b (fl ++ [heap_listp s]) ->
  linked (insert_in_free_list s b) (b :: fl)
  /\ changed_only (link_word (b :: fl ++ [heap_listp s])) s
       (insert_in_free_list s b).
Proof.
  intros Hnd Hsub [Hn Hp] Hb Hbn.
  assert (Hsub' : forall d, In d (b :: fl ++ [heap_listp s]) -> In d bs).
  { intros d [<-|Hd]; auto. }
  split.
  - apply insert_links; try assumption.
    + constructor; assumption.
    + apply blocks_spaced. assumption.
    + intros c Hc. pose proof (block_range c (Hsub' c Hc)). lia.
  - apply changed_insert.
    + exists b. simpl. auto.
    + exists b. simpl. auto.
    + exists (free_listp s). split; [|auto].
      right. apply next_links_target in Hn. rewrite Hn.
      destruct fl; simpl; auto.
Qed.

End ListOnChain.

Section Neighbours.
Context {abi : arch}.
Variables (st : heap) (b0 : Z) (bs : list Z) (e : Z).
Hypothesis Hch : chain st b0 bs e.

(** The block before a block of the chain, as [coalesce] finds it
    through the footer at [p - DSIZE]. *)
Lemma prev_block (p : Z) :
  In p bs -> p <> b0 ->
  In (PREV_BLKP st p) bs
  /\ PREV_BLKP st p + GET_SIZE st (HDRP (PREV_BLKP st p)) = p
  /\ FTRP st (PREV_BLKP st p) = p - DSIZE
  /\ GET st (p - DSIZE) = GET st (HDRP (PREV_BLKP st p)).
Proof.
  pose proof WSIZE_pos as HW. pose proof DSIZE_eq as HD.
  intros Hp Hne.
  destruct (chain_pred st _ _ _ Hch p Hp Hne) as (q & Hq & Eq).
  destruct (chain_facts st _ _ _ Hch q Hq) as (_ & Hqf & _).
  unfold NEXT_BLKP in Eq. fold (HDRP q) in Eq.
  assert (Ef : FTRP st q = p - DSIZE) by (unfold FTRP; lia).
  rewrite Ef in Hqf.
  assert (Epq : PREV_BLKP st p = q).
  { unfold PREV_BLKP. rewrite (GET_SIZE_of_GET _ _ _ _ Hqf). lia. }
  rewrite Epq. auto.
Qed.

(** What follows a block of the chain: a block, or the epilogue. *)
Lemma next_block (p : Z) :
  In p bs ->
  (In (NEXT_BLKP st p) bs
   /\ NEXT_BLKP st p + GET_SIZE st (HDRP (NEXT_BLKP st p)) <= e)
  \/ (NEXT_BLKP st p = e /\ GET_ALLOC st (HDRP (NEXT_BLKP st p)) = 1
      /\ GET_SIZE st (HDRP (NEXT_BLKP st p)) = 0).
Proof.
  intros Hp. destruct (chain_facts st _ _ _ Hch p Hp) as (_ & _ & [H|[H1 H2]]).
  - left. split; [assumption|].
    destruct (chain_bounds st _ _ _ Hch) as [_ Hb]. apply Hb. assumption.
  - right. rewrite H1. split; [reflexivity|].
    assert (Z0 : is_size 0).
    { split; [|reflexivity]. pose proof (wrap_range 0). lia. }
    destruct (tag_fields st (HDRP e) 0 1 Z0 (or_intror eq_refl) H2).
    auto.
Qed.

(** No block of the chain starts inside another. *)
Lemma block_outside (c d : Z) :
  In c bs -> In d bs -> d < c \/ NEXT_BLKP st c <= d \/ d = c.
Proof.
  pose proof WSIZE_pos as HW. pose proof DSIZE_eq as HD.
  intros Hc Hd. unfold NEXT_BLKP. fold (HDRP c).
  destruct (Z.lt_total d c) as [H|[H|H]]; auto.
  pose proof (chain_order st _ _ _ Hch c d Hc Hd H). auto.
Qed.

(** The header of the epilogue is no link word. *)
Lemma epilogue_not_link : ~ link_word bs (HDRP e).
Proof.
  pose proof WSIZE_pos as HW. pose proof DSIZE_eq as HD.
  intros (c & Hc & Hx).
  destruct (chain_bounds st _ _ _ Hch) as [_ Hb]. destruct (Hb c Hc).
  destruct (chain_facts st _ _ _ Hch c Hc) as (? & _).
  unfold HDRP in *. lia.
Qed.

(** The two words before a block boundary are no link words. *)
Lemma boundary_not_link (hi : Z) :
  In hi bs \/ hi = e ->
  ~ link_word bs (hi - DSIZE) /\ ~ link_word bs (HDRP hi).
Proof.
  pose proof WSIZE_pos as HW. pose proof DSIZE_eq as HD.
  intros Hhi.
  assert (A : forall c, In c bs -> hi <= c \/ c + WSIZE < hi - DSIZE).
  { intros c Hc. destruct (chain_facts st _ _ _ Hch c Hc) as (Hmin & _).
    destruct (chain_bounds st _ _ _ Hch) as [_ Hb]. destruct (Hb c Hc).
    destruct Hhi as [Hh| ->]; [|lia].
    destruct (Z.lt_total c hi) as [Hlt|[Hlt|Hlt]]; [|lia|lia].
    pose proof (chain_order st _ _ _ Hch c hi Hc Hh Hlt). lia. }
  split; intros (c & Hc & Hx); destruct (A c Hc); unfold HDRP in *; lia.
Qed.

Lemma changed_weaken (A B : Z -> Prop) (s s' : heap) :
  (forall x, A x -> B x) -> changed_only A s s' -> changed_only B s s'.
Proof. intros HAB H x Hx. apply HAB, H. assumption. Qed.

End Neighbours.

Section Tags.
Context {abi : arch}.

(** Writing header and footer of a block of size [x], as the code does
    it (the footer at the address that the new header gives). *)
Lemma put_tags (s : heap) (b x al : Z) :
  is_size x -> al = 0 \/ al = 1 -> DSIZE <= x ->
  let s1 := PUT s (HDRP b) (PACK x al) in
  let s2 := PUT s1 (FTRP s1 b) (PACK x al) in
  FTRP s1 b = b + x - DSIZE
  /\ GET s2 (HDRP b) = PACK x al /\ GET s2 (b + x - DSIZE) = PACK x al
  /\ GET_SIZE s2 (HDRP b) = x /\ GET_ALLOC s2 (HDRP b) = al
  /\ (forall y, y <> HDRP b -> y <> b + x - DSIZE -> mem s2 y = mem s y)
  /\ mem_brk s2 = mem_brk s /\ mem_max_addr s2 = mem_max_addr s
  /\ heap_listp s2 = heap_listp s /\ free_listp s2 = free_listp s.
Proof.
  pose proof WSIZE_pos as HW. pose proof DSIZE_eq as HD.
  intros Hx Hal Hge s1 s2.
  assert (E : FTRP s1 b = b + x - DSIZE)
    by (apply FTRP_after_header; assumption).
  assert (G1 : GET s2 (HDRP b) = PACK x al).
  { unfold s2. rewrite E, GET_PUT_other by (unfold HDRP; lia).
    unfold s1. rewrite GET_PUT_same. apply wrap_PACK; assumption. }
  split; [assumption|]. split; [assumption|]. split.
  { unfold s2. rewrite E, GET_PUT_same. apply wrap_PACK; assumption. }
  destruct (tag_fields s2 (HDRP b) x al Hx Hal G1) as [F1 F2].
  split; [assumption|]. split; [assumption|]. split.
  { intros y Y1 Y2. unfold s2. rewrite E.
    rewrite mem_PUT_other by assumption. unfold s1.
    apply mem_PUT_other. assumption. }
  repeat split.
Qed.

End Tags.

Section CoalesceInv.
Context {abi : arch}.
Variables (st : heap) (bs fl : list Z) (p : Z).
Hypothesis Hsh : heap_shape st bs fl.
Hypothesis Hp : In p bs.
Hypothesis Hpf : GET_ALLOC st (HDRP p) = 0.
Hypothesis Hpn : ~ In p fl.
Hypothesis Hag : forall b, In b bs -> b <> p ->
  (GET_ALLOC st (HDRP b) = 0 <-> In b fl).
Hypothesis Hco : forall b, In b bs -> b <> p -> GET_ALLOC st (HDRP b) = 0 ->
  NEXT_BLKP st b = p \/ GET_ALLOC st (HDRP (NEXT_BLKP st b)) = 1.

Lemma listed_blocks (d : Z) : In d (fl ++ [heap_listp st]) -> In d bs.
Proof.
  intros H. apply in_app_or in H. destruct H as [H|[<-|[]]].
  - apply (sh_sub _ _ _ Hsh). assumption.
  - apply (sh_prologue_in _ _ _ Hsh).
Qed.

Lemma listed_link_word (L : list Z) (x : Z) :
  (forall d, In d L -> In d bs) -> link_word L x -> link_word bs x.
Proof. intros HL (c & Hc & Hx). exists c. auto. Qed.

Lemma pending_not_prologue : p <> heap_listp st.
Proof.
  intros E. pose proof (sh_prologue _ _ _ Hsh) as H. rewrite <- E in H.
  congruence.
Qed.

Lemma base_positive : 0 < heap_listp st /\ mem_brk st <= word_modulus.
Proof.
  pose proof WSIZE_pos as HW. pose proof DSIZE_eq as HD.
  pose proof (sh_low _ _ _ Hsh). pose proof (sh_brk _ _ _ Hsh).
  pose proof (sh_max _ _ _ Hsh). lia.
Qed.

(** The last step of [coalesce]: the merged block, with its tags
    written, goes to the head of the list. *)
Lemma coalesce_finish (sC : heap) (lo hi : Z) :
  heap_listp sC = heap_listp st -> mem_brk sC = mem_brk st ->
  mem_max_addr sC = mem_max_addr st ->
  In lo bs -> lo <= p < hi -> In hi bs \/ hi = mem_brk st ->
  lo <> heap_listp st ->
  linked sC (unlisted lo hi fl) ->
  GET_SIZE sC (HDRP lo) = hi - lo -> GET_ALLOC sC (HDRP lo) = 0 ->
  GET sC (hi - DSIZE) = GET sC (HDRP lo) ->
  (forall x, ~ link_word bs x -> x <> HDRP lo -> x <> hi - DSIZE ->
     GET sC x = GET st x) ->
  GET_ALLOC st (HDRP lo) = 0 -> GET_ALLOC st (HDRP hi) = 1 ->
  (forall b, In b bs -> b <> lo -> GET_ALLOC st (HDRP b) = 0 ->
     NEXT_BLKP st b <> p) ->
  heap_inv (insert_in_free_list sC lo) (merged lo hi bs)
    (lo :: unlisted lo hi fl)
  /\ GET_SIZE (insert_in_free_list sC lo) (HDRP lo) = hi - lo
  /\ changed_only (frame_of_free (fl ++ [heap_listp st]) lo hi) sC
       (insert_in_free_list sC lo).
Proof.
  pose proof WSIZE_pos as HW. pose proof DSIZE_eq as HD.
  intros Ehl Ebrk Emax Hlo Hin Hhi Hlohl Hlk Hsz Hal Hft Hfr Hlof Hhi1 Hpred.
  destruct Hsh as [Hch Hpin Hlow Hbrk Hmax Hpro Hlinked Hnd Hsub].
  destruct base_positive as [Hpos Hhigh].
  set (flB := unlisted lo hi fl) in *.
  set (s' := insert_in_free_list sC lo).
  assert (HflB : forall d, In d flB -> In d fl).
  { intros d Hd. apply In_unlisted in Hd. tauto. }
  assert (HsubB : forall d, In d (flB ++ [heap_listp sC]) -> In d bs).
  { intros d Hd. rewrite Ehl in Hd. apply listed_blocks.
    apply in_app_or in Hd. apply in_or_app.
    destruct Hd; [left; apply HflB|right]; assumption. }
  assert (HndB : NoDup (flB ++ [heap_listp sC])).
  { rewrite Ehl. apply NoDup_end in Hnd. destruct Hnd as [Hnd1 Hnd2].
    apply NoDup_end. split; [apply NoDup_filter; assumption|].
    intros Hd. apply Hnd2, HflB. assumption. }
  assert (HloB : ~ In lo (flB ++ [heap_listp sC])).
  { rewrite Ehl. intros Hd. apply in_app_or in Hd.
    destruct Hd as [Hd|[Hd|[]]]; [|congruence].
    apply In_unlisted in Hd. lia. }
  destruct (insert_linked st _ bs _ Hch Hpos Hhigh sC flB lo
              HndB HsubB Hlk Hlo HloB) as [Hlk' Hch'].
  fold s' in Hlk', Hch'.
  (* a word that is no link word reads as before the insertion *)
  assert (Hins : forall x, ~ link_word bs x -> GET s' x = GET sC x).
  { intros x Hx. apply GET_ext.
    apply (changed_only_eq _ _ _ _ Hch'). intros Hl. apply Hx.
    revert Hl. apply listed_link_word.
    intros d [<-|Hd]; auto. }
  assert (Hlo2 : lo + 2 * DSIZE <= hi /\ heap_listp st <= lo /\ hi <= mem_brk st).
  { destruct (chain_facts st _ _ _ Hch lo Hlo) as (Hmin & _).
    destruct (chain_bounds st _ _ _ Hch) as [_ Hb]. destruct (Hb lo Hlo).
    destruct Hhi as [Hh| ->]; [|lia]. destruct (Hb hi Hh).
    assert (Hlt : lo < hi) by lia.
    pose proof (chain_order st _ _ _ Hch lo hi Hlo Hh Hlt).
    destruct (chain_facts st _ _ _ Hch hi Hh) as (? & _). lia. }
  destruct (tag_not_link st _ _ _ lo Hch Hlo) as [Tlo _].
  destruct (boundary_not_link st _ _ _ Hch hi Hhi) as [Thi _].
  assert (Hout : forall d, In d bs -> d < lo \/ hi <= d ->
            GET s' (HDRP d) = GET st (HDRP d)
            /\ GET s' (FTRP st d) = GET st (FTRP st d)).
  { intros d Hd Ho.
    destruct (tag_not_link st _ _ _ d Hch Hd) as [T1 T2].
    destruct (chain_facts st _ _ _ Hch d Hd) as (Hmin & _).
    rewrite !Hins by assumption.
    assert (d < lo -> d + GET_SIZE st (HDRP d) <= lo)
      by (apply (chain_order st _ _ _ Hch); assumption).
    split; apply Hfr; try assumption; unfold FTRP, HDRP in *; lia. }
  assert (He : GET s' (HDRP (mem_brk st)) = PACK 0 1).
  { rewrite Hins by (apply (epilogue_not_link st _ _ _ Hch)).
    rewrite Hfr.
    - apply (chain_epilogue st _ _ _ Hch).
    - apply (epilogue_not_link st _ _ _ Hch).
    - unfold HDRP. lia.
    - unfold HDRP. lia. }
  assert (Hsz' : GET_SIZE s' (HDRP lo) = hi - lo).
  { rewrite <- Hsz. apply GET_SIZE_of_GET, Hins. assumption. }
  assert (Hal' : GET_ALLOC s' (HDRP lo) = 0).
  { rewrite <- Hal. apply GET_ALLOC_of_GET, Hins. assumption. }
  assert (Hchain : chain s' (heap_listp st) (merged lo hi bs) (mem_brk st)).
  { apply (chain_merge st); try assumption; try lia.
    - rewrite !Hins by assumption. assumption.
    - intros d Hd Ho. destruct (Hout d Hd Ho) as [E1 E2].
      destruct (chain_facts st _ _ _ Hch d Hd) as (_ & Hf & _).
      split; [apply GET_SIZE_of_GET; assumption|congruence]. }
  split; [|split; [assumption|]].
  - split.
    + assert (F1 : heap_listp s' = heap_listp st) by exact Ehl.
      assert (F2 : mem_brk s' = mem_brk st) by exact Ebrk.
      assert (F3 : mem_max_addr s' = mem_max_addr st) by exact Emax.
      constructor; rewrite ?F1, ?F2, ?F3.
      * exact Hchain.
      * apply In_merged. split; [assumption|]. left. tauto.
      * assumption.
      * lia.
      * lia.
      * destruct (Hout (heap_listp st) Hpin) as [E _]; [lia|].
        rewrite (GET_ALLOC_of_GET _ _ _ _ E). assumption.
      * exact Hlk'.
      * rewrite Ehl in HndB, HloB. simpl. constructor; assumption.
      * intros b [<-|Hb]; apply In_merged.
        -- split; [assumption|lia].
        -- apply In_unlisted in Hb. destruct Hb as [Hb Ho].
           split; [auto|lia].
    + split.
      { intros b Hb. apply In_merged in Hb. destruct Hb as [Hb Ho].
        destruct (Z.eq_dec b lo) as [->|Hne].
        * split; [intros _; left; reflexivity|intros _; assumption].
        * assert (Ho' : b < lo \/ hi <= b) by lia.
          destruct (Hout b Hb Ho') as [E _].
          rewrite (GET_ALLOC_of_GET _ _ _ _ E).
          assert (Hbp : b <> p) by lia.
          rewrite (Hag b Hb Hbp). split.
          -- intros Hf. right. apply In_unlisted. auto.
          -- intros [E'|Hf]; [congruence|]. apply HflB. assumption. }
      (* no two free blocks are adjacent *)
      assert (Hbd : forall c, In c bs \/ c = mem_brk st ->
                c <= lo \/ hi <= c -> c <> lo ->
                GET s' (HDRP c) = GET st (HDRP c)).
      { intros c Hc Ho Hcl.
        destruct (boundary_not_link st _ _ _ Hch c Hc) as [_ Tc].
        rewrite Hins by assumption. apply Hfr; [assumption| |];
          unfold HDRP; lia. }
      intros b Hb Hbf. apply In_merged in Hb. destruct Hb as [Hb Ho].
      destruct (Z.eq_dec b lo) as [->|Hne].
      * unfold NEXT_BLKP. fold (HDRP lo). rewrite Hsz'.
        replace (lo + (hi - lo)) with hi by lia.
        rewrite (GET_ALLOC_of_GET _ _ _ _ (Hbd hi Hhi (or_intror (Z.le_refl _))
                                             ltac:(lia))).
        assumption.
      * assert (Ho' : b < lo \/ hi <= b) by lia.
        destruct (Hout b Hb Ho') as [E _].
        rewrite (GET_ALLOC_of_GET _ _ _ _ E) in Hbf.
        assert (En : NEXT_BLKP s' b = NEXT_BLKP st b).
        { unfold NEXT_BLKP. fold (HDRP b).
          rewrite (GET_SIZE_of_GET _ _ _ _ E). reflexivity. }
        rewrite En.
        assert (Hbp : b <> p) by lia.
        destruct (Hco b Hb Hbp Hbf) as [Ec|Ec];
          [contradiction (Hpred b Hb Hne Hbf)|].
        destruct (chain_facts st _ _ _ Hch b Hb) as (Hbmin & _ & Hnx).
        assert (Hc : In (NEXT_BLKP st b) bs \/ NEXT_BLKP st b = mem_brk st)
          by tauto.
        assert (Hcpos : NEXT_BLKP st b <= lo \/ hi <= NEXT_BLKP st b).
        { destruct Ho' as [L|L].
          - left. unfold NEXT_BLKP. fold (HDRP b).
            apply (chain_order st _ _ _ Hch); assumption.
          - right. unfold NEXT_BLKP. fold (HDRP b). lia. }
        rewrite (GET_ALLOC_of_GET _ _ _ _ (Hbd _ Hc Hcpos ltac:(congruence))).
        assumption.
  - revert Hch'. apply changed_weaken.
    intros x (c & [<-|Hc] & Hx).
    + left. unfold HDRP. lia.
    + right. exists c. split; [|assumption].
      rewrite Ehl in Hc. apply in_app_or in Hc. apply in_or_app.
      destruct Hc; [left; apply HflB|right]; assumption.
Qed.

Lemma linked_ext (s s' : heap) (l : list Z) :
  free_listp s' = free_listp s -> heap_listp s' = heap_listp s ->
  (forall x, link_word (l ++ [heap_listp s]) x -> GET s' x = GET s x) ->
  linked s l -> linked s' l.
Proof.
  intros Ef Eh Hx [Hn Hq]. unfold linked. rewrite Ef, Eh. split.
  - apply (next_links_ext s); [|assumption].
    intros c Hc. apply Hx. exists c. split; [|auto].
    apply in_or_app. auto.
  - apply (prev_links_ext s); [|assumption].
    intros c Hc. apply Hx. exists c. auto.
Qed.

(** One removal on the way: the list loses the block, the words that
    are no link words keep their values. *)
Lemma coalesce_unlink (sX : heap) (flX : list Z) (x lo hi : Z) :
  heap_listp sX = heap_listp st ->
  NoDup (flX ++ [heap_listp st]) -> (forall d, In d flX -> In d fl) ->
  linked sX flX -> In x flX ->
  (forall y, ~ link_word bs y -> GET sX y = GET st y) ->
  linked (remove_from_free_list sX x) (filter (fun c => negb (c =? x)) flX)
  /\ (forall y, ~ link_word bs y ->
        GET (remove_from_free_list sX x) y = GET st y)
  /\ changed_only (frame_of_free (fl ++ [heap_listp st]) lo hi) sX
       (remove_from_free_list sX x)
  /\ heap_listp (remove_from_free_list sX x) = heap_listp st
  /\ NoDup (filter (fun c => negb (c =? x)) flX ++ [heap_listp st])
  /\ (forall d, In d (filter (fun c => negb (c =? x)) flX) -> In d fl).
Proof.
  intros Ehl Hnd Hsub Hlk Hx Hfr.
  assert (Hnd' : NoDup (filter (fun c => negb (c =? x)) flX
                        ++ [heap_listp st])).
  { apply NoDup_end in Hnd. destruct Hnd as [N1 N2]. apply NoDup_end.
    split; [apply NoDup_filter; assumption|].
    intros H. apply filter_In in H. tauto. }
  assert (Hsub' : forall d, In d (filter (fun c => negb (c =? x)) flX) ->
                    In d fl).
  { intros d H. apply filter_In in H. apply Hsub. tauto. }
  assert (Ehl' : heap_listp (remove_from_free_list sX x) = heap_listp st).
  { rewrite (proj2 (proj2 (proj2 (remove_fields sX x)))). assumption. }
  destruct base_positive as [Hpos Hhigh].
  assert (HsubX : forall d, In d (flX ++ [heap_listp st]) ->
                    In d (fl ++ [heap_listp st])).
  { intros d Hd. apply in_app_or in Hd. apply in_or_app.
    destruct Hd; [left; apply Hsub|right]; assumption. }
  rewrite <- Ehl in Hnd.
  destruct (remove_linked st _ bs _ (sh_chain _ _ _ Hsh) Hpos Hhigh
              sX flX x Hnd) as [H1 H2]; try assumption.
  { intros d Hd. rewrite Ehl in Hd. apply listed_blocks, HsubX. assumption. }
  rewrite Ehl in H2.
  assert (H3 : changed_only (link_word (fl ++ [heap_listp st])) sX
                 (remove_from_free_list sX x)).
  { revert H2. apply changed_weaken. intros y (c & Hc & Hy).
    exists c. auto. }
  split; [assumption|]. split.
  { intros y Hy. rewrite <- Hfr by assumption. apply GET_ext.
    apply (changed_only_eq _ _ _ _ H3). intros Hl. apply Hy.
    revert Hl. apply listed_link_word. apply listed_blocks. }
  split; [|auto].
  revert H3. apply changed_weaken. intros y Hy. right. assumption.
Qed.

(** The tags of the merged block, written between the removals and the
    insertion. *)
Lemma coalesce_retag (sB : heap) (flB : list Z) (lo hi : Z) :
  heap_listp sB = heap_listp st ->
  (forall d, In d flB -> In d fl) -> linked sB flB ->
  (forall y, ~ link_word bs y -> GET sB y = GET st y) ->
  In lo bs -> lo + DSIZE <= hi -> In hi bs \/ hi = mem_brk st ->
  let s1 := PUT sB (HDRP lo) (PACK (hi - lo) 0) in
  let sC := PUT s1 (FTRP s1 lo) (PACK (hi - lo) 0) in
  heap_listp sC = heap_listp st /\ mem_brk sC = mem_brk sB
  /\ mem_max_addr sC = mem_max_addr sB
  /\ linked sC flB
  /\ GET_SIZE sC (HDRP lo) = hi - lo /\ GET_ALLOC sC (HDRP lo) = 0
  /\ GET sC (hi - DSIZE) = GET sC (HDRP lo)
  /\ (forall x, ~ link_word bs x -> x <> HDRP lo -> x <> hi - DSIZE ->
        GET sC x = GET st x)
  /\ changed_only (frame_of_free (fl ++ [heap_listp st]) lo hi) sB sC.
Proof.
  pose proof WSIZE_pos as HW. pose proof DSIZE_eq as HD.
  intros Ehl Hsub Hlk Hfr Hlo Hlt Hhi s1 sC.
  destruct base_positive as [Hpos Hhigh].
  pose proof (sh_chain _ _ _ Hsh) as Hch.
  assert (Hsize : is_size (hi - lo)).
  { destruct (chain_aligned st _ _ _ Hch) as [A1 A2].
    destruct (chain_bounds st _ _ _ Hch) as [_ Hb]. destruct (Hb lo Hlo).
    assert (hi <= mem_brk st).
    { destruct Hhi as [Hh| ->]; [|lia]. destruct (Hb hi Hh).
      destruct (chain_facts st _ _ _ Hch hi Hh) as (? & _). lia. }
    split; [lia|].
    replace (hi - lo) with ((hi - heap_listp st) - (lo - heap_listp st)) by lia.
    rewrite Zminus_mod, (A2 lo Hlo).
    destruct Hhi as [Hh| ->]; [rewrite (A2 hi Hh)|rewrite A1]; reflexivity. }
  assert (Hge : DSIZE <= hi - lo) by lia.
  destruct (put_tags sB lo (hi - lo) 0 Hsize (or_introl eq_refl) Hge)
    as (E & G1 & G2 & G3 & G4 & G5 & F1 & F2 & F3 & F4).
  fold s1 in E, G1, G2, G3, G4, G5, F1, F2, F3, F4.
  fold sC in G1, G2, G3, G4, G5, F1, F2, F3, F4.
  replace (lo + (hi - lo) - DSIZE) with (hi - DSIZE) in * by lia.
  destruct (tag_not_link st _ _ _ lo Hch Hlo) as [Tlo _].
  destruct (boundary_not_link st _ _ _ Hch hi Hhi) as [Thi _].
  split; [congruence|]. split; [assumption|]. split; [assumption|].
  split.
  { apply (linked_ext sB); try assumption.
    intros x Hx. apply GET_ext, G5.
    - intros ->. apply Tlo. revert Hx. apply listed_link_word.
      intros d Hd. rewrite Ehl in Hd. apply listed_blocks.
      apply in_app_or in Hd. apply in_or_app.
      destruct Hd; [left; apply Hsub|right]; assumption.
    - intros ->. apply Thi. revert Hx. apply listed_link_word.
      intros d Hd. rewrite Ehl in Hd. apply listed_blocks.
      apply in_app_or in Hd. apply in_or_app.
      destruct Hd; [left; apply Hsub|right]; assumption. }
  split; [assumption|]. split; [assumption|]. split; [congruence|].
  split.
  { intros x X1 X2 X3. rewrite <- Hfr by assumption.
    apply GET_ext, G5; assumption. }
  intros x Hx. left.
  destruct (Z.eq_dec x (HDRP lo)) as [->|N1]; [unfold HDRP; lia|].
  destruct (Z.eq_dec x (hi - DSIZE)) as [->|N2]; [unfold HDRP; lia|].
  contradiction Hx. apply G5; assumption.
Qed.

Lemma filter_both (f g h : Z -> bool) (l : list Z) :
  (forall d, In d l -> f d && g d = h d) ->
  filter f (filter g l) = filter h l.
Proof.
  induction l as [|a l IH]; intros H; [reflexivity|].
  simpl. pose proof (H a (or_introl eq_refl)) as Ha.
  assert (IH' := IH (fun d Hd => H d (or_intror Hd))).
  destruct (g a); simpl; destruct (h a), (f a); simpl in *; try discriminate;
    rewrite IH'; reflexivity.
Qed.

(** [coalesce] on a heap that has its shape, for a block [p] that is
    marked free and not yet listed, all other blocks being listed
    exactly when free: the result is the block [lo] made of [p] and its
    free neighbours, the heap satisfies the invariant with the merged
    blocks as one block at the head of the list, and only words of the
    merged block and link words of listed blocks have been written. *)
Lemma coalesce_inv :
  let q := PREV_BLKP st p in
  let n := NEXT_BLKP st p in
  let lo := if GET_ALLOC st (HDRP q) =? 0 then q else p in
  let hi := if GET_ALLOC st (HDRP n) =? 0 then NEXT_BLKP st n else n in
  fst (coalesce st p) = lo
  /\ heap_inv (snd (coalesce st p)) (merged lo hi bs)
       (lo :: unlisted lo hi fl)
  /\ GET_SIZE (snd (coalesce st p)) (HDRP lo) = hi - lo
  /\ changed_only (frame_of_free (fl ++ [heap_listp st]) lo hi) st
       (snd (coalesce st p)).
Proof.
  pose proof WSIZE_pos as HW. pose proof DSIZE_eq as HD.
  intros q n lo hi.
  pose proof (sh_chain _ _ _ Hsh) as Hch.
  destruct base_positive as [Hpos Hhigh].
  destruct (prev_block st _ _ _ Hch p Hp pending_not_prologue)
    as (Hq & Eq & Efq & Egq).
  fold q in Hq, Eq, Efq, Egq.
  pose proof (next_block st _ _ _ Hch p Hp) as Hn. fold n in Hn.
  destruct (chain_facts st _ _ _ Hch p Hp) as (Hmin & Hpft & _).
  destruct (chain_facts st _ _ _ Hch q Hq) as (Hqmin & _ & _).
  destruct (chain_bounds st _ _ _ Hch) as [_ Hbnd].
  destruct (Hbnd q Hq) as [Hqlo _]. destruct (Hbnd p Hp) as [_ Hphi].
  set (sz := GET_SIZE st (HDRP p)) in *.
  set (psz := GET_SIZE st (HDRP q)) in *.
  set (nsz := GET_SIZE st (HDRP n)) in *.
  assert (En : n = p + sz) by reflexivity.
  assert (Enf : FTRP st p = n - DSIZE) by (unfold FTRP; fold sz; lia).
  assert (EB2 : GET_ALLOC st (FTRP st (PREV_BLKP st p))
                = GET_ALLOC st (HDRP q)).
  { fold q. rewrite Efq. apply GET_ALLOC_of_GET. assumption. }
  assert (Hnd : NoDup (fl ++ [heap_listp st])) by apply (sh_nodup _ _ _ Hsh).
  assert (Hfr0 : forall y, ~ link_word bs y -> GET st y = GET st y)
    by reflexivity.
  assert (Hsub0 : forall d, In d fl -> In d fl) by auto.
  assert (Hcls : forall d, In d fl ->
            (d < q \/ d = q \/ n <= d)
            /\ (In n bs -> d < n \/ d = n \/ NEXT_BLKP st n <= d)).
  { intros d Hd. pose proof (sh_sub _ _ _ Hsh d Hd) as Hdb.
    assert (d <> p) by (intros ->; contradiction).
    pose proof (block_outside st _ _ _ Hch q d Hq Hdb) as O1.
    pose proof (block_outside st _ _ _ Hch p d Hp Hdb) as O2.
    unfold NEXT_BLKP in O1, O2. fold (HDRP q) (HDRP p) in O1, O2.
    fold sz psz in O1, O2.
    split; [lia|]. intros Hnb.
    pose proof (block_outside st _ _ _ Hch n d Hnb Hdb). lia. }
  assert (Hqp : q <> p) by lia.
  assert (Hpredq : forall b, In b bs -> NEXT_BLKP st b = p -> b = q).
  { intros b Hb Eb.
    pose proof (block_outside st _ _ _ Hch q b Hq Hb) as O1.
    pose proof (block_outside st _ _ _ Hch b q Hb Hq) as O2.
    destruct (chain_facts st _ _ _ Hch b Hb) as (? & _).
    unfold NEXT_BLKP in *. fold (HDRP q) (HDRP b) in *. fold psz in O1. lia. }
  assert (Hnn1 : In n bs -> GET_ALLOC st (HDRP n) = 0 ->
            GET_ALLOC st (HDRP (NEXT_BLKP st n)) = 1).
  { intros Hnb A. destruct (Hco n Hnb) as [E|E]; try assumption; [lia|].
    destruct (chain_facts st _ _ _ Hch n Hnb) as (? & _).
    unfold NEXT_BLKP in E. fold (HDRP n) in E. lia. }
  unfold coalesce. rewrite EB2. fold n q sz. subst lo hi.
  destruct (GET_ALLOC st (HDRP n) =? 0) eqn:An;
    destruct (GET_ALLOC st (HDRP q) =? 0) eqn:Aq;
    cbn [negb andb]; cbv zeta; cbn [fst snd].
  4:{ (* both neighbours allocated *)
    split; [reflexivity|].
    assert (Hhi : In n bs \/ n = mem_brk st) by tauto.
    assert (EL : unlisted p n fl = fl).
    { apply forallb_filter_id, forallb_forall. intros d Hd.
      destruct (Hcls d Hd) as [C1 _].
      apply orb_true_iff. rewrite Z.ltb_lt, Z.leb_le. lia. }
    assert (X1 : p <= p < n) by lia.
    assert (X2 : linked st (unlisted p n fl))
      by (rewrite EL; apply (sh_linked _ _ _ Hsh)).
    assert (X3 : GET_SIZE st (HDRP p) = n - p) by (fold sz; lia).
    assert (X4 : GET st (n - DSIZE) = GET st (HDRP p))
      by (rewrite <- Enf; assumption).
    apply Z.eqb_neq in An, Aq.
    apply (coalesce_finish st p n eq_refl eq_refl eq_refl Hp X1 Hhi
             pending_not_prologue X2 X3 Hpf X4); try assumption.
    - auto.
    - destruct (alloc_bit st (HDRP n)); [contradiction|assumption].
    - intros b Hb Hbp Hbf Eb. apply Aq.
      rewrite <- (Hpredq b Hb Eb). assumption. }
  - (* both neighbours free *)
    fold psz nsz.
    assert (Hnb : In n bs /\ n + nsz <= mem_brk st).
    { destruct Hn as [?|(_ & A & _)]; [assumption|].
      apply Z.eqb_eq in An. congruence. }
    destruct Hnb as [Hnb Hnfit].
    destruct (chain_facts st _ _ _ Hch n Hnb) as (Hnmin & _ & Hnn).
    fold nsz in Hnmin.
    set (hi := NEXT_BLKP st n) in *.
    assert (Ehi : hi = n + nsz) by reflexivity.
    assert (Hhi : In hi bs \/ hi = mem_brk st) by tauto.
    apply Z.eqb_eq in An, Aq.
    assert (Hqfl : In q fl) by (apply (Hag q Hq Hqp); assumption).
    assert (Hnfl : In n fl).
    { apply (Hag n Hnb); [lia|assumption]. }
    destruct (tag_not_link st _ _ _ p Hch Hp) as [Tp _].
    destruct (tag_not_link st _ _ _ q Hch Hq) as [_ Tq]. rewrite Efq in Tq.
    (* the two removals *)
    destruct (coalesce_unlink st fl q q hi eq_refl Hnd Hsub0
                (sh_linked _ _ _ Hsh) Hqfl Hfr0)
      as (L1 & G1 & C1 & E1 & N1 & S1).
    set (s1 := remove_from_free_list st q) in *.
    set (fl1 := filter (fun c => negb (c =? q)) fl) in *.
    assert (En1 : NEXT_BLKP s1 p = n).
    { unfold NEXT_BLKP. fold (HDRP p).
      rewrite (GET_SIZE_of_GET _ _ _ _ (G1 _ Tp)). reflexivity. }
    rewrite En1.
    assert (Hnfl1 : In n fl1).
    { apply filter_In. split; [assumption|].
      apply negb_true_iff, Z.eqb_neq. lia. }
    destruct (coalesce_unlink s1 fl1 n q hi E1 N1 S1 L1 Hnfl1 G1)
      as (L2 & G2 & C2 & E2 & N2 & S2).
    set (s2 := remove_from_free_list s1 n) in *.
    set (fl2 := filter (fun c => negb (c =? n)) fl1) in *.
    assert (Eq2 : PREV_BLKP s2 p = q).
    { unfold PREV_BLKP.
      rewrite (GET_SIZE_of_GET _ _ _ _ (G2 _ Tq)). reflexivity. }
    rewrite Eq2.
    assert (Esize : wrap (sz + wrap (psz + nsz)) = hi - q).
    { rewrite (wrap_small (psz + nsz)) by lia. rewrite wrap_small; lia. }
    rewrite Esize.
    (* the tags *)
    assert (Hlt : q + DSIZE <= hi) by lia.
    destruct (coalesce_retag s2 fl2 q hi E2 S2 L2 G2 Hq Hlt Hhi)
      as (E3 & B3 & M3 & L3 & Z3 & A3 & T3 & G3 & C3).
    set (sC := PUT (PUT s2 (HDRP q) (PACK (hi - q) 0))
                 (FTRP (PUT s2 (HDRP q) (PACK (hi - q) 0)) q)
                 (PACK (hi - q) 0)) in *.
    assert (EL : fl2 = unlisted q hi fl).
    { apply filter_both. intros d Hd. destruct (Hcls d Hd) as [K1 K2].
      specialize (K2 Hnb). fold hi in K2.
      destruct (Z.eqb_spec d n), (Z.eqb_spec d q), (Z.ltb_spec d q),
        (Z.leb_spec hi d); simpl; try reflexivity; lia. }
    rewrite EL in L3.
    assert (X1 : q <= p < hi) by lia.
    assert (Hqhl : q <> heap_listp st).
    { intros E. pose proof (sh_prologue _ _ _ Hsh). congruence. }
    assert (Eb : mem_brk sC = mem_brk st).
    { rewrite B3. unfold s2, s1.
      rewrite !(proj1 (proj2 (remove_fields _ _))). reflexivity. }
    assert (Em : mem_max_addr sC = mem_max_addr st).
    { rewrite M3. unfold s2, s1.
      rewrite !(proj1 (proj2 (proj2 (remove_fields _ _)))). reflexivity. }
    assert (Y1 : GET_ALLOC st (HDRP hi) = 1) by (apply Hnn1; assumption).
    assert (Y2 : forall b, In b bs -> b <> q -> GET_ALLOC st (HDRP b) = 0 ->
              NEXT_BLKP st b <> p).
    { intros b Hb Hbq _ Enb. apply Hbq, Hpredq; assumption. }
    destruct (coalesce_finish sC q hi E3 Eb Em Hq X1 Hhi Hqhl L3 Z3 A3 T3 G3
                Aq Y1 Y2)
      as (I1 & I2 & I3).
    split; [reflexivity|]. split; [assumption|]. split; [assumption|].
    apply (changed_trans _ st sC); [|assumption].
    apply (changed_trans _ st s2); [|assumption].
    apply (changed_trans _ st s1); assumption.
  - (* only the next block free *)
    fold nsz.
    assert (Hnb : In n bs /\ n + nsz <= mem_brk st).
    { destruct Hn as [?|(_ & A & _)]; [assumption|].
      apply Z.eqb_eq in An. congruence. }
    destruct Hnb as [Hnb Hnfit].
    destruct (chain_facts st _ _ _ Hch n Hnb) as (Hnmin & _ & Hnn).
    fold nsz in Hnmin.
    set (hi := NEXT_BLKP st n) in *.
    assert (Ehi : hi = n + nsz) by reflexivity.
    assert (Hhi : In hi bs \/ hi = mem_brk st) by tauto.
    apply Z.eqb_eq in An. apply Z.eqb_neq in Aq.
    assert (Hnfl : In n fl).
    { apply (Hag n Hnb); [lia|assumption]. }
    assert (Hqfl : ~ In q fl).
    { intros H. apply Aq. apply (Hag q Hq Hqp). assumption. }
    destruct (coalesce_unlink st fl n p hi eq_refl Hnd Hsub0
                (sh_linked _ _ _ Hsh) Hnfl Hfr0)
      as (L1 & G1 & C1 & E1 & N1 & S1).
    set (s1 := remove_from_free_list st n) in *.
    set (fl1 := filter (fun c => negb (c =? n)) fl) in *.
    assert (Esize : wrap (sz + nsz) = hi - p) by (rewrite wrap_small; lia).
    rewrite Esize.
    assert (Hlt : p + DSIZE <= hi) by lia.
    destruct (coalesce_retag s1 fl1 p hi E1 S1 L1 G1 Hp Hlt Hhi)
      as (E3 & B3 & M3 & L3 & Z3 & A3 & T3 & G3 & C3).
    set (sC := PUT (PUT s1 (HDRP p) (PACK (hi - p) 0))
                 (FTRP (PUT s1 (HDRP p) (PACK (hi - p) 0)) p)
                 (PACK (hi - p) 0)) in *.
    assert (EL : fl1 = unlisted p hi fl).
    { apply filter_ext_in. intros d Hd. destruct (Hcls d Hd) as [K1 K2].
      specialize (K2 Hnb). fold hi in K2.
      assert (d <> q) by (intros ->; contradiction).
      destruct (Z.eqb_spec d n), (Z.ltb_spec d p),
        (Z.leb_spec hi d); simpl; try reflexivity; lia. }
    rewrite EL in L3.
    assert (X1 : p <= p < hi) by lia.
    assert (Eb : mem_brk sC = mem_brk st).
    { rewrite B3. unfold s1.
      rewrite !(proj1 (proj2 (remove_fields _ _))). reflexivity. }
    assert (Em : mem_max_addr sC = mem_max_addr st).
    { rewrite M3. unfold s1.
      rewrite !(proj1 (proj2 (proj2 (remove_fields _ _)))). reflexivity. }
    assert (Y1 : GET_ALLOC st (HDRP hi) = 1) by (apply Hnn1; assumption).
    assert (Y2 : forall b, In b bs -> b <> p -> GET_ALLOC st (HDRP b) = 0 ->
              NEXT_BLKP st b <> p).
    { intros b Hb _ Hbf Enb. apply Aq.
      rewrite <- (Hpredq b Hb Enb). assumption. }
    destruct (coalesce_finish sC p hi E3 Eb Em Hp X1 Hhi
                pending_not_prologue L3 Z3 A3 T3 G3 Hpf Y1 Y2)
      as (I1 & I2 & I3).
    split; [reflexivity|]. split; [assumption|]. split; [assumption|].
    apply (changed_trans _ st sC); [|assumption].
    apply (changed_trans _ st s1); assumption.
  - (* only the previous block free *)
    fold psz.
    assert (Hhi : In n bs \/ n = mem_brk st) by tauto.
    apply Z.eqb_eq in Aq. apply Z.eqb_neq in An.
    assert (Hqfl : In q fl) by (apply (Hag q Hq Hqp); assumption).
    assert (Hnfl : ~ In n fl).
    { intros H. apply An. apply (Hag n); [|lia|assumption].
      apply (sh_sub _ _ _ Hsh). assumption. }
    destruct (coalesce_unlink st fl q q n eq_refl Hnd Hsub0
                (sh_linked _ _ _ Hsh) Hqfl Hfr0)
      as (L1 & G1 & C1 & E1 & N1 & S1).
    set (s1 := remove_from_free_list st q) in *.
    set (fl1 := filter (fun c => negb (c =? q)) fl) in *.
    assert (Esize : wrap (sz + psz) = n - q) by (rewrite wrap_small; lia).
    rewrite Esize.
    assert (Hlt : q + DSIZE <= n) by lia.
    destruct (coalesce_retag s1 fl1 q n E1 S1 L1 G1 Hq Hlt Hhi)
      as (E3 & B3 & M3 & L3 & Z3 & A3 & T3 & G3 & C3).
    set (sC := PUT (PUT s1 (HDRP q) (PACK (n - q) 0))
                 (FTRP (PUT s1 (HDRP q) (PACK (n - q) 0)) q)
                 (PACK (n - q) 0)) in *.
    assert (EL : fl1 = unlisted q n fl).
    { apply filter_ext_in. intros d Hd. destruct (Hcls d Hd) as [K1 K2].
      destruct (Z.eqb_spec d q), (Z.ltb_spec d q),
        (Z.leb_spec n d); simpl; try reflexivity; lia. }
    rewrite EL in L3.
    assert (X1 : q <= p < n) by lia.
    assert (Hqhl : q <> heap_listp st).
    { intros E. pose proof (sh_prologue _ _ _ Hsh). congruence. }
    assert (Eb : mem_brk sC = mem_brk st).
    { rewrite B3. unfold s1.
      rewrite !(proj1 (proj2 (remove_fields _ _))). reflexivity. }
    assert (Em : mem_max_addr sC = mem_max_addr st).
    { rewrite M3. unfold s1.
      rewrite !(proj1 (proj2 (proj2 (remove_fields _ _)))). reflexivity. }
    assert (Y1 : GET_ALLOC st (HDRP n) = 1)
      by (destruct (alloc_bit st (HDRP n)); [contradiction|assumption]).
    assert (Y2 : forall b, In b bs -> b <> q -> GET_ALLOC st (HDRP b) = 0 ->
              NEXT_BLKP st b <> p).
    { intros b Hb Hbq _ Enb. apply Hbq, Hpredq; assumption. }
    destruct (coalesce_finish sC q n E3 Eb Em Hq X1 Hhi Hqhl L3 Z3 A3 T3 G3
                Aq Y1 Y2)
      as (I1 & I2 & I3).
    split; [reflexivity|]. split; [assumption|]. split; [assumption|].
    apply (changed_trans _ st sC); [|assumption].
    apply (changed_trans _ st s1); assumption.
Qed.

(** The same, with the writes of [coalesce] confined to the block [p],
    to free blocks and to the link words of the prologue; the blocks
    marked allocated stay blocks. *)
Lemma coalesce_pending_inv :
  let q := PREV_BLKP st p in
  let n := NEXT_BLKP st p in
  let lo := if GET_ALLOC st (HDRP q) =? 0 then q else p in
  let hi := if GET_ALLOC st (HDRP n) =? 0 then NEXT_BLKP st n else n in
  fst (coalesce st p) = lo
  /\ heap_inv (snd (coalesce st p)) (merged lo hi bs)
       (lo :: unlisted lo hi fl)
  /\ GET_SIZE (snd (coalesce st p)) (HDRP lo) = hi - lo
  /\ changed_only (fun x => block_word st p x \/ free_word st fl x) st
       (snd (coalesce st p))
  /\ (forall d, In d bs -> GET_ALLOC st (HDRP d) <> 0 ->
        In d (merged lo hi bs) /\ d <> lo)
  /\ lo <= p /\ NEXT_BLKP st p <= hi.
Proof.
  pose proof WSIZE_pos as HW. pose proof DSIZE_eq as HD.
  intros q n lo hi.
  destruct coalesce_inv as (I1 & I2 & I3 & I4).
  fold q n lo hi in I1, I2, I3, I4.
  pose proof (sh_chain _ _ _ Hsh) as Hch.
  destruct (prev_block st _ _ _ Hch p Hp pending_not_prologue)
    as (Hq & Eq & Efq & Egq).
  fold q in Hq, Eq, Efq, Egq.
  pose proof (next_block st _ _ _ Hch p Hp) as Hn. fold n in Hn.
  destruct (chain_facts st _ _ _ Hch p Hp) as (Hmin & _ & _).
  destruct (chain_facts st _ _ _ Hch q Hq) as (Hqmin & _ & _).
  assert (En : n = p + GET_SIZE st (HDRP p)) by reflexivity.
  assert (Hqp : q <> p) by lia.
  assert (Hlo : lo = p \/ (lo = q /\ In q fl)).
  { unfold lo. destruct (Z.eqb_spec (GET_ALLOC st (HDRP q)) 0) as [A|A];
      [right|left; reflexivity].
    split; [reflexivity|]. apply (Hag q Hq Hqp). assumption. }
  assert (Hhi : hi = n \/ (hi = NEXT_BLKP st n /\ In n fl /\ In n bs)).
  { unfold hi. destruct (Z.eqb_spec (GET_ALLOC st (HDRP n)) 0) as [A|A];
      [right|left; reflexivity].
    destruct Hn as [[Hnb _]|(_ & A' & _)]; [|congruence].
    split; [reflexivity|]. split; [|assumption].
    apply (Hag n Hnb); [lia|assumption]. }
  assert (Hnn : In n bs -> n + 2 * DSIZE <= NEXT_BLKP st n).
  { intros Hnb. destruct (chain_facts st _ _ _ Hch n Hnb) as (? & _).
    unfold NEXT_BLKP. fold (HDRP n). lia. }
  split; [assumption|]. split; [assumption|]. split; [assumption|].
  split; [|split; [|split]].
  - revert I4. apply changed_weaken. intros x [Hx|(c & Hc & Hx)].
    + (* a word of the merged block *)
      destruct (Z.lt_ge_cases x (HDRP p)) as [L1|L1].
      * destruct Hlo as [E|[E Hqf]]; [rewrite E in Hx; lia|].
        right. left. exists q. split; [assumption|].
        unfold block_word, NEXT_BLKP. fold (HDRP q).
        rewrite E in Hx. rewrite Eq. lia.
      * destruct (Z.lt_ge_cases x (HDRP n)) as [L2|L2].
        -- left. unfold block_word. fold n. lia.
        -- destruct Hhi as [E|(E & Hnf & Hnb)]; [rewrite E in Hx; lia|].
           right. left. exists n. split; [assumption|].
           unfold block_word. rewrite E in Hx. lia.
    + (* a link word of a listed block *)
      right. apply in_app_or in Hc. destruct Hc as [Hc|[<-|[]]].
      * left. exists c. split; [assumption|].
        destruct (link_inside st _ _ _ c Hch (sh_sub _ _ _ Hsh c Hc)).
        unfold block_word, NEXT_BLKP, FTRP, HDRP in *. lia.
      * right. tauto.
  - intros d Hd Ha.
    assert (Hdp : d <> p) by (intros ->; contradiction).
    pose proof (block_outside st _ _ _ Hch q d Hq Hd) as O1.
    pose proof (block_outside st _ _ _ Hch p d Hp Hd) as O2.
    unfold NEXT_BLKP in O1, O2. fold (HDRP q) (HDRP p) in O1, O2.
    rewrite <- En in O2. rewrite Eq in O1.
    assert (d < lo \/ hi <= d).
    { destruct Hlo as [E|[E Hqf]], Hhi as [E'|(E' & Hnf & Hnb)];
        rewrite E, E'.
      - lia.
      - pose proof (block_outside st _ _ _ Hch n d Hnb Hd).
        assert (d <> n).
        { intros ->. apply Ha. apply (Hag n Hnb); [lia|assumption]. }
        lia.
      - assert (d <> q).
        { intros ->. apply Ha. apply (Hag q Hq Hqp). assumption. }
        lia.
      - pose proof (block_outside st _ _ _ Hch n d Hnb Hd).
        assert (d <> n).
        { intros ->. apply Ha. apply (Hag n Hnb); [lia|assumption]. }
        assert (d <> q).
        { intros ->. apply Ha. apply (Hag q Hq Hqp). assumption. }
        lia. }
    split; [apply In_merged; split; [assumption|lia]|].
    destruct Hlo as [E|[E Hqf]]; rewrite E; [assumption|].
    intros ->. apply Ha. apply (Hag q Hq Hqp). assumption.
  - destruct Hlo as [E|[E _]]; rewrite E; lia.
  - fold n. destruct Hhi as [E|(E & _ & Hnb)]; rewrite E; [lia|].
    specialize (Hnn Hnb). lia.
Qed.

End CoalesceInv.

Section FreeInv.
Context {abi : arch}.

Lemma shape_listed (s : heap) (bs fl : list Z) (d : Z) :
  heap_shape s bs fl -> In d (fl ++ [heap_listp s]) -> In d bs.
Proof.
  intros Hsh H. apply in_app_or in H. destruct H as [H|[<-|[]]].
  - apply (sh_sub _ _ _ Hsh). assumption.
  - apply (sh_prologue_in _ _ _ Hsh).
Qed.

(** Header and footer of a block rewritten with the size they had and
    the allocation bit [al]: the heap keeps its shape. *)
Lemma retag_shape (s : heap) (bs fl : list Z) (b al : Z) :
  heap_shape s bs fl -> In b bs -> b <> heap_listp s ->
  al = 0 \/ al = 1 ->
  let c := GET_SIZE s (HDRP b) in
  let s1 := PUT s (HDRP b) (PACK c al) in
  let s2 := PUT s1 (FTRP s1 b) (PACK c al) in
  heap_shape s2 bs fl
  /\ GET s2 (HDRP b) = PACK c al
  /\ GET_SIZE s2 (HDRP b) = c /\ GET_ALLOC s2 (HDRP b) = al
  /\ (forall y, y <> HDRP b -> y <> FTRP s b -> mem s2 y = mem s y)
  /\ (forall d, In d bs -> d <> b -> GET s2 (HDRP d) = GET s (HDRP d)).
Proof.
  pose proof WSIZE_pos as HW. pose proof DSIZE_eq as HD.
  intros Hsh Hb Hne Hal c s1 s2.
  pose proof (sh_chain _ _ _ Hsh) as Hch.
  destruct (chain_facts s _ _ _ Hch b Hb) as (Hmin & Hft & _). fold c in Hmin.
  assert (Hc : is_size c) by apply GET_SIZE_is_size.
  assert (Hge : DSIZE <= c) by lia.
  destruct (put_tags s b c al Hc Hal Hge)
    as (E & G1 & G2 & G3 & G4 & G5 & F1 & F2 & F3 & F4).
  fold s1 in E, G1, G2, G3, G4, G5, F1, F2, F3, F4.
  fold s2 in G1, G2, G3, G4, G5, F1, F2, F3, F4.
  assert (Ef : b + c - DSIZE = FTRP s b) by reflexivity.
  rewrite Ef in *.
  destruct (tag_not_link s _ _ _ b Hch Hb) as [T1 T2].
  destruct (chain_bounds s _ _ _ Hch) as [_ Hbnd].
  assert (Hother : forall d, In d bs -> d <> b ->
            GET s2 (HDRP d) = GET s (HDRP d)
            /\ GET s2 (FTRP s d) = GET s (FTRP s d)).
  { intros d Hd Hdb.
    destruct (chain_facts s _ _ _ Hch d Hd) as (Hdmin & _).
    pose proof (block_outside s _ _ _ Hch b d Hb Hd) as O1.
    pose proof (block_outside s _ _ _ Hch d b Hd Hb) as O2.
    unfold NEXT_BLKP in O1, O2. fold (HDRP b) (HDRP d) in O1, O2. fold c in O1.
    split; apply GET_ext, G5; rewrite <- ?Ef; clear Ef;
      unfold FTRP, HDRP in *; lia. }
  split; [|split; [assumption|split; [assumption|split; [assumption|
          split; [assumption|
          intros d Hd Hdb; exact (proj1 (Hother d Hd Hdb))]]]]].
  constructor; rewrite ?F1, ?F2, ?F3.
  - apply (chain_same_sizes s); [assumption| |].
    + intros d Hd. destruct (Z.eq_dec d b) as [->|Hdb].
      * split; [assumption|congruence].
      * destruct (Hother d Hd Hdb) as [E1 E2].
        destruct (chain_facts s _ _ _ Hch d Hd) as (_ & Hdf & _).
        split; [apply GET_SIZE_of_GET; assumption|congruence].
    + rewrite <- (chain_epilogue s _ _ _ Hch). apply GET_ext, G5.
      * destruct (Hbnd b Hb). unfold HDRP. lia.
      * destruct (Hbnd b Hb). rewrite <- Ef. unfold HDRP in *. lia.
  - apply (sh_prologue_in _ _ _ Hsh).
  - apply (sh_low _ _ _ Hsh).
  - apply (sh_brk _ _ _ Hsh).
  - apply (sh_max _ _ _ Hsh).
  - destruct (Hother _ (sh_prologue_in _ _ _ Hsh)) as [E1 _]; [congruence|].
    rewrite (GET_ALLOC_of_GET _ _ _ _ E1). apply (sh_prologue _ _ _ Hsh).
  - apply (linked_ext s); try assumption; [|apply (sh_linked _ _ _ Hsh)].
    intros x Hx. apply GET_ext, G5.
    + intros ->. apply T1. revert Hx. apply listed_link_word.
      intros d; apply (shape_listed _ _ _ d Hsh).
    + intros ->. apply T2. revert Hx. apply listed_link_word.
      intros d; apply (shape_listed _ _ _ d Hsh).
  - apply (sh_nodup _ _ _ Hsh).
  - apply (sh_sub _ _ _ Hsh).
Qed.

(** The words of an allocated block are no words of free blocks, no link
    words of the prologue and lie before the epilogue header. *)
Lemma allocated_not_free_word (s : heap) (bs fl : list Z) (d x : Z) :
  heap_inv s bs fl -> In d bs -> d <> heap_listp s ->
  GET_ALLOC s (HDRP d) = 1 -> block_word s d x ->
  ~ free_word s fl x /\ x < mem_brk s - WSIZE.
Proof.
  pose proof WSIZE_pos as HW. pose proof DSIZE_eq as HD.
  intros [Hsh [Hag Hco]] Hd Hne Ha Hx.
  pose proof (sh_chain _ _ _ Hsh) as Hch.
  destruct (chain_bounds s _ _ _ Hch) as [_ Hbnd]. destruct (Hbnd d Hd).
  assert (Hdis : forall c, In c bs -> c <> d -> ~ block_word s c x).
  { intros c Hc Hcd Hw.
    pose proof (block_outside s _ _ _ Hch c d Hc Hd).
    pose proof (block_outside s _ _ _ Hch d c Hd Hc).
    unfold block_word, NEXT_BLKP, HDRP in *. lia. }
  split.
  - intros [(c & Hc & Hw)|Hw].
    + apply (Hdis c (sh_sub _ _ _ Hsh c Hc)); [|assumption].
      intros ->. apply (Hag d Hd) in Hc. congruence.
    + pose proof (sh_prologue_in _ _ _ Hsh) as Hp.
      apply (Hdis _ Hp); [congruence|].
      destruct (chain_facts s _ _ _ Hch _ Hp) as (? & _).
      unfold block_word, NEXT_BLKP, HDRP in *. lia.
  - unfold block_word, NEXT_BLKP, HDRP in *. lia.
Qed.

(** A step that writes only words of free blocks, link words of the
    prologue and words from the epilogue header on leaves the allocated
    blocks alone. *)
Lemma frame_keeps_allocated (s s' : heap) (bs fl : list Z) :
  heap_inv s bs fl ->
  changed_only (fun x => mem_brk s - WSIZE <= x \/ free_word s fl x) s s' ->
  keeps_allocated s s' bs [heap_listp s].
Proof.
  intros Hinv Hch d Hd Hex Ha x Hx.
  assert (Hne : d <> heap_listp s) by (intros ->; apply Hex; left; reflexivity).
  destruct (allocated_not_free_word s bs fl d x Hinv Hd Hne Ha Hx).
  apply (changed_only_eq _ _ _ _ Hch). intros [H1|H1]; [lia|contradiction].
Qed.

(** Such a step leaves the header of the prologue alone. *)
Lemma prologue_header_kept (s s' : heap) (bs fl : list Z) :
  heap_inv s bs fl ->
  changed_only (fun x => mem_brk s - WSIZE <= x \/ free_word s fl x) s s' ->
  mem s' (HDRP (heap_listp s)) = mem s (HDRP (heap_listp s)).
Proof.
  intros [Hsh _] C. pose proof WSIZE_pos as HW. pose proof DSIZE_eq as HD.
  apply (changed_only_eq _ _ _ _ C).
  pose proof (sh_chain _ _ _ Hsh) as Hch.
  destruct (chain_bounds s _ _ _ Hch) as [_ Hbnd].
  pose proof (sh_prologue_in _ _ _ Hsh) as Hin.
  destruct (Hbnd _ Hin) as [_ Hhi].
  destruct (chain_facts s _ _ _ Hch _ Hin) as (Hmin & _).
  intros [H|[(c & Hc & Hw)|[H|H]]].
  - unfold HDRP in H. lia.
  - assert (Hcb : In c bs) by (apply (sh_sub _ _ _ Hsh); assumption).
    destruct (Hbnd c Hcb) as [Hlo _].
    assert (E : c = heap_listp s).
    { unfold block_word, HDRP in Hw. lia. }
    subst c. pose proof (sh_nodup _ _ _ Hsh) as Hnd.
    apply NoDup_remove_2 in Hnd. apply Hnd. rewrite app_nil_r. assumption.
  - unfold HDRP in H. lia.
  - unfold HDRP in H. lia.
Qed.

(** The same for a step that may also write words of the block [p]. *)
Lemma frame_keeps_allocated_but (s s' : heap) (bs fl : list Z) (p : Z) :
  heap_inv s bs fl -> In p bs ->
  changed_only (fun x => block_word s p x \/ free_word s fl x) s s' ->
  keeps_allocated s s' bs [heap_listp s; p].
Proof.
  intros Hinv Hp Hch d Hd Hex Ha x Hx.
  assert (Hne : d <> heap_listp s) by (intros ->; apply Hex; left; reflexivity).
  assert (Hdp : d <> p) by (intros ->; apply Hex; right; left; reflexivity).
  destruct (allocated_not_free_word s bs fl d x Hinv Hd Hne Ha Hx).
  apply (changed_only_eq _ _ _ _ Hch). intros [H1|H1]; [|contradiction].
  pose proof (sh_chain _ _ _ (proj1 Hinv)) as Hc.
  pose proof (block_outside s _ _ _ Hc p d Hp Hd).
  pose proof (block_outside s _ _ _ Hc d p Hd Hp).
  unfold block_word, NEXT_BLKP, HDRP in *. lia.
Qed.

(** Words of blocks, and so the words of free blocks, lie inside the
    heap, before the header of the epilogue. *)
Lemma block_word_inside (s : heap) (bs fl : list Z) (d x : Z) :
  heap_shape s bs fl -> In d bs -> d <> heap_listp s -> block_word s d x ->
  heap_listp s <= x < mem_brk s - WSIZE.
Proof.
  pose proof WSIZE_pos as HW. pose proof DSIZE_eq as HD.
  intros Hsh Hd Hne Hx. pose proof (sh_chain _ _ _ Hsh) as Hch.
  destruct (chain_bounds s _ _ _ Hch) as [_ Hbnd]. destruct (Hbnd d Hd).
  destruct (chain_spaced s _ _ _ Hch _ _ (sh_prologue_in _ _ _ Hsh) Hd);
    [congruence| |]; unfold block_word, NEXT_BLKP, HDRP in *; lia.
Qed.

Lemma free_word_inside (s : heap) (bs fl : list Z) (x : Z) :
  heap_shape s bs fl -> free_word s fl x ->
  heap_listp s <= x < mem_brk s - WSIZE.
Proof.
  pose proof WSIZE_pos as HW. pose proof DSIZE_eq as HD.
  intros Hsh [(c & Hc & Hw)|Hw].
  - apply (block_word_inside s bs fl c x Hsh); try assumption.
    + apply (sh_sub _ _ _ Hsh). assumption.
    + intros ->. pose proof (sh_nodup _ _ _ Hsh) as Hnd.
      apply NoDup_remove_2 in Hnd. apply Hnd. rewrite app_nil_r. assumption.
  - pose proof (sh_chain _ _ _ Hsh) as Hch.
    destruct (chain_bounds s _ _ _ Hch) as [_ Hbnd].
    pose proof (sh_prologue_in _ _ _ Hsh) as Hp.
    destruct (Hbnd _ Hp). destruct (chain_facts s _ _ _ Hch _ Hp) as (? & _).
    lia.
Qed.

(** [mm_free] keeps the invariant: freeing an allocated block [p] (not
    the prologue) of a heap that satisfies it gives a heap that
    satisfies it, in which [p] and its free neighbours are one free
    block [lo] at the head of the free list, and the other entries of
    the list follow in their order.  The other allocated blocks are
    still blocks, and none of their words has changed. *)
Lemma mm_free_inv (s : heap) (bs fl : list Z) (p : Z) :
  heap_inv s bs fl -> In p bs -> p <> heap_listp s ->
  GET_ALLOC s (HDRP p) = 1 ->
  let prev := PREV_BLKP s p in
  let next := NEXT_BLKP s p in
  let lo := if GET_ALLOC s (HDRP prev) =? 0 then prev else p in
  let hi := if GET_ALLOC s (HDRP next) =? 0 then NEXT_BLKP s next else next in
  heap_inv (mm_free s p) (merged lo hi bs) (lo :: unlisted lo hi fl)
  /\ free_listp (mm_free s p) = lo
  /\ GET_SIZE (mm_free s p) (HDRP lo) = hi - lo
  /\ (forall d, In d bs -> d <> p -> GET_ALLOC s (HDRP d) = 1 ->
        In d (merged lo hi bs))
  /\ keeps_allocated s (mm_free s p) bs [heap_listp s; p]
  /\ mem_brk (mm_free s p) = mem_brk s
  /\ mem_max_addr (mm_free s p) = mem_max_addr s
  /\ heap_listp (mm_free s p) = heap_listp s
  /\ changed_only (fun x => block_word s p x \/ free_word s fl x) s
       (mm_free s p).
Proof.
  pose proof WSIZE_pos as HW. pose proof DSIZE_eq as HD.
  intros Hinv Hp Hne Hal prev next lo hi.
  pose proof Hinv as [Hsh [Hag Hco]].
  pose proof (sh_chain _ _ _ Hsh) as Hch.
  destruct (chain_bounds s _ _ _ Hch) as [_ Hbnd].
  destruct (Hbnd p Hp) as [Hplo _]. pose proof (sh_low _ _ _ Hsh) as Hlow.
  destruct (chain_facts s _ _ _ Hch p Hp) as (Hmin & _ & _).
  destruct (prev_block s _ _ _ Hch p Hp Hne) as (Hq & Eq & Efq & _).
  fold prev in Hq, Eq, Efq.
  destruct (chain_facts s _ _ _ Hch prev Hq) as (Hqmin & _ & _).
  destruct (retag_shape s bs fl p 0 Hsh Hp Hne (or_introl eq_refl))
    as (Hsh2 & _ & Hsz2 & Hal2 & Hfr & Hhd).
  unfold mm_free.
  destruct (Z.eqb_spec p NULL) as [E|_]; [unfold NULL in E; lia|].
  cbv zeta.
  set (c := GET_SIZE s (HDRP p)) in *.
  set (s2 := PUT (PUT s (HDRP p) (PACK c 0))
               (FTRP (PUT s (HDRP p) (PACK c 0)) p) (PACK c 0)) in *.
  assert (Hpn : ~ In p fl).
  { intros H. apply (Hag p Hp) in H. congruence. }
  assert (Hag2 : forall b, In b bs -> b <> p ->
            (GET_ALLOC s2 (HDRP b) = 0 <-> In b fl)).
  { intros b Hb Hbp. rewrite (GET_ALLOC_of_GET _ _ _ _ (Hhd b Hb Hbp)).
    apply Hag. assumption. }
  assert (Efp : FTRP s p = p + c - DSIZE) by reflexivity.
  assert (Enx : next = p + c) by reflexivity.
  assert (Hfar : forall y, y < p - WSIZE \/ p + c - DSIZE < y ->
                   mem s2 y = mem s y).
  { intros y Hy. apply Hfr; [unfold HDRP|rewrite Efp]; lia. }
  assert (Hco2 : forall b, In b bs -> b <> p -> GET_ALLOC s2 (HDRP b) = 0 ->
            NEXT_BLKP s2 b = p \/ GET_ALLOC s2 (HDRP (NEXT_BLKP s2 b)) = 1).
  { intros b Hb Hbp Hbf.
    pose proof (Hhd b Hb Hbp) as Eh.
    rewrite (GET_ALLOC_of_GET _ _ _ _ Eh) in Hbf.
    assert (Enb : NEXT_BLKP s2 b = NEXT_BLKP s b).
    { unfold NEXT_BLKP. fold (HDRP b).
      rewrite (GET_SIZE_of_GET _ _ _ _ Eh). reflexivity. }
    rewrite Enb.
    destruct (Z.eq_dec (NEXT_BLKP s b) p) as [E|Nc]; [left; assumption|right].
    rewrite <- (Hco b Hb Hbf). apply GET_ALLOC_ext.
    destruct (chain_facts s _ _ _ Hch b Hb) as (_ & _ & [Hc|[Hc _]]).
    - pose proof (block_outside s _ _ _ Hch p _ Hp Hc) as O.
      fold next in O. apply Hfr; [unfold HDRP; lia|rewrite Efp].
      unfold HDRP. lia.
    - rewrite Hc. destruct (Hbnd p Hp) as [_ Hph]. fold c in Hph.
      apply Hfr; [unfold HDRP; lia|rewrite Efp; unfold HDRP; lia]. }
  pose proof (coalesce_pending_inv s2 bs fl p Hsh2 Hp Hal2 Hpn Hag2 Hco2) as H.
  cbv zeta in H.
  assert (Ep : PREV_BLKP s2 p = prev).
  { unfold prev, PREV_BLKP. f_equal. apply GET_SIZE_ext, Hfar. lia. }
  assert (En : NEXT_BLKP s2 p = next).
  { unfold next, NEXT_BLKP. fold (HDRP p). rewrite Hsz2. reflexivity. }
  assert (Eaq : GET_ALLOC s2 (HDRP prev) = GET_ALLOC s (HDRP prev)).
  { apply GET_ALLOC_ext, Hfar. unfold HDRP. lia. }
  assert (Ean : GET_ALLOC s2 (HDRP next) = GET_ALLOC s (HDRP next)).
  { apply GET_ALLOC_ext, Hfar. unfold HDRP. lia. }
  assert (Enn : NEXT_BLKP s2 next = NEXT_BLKP s next).
  { unfold NEXT_BLKP at 1 2. f_equal. apply GET_SIZE_ext, Hfar. lia. }
  rewrite Ep, En, Eaq, Ean, Enn in H. fold lo hi in H.
  destruct H as (H1 & H2 & H3 & H4 & H5 & _).
  destruct (coalesce_bounds s2 p) as (_ & B1 & B2 & B3).
  split; [assumption|]. split; [rewrite coalesce_head; assumption|].
  split; [assumption|]. split.
  { intros d Hd Hdp Hda. apply H5; [assumption|].
    rewrite (GET_ALLOC_of_GET _ _ _ _ (Hhd d Hd Hdp)). congruence. }
  assert (Hframe : changed_only
            (fun x => block_word s p x \/ free_word s fl x) s
            (snd (coalesce s2 p))).
  { apply (changed_trans _ s s2).
    - intros y Hy. left.
      destruct (Z.eq_dec y (HDRP p)) as [->|N1];
        [unfold block_word; fold next; unfold HDRP; lia|].
      destruct (Z.eq_dec y (FTRP s p)) as [->|N2];
        [unfold block_word; fold next; rewrite Efp; unfold HDRP; lia|].
      contradiction Hy. apply Hfr; assumption.
    - revert H4. apply changed_weaken.
      intros y [Hw|[(d & Hd & Hw)|Hw]].
      + left. unfold block_word in *. rewrite En in Hw. assumption.
      + right. left. exists d. split; [assumption|].
        assert (Hdp : d <> p) by (intros ->; contradiction).
        pose proof (Hhd d (sh_sub _ _ _ Hsh d Hd) Hdp) as T.
        unfold block_word, NEXT_BLKP in *. fold (HDRP d) in *.
        rewrite (GET_SIZE_of_GET _ _ _ _ T) in Hw. assumption.
      + right. right. assumption. }
  split; [apply (frame_keeps_allocated_but s _ bs fl p Hinv Hp); assumption|].
  rewrite B1, B2, B3.
  split; [reflexivity|]. split; [reflexivity|]. split; [reflexivity|].
  exact Hframe.
Qed.

End FreeInv.

Section SplitAppend.
Context {abi : arch}.

Lemma split_at_notin (b r : Z) (l : list Z) :
  ~ In b l -> split_at b r l = l.
Proof.
  induction l as [|x l IH]; intros H; [reflexivity|].
  unfold split_at in *. simpl.
  destruct (Z.eqb_spec x b) as [->|_]; [contradiction H; left; reflexivity|].
  simpl. rewrite IH; [reflexivity|]. intros Hin. apply H. right. assumption.
Qed.

Lemma In_split_at (b r d : Z) (l : list Z) :
  In d (split_at b r l) <-> In d l \/ (In b l /\ d = r).
Proof.
  unfold split_at. rewrite in_flat_map. split.
  - intros (x & Hx & Hd). destruct (Z.eqb_spec x b) as [->|_].
    + destruct Hd as [<-|[<-|[]]]; auto.
    + destruct Hd as [<-|[]]. auto.
  - intros [Hd|[Hb ->]].
    + exists d. split; [assumption|].
      destruct (d =? b) eqn:E; [apply Z.eqb_eq in E; subst|]; left; reflexivity.
    + exists b. split; [assumption|]. rewrite Z.eqb_refl. right. left.
      reflexivity.
Qed.

(** Splitting the block [b] of size [c] into [b], of size [a], and the
    block at [b + a]. *)
Lemma chain_split (s s' : heap) (b0 : Z) (bs : list Z) (e b a : Z) :
  chain s b0 bs e -> In b bs ->
  2 * DSIZE <= a -> 2 * DSIZE <= GET_SIZE s (HDRP b) - a ->
  GET_SIZE s' (HDRP b) = a -> GET s' (b + a - DSIZE) = GET s' (HDRP b) ->
  GET_SIZE s' (HDRP (b + a)) = GET_SIZE s (HDRP b) - a ->
  GET s' (b + GET_SIZE s (HDRP b) - DSIZE) = GET s' (HDRP (b + a)) ->
  (forall d, In d bs -> d <> b ->
     GET_SIZE s' (HDRP d) = GET_SIZE s (HDRP d)
     /\ GET s' (FTRP s d) = GET s' (HDRP d)) ->
  GET s' (HDRP e) = PACK 0 1 ->
  chain s' b0 (split_at b (b + a) bs) e.
Proof.
  pose proof WSIZE_pos as HW. pose proof DSIZE_eq as HD.
  induction 1 as [e He | x l e Hmin Hft Hch IH];
    intros Hb Ha Hrest Hsz Hfo Hsz2 Hfo2 Hd He'.
  - destruct Hb.
  - destruct (chain_bounds s _ _ _ Hch) as [_ Hbnd].
    destruct (Z.eq_dec x b) as [->|Hne].
    + assert (Hnl : ~ In b l).
      { intros Hin. destruct (Hbnd b Hin) as [Hlo _].
        unfold NEXT_BLKP in Hlo. fold (HDRP b) in Hlo. lia. }
      assert (E : split_at b (b + a) (b :: l) = b :: (b + a) :: l).
      { unfold split_at. simpl. rewrite Z.eqb_refl. simpl.
        f_equal. f_equal. apply (split_at_notin b (b + a)). assumption. }
      rewrite E. apply chain_block.
      * rewrite Hsz. assumption.
      * unfold FTRP. rewrite Hsz. assumption.
      * unfold NEXT_BLKP. fold (HDRP b). rewrite Hsz.
        apply chain_block.
        -- rewrite Hsz2. assumption.
        -- unfold FTRP. rewrite Hsz2.
           replace (b + a + (GET_SIZE s (HDRP b) - a) - DSIZE)
             with (b + GET_SIZE s (HDRP b) - DSIZE) by lia.
           assumption.
        -- unfold NEXT_BLKP at 1. fold (HDRP (b + a)). rewrite Hsz2.
           replace (b + a + (GET_SIZE s (HDRP b) - a))
             with (NEXT_BLKP s b) by (unfold NEXT_BLKP, HDRP; lia).
           apply (chain_same_sizes s); [assumption| |assumption].
           intros d Hin. apply Hd; [right; assumption|].
           intros ->. contradiction.
    + destruct Hb as [Hb|Hb]; [contradiction|].
      assert (E : split_at b (b + a) (x :: l) = x :: split_at b (b + a) l).
      { unfold split_at. simpl.
        destruct (Z.eqb_spec x b); [contradiction|]. reflexivity. }
      rewrite E.
      destruct (Hd x (or_introl eq_refl) Hne) as [Es Ef].
      apply chain_block.
      * rewrite Es. assumption.
      * unfold FTRP in *. rewrite Es. assumption.
      * unfold NEXT_BLKP. fold (HDRP x). rewrite Es.
        apply IH; try assumption.
        intros d Hin. apply Hd. right. assumption.
Qed.

(** A new block of [size] bytes behind the last one, in the place of the
    epilogue header. *)
Lemma chain_append (s s' : heap) (b0 : Z) (bs : list Z) (e size : Z) :
  chain s b0 bs e -> 2 * DSIZE <= size ->
  GET_SIZE s' (HDRP e) = size -> GET s' (e + size - DSIZE) = GET s' (HDRP e) ->
  GET s' (HDRP (e + size)) = PACK 0 1 ->
  (forall d, In d bs ->
     GET_SIZE s' (HDRP d) = GET_SIZE s (HDRP d)
     /\ GET s' (FTRP s d) = GET s' (HDRP d)) ->
  chain s' b0 (bs ++ [e]) (e + size).
Proof.
  induction 1 as [e He | x l e Hmin Hft Hch IH];
    intros Hsize Hsz Hfo He' Hd.
  - simpl. apply chain_block.
    + rewrite Hsz. assumption.
    + unfold FTRP. rewrite Hsz. assumption.
    + unfold NEXT_BLKP. fold (HDRP e). rewrite Hsz.
      apply chain_end. assumption.
  - simpl. destruct (Hd x (or_introl eq_refl)) as [Es Ef].
    apply chain_block.
    + rewrite Es. assumption.
    + unfold FTRP in *. rewrite Es. assumption.
    + unfold NEXT_BLKP. fold (HDRP x). rewrite Es.
      apply IH; try assumption.
      intros d Hin. apply Hd. right. assumption.
Qed.

End SplitAppend.

Section PlaceInv.
Context {abi : arch}.

Lemma shape_positive (s : heap) (bs fl : list Z) :
  heap_shape s bs fl -> 0 < heap_listp s /\ mem_brk s <= word_modulus.
Proof.
  pose proof WSIZE_pos as HW. pose proof DSIZE_eq as HD.
  intros Hsh. pose proof (sh_low _ _ _ Hsh). pose proof (sh_brk _ _ _ Hsh).
  pose proof (sh_max _ _ _ Hsh). lia.
Qed.

Lemma In_filter_neq (x d : Z) (l : list Z) :
  In d (filter (fun c => negb (c =? x)) l) <-> In d l /\ d <> x.
Proof.
  rewrite filter_In, negb_true_iff, Z.eqb_neq. tauto.
Qed.

Lemma NoDup_filter_end (f : Z -> bool) (l : list Z) (h : Z) :
  NoDup (l ++ [h]) -> NoDup (filter f l ++ [h]).
Proof.
  intros H. apply NoDup_end in H. destruct H as [N1 N2]. apply NoDup_end.
  split; [apply NoDup_filter; assumption|].
  intros H. apply filter_In in H. tauto.
Qed.

(** Removing a listed block from a heap that has its shape. *)
Lemma unlink_shape (s : heap) (bs fl : list Z) (x : Z) :
  heap_shape s bs fl -> In x fl ->
  heap_shape (remove_from_free_list s x) bs (filter (fun c => negb (c =? x)) fl)
  /\ (forall y, ~ link_word bs y -> GET (remove_from_free_list s x) y = GET s y)
  /\ changed_only (link_word (fl ++ [heap_listp s])) s
       (remove_from_free_list s x).
Proof.
  intros Hsh Hx.
  pose proof (sh_chain _ _ _ Hsh) as Hch.
  destruct (shape_positive _ _ _ Hsh) as [Hpos Hhigh].
  destruct (remove_linked s _ bs _ Hch Hpos Hhigh s fl x
              (sh_nodup _ _ _ Hsh) (fun d => shape_listed _ _ _ d Hsh)
              (sh_linked _ _ _ Hsh) Hx) as [L C].
  assert (G : forall y, ~ link_word bs y ->
            GET (remove_from_free_list s x) y = GET s y).
  { intros y Hy. apply GET_ext. apply (changed_only_eq _ _ _ _ C).
    intros Hl. apply Hy. revert Hl. apply listed_link_word.
    intros d. apply (shape_listed _ _ _ d Hsh). }
  split; [|split; assumption].
  destruct (remove_fields s x) as (_ & F1 & F2 & F3).
  constructor; rewrite ?F1, ?F2, ?F3.
  - apply (chain_ext s); [assumption| |].
    + intros d Hd. destruct (tag_not_link s _ _ _ d Hch Hd).
      split; apply G; assumption.
    + apply G. apply (epilogue_not_link s _ _ _ Hch).
  - apply (sh_prologue_in _ _ _ Hsh).
  - apply (sh_low _ _ _ Hsh).
  - apply (sh_brk _ _ _ Hsh).
  - apply (sh_max _ _ _ Hsh).
  - rewrite <- (sh_prologue _ _ _ Hsh). apply GET_ALLOC_of_GET, G.
    apply (tag_not_link s _ _ _ _ Hch (sh_prologue_in _ _ _ Hsh)).
  - assumption.
  - apply NoDup_filter_end, (sh_nodup _ _ _ Hsh).
  - intros d Hd. apply In_filter_neq in Hd. apply (sh_sub _ _ _ Hsh). tauto.
Qed.

(** Link words of listed blocks are words of free blocks or link words
    of the prologue. *)
Lemma link_free_word (s : heap) (bs fl : list Z) (x : Z) :
  heap_shape s bs fl -> link_word (fl ++ [heap_listp s]) x ->
  free_word s fl x.
Proof.
  pose proof WSIZE_pos as HW. pose proof DSIZE_eq as HD.
  intros Hsh (c & Hc & Hx). apply in_app_or in Hc.
  destruct Hc as [Hc|[<-|[]]].
  - left. exists c. split; [assumption|].
    destruct (link_inside s _ _ _ c (sh_chain _ _ _ Hsh)
                (sh_sub _ _ _ Hsh c Hc)).
    unfold block_word, NEXT_BLKP, FTRP, HDRP in *. lia.
  - right. tauto.
Qed.

(** [place] keeps the invariant: for a listed block [b] and an adjusted
    size [a] that fits it, the heap afterwards satisfies the invariant,
    [b] is an allocated block of at least [a] bytes, the blocks that
    were allocated are still blocks, the bounds of the heap are what
    they were, and only words of free blocks and link words of the
    prologue have been written. *)
Lemma place_inv (s : heap) (bs fl : list Z) (b a : Z) :
  heap_inv s bs fl -> In b fl -> is_size a -> 2 * DSIZE <= a ->
  a <= GET_SIZE s (HDRP b) ->
  exists bs' fl',
    heap_inv (place s b a) bs' fl'
    /\ In b bs' /\ GET_ALLOC (place s b a) (HDRP b) = 1
    /\ a <= GET_SIZE (place s b a) (HDRP b) <= GET_SIZE s (HDRP b)
    /\ (forall d, In d bs -> GET_ALLOC s (HDRP d) <> 0 -> In d bs')
    /\ changed_only (free_word s fl) s (place s b a)
    /\ mem_brk (place s b a) = mem_brk s
    /\ mem_max_addr (place s b a) = mem_max_addr s
    /\ heap_listp (place s b a) = heap_listp s
    /\ ((bs' = bs /\ fl' = filter (fun x => negb (x =? b)) fl
         /\ GET_SIZE (place s b a) (HDRP b) = GET_SIZE s (HDRP b)
         /\ GET_SIZE s (HDRP b) - a < 4 * WSIZE)
        \/ (bs' = split_at b (b + a) bs
            /\ fl' = (b + a) :: filter (fun x => negb (x =? b)) fl
            /\ GET_SIZE (place s b a) (HDRP b) = a
            /\ GET_SIZE (place s b a) (HDRP (b + a))
               = GET_SIZE s (HDRP b) - a
            /\ 2 * DSIZE <= GET_SIZE s (HDRP b) - a)).
Proof.
  pose proof WSIZE_pos as HW. pose proof DSIZE_eq as HD.
  intros [Hsh [Hag Hco]] Hb Ha Hamin Hac.
  pose proof (sh_chain _ _ _ Hsh) as Hch.
  destruct (shape_positive _ _ _ Hsh) as [Hpos Hhigh].
  pose proof (sh_sub _ _ _ Hsh b Hb) as Hbb.
  assert (Hbf : GET_ALLOC s (HDRP b) = 0) by (apply (Hag b Hbb); assumption).
  assert (Hbhl : b <> heap_listp s).
  { intros E. pose proof (sh_prologue _ _ _ Hsh). congruence. }
  destruct (chain_facts s _ _ _ Hch b Hbb) as (Hmin & Hbft & Hbn).
  destruct (chain_bounds s _ _ _ Hch) as [_ Hbnd].
  destruct (Hbnd b Hbb) as [Hblo Hbhi].
  pose proof (GET_SIZE_is_size s (HDRP b)) as Hcs.
  assert (Hbfar : heap_listp s + 2 * DSIZE <= b).
  { destruct (chain_spaced s _ _ _ Hch (heap_listp s) b
                (sh_prologue_in _ _ _ Hsh) Hbb); [congruence|lia|lia]. }
  assert (Hbw : forall y, HDRP b <= y < HDRP (NEXT_BLKP s b) ->
                  free_word s fl y).
  { intros y Hy. left. exists b. auto. }
  assert (Enb : NEXT_BLKP s b = b + GET_SIZE s (HDRP b)) by reflexivity.
  assert (Efb : FTRP s b = b + GET_SIZE s (HDRP b) - DSIZE) by reflexivity.
  set (c := GET_SIZE s (HDRP b)) in *.
  assert (Ew : wrap (c - a) = c - a).
  { apply wrap_small. destruct Hcs. lia. }
  unfold place. fold c. rewrite Ew.
  destruct (Z.leb_spec (4 * WSIZE) (c - a)) as [Hsplit|Hcons].
  - (* a block of [a] bytes and the remainder *)
    cbv zeta.
    assert (Hge : DSIZE <= a) by lia.
    destruct (put_tags s b a 1 Ha (or_intror eq_refl) Hge)
      as (E1 & G1 & G2 & G3 & G4 & G5 & F1 & F2 & F3 & F4).
    set (s1 := PUT s (HDRP b) (PACK a 1)) in *.
    set (s2 := PUT s1 (FTRP s1 b) (PACK a 1)) in *.
    (* words inside [b], its link words apart, are no link words *)
    assert (Hin_b : forall x y, link_word (fl ++ [heap_listp s]) x ->
              b - WSIZE <= y < b + c - WSIZE -> y <> b -> y <> b + WSIZE ->
              x <> y).
    { intros x y (c' & Hc' & Hx) Hy N1 N2 ->.
      pose proof (shape_listed _ _ _ _ Hsh Hc') as Hc'b.
      destruct (Z.eq_dec c' b) as [->|Hne]; [destruct Hx; contradiction|].
      destruct (extent_not_link s _ _ _ b c' y Hch Hbb Hc'b Hne).
      - rewrite Enb. unfold HDRP. lia.
      - destruct Hx; contradiction. }
    assert (L2 : linked s2 fl).
    { apply (linked_ext s); [exact F4|exact F3| |apply (sh_linked _ _ _ Hsh)].
      intros x Hx. apply GET_ext, G5.
      - apply (Hin_b x _ Hx); unfold HDRP; lia.
      - apply (Hin_b x _ Hx); lia. }
    (* the removal *)
    assert (Hnd2 : NoDup (fl ++ [heap_listp s2]))
      by (rewrite F3; apply (sh_nodup _ _ _ Hsh)).
    assert (Hsub2 : forall d, In d (fl ++ [heap_listp s2]) -> In d bs).
    { rewrite F3. intros d. apply (shape_listed _ _ _ d Hsh). }
    destruct (remove_linked s _ bs _ Hch Hpos Hhigh s2 fl b Hnd2 Hsub2 L2 Hb)
      as [L3 C3].
    rewrite F3 in C3.
    destruct (remove_fields s2 b) as (_ & R1 & R2 & R3).
    set (s3 := remove_from_free_list s2 b) in *.
    set (fl1 := filter (fun x => negb (x =? b)) fl) in *.
    assert (V3 : forall y, (forall x, link_word (fl ++ [heap_listp s]) x ->
                              x <> y) -> GET s3 y = GET s2 y).
    { intros y Hy. apply GET_ext. apply (changed_only_eq _ _ _ _ C3).
      intros Hl. apply (Hy y Hl). reflexivity. }
    assert (Er : NEXT_BLKP s3 b = b + a).
    { unfold NEXT_BLKP. fold (HDRP b).
      rewrite (GET_SIZE_of_GET s2 s3 (HDRP b) (HDRP b)), G3; [reflexivity|].
      apply V3. intros x Hx. apply (Hin_b x _ Hx); unfold HDRP; lia. }
    rewrite Er. set (r := b + a) in *.
    assert (Hrest : is_size (c - a)).
    { destruct Hcs as [R M], Ha as [R' M']. split; [lia|].
      rewrite Zminus_mod, M, M'. reflexivity. }
    assert (Hge' : DSIZE <= c - a) by lia.
    destruct (put_tags s3 r (c - a) 0 Hrest (or_introl eq_refl) Hge')
      as (E4 & P1 & P2 & P3 & P4 & P5 & Q1 & Q2 & Q3 & Q4).
    set (s4 := PUT s3 (HDRP r) (PACK (c - a) 0)) in *.
    set (s5 := PUT s4 (FTRP s4 r) (PACK (c - a) 0)) in *.
    replace (r + (c - a) - DSIZE) with (b + c - DSIZE) in * by (unfold r; lia).
    assert (Hsub1 : forall d, In d (fl1 ++ [heap_listp s]) ->
                      In d (fl ++ [heap_listp s])).
    { intros d Hd. apply in_app_or in Hd. apply in_or_app.
      destruct Hd as [Hd|Hd]; [left|right; assumption].
      apply In_filter_neq in Hd. tauto. }
    assert (L5 : linked s5 fl1).
    { apply (linked_ext s3); [exact Q4|exact Q3| |assumption].
      rewrite R3, F3. intros x (d & Hd & Hx).
      assert (Hx' : link_word (fl ++ [heap_listp s]) x)
        by (exists d; auto).
      assert (Hdb : d <> b).
      { intros ->. apply in_app_or in Hd.
        destruct Hd as [Hd|[Hd|[]]]; [|congruence].
        apply In_filter_neq in Hd. tauto. }
      assert (Hdbs : In d bs) by (apply (shape_listed _ _ _ _ Hsh); auto).
      apply GET_ext, P5.
      - destruct (extent_not_link s _ _ _ b d (HDRP r) Hch Hbb Hdbs Hdb).
        + rewrite Enb. unfold r, HDRP. lia.
        + destruct Hx; congruence.
      - destruct (extent_not_link s _ _ _ b d (b + c - DSIZE) Hch Hbb Hdbs Hdb).
        + rewrite Enb. unfold HDRP. lia.
        + destruct Hx; congruence. }
    (* the store before [coalesce], word by word *)
    assert (V5 : forall y, (forall x, link_word (fl ++ [heap_listp s]) x ->
                              x <> y) ->
                  y <> HDRP b -> y <> b + a - DSIZE ->
                  y <> HDRP r -> y <> b + c - DSIZE ->
                  GET s5 y = GET s y).
    { intros y Hy N1 N2 N3 N4.
      rewrite (GET_ext s5 s3) by (apply P5; assumption).
      rewrite V3 by assumption. apply GET_ext, G5; assumption. }
    assert (Vb : GET s5 (HDRP b) = PACK a 1).
    { rewrite (GET_ext s5 s3) by (apply P5; unfold r, HDRP; lia).
      rewrite V3; [assumption|].
      intros x Hx. apply (Hin_b x _ Hx); unfold HDRP; lia. }
    assert (Vbf : GET s5 (b + a - DSIZE) = PACK a 1).
    { rewrite (GET_ext s5 s3) by (apply P5; unfold r, HDRP; lia).
      rewrite V3; [assumption|].
      intros x Hx. apply (Hin_b x _ Hx); lia. }
    assert (Htag : forall d, In d bs -> d <> b ->
              GET s5 (HDRP d) = GET s (HDRP d)
              /\ GET s5 (FTRP s d) = GET s (FTRP s d)).
    { intros d Hd Hdb.
      destruct (tag_not_link s _ _ _ d Hch Hd) as [T1 T2].
      destruct (chain_facts s _ _ _ Hch d Hd) as (Hdmin & _).
      pose proof (block_outside s _ _ _ Hch b d Hbb Hd) as O1.
      pose proof (block_outside s _ _ _ Hch d b Hd Hbb) as O2.
      rewrite Enb in O1.
      unfold NEXT_BLKP in O2. fold (HDRP d) in O2.
      assert (NL : forall y, ~ link_word bs y ->
                forall x, link_word (fl ++ [heap_listp s]) x -> x <> y).
      { intros y Hy x Hx ->. apply Hy. revert Hx. apply listed_link_word.
        intros d'. apply (shape_listed _ _ _ d' Hsh). }
      split; apply V5; try (apply NL; assumption);
        unfold r, FTRP, HDRP in *; lia. }
    assert (Vhl : GET_ALLOC s5 (HDRP (heap_listp s)) = 1).
    { destruct (Htag _ (sh_prologue_in _ _ _ Hsh)) as [E _]; [congruence|].
      rewrite (GET_ALLOC_of_GET _ _ _ _ E). apply (sh_prologue _ _ _ Hsh). }
    assert (Ve : GET s5 (HDRP (mem_brk s)) = PACK 0 1).
    { rewrite <- (chain_epilogue s _ _ _ Hch). apply V5.
      - intros x Hx ->. apply (epilogue_not_link s _ _ _ Hch).
        revert Hx. apply listed_link_word.
        intros d'. apply (shape_listed _ _ _ d' Hsh).
      - unfold HDRP. lia.
      - unfold HDRP. lia.
      - unfold r, HDRP. lia.
      - unfold HDRP. lia. }
    assert (F5 : heap_listp s5 = heap_listp s /\ mem_brk s5 = mem_brk s
                 /\ mem_max_addr s5 = mem_max_addr s).
    { rewrite Q3, Q1, Q2, R1, R2, R3, F1, F2, F3. auto. }
    destruct F5 as (F5a & F5b & F5c).
    set (bs5 := split_at b r bs).
    assert (Hrb : ~ In r bs).
    { intros Hin. pose proof (block_outside s _ _ _ Hch b r Hbb Hin) as O.
      rewrite Enb in O. unfold r in O. lia. }
    assert (Hsh5 : heap_shape s5 bs5 fl1).
    { constructor; rewrite ?F5a, ?F5b, ?F5c.
      - assert (X1 : 2 * DSIZE <= c - a) by lia.
        assert (X2 : GET_SIZE s5 (HDRP b) = a)
          by apply (tag_fields s5 (HDRP b) a 1 Ha (or_intror eq_refl) Vb).
        assert (X3 : GET s5 (b + a - DSIZE) = GET s5 (HDRP b)) by congruence.
        assert (X5 : GET s5 (b + c - DSIZE) = GET s5 (HDRP (b + a)))
          by (fold r; congruence).
        apply (chain_split s s5 _ bs _ b a Hch Hbb Hamin X1 X2 X3 P3 X5);
          [|assumption].
        intros d Hd Hdb. destruct (Htag d Hd Hdb) as [T1 T2].
        destruct (chain_facts s _ _ _ Hch d Hd) as (_ & Hdf & _).
        split; [apply GET_SIZE_of_GET; assumption|congruence].
      - apply In_split_at. left. apply (sh_prologue_in _ _ _ Hsh).
      - apply (sh_low _ _ _ Hsh).
      - apply (sh_brk _ _ _ Hsh).
      - apply (sh_max _ _ _ Hsh).
      - assumption.
      - assumption.
      - apply NoDup_filter_end, (sh_nodup _ _ _ Hsh).
      - intros d Hd. apply In_split_at. left.
        apply In_filter_neq in Hd. apply (sh_sub _ _ _ Hsh). tauto. }
    assert (Hr5 : In r bs5) by (apply In_split_at; right; auto).
    assert (Hrn : ~ In r fl1).
    { intros Hin. apply In_filter_neq in Hin. apply Hrb.
      apply (sh_sub _ _ _ Hsh). tauto. }
    assert (Hag5 : forall d, In d bs5 -> d <> r ->
              (GET_ALLOC s5 (HDRP d) = 0 <-> In d fl1)).
    { intros d Hd Hdr. apply In_split_at in Hd.
      destruct Hd as [Hd|[_ Hd]]; [|contradiction].
      unfold fl1. rewrite In_filter_neq.
      destruct (Z.eq_dec d b) as [->|Hdb].
      - destruct (tag_fields s5 (HDRP b) a 1 Ha (or_intror eq_refl) Vb)
          as [_ A]. rewrite A. split; [discriminate|tauto].
      - destruct (Htag d Hd Hdb) as [E _].
        rewrite (GET_ALLOC_of_GET _ _ _ _ E), (Hag d Hd). tauto. }
    assert (Hco5 : forall d, In d bs5 -> d <> r ->
              GET_ALLOC s5 (HDRP d) = 0 ->
              NEXT_BLKP s5 d = r \/ GET_ALLOC s5 (HDRP (NEXT_BLKP s5 d)) = 1).
    { intros d Hd Hdr Hdf. right. apply In_split_at in Hd.
      destruct Hd as [Hd|[_ Hd]]; [|contradiction].
      destruct (Z.eq_dec d b) as [->|Hdb].
      { destruct (tag_fields s5 (HDRP b) a 1 Ha (or_intror eq_refl) Vb)
          as [_ A]. congruence. }
      destruct (Htag d Hd Hdb) as [E _].
      rewrite (GET_ALLOC_of_GET _ _ _ _ E) in Hdf.
      assert (End : NEXT_BLKP s5 d = NEXT_BLKP s d).
      { unfold NEXT_BLKP. fold (HDRP d).
        rewrite (GET_SIZE_of_GET _ _ _ _ E). reflexivity. }
      rewrite End. pose proof (Hco d Hd Hdf) as A.
      destruct (chain_facts s _ _ _ Hch d Hd) as (_ & _ & [Hc|[Hc _]]).
      - assert (Hcb : NEXT_BLKP s d <> b) by (intros E0; congruence).
        destruct (Htag _ Hc Hcb) as [E' _].
        rewrite (GET_ALLOC_of_GET _ _ _ _ E'). assumption.
      - rewrite Hc, GET_ALLOC_eq, Ve. reflexivity. }
    pose proof (coalesce_pending_inv s5 bs5 fl1 r Hsh5 Hr5 P4 Hrn Hag5 Hco5)
      as H.
    cbv zeta in H.
    (* the block before the remainder is [b], allocated *)
    assert (Epr : PREV_BLKP s5 r = b).
    { unfold PREV_BLKP.
      replace (r - DSIZE) with (b + a - DSIZE) by (unfold r; lia).
      rewrite (GET_SIZE_of_GET s5 s5 _ (HDRP b)) by congruence.
      destruct (tag_fields s5 (HDRP b) a 1 Ha (or_intror eq_refl) Vb)
        as [-> _]. unfold r. lia. }
    assert (Eab : GET_ALLOC s5 (HDRP b) = 1)
      by apply (tag_fields s5 (HDRP b) a 1 Ha (or_intror eq_refl) Vb).
    rewrite Epr, Eab in H. simpl (1 =? 0) in H. cbv iota in H.
    assert (Enr : NEXT_BLKP s5 r = b + c).
    { unfold NEXT_BLKP. fold (HDRP r). rewrite P3. unfold r. lia. }
    rewrite Enr in H.
    set (hi := if GET_ALLOC s5 (HDRP (b + c)) =? 0
               then NEXT_BLKP s5 (b + c) else b + c) in *.
    destruct H as (H1 & H2 & H3 & H4 & H5 & H6 & H7).
    set (s' := snd (coalesce s5 r)) in *.
    destruct (coalesce_bounds s5 r) as (_ & B1 & B2 & B3).
    fold s' in B1, B2, B3.
    (* what the last step leaves alone *)
    assert (Hb' : GET s' (HDRP b) = GET s5 (HDRP b)).
    { apply GET_ext. apply (changed_only_eq _ _ _ _ H4).
      intros [Hw|[(d & Hd & Hw)|[Hw|Hw]]].
      - unfold block_word, r, HDRP in Hw. lia.
      - apply In_filter_neq in Hd. destruct Hd as [Hd Hdb].
        pose proof (sh_sub _ _ _ Hsh d Hd) as Hdbs.
        destruct (Htag d Hdbs Hdb) as [T1 _].
        pose proof (block_outside s _ _ _ Hch d b Hdbs Hbb) as O.
        unfold block_word, NEXT_BLKP in Hw. fold (HDRP d) in Hw.
        rewrite (GET_SIZE_of_GET _ _ _ _ T1) in Hw.
        unfold NEXT_BLKP in O. fold (HDRP d) in O.
        unfold HDRP in *. lia.
      - rewrite F5a in Hw. unfold HDRP in Hw. lia.
      - rewrite F5a in Hw. unfold HDRP in Hw. lia. }
    (* what follows [b] in [s] is allocated: nothing more is merged *)
    assert (Ehi : hi = b + c).
    { assert (A : GET_ALLOC s5 (HDRP (b + c)) = 1).
      { pose proof (Hco b Hbb Hbf) as A. rewrite Enb in A.
        destruct Hbn as [Hn|[Hn _]]; rewrite Enb in Hn.
        - assert (Hnb : b + c <> b) by lia.
          destruct (Htag _ Hn Hnb) as [E _].
          rewrite (GET_ALLOC_of_GET _ _ _ _ E). assumption.
        - rewrite Hn, GET_ALLOC_eq, Ve. reflexivity. }
      unfold hi. rewrite A. reflexivity. }
    assert (How : merged r hi bs5 = split_at b (b + a) bs
                  /\ r :: unlisted r hi fl1
                     = (b + a) :: filter (fun x => negb (x =? b)) fl
                  /\ GET_SIZE s' (HDRP b) = a
                  /\ GET_SIZE s' (HDRP (b + a)) = c - a
                  /\ 2 * DSIZE <= c - a).
    { split.
      { unfold merged. apply forallb_filter_id, forallb_forall.
        intros d Hd. apply In_split_at in Hd. apply orb_true_iff.
        destruct Hd as [Hd|[_ ->]]; [|left; apply Z.leb_le; lia].
        pose proof (block_outside s _ _ _ Hch b d Hbb Hd) as O.
        rewrite Enb in O. rewrite Ehi.
        destruct O as [O|[O|O]];
          [left; apply Z.leb_le; unfold r; lia
          |right; apply Z.leb_le; lia
          |left; apply Z.leb_le; unfold r; lia]. }
      split.
      { f_equal. unfold unlisted. apply forallb_filter_id, forallb_forall.
        intros d Hd. apply In_filter_neq in Hd. destruct Hd as [Hd Hdb].
        apply orb_true_iff.
        pose proof (block_outside s _ _ _ Hch b d Hbb
                      (sh_sub _ _ _ Hsh d Hd)) as O.
        rewrite Enb in O. rewrite Ehi.
        destruct O as [O|[O|O]];
          [left; apply Z.ltb_lt; unfold r; lia
          |right; apply Z.leb_le; lia
          |contradiction]. }
      split.
      { rewrite (GET_SIZE_of_GET _ _ _ _ Hb').
        apply (tag_fields s5 (HDRP b) a 1 Ha (or_intror eq_refl) Vb). }
      split; [|lia].
      fold r. rewrite H3, Ehi. unfold r. lia. }
    exists (merged r hi bs5), (r :: unlisted r hi fl1).
    split; [assumption|].
    split; [apply In_merged; split;
            [apply In_split_at; left; assumption|unfold r; lia]|].
    split; [rewrite (GET_ALLOC_of_GET _ _ _ _ Hb'); assumption|].
    split.
    { rewrite (GET_SIZE_of_GET _ _ _ _ Hb').
      destruct (tag_fields s5 (HDRP b) a 1 Ha (or_intror eq_refl) Vb)
        as [-> _]. lia. }
    split.
    { intros d Hd Hda. apply H5.
      - apply In_split_at. left. assumption.
      - destruct (Z.eq_dec d b) as [->|Hdb]; [congruence|].
        destruct (Htag d Hd Hdb) as [E _].
        rewrite (GET_ALLOC_of_GET _ _ _ _ E). assumption. }
    split;
      [|split; [|split; [|split; [|right; exact How]]];
        rewrite ?B1, ?B2, ?B3, ?F5a, ?F5b, ?F5c; reflexivity].
    (* the frame *)
    apply (changed_trans _ s s5).
    { apply (changed_trans _ s s3).
      - apply (changed_trans _ s s2).
        + intros y Hy. apply Hbw. rewrite Enb.
          destruct (Z.eq_dec y (HDRP b)) as [->|N1]; [unfold HDRP; lia|].
          destruct (Z.eq_dec y (b + a - DSIZE)) as [->|N2];
            [unfold HDRP; lia|].
          contradiction Hy. apply G5; assumption.
        + revert C3. apply changed_weaken. intros y Hy.
          apply (link_free_word s bs); assumption.
      - intros y Hy. apply Hbw. rewrite Enb.
        destruct (Z.eq_dec y (HDRP r)) as [->|N1]; [unfold r, HDRP; lia|].
        destruct (Z.eq_dec y (b + c - DSIZE)) as [->|N2];
          [unfold HDRP; lia|].
        contradiction Hy. apply P5; assumption. }
    revert H4. apply changed_weaken.
    intros y [Hw|[(d & Hd & Hw)|[Hw|Hw]]].
    + apply Hbw. rewrite Enb. unfold block_word in Hw. rewrite Enr in Hw.
      unfold r, HDRP in *. lia.
    + apply In_filter_neq in Hd. destruct Hd as [Hd Hdb].
      left. exists d. split; [assumption|].
      pose proof (sh_sub _ _ _ Hsh d Hd) as Hdbs.
      destruct (Htag d Hdbs Hdb) as [T1 _].
      unfold block_word, NEXT_BLKP in *. fold (HDRP d) in *.
      rewrite (GET_SIZE_of_GET _ _ _ _ T1) in Hw. assumption.
    + right. left. congruence.
    + right. right. congruence.
  - (* the whole block *)
    destruct (retag_shape s bs fl b 1 Hsh Hbb Hbhl (or_intror eq_refl))
      as (Hsh2 & G & Hsz2 & Hal2 & Hfr & Hhd).
    cbv zeta in Hsh2, G, Hsz2, Hal2, Hfr, Hhd.
    fold c in Hsh2, G, Hsz2, Hal2, Hfr, Hhd.
    set (s2 := PUT (PUT s (HDRP b) (PACK c 1))
                 (FTRP (PUT s (HDRP b) (PACK c 1)) b) (PACK c 1)) in *.
    destruct (unlink_shape s2 bs fl b Hsh2 Hb) as (Hsh3 & G3 & C3).
    set (s3 := remove_from_free_list s2 b) in *.
    destruct (tag_not_link s _ _ _ b Hch Hbb) as [Tb _].
    assert (Eb3 : GET s3 (HDRP b) = GET s2 (HDRP b)) by (apply G3; assumption).
    exists bs, (filter (fun x => negb (x =? b)) fl).
    assert (Ed3 : forall d, In d bs -> GET s3 (HDRP d) = GET s2 (HDRP d)).
    { intros d Hd. apply G3. apply (tag_not_link s _ _ _ d Hch Hd). }
    split; [split; [assumption|split]|].
    { intros d Hd. rewrite In_filter_neq.
      rewrite (GET_ALLOC_of_GET _ _ _ _ (Ed3 d Hd)).
      destruct (Z.eq_dec d b) as [->|Hne].
      - rewrite Hal2. split; [discriminate|tauto].
      - rewrite (GET_ALLOC_of_GET _ _ _ _ (Hhd d Hd Hne)).
        rewrite (Hag d Hd). tauto. }
    { intros d Hd Hdf.
      rewrite (GET_ALLOC_of_GET _ _ _ _ (Ed3 d Hd)) in Hdf.
      destruct (Z.eq_dec d b) as [->|Hne]; [congruence|].
      pose proof (Hhd d Hd Hne) as E.
      rewrite (GET_ALLOC_of_GET _ _ _ _ E) in Hdf.
      assert (End : NEXT_BLKP s3 d = NEXT_BLKP s d).
      { unfold NEXT_BLKP. fold (HDRP d).
        rewrite (GET_SIZE_of_GET _ _ _ _ (Ed3 d Hd)),
                (GET_SIZE_of_GET _ _ _ _ E). reflexivity. }
      rewrite End. pose proof (Hco d Hd Hdf) as A.
      destruct (chain_facts s _ _ _ Hch d Hd) as (_ & _ & [Hc|[Hc _]]).
      - rewrite (GET_ALLOC_of_GET _ _ _ _ (Ed3 _ Hc)).
        destruct (Z.eq_dec (NEXT_BLKP s d) b) as [E0|Hcb];
          [rewrite E0; assumption|].
        rewrite (GET_ALLOC_of_GET _ _ _ _ (Hhd _ Hc Hcb)). assumption.
      - rewrite Hc in *.
        rewrite <- A. apply GET_ALLOC_of_GET.
        rewrite G3 by (apply (epilogue_not_link s _ _ _ Hch)).
        apply GET_ext, Hfr; [unfold HDRP; lia|rewrite Efb; unfold HDRP; lia]. }
    split; [assumption|].
    split; [rewrite (GET_ALLOC_of_GET _ _ _ _ Eb3); assumption|].
    split; [rewrite (GET_SIZE_of_GET _ _ _ _ Eb3), Hsz2; lia|].
    split; [auto|].
    split.
    { apply (changed_trans _ s s2).
      - intros y Hy. apply Hbw.
        destruct (Z.eq_dec y (HDRP b)) as [->|N1];
          [rewrite Enb; unfold HDRP; lia|].
        destruct (Z.eq_dec y (FTRP s b)) as [->|N2];
          [rewrite Enb, Efb; unfold HDRP; lia|].
        contradiction Hy. apply Hfr; assumption.
      - revert C3. apply changed_weaken. intros y Hy.
        apply (link_free_word s bs); assumption. }
    destruct (remove_fields s2 b) as (_ & F1 & F2 & F3).
    fold s3 in F1, F2, F3. rewrite F1, F2, F3.
    split; [reflexivity|]. split; [reflexivity|]. split; [reflexivity|].
    left. split; [reflexivity|]. split; [reflexivity|].
    split; [|exact Hcons].
    rewrite (GET_SIZE_of_GET _ _ _ _ Eb3), Hsz2. reflexivity.
Qed.

End PlaceInv.

Section ExtendInv.
Context {abi : arch}.

Lemma MINUS1_eq : MINUS1 = word_modulus - 1.
Proof.
  unfold MINUS1, wrap.
  destruct word_modulus_cases as [(_ & _ & ->)|(_ & _ & ->)]; reflexivity.
Qed.

(** The number of bytes that [extend_heap] asks for: the word count
    rounded up to an even one. *)
Lemma extend_heap_refused (s : heap) (words : Z) :
  let size := if negb (words mod 2 =? 0)
              then wrap ((words + 1) * WSIZE) else wrap (words * WSIZE) in
  mem_max_addr s < mem_brk s + size ->
  extend_heap s words = (NULL, s).
Proof.
  intros size Hroom. unfold extend_heap. fold size. unfold mem_sbrk.
  rewrite (proj2 (Z.ltb_lt _ _) Hroom), orb_true_r.
  rewrite Z.eqb_refl. reflexivity.
Qed.

(** [extend_heap] keeps the invariant when the heap primitive grants the
    request (of at least a minimum block): the new block, merged with a
    free last block, is a free block of at least [size] bytes at the head
    of the list. *)
Lemma extend_heap_inv (s : heap) (bs fl : list Z)
    (words size : Z) :
  heap_inv s bs fl ->
  (if negb (words mod 2 =? 0)
   then wrap ((words + 1) * WSIZE) else wrap (words * WSIZE)) = size ->
  2 * DSIZE <= size -> size mod DSIZE = 0 ->
  mem_brk s + size <= mem_max_addr s ->
  let e := mem_brk s in
  let prev := PREV_BLKP s e in
  let lo := if GET_ALLOC s (HDRP prev) =? 0 then prev else e in
  let bs' := merged lo (e + size) (bs ++ [e]) in
  let fl' := lo :: unlisted lo (e + size) fl in
  fst (extend_heap s words) = lo
  /\ heap_inv (snd (extend_heap s words)) bs' fl'
  /\ GET_SIZE (snd (extend_heap s words)) (HDRP lo) = e + size - lo
  /\ lo <= e
  /\ (forall d, In d bs -> GET_ALLOC s (HDRP d) <> 0 -> In d bs' /\ d <> lo)
  /\ changed_only
       (fun x => mem_brk s - WSIZE <= x < mem_brk s + size
                 \/ free_word s fl x) s
       (snd (extend_heap s words))
  /\ mem_brk (snd (extend_heap s words)) = mem_brk s + size
  /\ mem_max_addr (snd (extend_heap s words)) = mem_max_addr s
  /\ heap_listp (snd (extend_heap s words)) = heap_listp s.
Proof.
  pose proof WSIZE_pos as HW. pose proof DSIZE_eq as HD.
  intros [Hsh [Hag Hco]] Esize Hmin Hmod Hroom e prev lo0 bs' fl'.
  pose proof (sh_chain _ _ _ Hsh) as Hch.
  destruct (shape_positive _ _ _ Hsh) as [Hpos Hhigh].
  pose proof (sh_max _ _ _ Hsh) as Hmax.
  destruct (chain_bounds s _ _ _ Hch) as [Hle Hbnd].
  fold e in Hch, Hhigh, Hle, Hbnd, Hroom.
  assert (Hsz : is_size size) by (split; [lia|assumption]).
  unfold extend_heap. rewrite Esize. unfold mem_sbrk. fold e.
  rewrite (proj2 (Z.ltb_ge size 0)) by lia.
  rewrite (proj2 (Z.ltb_ge (mem_max_addr s) (e + size))) by lia.
  cbn [orb].
  destruct (Z.eqb_spec e MINUS1) as [E|_]; [rewrite MINUS1_eq in E; lia|].
  set (s1 := set_mem_brk s (e + size)).
  assert (Hge : DSIZE <= size) by lia.
  destruct (put_tags s1 e size 0 Hsz (or_introl eq_refl) Hge)
    as (E1 & G1 & G2 & G3 & G4 & G5 & F1 & F2 & F3 & F4).
  set (s2 := PUT s1 (HDRP e) (PACK size 0)) in *.
  set (s3 := PUT s2 (FTRP s2 e) (PACK size 0)) in *.
  assert (En3 : NEXT_BLKP s3 e = e + size).
  { unfold NEXT_BLKP. fold (HDRP e). rewrite G3. reflexivity. }
  rewrite En3.
  set (s4 := PUT s3 (HDRP (e + size)) (PACK 0 1)).
  assert (V4 : forall y, y < e - WSIZE -> mem s4 y = mem s y).
  { intros y Hy. unfold s4. rewrite mem_PUT_other by (unfold HDRP; lia).
    rewrite G5 by (unfold HDRP; lia). reflexivity. }
  assert (V4' : forall y, e + size <= y -> mem s4 y = mem s y).
  { intros y Hy. unfold s4. rewrite mem_PUT_other by (unfold HDRP; lia).
    rewrite G5 by (unfold HDRP; lia). reflexivity. }
  assert (Vh : GET s4 (HDRP e) = PACK size 0).
  { unfold s4. rewrite GET_PUT_other by (unfold HDRP; lia). assumption. }
  assert (Vf : GET s4 (e + size - DSIZE) = PACK size 0).
  { unfold s4. rewrite GET_PUT_other by (unfold HDRP; lia). assumption. }
  assert (Ve : GET s4 (HDRP (e + size)) = PACK 0 1).
  { unfold s4. rewrite GET_PUT_same. apply wrap_small.
    pose proof (wrap_range 0). change (PACK 0 1) with 1. lia. }
  assert (Htag : forall d, In d bs ->
            GET s4 (HDRP d) = GET s (HDRP d)
            /\ GET s4 (FTRP s d) = GET s (FTRP s d)).
  { intros d Hd. destruct (Hbnd d Hd) as [_ Hdhi].
    destruct (chain_facts s _ _ _ Hch d Hd) as (Hdmin & _).
    split; apply GET_ext, V4; unfold FTRP, HDRP in *; lia. }
  assert (L4 : linked s4 fl).
  { apply (linked_ext s); [reflexivity|reflexivity| |apply (sh_linked _ _ _ Hsh)].
    intros x (c & Hc & Hx). apply GET_ext, V4.
    pose proof (shape_listed _ _ _ _ Hsh Hc) as Hcb.
    destruct (link_inside s _ _ _ c Hch Hcb). destruct (Hbnd c Hcb).
    unfold FTRP, HDRP in *. lia. }
  assert (Heb : ~ In e bs).
  { intros H. destruct (Hbnd e H).
    destruct (chain_facts s _ _ _ Hch e H) as (? & _). lia. }
  assert (Hsh4 : heap_shape s4 (bs ++ [e]) fl).
  { constructor.
    - change (heap_listp s4) with (heap_listp s).
      change (mem_brk s4) with (e + size).
      apply (chain_append s); try assumption.
      + apply (tag_fields s4 (HDRP e) size 0 Hsz (or_introl eq_refl) Vh).
      + congruence.
      + intros d Hd. destruct (Htag d Hd) as [T1 T2].
        destruct (chain_facts s _ _ _ Hch d Hd) as (_ & Hdf & _).
        split; [apply GET_SIZE_of_GET; assumption|congruence].
    - apply in_or_app. left. apply (sh_prologue_in _ _ _ Hsh).
    - apply (sh_low _ _ _ Hsh).
    - change (mem_brk s4) with (e + size).
      change (mem_max_addr s4) with (mem_max_addr s). lia.
    - apply (sh_max _ _ _ Hsh).
    - change (heap_listp s4) with (heap_listp s).
      destruct (Htag _ (sh_prologue_in _ _ _ Hsh)) as [E _].
      rewrite (GET_ALLOC_of_GET _ _ _ _ E). apply (sh_prologue _ _ _ Hsh).
    - assumption.
    - apply (sh_nodup _ _ _ Hsh).
    - intros d Hd. apply in_or_app. left. apply (sh_sub _ _ _ Hsh). assumption. }
  assert (He4 : In e (bs ++ [e])) by (apply in_or_app; right; left; reflexivity).
  assert (Hef : GET_ALLOC s4 (HDRP e) = 0)
    by apply (tag_fields s4 (HDRP e) size 0 Hsz (or_introl eq_refl) Vh).
  assert (Hen : ~ In e fl).
  { intros H. apply Heb. apply (sh_sub _ _ _ Hsh). assumption. }
  assert (Hag4 : forall d, In d (bs ++ [e]) -> d <> e ->
            (GET_ALLOC s4 (HDRP d) = 0 <-> In d fl)).
  { intros d Hd Hde. apply in_app_or in Hd.
    destruct Hd as [Hd|[Hd|[]]]; [|congruence].
    destruct (Htag d Hd) as [E _].
    rewrite (GET_ALLOC_of_GET _ _ _ _ E). apply Hag. assumption. }
  assert (Hco4 : forall d, In d (bs ++ [e]) -> d <> e ->
            GET_ALLOC s4 (HDRP d) = 0 ->
            NEXT_BLKP s4 d = e \/ GET_ALLOC s4 (HDRP (NEXT_BLKP s4 d)) = 1).
  { intros d Hd Hde Hdf. apply in_app_or in Hd.
    destruct Hd as [Hd|[Hd|[]]]; [|congruence].
    destruct (Htag d Hd) as [E _].
    rewrite (GET_ALLOC_of_GET _ _ _ _ E) in Hdf.
    assert (End : NEXT_BLKP s4 d = NEXT_BLKP s d).
    { unfold NEXT_BLKP. fold (HDRP d).
      rewrite (GET_SIZE_of_GET _ _ _ _ E). reflexivity. }
    rewrite End. pose proof (Hco d Hd Hdf) as A.
    destruct (chain_facts s _ _ _ Hch d Hd) as (_ & _ & [Hc|[Hc _]]).
    - right. destruct (Htag _ Hc) as [E' _].
      rewrite (GET_ALLOC_of_GET _ _ _ _ E'). assumption.
    - left. assumption. }
  pose proof (coalesce_pending_inv s4 (bs ++ [e]) fl e Hsh4 He4 Hef Hen
                Hag4 Hco4) as H.
  cbv zeta in H.
  set (lo := if GET_ALLOC s4 (HDRP (PREV_BLKP s4 e)) =? 0
             then PREV_BLKP s4 e else e) in *.
  set (hi := if GET_ALLOC s4 (HDRP (NEXT_BLKP s4 e)) =? 0
             then NEXT_BLKP s4 (NEXT_BLKP s4 e) else NEXT_BLKP s4 e) in *.
  destruct H as (H1 & H2 & H3 & H4 & H5 & H6 & H7).
  assert (En4 : NEXT_BLKP s4 e = e + size).
  { unfold NEXT_BLKP. fold (HDRP e).
    destruct (tag_fields s4 (HDRP e) size 0 Hsz (or_introl eq_refl) Vh)
      as [-> _]. reflexivity. }
  rewrite En4 in H7.
  destruct (coalesce_bounds s4 e) as (_ & B1 & B2 & B3).
  (* the neighbours of the new block *)
  assert (Ehi : hi = e + size).
  { unfold hi. rewrite En4.
    assert (A : GET_ALLOC s4 (HDRP (e + size)) = 1).
    { rewrite GET_ALLOC_eq, Ve. reflexivity. }
    rewrite A. reflexivity. }
  assert (Elo : lo = lo0).
  { unfold lo, lo0.
    assert (P : PREV_BLKP s4 e = prev).
    { unfold prev, PREV_BLKP. f_equal. apply GET_SIZE_ext, V4. lia. }
    rewrite P.
    assert (Hehl : e <> heap_listp s4).
    { change (heap_listp s4) with (heap_listp s). intros E0. apply Heb.
      rewrite E0. apply (sh_prologue_in _ _ _ Hsh). }
    destruct (prev_block s4 _ _ _ (sh_chain _ _ _ Hsh4) e He4 Hehl)
      as (Q1 & Q2 & _).
    rewrite P in Q1, Q2.
    destruct (chain_facts s4 _ _ _ (sh_chain _ _ _ Hsh4) prev Q1) as (Q3 & _).
    assert (A : GET_ALLOC s4 (HDRP prev) = GET_ALLOC s (HDRP prev)).
    { apply GET_ALLOC_ext, V4. unfold HDRP. lia. }
    rewrite A. reflexivity. }
  rewrite Ehi, Elo in *.
  split; [assumption|]. split; [assumption|].
  split; [assumption|]. split; [assumption|].
  split.
  { intros d Hd Hda. apply H5.
    - apply in_or_app. left. assumption.
    - destruct (Htag d Hd) as [E _].
      rewrite (GET_ALLOC_of_GET _ _ _ _ E). assumption. }
  split; [|rewrite B1, B2, B3; repeat split].
  apply (changed_trans _ s s4).
  - intros y Hy. left.
    destruct (Z.lt_ge_cases y (e - WSIZE)) as [L|L];
      [contradiction Hy; apply V4; assumption|].
    destruct (Z.lt_ge_cases y (e + size)) as [L'|L'];
      [lia|contradiction Hy; apply V4'; assumption].
  - revert H4. apply changed_weaken.
    intros y [Hw|[(d & Hd & Hw)|[Hw|Hw]]].
    + left. unfold block_word in Hw. rewrite En4 in Hw.
      unfold HDRP in Hw. lia.
    + right. left. exists d. split; [assumption|].
      destruct (Htag d (sh_sub _ _ _ Hsh d Hd)) as [T1 _].
      unfold block_word, NEXT_BLKP in *. fold (HDRP d) in *.
      rewrite (GET_SIZE_of_GET _ _ _ _ T1) in Hw. assumption.
    + right. right. left. assumption.
    + right. right. right. assumption.
Qed.

End ExtendInv.

Section MallocInv.
Context {abi : arch}.

(** What [find_fit] returns on a heap that satisfies the invariant: the
    first entry of the free list that is large enough, or null when
    there is none.  A unit of fuel per entry and one for the prologue
    suffice. *)
Lemma find_fit_from_sound (s : heap) (asize : Z) (l : list Z) :
  forall (p : Z) (fuel : nat),
  next_links s p l (heap_listp s) ->
  (forall c, In c l -> GET_ALLOC s (HDRP c) = 0) ->
  GET_ALLOC s (HDRP (heap_listp s)) = 1 ->
  (length l < fuel)%nat ->
  (exists l1 b l2, l = l1 ++ b :: l2
     /\ find_fit_from fuel s asize p = Some b
     /\ asize <= GET_SIZE s (HDRP b)
     /\ forall c, In c l1 -> GET_SIZE s (HDRP c) < asize)
  \/ (find_fit_from fuel s asize p = Some NULL
      /\ forall c, In c l -> GET_SIZE s (HDRP c) < asize).
Proof.
  induction l as [|a l IH]; intros p fuel Hn Hfree Hpro Hfuel.
  - simpl in Hn. subst p. right. destruct fuel as [|fuel]; [simpl in Hfuel; lia|].
    simpl. rewrite Hpro. simpl. split; [reflexivity|]. intros c [].
  - simpl in Hn. destruct Hn as [-> Hn].
    destruct fuel as [|fuel]; [simpl in Hfuel; lia|].
    simpl. rewrite (Hfree a (or_introl eq_refl)). simpl.
    destruct (Z.leb_spec asize (GET_SIZE s (HDRP a))) as [Hfit|Hsmall].
    + left. exists [], a, l. simpl. repeat split; try assumption.
      intros c [].
    + simpl in Hfuel.
      destruct (IH (GET_NEXT_PTR s a) fuel Hn
                  (fun c Hc => Hfree c (or_intror Hc)) Hpro)
        as [(l1 & b & l2 & E & Hf & Hs & Hl)|[Hf Hl]]; [lia| |].
      * left. exists (a :: l1), b, l2. simpl. rewrite E.
        repeat split; try assumption.
        intros c [<-|Hc]; auto.
      * right. split; [assumption|]. intros c [<-|Hc]; auto.
Qed.

Lemma find_fit_inv (s : heap) (bs fl : list Z) (asize : Z) (fuel : nat) :
  heap_inv s bs fl -> (length fl < fuel)%nat ->
  (exists l1 b l2, fl = l1 ++ b :: l2
     /\ find_fit fuel s asize = Some b
     /\ asize <= GET_SIZE s (HDRP b)
     /\ forall c, In c l1 -> GET_SIZE s (HDRP c) < asize)
  \/ (find_fit fuel s asize = Some NULL
      /\ forall c, In c fl -> GET_SIZE s (HDRP c) < asize).
Proof.
  intros [Hsh [Hag Hco]] Hfuel. unfold find_fit.
  apply find_fit_from_sound; try assumption.
  - apply (sh_linked _ _ _ Hsh).
  - intros c Hc. apply (Hag c); [|assumption].
    apply (sh_sub _ _ _ Hsh). assumption.
  - apply (sh_prologue _ _ _ Hsh).
Qed.

(** The request of [mm_malloc] to [extend_heap] is for the number of
    bytes it needs: the word count is even and nothing wraps around. *)
Lemma extend_request (x : Z) :
  is_size x ->
  (if negb ((x / WSIZE) mod 2 =? 0)
   then wrap ((x / WSIZE + 1) * WSIZE) else wrap (x / WSIZE * WSIZE)) = x.
Proof.
  intros [R M]. unfold wrap.
  destruct word_modulus_cases as [(W & D & Mo)|(W & D & Mo)];
    rewrite W, D, Mo in *.
  - assert (E : (x / 4) mod 2 = 0) by (Z.to_euclidean_division_equations; lia).
    rewrite E. simpl. rewrite Z.mod_small by (Z.to_euclidean_division_equations; lia).
    Z.to_euclidean_division_equations; lia.
  - assert (E : (x / 8) mod 2 = 0) by (Z.to_euclidean_division_equations; lia).
    rewrite E. simpl. rewrite Z.mod_small by (Z.to_euclidean_division_equations; lia).
    Z.to_euclidean_division_equations; lia.
Qed.

Lemma MAX_chunk (a : Z) :
  is_size a -> is_size (MAX a CHUNKSIZE) /\ a <= MAX a CHUNKSIZE
               /\ CHUNKSIZE <= MAX a CHUNKSIZE.
Proof.
  intros Ha. unfold MAX. change CHUNKSIZE with 4096.
  destruct (Z.gtb_spec a 4096); [split; [assumption|lia]|].
  split; [|lia]. split.
  - destruct word_modulus_cases as [(_ & _ & ->)|(_ & _ & ->)]; lia.
  - destruct word_modulus_cases as [(_ & -> & _)|(_ & -> & _)]; reflexivity.
Qed.

(** [mm_malloc] keeps the invariant.  For a request [size > 0] whose
    adjustment does not wrap around, on a heap that satisfies the
    invariant and with a unit of fuel per list entry and one more:
    - either the result is null and the heap is untouched, which happens
      only when no free block fits and the heap primitive refuses the
      extension;
    - or the result [p] is a block of the heap afterwards, marked
      allocated, of at least the adjusted size, hence of at least
      [size + DSIZE] bytes, that was not an allocated block before; the invariant holds again, the blocks that
      were allocated are still blocks and none of their words has
      changed. *)
Lemma mm_malloc_inv (s : heap) (bs fl : list Z) (size : Z)
    (fuel : nat) :
  heap_inv s bs fl -> 0 < size ->
  size + DSIZE + (DSIZE - 1) < word_modulus ->
  (length fl < fuel)%nat ->
  exists p s',
    mm_malloc fuel s size = Some (p, s')
    /\ ((p = NULL /\ s' = s
         /\ (forall c, In c fl -> GET_SIZE s (HDRP c) < adjust_size size)
         /\ mem_max_addr s < mem_brk s + MAX (adjust_size size) CHUNKSIZE)
        \/ (p <> NULL
            /\ exists bs' fl',
                 heap_inv s' bs' fl' /\ In p bs'
                 /\ GET_ALLOC s' (HDRP p) = 1
                 /\ size + DSIZE <= adjust_size size <= GET_SIZE s' (HDRP p)
                 /\ (In p bs -> GET_ALLOC s (HDRP p) = 0)
                 /\ (forall d, In d bs -> GET_ALLOC s (HDRP d) = 1 ->
                       In d bs')
                 /\ keeps_allocated s s' bs [heap_listp s]
                 /\ heap_listp s' = heap_listp s
                 /\ mem_max_addr s' = mem_max_addr s
                 /\ mem s' (HDRP (heap_listp s))
                    = mem s (HDRP (heap_listp s))
                 /\ changed_only
                      (fun x => heap_listp s <= x < mem_brk s') s s')).
Proof.
  pose proof WSIZE_pos as HW. pose proof DSIZE_eq as HD.
  intros Hinv Hpos Hfit Hfuel.
  destruct (adjust_size_in_range size Hpos Hfit) as (_ & _ & Ha & Hamin & Hroom).
  set (a := adjust_size size) in *.
  assert (Hblock : forall (st : heap) (l l0 : list Z) d,
            heap_shape st l l0 -> In d l -> d <> NULL).
  { intros st l l0 d Hsh Hd.
    destruct (chain_bounds st _ _ _ (sh_chain _ _ _ Hsh)) as [_ Hb].
    destruct (Hb d Hd). pose proof (sh_low _ _ _ Hsh). unfold NULL. lia. }
  unfold mm_malloc. rewrite (proj2 (Z.leb_gt size 0)) by lia. fold a.
  destruct (find_fit_inv s bs fl a fuel Hinv Hfuel)
    as [(l1 & b & l2 & E & Hf & Hs & _)|[Hf Hsmall]]; rewrite Hf.
  - (* a fit *)
    assert (Hb : In b fl).
    { rewrite E. apply in_or_app. right. left. reflexivity. }
    assert (Hbn : b <> NULL).
    { apply (Hblock s bs fl b (proj1 Hinv)).
      apply (sh_sub _ _ _ (proj1 Hinv)). assumption. }
    apply Z.eqb_neq in Hbn as Hbn'. rewrite Hbn'. simpl.
    exists b, (place s b a). split; [reflexivity|]. right.
    split; [assumption|].
    destruct (place_inv s bs fl b a Hinv Hb Ha Hamin Hs)
      as (bs' & fl' & I1 & I2 & I3 & I4 & I5 & I6 & I7 & I8 & I9 & I10).
    exists bs', fl'.
    split; [assumption|]. split; [assumption|]. split; [assumption|].
    split; [lia|]. split.
    { intros Hin. apply (proj1 (proj2 Hinv) b Hin). assumption. }
    split.
    { intros d Hd Hda. apply I5; [assumption|congruence]. }
    assert (I6' : changed_only
              (fun x => mem_brk s - WSIZE <= x \/ free_word s fl x) s
              (place s b a)).
    { revert I6. apply changed_weaken. auto. }
    split; [apply (frame_keeps_allocated s _ bs fl Hinv I6')|].
    split; [assumption|]. split; [assumption|].
    split; [apply (prologue_header_kept s _ bs fl Hinv I6')|].
    revert I6. apply changed_weaken. intros y Hy.
    pose proof (free_word_inside s bs fl y (proj1 Hinv) Hy).
    rewrite I7. lia.
  - (* no fit: more memory *)
    simpl.
    destruct (MAX_chunk a Ha) as (Hx & Hxa & Hxc).
    set (x := MAX a CHUNKSIZE) in *.
    pose proof (extend_request x Hx) as Ereq.
    destruct (Z.lt_ge_cases (mem_max_addr s) (mem_brk s + x)) as [Hno|Hyes].
    + rewrite extend_heap_refused by (cbv zeta; rewrite Ereq; assumption).
      simpl. exists NULL, s. split; [reflexivity|]. left. auto.
    + assert (Hxmin : 2 * DSIZE <= x) by lia.
      pose proof (extend_heap_inv s bs fl (x / WSIZE) x Hinv Ereq
                    Hxmin (proj2 Hx) Hyes) as J.
      cbv zeta in J.
      set (lo := if GET_ALLOC s (HDRP (PREV_BLKP s (mem_brk s))) =? 0
                 then PREV_BLKP s (mem_brk s) else mem_brk s) in *.
      set (bs1 := merged lo (mem_brk s + x) (bs ++ [mem_brk s])) in *.
      set (fl1 := lo :: unlisted lo (mem_brk s + x) fl) in *.
      destruct J as (J0 & J1 & J3 & J2 & J4 & J5' & J6 & J7 & J8).
      assert (J5 : changed_only
                (fun y => mem_brk s - WSIZE <= y \/ free_word s fl y) s
                (snd (extend_heap s (x / WSIZE)))).
      { revert J5'. apply changed_weaken.
        intros y [Hy|Hy]; [left; lia|right; assumption]. }
      destruct (extend_heap s (x / WSIZE)) as [bp s1] eqn:Eext.
      cbn [fst snd] in *. subst bp.
      assert (J2' : In lo fl1) by (left; reflexivity).
      assert (Hbn : lo <> NULL).
      { apply (Hblock s1 bs1 fl1 lo (proj1 J1)).
        apply (sh_sub _ _ _ (proj1 J1)). assumption. }
      apply Z.eqb_neq in Hbn as Hbn'. rewrite Hbn'.
      exists lo, (place s1 lo a). split; [reflexivity|]. right.
      split; [assumption|].
      assert (Hfits : a <= GET_SIZE s1 (HDRP lo)) by lia.
      destruct (place_inv s1 bs1 fl1 lo a J1 J2' Ha Hamin Hfits)
        as (bs' & fl' & I1 & I2 & I3 & I4 & I5 & I6 & I7 & I8 & I9 & I10).
      pose proof (frame_keeps_allocated s s1 bs fl Hinv J5) as K1.
      assert (K2 : keeps_allocated s1 (place s1 lo a) bs1 [heap_listp s1]).
      { apply (frame_keeps_allocated s1 _ bs1 fl1 J1).
        revert I6. apply changed_weaken. auto. }
      unfold keeps_allocated in K1, K2.
      (* an allocated block of [s] is one of [s1], with the same header *)
      assert (Hkept : forall d, In d bs -> GET_ALLOC s (HDRP d) = 1 ->
                In d bs1 /\ GET_ALLOC s1 (HDRP d) = 1
                /\ (d <> heap_listp s ->
                      GET_SIZE s1 (HDRP d) = GET_SIZE s (HDRP d))).
      { intros d Hd Hda.
        assert (Hd1 : In d bs1) by (apply J4; [assumption|congruence]).
        split; [assumption|].
        destruct (Z.eq_dec d (heap_listp s)) as [->|Hne].
        - split; [|congruence]. rewrite <- J8.
          apply (sh_prologue _ _ _ (proj1 J1)).
        - assert (Hm : mem s1 (HDRP d) = mem s (HDRP d)).
          { apply (K1 d); try assumption.
            - intros [E0|[]]. congruence.
            - destruct (chain_facts s _ _ _ (sh_chain _ _ _ (proj1 Hinv)) d Hd)
                as (? & _).
              unfold block_word, NEXT_BLKP, HDRP in *. lia. }
          split; [|intros _; apply GET_SIZE_ext; assumption].
          rewrite <- Hda. apply GET_ALLOC_ext. assumption. }
      assert (Hpro : mem (place s1 lo a) (HDRP (heap_listp s))
                     = mem s (HDRP (heap_listp s))).
      { transitivity (mem s1 (HDRP (heap_listp s))).
        - rewrite <- J8. apply (prologue_header_kept s1 _ bs1 fl1 J1).
          revert I6. apply changed_weaken. auto.
        - apply (prologue_header_kept s _ bs fl Hinv J5). }
      assert (Hin : changed_only
                (fun y => heap_listp s <= y < mem_brk (place s1 lo a)) s
                (place s1 lo a)).
      { pose proof (free_word_inside s bs fl (heap_listp s) (proj1 Hinv)
                      (or_intror (or_introl eq_refl))) as Hhl.
        apply (changed_trans _ s s1).
        - revert J5'. apply changed_weaken. intros y [Hy|Hy].
          + rewrite I7, J6. lia.
          + pose proof (free_word_inside s bs fl y (proj1 Hinv) Hy).
            rewrite I7, J6. lia.
        - revert I6. apply changed_weaken. intros y Hy.
          pose proof (free_word_inside s1 bs1 fl1 y (proj1 J1) Hy).
          rewrite I7, <- J8. lia. }
      exists bs', fl'.
      split; [assumption|]. split; [assumption|]. split; [assumption|].
      split; [lia|]. split.
      { intros Hin0. destruct (alloc_bit s (HDRP lo)) as [A|A]; [assumption|].
        destruct (J4 lo Hin0) as [_ N]; [congruence|]. contradiction N.
        reflexivity. }
      split.
      { intros d Hd Hda. destruct (Hkept d Hd Hda) as (Hd1 & Ha1 & _).
        apply I5; [assumption|congruence]. }
      split;
        [|split; [rewrite I9, J8; reflexivity|];
          split; [rewrite I8, J7; reflexivity|];
          split; [exact Hpro|exact Hin]].
      intros d Hd Hex Hda y Hy.
      assert (Hne : d <> heap_listp s)
        by (intros ->; apply Hex; left; reflexivity).
      destruct (Hkept d Hd Hda) as (Hd1 & Ha1 & Hs1). specialize (Hs1 Hne).
      rewrite <- (K1 d Hd Hex Hda y Hy).
      apply (K2 d Hd1); try assumption.
      * rewrite J8. assumption.
      * unfold block_word, NEXT_BLKP in *. fold (HDRP d) in *.
        rewrite Hs1. assumption.
Qed.

End MallocInv.

Section InitInv.
Context {abi : arch}.

Lemma mem_sbrk_granted (s : heap) (incr : Z) :
  0 <= incr -> mem_brk s + incr <= mem_max_addr s ->
  mem_sbrk s incr = (mem_brk s, set_mem_brk s (mem_brk s + incr)).
Proof.
  intros H1 H2. unfold mem_sbrk.
  rewrite (proj2 (Z.ltb_ge incr 0)) by lia.
  rewrite (proj2 (Z.ltb_ge (mem_max_addr s) (mem_brk s + incr))) by lia.
  reflexivity.
Qed.

Lemma mem_sbrk_refused (s : heap) (incr : Z) :
  mem_max_addr s < mem_brk s + incr -> mem_sbrk s incr = (MINUS1, s).
Proof.
  intros H. unfold mem_sbrk.
  rewrite (proj2 (Z.ltb_lt _ _) H), orb_true_r. reflexivity.
Qed.

Lemma mem_init_frame (s : heap) (x : Z) :
  mem (init_frame s) x =
    if x =? mem_brk s + 5 * WSIZE then PACK 0 1
    else if x =? mem_brk s + 4 * WSIZE then PACK (2 * DSIZE) 1
    else if x =? mem_brk s + 3 * WSIZE then 0
    else if x =? mem_brk s + 2 * WSIZE then 0
    else if x =? mem_brk s + 1 * WSIZE then PACK (2 * DSIZE) 1
    else if x =? mem_brk s then 0
    else mem s x.
Proof. reflexivity. Qed.

Lemma mm_init_steps (s : heap) :
  mem_brk s + 6 * WSIZE <= mem_max_addr s -> mem_brk s <> MINUS1 ->
  mm_init s =
    let (bp, s9) := extend_heap (init_frame s) (CHUNKSIZE / WSIZE) in
    if bp =? NULL then (-1, s9) else (0, s9).
Proof.
  pose proof WSIZE_pos as HW.
  intros Hroom Hne. unfold mm_init.
  rewrite mem_sbrk_granted by lia.
  cbn [heap_listp set_heap_listp set_mem_brk].
  apply Z.eqb_neq in Hne. rewrite Hne. reflexivity.
Qed.

Lemma is_size_2D : is_size (2 * DSIZE).
Proof.
  destruct word_modulus_cases as [(_ & D & M)|(_ & D & M)];
    unfold is_size; rewrite D, M; split; try lia; reflexivity.
Qed.

(** Prologue and epilogue alone satisfy the invariant, with an empty
    free list. *)
Lemma init_frame_inv (s : heap) :
  0 <= mem_brk s -> mem_brk s + 6 * WSIZE <= mem_max_addr s ->
  mem_max_addr s <= word_modulus ->
  heap_inv (init_frame s) [mem_brk s + 2 * WSIZE] [].
Proof.
  pose proof WSIZE_pos as HW. pose proof DSIZE_eq as HD.
  intros Hlo Hroom Hmax.
  set (b0 := mem_brk s) in *.
  assert (Ehl : heap_listp (init_frame s) = b0 + 2 * WSIZE) by reflexivity.
  assert (Ebrk : mem_brk (init_frame s) = b0 + 6 * WSIZE) by reflexivity.
  assert (Efl : free_listp (init_frame s) = b0 + 2 * WSIZE) by reflexivity.
  assert (Emx : mem_max_addr (init_frame s) = mem_max_addr s) by reflexivity.
  assert (M1 : mem (init_frame s) (b0 + 1 * WSIZE) = PACK (2 * DSIZE) 1).
  { rewrite mem_init_frame. fold b0.
    repeat match goal with
           | |- context [?a =? ?b] =>
               first [ rewrite (proj2 (Z.eqb_eq a b)) by lia
                     | rewrite (proj2 (Z.eqb_neq a b)) by lia ]
           end. reflexivity. }
  assert (M2 : mem (init_frame s) (b0 + 2 * WSIZE) = 0).
  { rewrite mem_init_frame. fold b0.
    repeat match goal with
           | |- context [?a =? ?b] =>
               first [ rewrite (proj2 (Z.eqb_eq a b)) by lia
                     | rewrite (proj2 (Z.eqb_neq a b)) by lia ]
           end. reflexivity. }
  assert (M4 : mem (init_frame s) (b0 + 4 * WSIZE) = PACK (2 * DSIZE) 1).
  { rewrite mem_init_frame. fold b0.
    repeat match goal with
           | |- context [?a =? ?b] =>
               first [ rewrite (proj2 (Z.eqb_eq a b)) by lia
                     | rewrite (proj2 (Z.eqb_neq a b)) by lia ]
           end. reflexivity. }
  assert (M5 : mem (init_frame s) (b0 + 5 * WSIZE) = PACK 0 1).
  { rewrite mem_init_frame. fold b0. rewrite Z.eqb_refl. reflexivity. }
  destruct (tag_fields_mem (init_frame s) _ _ 1 is_size_2D
              (or_intror eq_refl) M1) as [S1 A1].
  assert (G1 : GET (init_frame s) (b0 + 1 * WSIZE) = PACK (2 * DSIZE) 1).
  { unfold GET. rewrite M1. apply wrap_PACK; [apply is_size_2D|auto]. }
  assert (G4 : GET (init_frame s) (b0 + 4 * WSIZE) = PACK (2 * DSIZE) 1).
  { unfold GET. rewrite M4. apply wrap_PACK; [apply is_size_2D|auto]. }
  assert (G5 : GET (init_frame s) (b0 + 5 * WSIZE) = PACK 0 1).
  { unfold GET. rewrite M5. apply wrap_small. change (PACK 0 1) with 1.
    pose proof (wrap_range 0). lia. }
  assert (EH : HDRP (b0 + 2 * WSIZE) = b0 + 1 * WSIZE) by (unfold HDRP; lia).
  split.
  - constructor; rewrite ?Ehl, ?Ebrk, ?Emx, ?Efl.
    + apply chain_block.
      * rewrite EH, S1. lia.
      * unfold FTRP. rewrite EH, S1.
        replace (b0 + 2 * WSIZE + 2 * DSIZE - DSIZE) with (b0 + 4 * WSIZE)
          by lia.
        congruence.
      * unfold NEXT_BLKP. fold (HDRP (b0 + 2 * WSIZE)). rewrite EH, S1.
        replace (b0 + 2 * WSIZE + 2 * DSIZE) with (b0 + 6 * WSIZE) by lia.
        apply chain_end.
        replace (HDRP (b0 + 6 * WSIZE)) with (b0 + 5 * WSIZE)
          by (unfold HDRP; lia).
        assumption.
    + left. reflexivity.
    + lia.
    + lia.
    + assumption.
    + rewrite EH. assumption.
    + unfold linked. rewrite Ehl, Efl. cbn [next_links prev_links app].
      split; [reflexivity|]. split; [|exact I].
      unfold GET_PREV_PTR, GET. rewrite M2. reflexivity.
    + simpl. repeat constructor. intros [].
    + intros b [].
  - split.
    + intros b [<-|[]]. rewrite EH, A1. split; [discriminate|intros []].
    + intros b [<-|[]]. rewrite EH, A1. discriminate.
Qed.

Lemma is_size_chunk : is_size CHUNKSIZE.
Proof.
  change CHUNKSIZE with 4096.
  destruct word_modulus_cases as [(_ & D & M)|(_ & D & M)];
    unfold is_size; rewrite D, M; split; try lia; reflexivity.
Qed.

(** [mm_init] establishes the invariant.  When the heap primitive has
    room for the six words of the frame and for one chunk, [mm_init]
    returns 0 and leaves a heap of two blocks, the prologue and one free
    block of [CHUNKSIZE] bytes, which is the only entry of the free
    list. *)
Lemma mm_init_inv (s : heap) :
  0 <= mem_brk s -> mem_max_addr s <= word_modulus ->
  mem_brk s + 6 * WSIZE + CHUNKSIZE <= mem_max_addr s ->
  let hl := mem_brk s + 2 * WSIZE in
  let b := mem_brk s + 6 * WSIZE in
  fst (mm_init s) = 0
  /\ heap_inv (snd (mm_init s)) [hl; b] [b]
  /\ heap_listp (snd (mm_init s)) = hl
  /\ free_listp (snd (mm_init s)) = b
  /\ GET_SIZE (snd (mm_init s)) (HDRP b) = CHUNKSIZE
  /\ mem_brk (snd (mm_init s)) = b + CHUNKSIZE.
Proof.
  pose proof WSIZE_pos as HW. pose proof DSIZE_eq as HD.
  intros Hlo Hmax Hroom hl b.
  assert (Hc : CHUNKSIZE = 4096) by reflexivity.
  assert (Hne : mem_brk s <> MINUS1) by (rewrite MINUS1_eq; lia).
  rewrite mm_init_steps by lia.
  assert (Hinv : heap_inv (init_frame s) [hl] [])
    by (apply init_frame_inv; lia).
  pose proof (extend_request CHUNKSIZE is_size_chunk) as Ereq.
  assert (Hmin : 2 * DSIZE <= CHUNKSIZE).
  { rewrite Hc. destruct word_modulus_cases as [(_ & -> & _)|(_ & -> & _)]; lia. }
  assert (Hrm : mem_brk (init_frame s) + CHUNKSIZE <= mem_max_addr (init_frame s)).
  { change (mem_brk (init_frame s)) with b.
    change (mem_max_addr (init_frame s)) with (mem_max_addr s).
    unfold b. lia. }
  pose proof (extend_heap_inv (init_frame s) [hl] []
                (CHUNKSIZE / WSIZE) CHUNKSIZE Hinv Ereq Hmin
                (proj2 is_size_chunk) Hrm) as J.
  cbv zeta in J. change (mem_brk (init_frame s)) with b in J.
  (* the block before the new one is the prologue *)
  assert (Ep : PREV_BLKP (init_frame s) b = hl).
  { unfold PREV_BLKP.
    replace (b - DSIZE) with (FTRP (init_frame s) hl).
    - destruct (chain_facts _ _ _ _ (sh_chain _ _ _ (proj1 Hinv)) hl
                  (or_introl eq_refl)) as (_ & Hf & Hn).
      rewrite (GET_SIZE_of_GET _ _ _ _ Hf).
      destruct Hn as [[E|[]]|[E _]].
      + unfold NEXT_BLKP in E. fold (HDRP hl) in E.
        destruct (chain_facts _ _ _ _ (sh_chain _ _ _ (proj1 Hinv)) hl
                    (or_introl eq_refl)) as (? & _). lia.
      + unfold NEXT_BLKP in E. fold (HDRP hl) in E.
        change (mem_brk (init_frame s)) with b in E. lia.
    - destruct (chain_facts _ _ _ _ (sh_chain _ _ _ (proj1 Hinv)) hl
                  (or_introl eq_refl)) as (_ & _ & [[E|[]]|[E _]]).
      + unfold NEXT_BLKP in E. fold (HDRP hl) in E.
        destruct (chain_facts _ _ _ _ (sh_chain _ _ _ (proj1 Hinv)) hl
                    (or_introl eq_refl)) as (? & _). lia.
      + unfold NEXT_BLKP in E. fold (HDRP hl) in E.
        change (mem_brk (init_frame s)) with b in E. unfold FTRP. lia. }
  rewrite Ep in J.
  assert (Ea : GET_ALLOC (init_frame s) (HDRP hl) = 1)
    by apply (sh_prologue _ _ _ (proj1 Hinv)).
  rewrite Ea in J. cbn [Z.eqb] in J.
  assert (Em : merged b (b + CHUNKSIZE) ([hl] ++ [b]) = [hl; b]).
  { unfold merged. simpl.
    rewrite (proj2 (Z.leb_le hl b)) by (unfold hl, b; lia).
    rewrite Z.leb_refl. reflexivity. }
  rewrite Em in J. change (unlisted b (b + CHUNKSIZE) []) with (@nil Z) in J.
  destruct J as (J0 & J1 & J2 & _ & _ & _ & J6 & _ & J8).
  destruct (extend_heap (init_frame s) (CHUNKSIZE / WSIZE)) as [bp s9].
  cbn [fst snd] in *. subst bp.
  assert (Hb : b <> NULL) by (unfold b, NULL; lia).
  apply Z.eqb_neq in Hb. rewrite Hb. cbn [fst snd].
  split; [reflexivity|]. split; [assumption|]. split; [assumption|].
  split.
  { destruct J1 as [Hsh _]. destruct (sh_linked _ _ _ Hsh) as [Hn _].
    simpl in Hn. tauto. }
  split; [rewrite J2; lia|assumption].
Qed.

(** Without that room [mm_init] returns -1. *)
Lemma mm_init_refused (s : heap) :
  0 <= mem_brk s -> mem_max_addr s <= word_modulus ->
  mem_max_addr s < mem_brk s + 6 * WSIZE + CHUNKSIZE ->
  fst (mm_init s) = -1.
Proof.
  pose proof WSIZE_pos as HW.
  intros Hlo Hmax Hroom.
  destruct (Z.lt_ge_cases (mem_max_addr s) (mem_brk s + 6 * WSIZE)) as [H|H].
  - unfold mm_init. rewrite mem_sbrk_refused by assumption.
    cbn [heap_listp set_heap_listp]. rewrite Z.eqb_refl. reflexivity.
  - assert (Hne : mem_brk s <> MINUS1) by (rewrite MINUS1_eq; lia).
    rewrite mm_init_steps by lia.
    rewrite extend_heap_refused.
    + reflexivity.
    + cbv zeta. rewrite (extend_request CHUNKSIZE is_size_chunk).
      change (mem_brk (init_frame s)) with (mem_brk s + 6 * WSIZE).
      change (mem_max_addr (init_frame s)) with (mem_max_addr s). lia.
Qed.

End InitInv.

Section ReallocInv.
Context {abi : arch}.

(** [memcpy] writes the destination words only. *)
Lemma memcpy_words_other (n : nat) : forall (s : heap) (dst src x : Z),
  (forall k, 0 <= k < Z.of_nat n -> x <> dst + k * WSIZE) ->
  mem (memcpy_words n s dst src) x = mem s x.
Proof.
  induction n as [|n IH]; intros s dst src x Hx; [reflexivity|].
  simpl memcpy_words. rewrite IH.
  - apply mem_PUT_other. specialize (Hx 0). lia.
  - intros k Hk. specialize (Hx (k + 1)). lia.
Qed.

Lemma memcpy_words_fields (n : nat) : forall (s : heap) (dst src : Z),
  mem_brk (memcpy_words n s dst src) = mem_brk s
  /\ mem_max_addr (memcpy_words n s dst src) = mem_max_addr s
  /\ heap_listp (memcpy_words n s dst src) = heap_listp s
  /\ free_listp (memcpy_words n s dst src) = free_listp s.
Proof.
  induction n as [|n IH]; intros s dst src; [repeat split|].
  simpl memcpy_words.
  destruct (IH (PUT s dst (GET s src)) (dst + WSIZE) (src + WSIZE))
    as (-> & -> & -> & ->).
  repeat split.
Qed.

(** When source and destination do not overlap, the destination words
    hold what the source words held. *)
Lemma memcpy_words_copy (n : nat) : forall (s : heap) (dst src k : Z),
  dst + Z.of_nat n * WSIZE <= src \/ src + Z.of_nat n * WSIZE <= dst ->
  0 <= k < Z.of_nat n ->
  mem (memcpy_words n s dst src) (dst + k * WSIZE) = GET s (src + k * WSIZE).
Proof.
  pose proof WSIZE_pos as HW.
  induction n as [|n IH]; intros s dst src k Hd Hk; [simpl in Hk; lia|].
  simpl memcpy_words. rewrite Nat2Z.inj_succ in Hd, Hk.
  destruct (Z.eq_dec k 0) as [->|Hk0].
  - rewrite memcpy_words_other.
    + rewrite Z.add_0_r. rewrite mem_PUT, Z.eqb_refl. f_equal. lia.
    + intros j Hj. nia.
  - replace (dst + k * WSIZE) with (dst + WSIZE + (k - 1) * WSIZE) by lia.
    rewrite IH by nia.
    rewrite GET_PUT_other by nia. f_equal. lia.
Qed.

(** Writing into the payload of an allocated block keeps the
    invariant. *)
Lemma payload_write_inv (s s' : heap) (bs fl : list Z) (d : Z) :
  heap_inv s bs fl -> In d bs -> d <> heap_listp s ->
  GET_ALLOC s (HDRP d) = 1 ->
  (forall x, mem s' x <> mem s x -> d <= x < FTRP s d) ->
  mem_brk s' = mem_brk s -> mem_max_addr s' = mem_max_addr s ->
  heap_listp s' = heap_listp s -> free_listp s' = free_listp s ->
  heap_inv s' bs fl.
Proof.
  pose proof WSIZE_pos as HW. pose proof DSIZE_eq as HD.
  intros [Hsh [Hag Hco]] Hd Hne Ha Hw F1 F2 F3 F4.
  pose proof (sh_chain _ _ _ Hsh) as Hch.
  destruct (chain_bounds s _ _ _ Hch) as [_ Hbnd]. destruct (Hbnd d Hd).
  destruct (chain_facts s _ _ _ Hch d Hd) as (Hmin & _).
  assert (G : forall x, ~ (d <= x < FTRP s d) -> GET s' x = GET s x).
  { intros x Hx. apply GET_ext.
    destruct (Z.eq_dec (mem s' x) (mem s x)) as [E|E]; [assumption|].
    contradiction Hx. apply Hw. assumption. }
  assert (Htag : forall c, In c bs ->
            GET s' (HDRP c) = GET s (HDRP c)
            /\ GET s' (FTRP s c) = GET s (FTRP s c)).
  { intros c Hc.
    destruct (Z.eq_dec c d) as [->|Hcd];
      [split; apply G; unfold FTRP, HDRP in *; lia|].
    destruct (chain_facts s _ _ _ Hch c Hc) as (Hcmin & _).
    pose proof (block_outside s _ _ _ Hch d c Hd Hc) as O1.
    pose proof (block_outside s _ _ _ Hch c d Hc Hd) as O2.
    unfold NEXT_BLKP in O1, O2. fold (HDRP c) (HDRP d) in O1, O2.
    split; apply G; unfold FTRP, HDRP in *; lia. }
  split.
  - constructor; rewrite ?F1, ?F2, ?F3.
    + apply (chain_ext s); [assumption|assumption|].
      apply G. unfold FTRP, HDRP in *. lia.
    + apply (sh_prologue_in _ _ _ Hsh).
    + apply (sh_low _ _ _ Hsh).
    + apply (sh_brk _ _ _ Hsh).
    + apply (sh_max _ _ _ Hsh).
    + destruct (Htag _ (sh_prologue_in _ _ _ Hsh)) as [E _].
      rewrite (GET_ALLOC_of_GET _ _ _ _ E). apply (sh_prologue _ _ _ Hsh).
    + apply (linked_ext s); [assumption|assumption| |apply (sh_linked _ _ _ Hsh)].
      intros x (c & Hc & Hx). apply G. intros Hin.
      pose proof (shape_listed _ _ _ _ Hsh Hc) as Hcb.
      assert (Hcd : c <> d).
      { intros ->. apply in_app_or in Hc. destruct Hc as [Hc|[Hc|[]]].
        - apply (Hag d Hd) in Hc. congruence.
        - congruence. }
      destruct (extent_not_link s _ _ _ d c x Hch Hd Hcb Hcd).
      * unfold NEXT_BLKP, FTRP, HDRP in *. lia.
      * destruct Hx; contradiction.
    + apply (sh_nodup _ _ _ Hsh).
    + apply (sh_sub _ _ _ Hsh).
  - split.
    + intros c Hc. destruct (Htag c Hc) as [E _].
      rewrite (GET_ALLOC_of_GET _ _ _ _ E). apply Hag. assumption.
    + intros c Hc Hcf. destruct (Htag c Hc) as [E _].
      rewrite (GET_ALLOC_of_GET _ _ _ _ E) in Hcf.
      assert (Enc : NEXT_BLKP s' c = NEXT_BLKP s c).
      { unfold NEXT_BLKP. fold (HDRP c).
        rewrite (GET_SIZE_of_GET _ _ _ _ E). reflexivity. }
      rewrite Enc. rewrite <- (Hco c Hc Hcf). apply GET_ALLOC_of_GET.
      destruct (chain_facts s _ _ _ Hch c Hc) as (_ & _ & [Hn|[Hn _]]).
      * apply (Htag _ Hn).
      * rewrite Hn. apply G. unfold FTRP, HDRP in *. lia.
Qed.

(** Growing in place: the free block behind [bp] leaves the list and
    becomes part of [bp]. *)
Lemma realloc_absorb (s : heap) (bs fl : list Z) (bp : Z) :
  heap_inv s bs fl -> In bp bs -> bp <> heap_listp s ->
  GET_ALLOC s (HDRP bp) = 1 ->
  let n := NEXT_BLKP s bp in
  GET_ALLOC s (HDRP n) = 0 ->
  let csize := wrap (GET_SIZE s (HDRP bp) + GET_SIZE s (HDRP n)) in
  let s1 := remove_from_free_list s n in
  let s2 := PUT s1 (HDRP bp) (PACK csize 1) in
  let s3 := PUT s2 (FTRP s2 bp) (PACK csize 1) in
  let hi := NEXT_BLKP s n in
  let fl' := filter (fun c => negb (c =? n)) fl in
  heap_inv s3 (merged bp hi bs) fl'
  /\ csize = GET_SIZE s (HDRP bp) + GET_SIZE s (HDRP n)
  /\ GET_ALLOC s3 (HDRP bp) = 1 /\ GET_SIZE s3 (HDRP bp) = csize
  /\ (forall d, In d bs -> GET_ALLOC s (HDRP d) = 1 -> In d (merged bp hi bs))
  /\ changed_only (fun x => x = HDRP bp \/ free_word s fl x) s s3
  /\ mem_brk s3 = mem_brk s /\ mem_max_addr s3 = mem_max_addr s
  /\ heap_listp s3 = heap_listp s.
Proof.
  pose proof WSIZE_pos as HW. pose proof DSIZE_eq as HD.
  intros Hinv Hb Hne Hal n Hnf csize s1 s2 s3 hi fl'.
  pose proof Hinv as [Hsh [Hag Hco]].
  pose proof (sh_chain _ _ _ Hsh) as Hch.
  destruct (shape_positive _ _ _ Hsh) as [Hpos Hhigh].
  destruct (chain_bounds s _ _ _ Hch) as [_ Hbnd].
  destruct (Hbnd bp Hb) as [Hblo _].
  destruct (chain_facts s _ _ _ Hch bp Hb) as (Hmin & _ & _).
  assert (Hnb : In n bs /\ n + GET_SIZE s (HDRP n) <= mem_brk s).
  { destruct (next_block s _ _ _ Hch bp Hb) as [?|(_ & A & _)];
      [assumption|]. fold n in A. congruence. }
  destruct Hnb as [Hnb Hnhi].
  destruct (chain_facts s _ _ _ Hch n Hnb) as (Hnmin & _ & Hnn).
  assert (Hnfl : In n fl) by (apply (Hag n Hnb); assumption).
  assert (En : n = bp + GET_SIZE s (HDRP bp)) by reflexivity.
  assert (Ehi : hi = n + GET_SIZE s (HDRP n)) by reflexivity.
  set (old := GET_SIZE s (HDRP bp)) in *.
  set (nsz := GET_SIZE s (HDRP n)) in *.
  assert (Ec : csize = old + nsz) by (unfold csize; apply wrap_small; lia).
  assert (Hcs : is_size csize).
  { apply sum_is_size; apply GET_SIZE_is_size. }
  assert (Hhi : In hi bs \/ hi = mem_brk s) by tauto.
  (* the removal *)
  destruct (unlink_shape s bs fl n Hsh Hnfl) as (Hsh1 & G1 & C1).
  fold s1 fl' in Hsh1, G1, C1.
  destruct (remove_fields s n) as (_ & R1 & R2 & R3). fold s1 in R1, R2, R3.
  (* the tags *)
  assert (Hge : DSIZE <= csize) by lia.
  destruct (put_tags s1 bp csize 1 Hcs (or_intror eq_refl) Hge)
    as (E & P1 & P2 & P3 & P4 & P5 & Q1 & Q2 & Q3 & Q4).
  fold s2 in E, P1, P2, P3, P4, P5, Q1, Q2, Q3, Q4.
  fold s3 in P1, P2, P3, P4, P5, Q1, Q2, Q3, Q4.
  replace (bp + csize - DSIZE) with (hi - DSIZE) in * by lia.
  destruct (tag_not_link s _ _ _ bp Hch Hb) as [Tb _].
  destruct (boundary_not_link s _ _ _ Hch hi Hhi) as [Th _].
  assert (V : forall y, ~ link_word bs y -> y <> HDRP bp -> y <> hi - DSIZE ->
                GET s3 y = GET s y).
  { intros y Y1 Y2 Y3. rewrite <- G1 by assumption.
    apply GET_ext, P5; assumption. }
  assert (Hout : forall d, In d bs -> d < bp \/ hi <= d ->
            GET s3 (HDRP d) = GET s (HDRP d)
            /\ GET s3 (FTRP s d) = GET s (FTRP s d)).
  { intros d Hd Ho.
    destruct (tag_not_link s _ _ _ d Hch Hd) as [T1 T2].
    destruct (chain_facts s _ _ _ Hch d Hd) as (Hdmin & _).
    assert (d < bp -> d + GET_SIZE s (HDRP d) <= bp)
      by (apply (chain_order s _ _ _ Hch); assumption).
    split; apply V; try assumption; unfold FTRP, HDRP in *; lia. }
  assert (Hcl : forall d, In d bs -> d <> bp -> d <> n -> d < bp \/ hi <= d).
  { intros d Hd N1 N2.
    pose proof (block_outside s _ _ _ Hch bp d Hb Hd) as O1.
    pose proof (block_outside s _ _ _ Hch n d Hnb Hd) as O2.
    fold n in O1. fold hi in O2. lia. }
  assert (Hbfl : ~ In bp fl).
  { intros H. apply (Hag bp Hb) in H. congruence. }
  assert (F3 : heap_listp s3 = heap_listp s) by congruence.
  assert (F1 : mem_brk s3 = mem_brk s) by congruence.
  assert (F2 : mem_max_addr s3 = mem_max_addr s) by congruence.
  split; [|split; [assumption|split; [assumption|split; [assumption|
          split; [|split; [|auto]]]]]].
  - split.
    + constructor; rewrite ?F1, ?F2, ?F3.
      * assert (X1 : bp < hi) by lia.
        assert (X2 : GET_SIZE s3 (HDRP bp) = hi - bp) by lia.
        assert (X3 : GET s3 (hi - DSIZE) = GET s3 (HDRP bp)) by congruence.
        apply (chain_merge s s3 _ bs _ bp hi Hch Hb X1 Hhi X2 X3).
        -- intros d Hd Ho. destruct (Hout d Hd Ho) as [E1 E2].
           destruct (chain_facts s _ _ _ Hch d Hd) as (_ & Hf & _).
           split; [apply GET_SIZE_of_GET; assumption|congruence].
        -- rewrite <- (chain_epilogue s _ _ _ Hch). apply V.
           ++ apply (epilogue_not_link s _ _ _ Hch).
           ++ unfold HDRP. lia.
           ++ unfold HDRP. lia.
      * apply In_merged. split; [apply (sh_prologue_in _ _ _ Hsh)|lia].
      * apply (sh_low _ _ _ Hsh).
      * apply (sh_brk _ _ _ Hsh).
      * apply (sh_max _ _ _ Hsh).
      * destruct (Hout _ (sh_prologue_in _ _ _ Hsh)) as [E1 _]; [lia|].
        rewrite (GET_ALLOC_of_GET _ _ _ _ E1). apply (sh_prologue _ _ _ Hsh).
      * apply (linked_ext s1); [congruence|congruence| |
                                 apply (sh_linked _ _ _ Hsh1)].
        intros x Hx. apply GET_ext, P5.
        -- intros ->. apply Tb. revert Hx. apply listed_link_word.
           intros d. apply (shape_listed _ _ _ d Hsh1).
        -- intros ->. apply Th. revert Hx. apply listed_link_word.
           intros d. apply (shape_listed _ _ _ d Hsh1).
      * rewrite <- R3. apply (sh_nodup _ _ _ Hsh1).
      * intros d Hd. apply In_filter_neq in Hd. destruct Hd as [Hd Hdn].
        apply In_merged. split; [apply (sh_sub _ _ _ Hsh); assumption|].
        assert (d <> bp) by (intros ->; contradiction).
        destruct (Hcl d (sh_sub _ _ _ Hsh d Hd)); try assumption; lia.
    + split.
      { intros d Hd. apply In_merged in Hd. destruct Hd as [Hd Ho].
        unfold fl'. rewrite In_filter_neq.
        destruct (Z.eq_dec d bp) as [->|Hdb].
        * rewrite P4. split; [discriminate|]. intros [H _]. contradiction.
        * assert (Ho' : d < bp \/ hi <= d) by lia.
          destruct (Hout d Hd Ho') as [E1 _].
          rewrite (GET_ALLOC_of_GET _ _ _ _ E1), (Hag d Hd).
          split; [|tauto]. intros H. split; [assumption|]. lia. }
      intros d Hd Hdf. apply In_merged in Hd. destruct Hd as [Hd Ho].
      destruct (Z.eq_dec d bp) as [->|Hdb]; [congruence|].
      assert (Ho' : d < bp \/ hi <= d) by lia.
      destruct (Hout d Hd Ho') as [E1 _].
      rewrite (GET_ALLOC_of_GET _ _ _ _ E1) in Hdf.
      assert (End : NEXT_BLKP s3 d = NEXT_BLKP s d).
      { unfold NEXT_BLKP. fold (HDRP d).
        rewrite (GET_SIZE_of_GET _ _ _ _ E1). reflexivity. }
      rewrite End. pose proof (Hco d Hd Hdf) as A.
      destruct (chain_facts s _ _ _ Hch d Hd) as (_ & _ & [Hc|[Hc _]]).
      * destruct (Z.eq_dec (NEXT_BLKP s d) bp) as [E0|Hcb];
          [rewrite E0; assumption|].
        assert (Hcn : NEXT_BLKP s d <> n) by (intros E0; congruence).
        destruct (Hout _ Hc (Hcl _ Hc Hcb Hcn)) as [E2 _].
        rewrite (GET_ALLOC_of_GET _ _ _ _ E2). assumption.
      * rewrite Hc in *. rewrite <- A. apply GET_ALLOC_of_GET, V.
        -- apply (epilogue_not_link s _ _ _ Hch).
        -- unfold HDRP. lia.
        -- unfold HDRP. lia.
  - intros d Hd Hda. apply In_merged. split; [assumption|].
    destruct (Z.eq_dec d bp) as [->|N1]; [lia|].
    assert (N2 : d <> n) by (intros ->; congruence).
    destruct (Hcl d Hd N1 N2); lia.
  - apply (changed_trans _ s s1).
    + revert C1. apply changed_weaken. intros y Hy. right.
      apply (link_free_word s bs); assumption.
    + intros y Hy.
      destruct (Z.eq_dec y (HDRP bp)) as [->|N1]; [left; reflexivity|].
      destruct (Z.eq_dec y (hi - DSIZE)) as [->|N2].
      * right. left. exists n. split; [assumption|].
        unfold block_word. fold hi. unfold HDRP. lia.
      * contradiction Hy. apply P5; assumption.
Qed.

Lemma to_int_positive (size : Z) : 0 <= size -> 0 < to_int size -> 0 < size.
Proof.
  intros H0 H. destruct (Z.eq_dec size 0) as [->|]; [|lia].
  cbv in H. discriminate.
Qed.

(** [mm_realloc] keeps the invariant and the payload.  For an allocated
    block [bp] (not the prologue) of a heap that satisfies the invariant
    and a size that is positive as the [int] the code tests: whenever
    the result [p] is not null, the invariant holds again, [p] is an
    allocated block of at least [size + DSIZE] bytes, every payload word
    of the old block is found at the same offset in [p], the other
    allocated blocks are still blocks and none of their words has
    changed. *)
Lemma mm_realloc_inv (s : heap) (bs fl : list Z) (bp size : Z)
    (fuel : nat) :
  heap_inv s bs fl -> In bp bs -> bp <> heap_listp s ->
  GET_ALLOC s (HDRP bp) = 1 ->
  0 <= size < word_modulus -> 0 < to_int size ->
  (length fl < fuel)%nat ->
  exists p s',
    mm_realloc fuel s bp size = Some (p, s')
    /\ (p <> NULL ->
        exists bs' fl',
          heap_inv s' bs' fl' /\ In p bs'
          /\ GET_ALLOC s' (HDRP p) = 1
          /\ size + DSIZE <= GET_SIZE s' (HDRP p)
          /\ (forall k, 0 <= k ->
                k * WSIZE < GET_SIZE s (HDRP bp) - DSIZE ->
                GET s' (p + k * WSIZE) = GET s (bp + k * WSIZE))
          /\ (forall d, In d bs -> d <> bp -> GET_ALLOC s (HDRP d) = 1 ->
                In d bs')
          /\ keeps_allocated s s' bs [heap_listp s; bp]
          /\ (In p bs -> p = bp \/ GET_ALLOC s (HDRP p) = 0)
          /\ heap_listp s' = heap_listp s
          /\ changed_only (fun x => heap_listp s <= x < mem_brk s') s s').
Proof.
  pose proof WSIZE_pos as HW. pose proof DSIZE_eq as HD.
  intros Hinv Hb Hne Hal Hrange Hint Hfuel.
  pose proof Hinv as [Hsh [Hag Hco]].
  pose proof (sh_chain _ _ _ Hsh) as Hch.
  destruct (shape_positive _ _ _ Hsh) as [Hpos Hhigh].
  destruct (chain_bounds s _ _ _ Hch) as [_ Hbnd].
  destruct (Hbnd bp Hb) as [Hblo Hbhi].
  destruct (chain_facts s _ _ _ Hch bp Hb) as (Hmin & _ & _).
  pose proof (to_int_positive size (proj1 Hrange) Hint) as Hsize.
  pose proof (realloc_size_fits size Hrange Hint) as Hfit.
  destruct (adjust_size_in_range size Hsize Hfit) as (_ & _ & Ha & Hamin & Hroom).
  assert (Hbn : bp <> NULL) by (unfold NULL; lia).
  rewrite (realloc_reaches_logic fuel s bp size Hbn Hsize Hint). cbv zeta.
  pose proof (GET_SIZE_is_size s (HDRP bp)) as Hos.
  set (old := GET_SIZE s (HDRP bp)) in *.
  set (a := adjust_size size) in *.
  assert (Hpay : forall k, 0 <= k -> k * WSIZE < old - DSIZE ->
            block_word s bp (bp + k * WSIZE)).
  { intros k K1 K2. unfold block_word, NEXT_BLKP. fold (HDRP bp).
    fold old. unfold HDRP.
    assert (0 <= k * WSIZE) by (apply Z.mul_nonneg_nonneg; lia). lia. }
  destruct (Z.leb_spec a old) as [Hfits|Hgrow].
  - (* the block is large enough *)
    exists bp, s. split; [reflexivity|]. intros _. exists bs, fl.
    split; [assumption|]. split; [assumption|]. split; [assumption|].
    split; [fold old; lia|]. split; [reflexivity|]. split; [auto|].
    split; [intros d _ _ _ x _; reflexivity|].
    split; [intros _; left; reflexivity|].
    split; [reflexivity|]. intros x Hx. contradiction Hx. reflexivity.
  - assert (Hmove :
      exists p s',
        match mm_malloc fuel s size with
        | Some (new_ptr, s1) =>
            Some (new_ptr, mm_free (memcpy s1 new_ptr bp old) bp)
        | None => None
        end = Some (p, s')
        /\ (p <> NULL ->
            exists bs' fl',
              heap_inv s' bs' fl' /\ In p bs'
              /\ GET_ALLOC s' (HDRP p) = 1
              /\ size + DSIZE <= GET_SIZE s' (HDRP p)
              /\ (forall k, 0 <= k -> k * WSIZE < old - DSIZE ->
                    GET s' (p + k * WSIZE) = GET s (bp + k * WSIZE))
              /\ (forall d, In d bs -> d <> bp -> GET_ALLOC s (HDRP d) = 1 ->
                    In d bs')
              /\ keeps_allocated s s' bs [heap_listp s; bp]
              /\ (In p bs -> p = bp \/ GET_ALLOC s (HDRP p) = 0)
          /\ heap_listp s' = heap_listp s
          /\ changed_only (fun x => heap_listp s <= x < mem_brk s') s s')).
    { destruct (mm_malloc_inv s bs fl size fuel Hinv Hsize Hfit
                  Hfuel) as (p1 & s1 & Em & [(-> & _)|(Hp1 & bs1 & fl1 & J)]);
        rewrite Em.
      { eexists _, _. split; [reflexivity|]. intros N. contradiction N.
        reflexivity. }
      destruct J as (I1 & I2 & I3 & I4 & I5 & I6 & I7 & I8 & I9 & _ & I10).
      fold a in I4.
      pose proof I1 as [Hsh1 [Hag1 Hco1]].
      pose proof (sh_chain _ _ _ Hsh1) as Hch1.
      unfold keeps_allocated in I7.
      (* the allocated blocks of [s] in [s1] *)
      assert (Hsame : forall d, In d bs -> d <> heap_listp s ->
                GET_ALLOC s (HDRP d) = 1 ->
                In d bs1 /\ GET s1 (HDRP d) = GET s (HDRP d)
                /\ d <> p1
                /\ forall x, block_word s d x ->
                     mem s1 x = mem s x /\ block_word s1 d x).
      { intros d Hd Hdn Hda.
        assert (Hex : ~ In d [heap_listp s]) by (intros [E|[]]; congruence).
        assert (Hh : GET s1 (HDRP d) = GET s (HDRP d)).
        { apply GET_ext, (I7 d Hd Hex Hda).
          destruct (chain_facts s _ _ _ Hch d Hd) as (? & _).
          unfold block_word, NEXT_BLKP, HDRP in *. lia. }
        split; [auto|]. split; [assumption|]. split.
        { intros ->. rewrite (I5 Hd) in Hda. discriminate. }
        intros x Hx. split; [apply (I7 d Hd Hex Hda); assumption|].
        unfold block_word, NEXT_BLKP in *. fold (HDRP d) in *.
        rewrite (GET_SIZE_of_GET _ _ _ _ Hh). assumption. }
      destruct (Hsame bp Hb Hne Hal) as (Hb1 & Hbh & Hbp1 & Hbw).
      assert (Hp1hl : p1 <> heap_listp s1).
      { rewrite I8. intros E0. rewrite E0 in I5.
        pose proof (I5 (sh_prologue_in _ _ _ Hsh)) as A.
        pose proof (sh_prologue _ _ _ Hsh). congruence. }
      (* room for the copy *)
      set (sz1 := GET_SIZE s1 (HDRP p1)) in *.
      assert (Hold : old + DSIZE <= sz1).
      { destruct Hos as [_ M1], Ha as [_ M2].
        assert (E : (a - old) mod DSIZE = 0)
          by (rewrite Zminus_mod, M1, M2; reflexivity).
        destruct word_modulus_cases as [(_ & D & _)|(_ & D & _)];
          rewrite D in *; Z.to_euclidean_division_equations; lia. }
      (* the copy *)
      set (m := Z.to_nat (old / WSIZE)).
      assert (Em' : Z.of_nat m * WSIZE = old).
      { unfold m. rewrite Z2Nat.id by (apply Z.div_pos; destruct Hos; lia).
        destruct Hos as [_ M1].
        destruct word_modulus_cases as [(W & D & _)|(W & D & _)];
          rewrite W, D in *; Z.to_euclidean_division_equations; lia. }
      set (s2 := memcpy s1 p1 bp old).
      assert (Es2 : s2 = memcpy_words m s1 p1 bp) by reflexivity.
      destruct (memcpy_words_fields m s1 p1 bp) as (F1 & F2 & F3 & F4).
      rewrite <- Es2 in F1, F2, F3, F4.
      assert (M2 : forall x, ~ (p1 <= x < p1 + old) -> mem s2 x = mem s1 x).
      { intros x Hx. rewrite Es2. apply memcpy_words_other.
        intros k Hk ->. apply Hx. nia. }
      assert (Hw2 : forall x, mem s2 x <> mem s1 x -> p1 <= x < FTRP s1 p1).
      { intros x Hx. unfold FTRP. fold sz1.
        destruct (Z_le_dec p1 x) as [L1|L1];
          [destruct (Z_lt_dec x (p1 + old)) as [L2|L2]; [lia|]|];
          contradiction Hx; apply M2; lia. }
      assert (I1' : heap_inv s2 bs1 fl1).
      { apply (payload_write_inv s1 s2 bs1 fl1 p1); assumption. }
      (* the words of the other blocks after the copy *)
      assert (Hdisj : forall d x, In d bs1 -> d <> p1 -> block_word s1 d x ->
                mem s2 x = mem s1 x).
      { intros d x Hd Hdp Hx. apply M2. intros Hin.
        pose proof (block_outside s1 _ _ _ Hch1 p1 d I2 Hd) as O1.
        pose proof (block_outside s1 _ _ _ Hch1 d p1 Hd I2) as O2.
        unfold block_word, NEXT_BLKP in *. fold (HDRP p1) (HDRP d) in *.
        fold sz1 in O1. unfold HDRP in *. lia. }
      assert (Hb2 : GET s2 (HDRP bp) = GET s (HDRP bp)).
      { rewrite <- Hbh. apply GET_ext, (Hdisj bp); try assumption.
        apply Hbw. unfold block_word, NEXT_BLKP. fold (HDRP bp). fold old.
        unfold HDRP. lia. }
      assert (Hp2 : GET s2 (HDRP p1) = GET s1 (HDRP p1)).
      { apply GET_ext, M2. unfold HDRP. lia. }
      (* the free *)
      assert (Hne2 : bp <> heap_listp s2) by (rewrite F3, I8; assumption).
      assert (Hal2 : GET_ALLOC s2 (HDRP bp) = 1).
      { rewrite (GET_ALLOC_of_GET _ _ _ _ Hb2). assumption. }
      pose proof (mm_free_inv s2 bs1 fl1 bp I1' Hb1 Hne2 Hal2) as F.
      cbv zeta in F.
      set (lo := if GET_ALLOC s2 (HDRP (PREV_BLKP s2 bp)) =? 0
                 then PREV_BLKP s2 bp else bp) in *.
      set (hi := if GET_ALLOC s2 (HDRP (NEXT_BLKP s2 bp)) =? 0
                 then NEXT_BLKP s2 (NEXT_BLKP s2 bp) else NEXT_BLKP s2 bp) in *.
      destruct F as (G1 & _ & _ & G4 & G5 & G6 & _ & G8 & G9).
      set (s3 := mm_free s2 bp) in *.
      unfold keeps_allocated in G5.
      assert (Hp1a : GET_ALLOC s2 (HDRP p1) = 1).
      { rewrite (GET_ALLOC_of_GET _ _ _ _ Hp2). assumption. }
      assert (Hex1 : ~ In p1 [heap_listp s2; bp]).
      { rewrite F3. intros [E|[E|[]]]; congruence. }
      assert (Hw1 : forall x, block_word s1 p1 x -> block_word s2 p1 x).
      { intros x Hx. unfold block_word, NEXT_BLKP in *. fold (HDRP p1) in *.
        rewrite (GET_SIZE_of_GET _ _ _ _ Hp2). assumption. }
      assert (Hp3 : GET s3 (HDRP p1) = GET s1 (HDRP p1)).
      { rewrite <- Hp2. apply GET_ext, (G5 p1 I2 Hex1 Hp1a).
        apply Hw1.
        destruct (chain_facts s1 _ _ _ Hch1 p1 I2) as (? & _).
        unfold block_word, NEXT_BLKP, HDRP in *. lia. }
      assert (Hin3 : changed_only
                (fun x => heap_listp s <= x < mem_brk s3) s s3).
      { assert (Eb3 : mem_brk s3 = mem_brk s1) by (rewrite G6, F1; reflexivity).
        rewrite Eb3.
        apply (changed_trans _ s s2); [apply (changed_trans _ s s1)|].
        - exact I10.
        - intros y Hy. pose proof (Hw2 y Hy) as Hy2. unfold FTRP in Hy2.
          destruct (chain_bounds s1 _ _ _ Hch1) as [_ Hbnd1].
          destruct (Hbnd1 p1 I2). rewrite <- I8. lia.
        - revert G9. apply changed_weaken. intros y [Hy|Hy].
          + pose proof (block_word_inside s2 bs1 fl1 bp y (proj1 I1')
                          Hb1 Hne2 Hy).
            rewrite <- I8, <- F3, <- F1. lia.
          + pose proof (free_word_inside s2 bs1 fl1 y (proj1 I1') Hy).
            rewrite <- I8, <- F3, <- F1. lia. }
      exists p1, s3. split; [reflexivity|]. intros _.
      exists (merged lo hi bs1), (lo :: unlisted lo hi fl1).
      split; [assumption|].
      split; [apply G4; [assumption|congruence|assumption]|].
      split; [rewrite (GET_ALLOC_of_GET _ _ _ _ Hp3); assumption|].
      split; [rewrite (GET_SIZE_of_GET _ _ _ _ Hp3); fold sz1; lia|].
      split.
      { intros k K1 K2.
        assert (K3 : 0 <= k < Z.of_nat m) by nia.
        assert (K4 : 0 <= k * WSIZE) by (apply Z.mul_nonneg_nonneg; lia).
        assert (E3 : mem s3 (p1 + k * WSIZE) = mem s2 (p1 + k * WSIZE)).
        { apply (G5 p1 I2 Hex1 Hp1a). apply Hw1.
          unfold block_word, NEXT_BLKP. fold (HDRP p1). fold sz1.
          unfold HDRP. lia. }
        assert (E2 : mem s2 (p1 + k * WSIZE) = GET s1 (bp + k * WSIZE)).
        { rewrite Es2. apply memcpy_words_copy; [|assumption].
          rewrite Em'.
          pose proof (block_outside s1 _ _ _ Hch1 p1 bp I2 Hb1) as O1.
          pose proof (block_outside s1 _ _ _ Hch1 bp p1 Hb1 I2) as O2.
          unfold NEXT_BLKP in O1, O2. fold (HDRP p1) (HDRP bp) in O1, O2.
          fold sz1 in O1. rewrite (GET_SIZE_of_GET _ _ _ _ Hbh) in O2.
          fold old in O2. lia. }
        unfold GET at 1. rewrite E3, E2, wrap_GET.
        apply GET_ext. apply Hbw. apply Hpay; assumption. }
      split.
      { intros d Hd Hdb Hda.
        apply G4; [| assumption |].
        - destruct (Z.eq_dec d (heap_listp s)) as [->|Hdn].
          + rewrite <- I8. apply (sh_prologue_in _ _ _ Hsh1).
          + apply (Hsame d Hd Hdn Hda).
        - destruct (Z.eq_dec d (heap_listp s)) as [->|Hdn].
          + rewrite <- I8, <- F3. apply (sh_prologue _ _ _ (proj1 I1')).
          + destruct (Hsame d Hd Hdn Hda) as (Hd1 & Hdh & Hdp & Hdw).
            assert (E : GET s2 (HDRP d) = GET s (HDRP d)).
            { rewrite <- Hdh. apply GET_ext, (Hdisj d); try assumption.
              apply Hdw.
              destruct (chain_facts s _ _ _ Hch d Hd) as (? & _).
              unfold block_word, NEXT_BLKP, HDRP in *. lia. }
            rewrite (GET_ALLOC_of_GET _ _ _ _ E). assumption. }
      split;
        [|split; [intros Hin; right; apply I5; assumption|];
          split; [rewrite G8, F3, I8; reflexivity|exact Hin3]].
      intros d Hd Hex Hda x Hx.
      assert (Hdn : d <> heap_listp s)
        by (intros ->; apply Hex; left; reflexivity).
      assert (Hdb : d <> bp)
        by (intros ->; apply Hex; right; left; reflexivity).
      destruct (Hsame d Hd Hdn Hda) as (Hd1 & Hdh & Hdp & Hdw).
      destruct (Hdw x Hx) as [E1 W1].
      assert (E2 : mem s2 x = mem s1 x) by (apply (Hdisj d); assumption).
      assert (Eh : GET s2 (HDRP d) = GET s (HDRP d)).
      { rewrite <- Hdh. apply GET_ext, (Hdisj d); try assumption.
        apply Hdw.
        destruct (chain_facts s _ _ _ Hch d Hd) as (? & _).
        unfold block_word, NEXT_BLKP, HDRP in *. lia. }
      rewrite <- E1, <- E2. apply (G5 d Hd1).
      - rewrite F3, I8. assumption.
      - rewrite (GET_ALLOC_of_GET _ _ _ _ Eh). assumption.
      - unfold block_word, NEXT_BLKP in *. fold (HDRP d) in *.
        rewrite (GET_SIZE_of_GET _ _ _ _ Eh). assumption. }
    destruct (Z.eqb_spec (GET_ALLOC s (HDRP (NEXT_BLKP s bp))) 0) as [Hnf|Hna];
      [destruct (Z.leb_spec a (wrap (old + GET_SIZE s (HDRP (NEXT_BLKP s bp)))))
         as [Hcfits|Hcsmall]|]; cbn [andb].
    + (* growing into the free block behind *)
      pose proof (realloc_absorb s bs fl bp Hinv Hb Hne Hal) as H.
      cbv zeta in H. specialize (H Hnf). fold old in H.
      set (csize := wrap (old + GET_SIZE s (HDRP (NEXT_BLKP s bp)))) in *.
      set (s3 := PUT (PUT (remove_from_free_list s (NEXT_BLKP s bp))
                        (HDRP bp) (PACK csize 1))
                   (FTRP (PUT (remove_from_free_list s (NEXT_BLKP s bp))
                            (HDRP bp) (PACK csize 1)) bp)
                   (PACK csize 1)) in *.
      destruct H as (I1 & I2 & I3 & I4 & I5 & I6 & I7 & _ & I9).
      exists bp, s3. split; [reflexivity|]. intros _.
      exists (merged bp (NEXT_BLKP s (NEXT_BLKP s bp)) bs),
             (filter (fun c => negb (c =? NEXT_BLKP s bp)) fl).
      split; [assumption|].
      split; [apply In_merged; split; [assumption|lia]|].
      split; [assumption|]. split; [lia|].
      assert (K : keeps_allocated s s3 bs [heap_listp s; bp]).
      { apply (frame_keeps_allocated_but s _ bs fl bp Hinv Hb).
        revert I6. apply changed_weaken. intros y [->|Hy]; [left|right; assumption].
        unfold block_word, NEXT_BLKP. fold (HDRP bp). fold old. unfold HDRP.
        lia. }
      split;
        [|split; [auto|split; [assumption|
           split; [intros _; left; reflexivity|split; [assumption|]]]];
          revert I6; apply changed_weaken; intros y [->|Hy];
          [pose proof (block_word_inside s bs fl bp (HDRP bp) Hsh Hb Hne)
             as Hy3;
           assert (Hbw1 : block_word s bp (HDRP bp))
             by (unfold block_word, NEXT_BLKP; fold (HDRP bp); fold old;
                 unfold HDRP; lia);
           specialize (Hy3 Hbw1); rewrite I7; lia
          |pose proof (free_word_inside s bs fl y Hsh Hy);
           rewrite I7; lia]].
      intros k K1 K2. apply GET_ext.
      apply (changed_only_eq _ _ _ _ I6). intros [E|Hw].
      * unfold HDRP in E.
        assert (0 <= k * WSIZE) by (apply Z.mul_nonneg_nonneg; lia). lia.
      * destruct (allocated_not_free_word s bs fl bp _ Hinv Hb Hne Hal
                    (Hpay k K1 K2)). contradiction.
    + exact Hmove.
    + exact Hmove.
Qed.

(** A request that [mm_realloc] can serve - in the block itself, with
    the free block behind it, from the free list or from the heap
    primitive - does not end with the null result of [mm_malloc]. *)
Lemma mm_realloc_served (s : heap) (bs fl : list Z) (bp size : Z)
    (fuel : nat) :
  heap_inv s bs fl -> In bp bs -> bp <> heap_listp s ->
  0 <= size < word_modulus -> 0 < to_int size ->
  (length fl < fuel)%nat ->
  (adjust_size size <= GET_SIZE s (HDRP bp)
   \/ (GET_ALLOC s (HDRP (NEXT_BLKP s bp)) = 0
       /\ adjust_size size
          <= GET_SIZE s (HDRP bp) + GET_SIZE s (HDRP (NEXT_BLKP s bp)))
   \/ (exists c, In c fl /\ adjust_size size <= GET_SIZE s (HDRP c))
   \/ mem_brk s + MAX (adjust_size size) CHUNKSIZE <= mem_max_addr s) ->
  forall p s', mm_realloc fuel s bp size = Some (p, s') -> p <> NULL.
Proof.
  pose proof WSIZE_pos as HW. pose proof DSIZE_eq as HD.
  intros Hinv Hb Hne Hrange Hint Hfuel Hcan p s'.
  pose proof Hinv as [Hsh _].
  pose proof (sh_chain _ _ _ Hsh) as Hch.
  destruct (shape_positive _ _ _ Hsh) as [Hpos Hhigh].
  destruct (chain_bounds s _ _ _ Hch) as [_ Hbnd].
  destruct (Hbnd bp Hb) as [Hblo Hbhi].
  pose proof (to_int_positive size (proj1 Hrange) Hint) as Hsize.
  pose proof (realloc_size_fits size Hrange Hint) as Hfit.
  assert (Hbn : bp <> NULL) by (unfold NULL; lia).
  rewrite (realloc_reaches_logic fuel s bp size Hbn Hsize Hint). cbv zeta.
  pose proof (GET_SIZE_is_size s (HDRP bp)) as Hos.
  pose proof (GET_SIZE_is_size s (HDRP (NEXT_BLKP s bp))) as Hns.
  destruct (Z.leb_spec (adjust_size size) (GET_SIZE s (HDRP bp)))
    as [Hfits|Hgrow].
  { intros E. inversion E; subst. assumption. }
  assert (Ew : GET_ALLOC s (HDRP (NEXT_BLKP s bp)) = 0 ->
            wrap (GET_SIZE s (HDRP bp) + GET_SIZE s (HDRP (NEXT_BLKP s bp)))
            = GET_SIZE s (HDRP bp) + GET_SIZE s (HDRP (NEXT_BLKP s bp))).
  { intros A. apply wrap_small.
    destruct (next_block s _ _ _ Hch bp Hb) as [[Hnb Hnfit]|(_ & A' & _)];
      [|congruence].
    destruct Hos, Hns. unfold NEXT_BLKP in Hnfit at 1. fold (HDRP bp) in Hnfit.
    lia. }
  destruct ((GET_ALLOC s (HDRP (NEXT_BLKP s bp)) =? 0)
            && (adjust_size size
                <=? wrap (GET_SIZE s (HDRP bp)
                          + GET_SIZE s (HDRP (NEXT_BLKP s bp))))) eqn:Habs.
  { intros E. inversion E; subst. assumption. }
  destruct (mm_malloc_inv s bs fl size fuel Hinv Hsize Hfit Hfuel)
    as (p0 & s0 & Em & [(_ & _ & Hsmall & Hroom)|(Hp0 & _)]);
    rewrite Em; intros E; inversion E; subst; [|assumption].
  exfalso. destruct Hcan as [C|[[A C]|[(c & Hc & C)|C]]].
  - lia.
  - apply andb_false_iff in Habs. rewrite (Ew A) in Habs.
    destruct Habs as [F|F].
    + apply Z.eqb_neq in F. contradiction.
    + apply Z.leb_gt in F. lia.
  - specialize (Hsmall c Hc). lia.
  - lia.
Qed.

(** X9.  [mm_realloc] of an allocated block [bp] (not the prologue) of a
    well-formed heap, for a size that is positive also as the [int] the
    code tests, when the request can be served: the adjusted size fits
    the block, or the block with the free block behind it, or some block
    of the free list, or the heap primitive has room for the extension
    that [mm_malloc] asks for.  Then the call returns a block, not
    NULL; the invariant holds again, the result is an allocated block
    with room for [size] bytes, the payload words of the old block are
    found at the new address, the result is [bp] or was not an allocated
    block before, every other allocated block is still a block and no
    word of it has changed, and every word written lies inside the heap,
    between the prologue and the new break. *)
Theorem mm_realloc_keeps_invariant (s : heap) (bs fl : list Z) (bp size : Z)
    (fuel : nat) :
  heap_inv s bs fl -> In bp bs -> bp <> heap_listp s ->
  GET_ALLOC s (HDRP bp) = 1 ->
  0 <= size < word_modulus -> 0 < to_int size ->
  (length fl < fuel)%nat ->
  (adjust_size size <= GET_SIZE s (HDRP bp)
   \/ (GET_ALLOC s (HDRP (NEXT_BLKP s bp)) = 0
       /\ adjust_size size
          <= GET_SIZE s (HDRP bp) + GET_SIZE s (HDRP (NEXT_BLKP s bp)))
   \/ (exists c, In c fl /\ adjust_size size <= GET_SIZE s (HDRP c))
   \/ mem_brk s + MAX (adjust_size size) CHUNKSIZE <= mem_max_addr s) ->
  exists p s',
    mm_realloc fuel s bp size = Some (p, s')
    /\ p <> NULL
    /\ exists bs' fl',
         heap_inv s' bs' fl' /\ In p bs'
         /\ GET_ALLOC s' (HDRP p) = 1
         /\ size + DSIZE <= GET_SIZE s' (HDRP p)
         /\ (forall k, 0 <= k ->
               k * WSIZE < GET_SIZE s (HDRP bp) - DSIZE ->
               GET s' (p + k * WSIZE) = GET s (bp + k * WSIZE))
         /\ (forall d, In d bs -> d <> bp -> GET_ALLOC s (HDRP d) = 1 ->
               In d bs')
         /\ keeps_allocated s s' bs [heap_listp s; bp]
         /\ (In p bs -> p = bp \/ GET_ALLOC s (HDRP p) = 0)
         /\ heap_listp s' = heap_listp s
         /\ changed_only (fun x => heap_listp s <= x < mem_brk s') s s'.
Proof.
  intros Hinv Hb Hne Hal Hrange Hint Hfuel Hcan.
  destruct (mm_realloc_inv s bs fl bp size fuel Hinv Hb Hne Hal Hrange Hint
              Hfuel) as (p & s' & E & H).
  pose proof (mm_realloc_served s bs fl bp size fuel Hinv Hb Hne Hrange Hint
                Hfuel Hcan p s' E) as Hp.
  exists p, s'. split; [assumption|]. split; [assumption|].
  apply H. assumption.
Qed.

End ReallocInv.

Section Walks.
Context {abi : arch}.

Lemma free_walk_linked (s : heap) (l : list Z) : forall (p : Z) (fuel : nat),
  next_links s p l (heap_listp s) -> ~ In (heap_listp s) l ->
  (length l < fuel)%nat ->
  free_walk fuel s p = l.
Proof.
  induction l as [|a l IH]; intros p fuel Hn Hhl Hfuel.
  - simpl in Hn. subst p. destruct fuel; [simpl in Hfuel; lia|].
    simpl. rewrite Z.eqb_refl. reflexivity.
  - simpl in Hn. destruct Hn as [-> Hn].
    destruct fuel as [|fuel]; [simpl in Hfuel; lia|]. simpl.
    destruct (Z.eqb_spec a (heap_listp s)) as [E|_].
    + contradiction Hhl. left. assumption.
    + f_equal. apply IH; [assumption| |simpl in Hfuel; lia].
      intros H. apply Hhl. right. assumption.
Qed.

Lemma heap_walk_chain (s : heap) (b : Z) (bs : list Z) (e : Z) :
  chain s b bs e -> forall fuel, (length bs < fuel)%nat ->
  heap_walk fuel s b = bs.
Proof.
  pose proof WSIZE_pos as HW. pose proof DSIZE_eq as HD.
  induction 1 as [e He | b bs e Hmin Hft Hch IH]; intros fuel Hfuel.
  - destruct fuel; [simpl in Hfuel; lia|]. simpl.
    assert (Z0 : is_size 0).
    { split; [|reflexivity]. pose proof (wrap_range 0). lia. }
    destruct (tag_fields s (HDRP e) 0 1 Z0 (or_intror eq_refl) He) as [-> _].
    reflexivity.
  - destruct fuel as [|fuel]; [simpl in Hfuel; lia|]. simpl.
    destruct (Z.ltb_spec 0 (GET_SIZE s (HDRP b))); [|lia].
    f_equal. apply IH. simpl in Hfuel. lia.
Qed.

Lemma occurrences_NoDup (b : Z) (l : list Z) :
  NoDup l ->
  (In b l -> occurrences b l = 1%nat) /\ (~ In b l -> occurrences b l = 0%nat).
Proof.
  induction 1 as [|a l Ha Hnd [IH1 IH2]]; simpl.
  - split; [intros []|reflexivity].
  - destruct (Z.eqb_spec a b) as [->|Hne].
    + split; [|intros H; contradiction H; left; reflexivity].
      intros _. rewrite IH2 by assumption. reflexivity.
    + split.
      * intros [E|H]; [contradiction|]. apply IH1. assumption.
      * intros H. apply IH2. intros H'. apply H. right. assumption.
Qed.

Lemma shape_blocks (s : heap) (bs fl : list Z) :
  heap_shape s bs fl ->
  exists tl, bs = heap_listp s :: tl
             /\ chain s (NEXT_BLKP s (heap_listp s)) tl (mem_brk s).
Proof.
  intros Hsh. pose proof (sh_chain _ _ _ Hsh) as Hch.
  pose proof (sh_prologue_in _ _ _ Hsh) as Hin.
  destruct bs as [|x l]; [destruct Hin|].
  pose proof (chain_head s _ _ _ _ Hch) as E. subst x.
  exists l. split; [reflexivity|]. inversion Hch; subst; assumption.
Qed.

(** X22.  The invariant and the two walks of the checker.  On a heap that
    satisfies the invariant, the walk along [next_link] from
    [free_listp] to the prologue yields the free list, the walk in
    address order from the block behind the prologue to the first
    header of size zero yields the blocks, and the test that a block is
    free exactly when the free list holds it once succeeds. *)
Theorem invariant_seen_by_walks (s : heap) (bs fl : list Z) (fuel : nat) :
  heap_inv s bs fl -> (length bs < fuel)%nat -> (length fl < fuel)%nat ->
  free_walk fuel s (free_listp s) = fl
  /\ heap_listp s :: heap_walk fuel s (NEXT_BLKP s (heap_listp s)) = bs
  /\ free_iff_listed_once fuel s = true.
Proof.
  intros [Hsh [Hag Hco]] Hf1 Hf2.
  destruct (sh_linked _ _ _ Hsh) as [Hn _].
  pose proof (sh_nodup _ _ _ Hsh) as Hnd. apply NoDup_end in Hnd.
  destruct Hnd as [Hnd Hhl].
  assert (W1 : free_walk fuel s (free_listp s) = fl)
    by (apply free_walk_linked; assumption).
  destruct (shape_blocks _ _ _ Hsh) as (tl & Ebs & Hch).
  assert (W2 : heap_walk fuel s (NEXT_BLKP s (heap_listp s)) = tl).
  { apply (heap_walk_chain s _ _ _ Hch). rewrite Ebs in Hf1.
    simpl in Hf1. lia. }
  split; [assumption|]. split; [rewrite W2; auto|].
  unfold free_iff_listed_once. rewrite W1, W2.
  apply forallb_forall. intros b Hb.
  assert (Hbb : In b bs) by (rewrite Ebs; right; assumption).
  destruct (occurrences_NoDup b fl Hnd) as [O1 O0].
  destruct (Z.eqb_spec (GET_ALLOC s (HDRP b)) 0) as [A|A].
  - rewrite O1 by (apply (Hag b Hbb); assumption). reflexivity.
  - rewrite O0; [reflexivity|]. intros H. apply A. apply (Hag b Hbb).
    assumption.
Qed.

(** The inner loop of the second pass of the checker finds a block on
    the free list exactly when the list holds it. *)
Lemma in_free_list_linked (s : heap) (b : Z) (l : list Z) :
  forall (p : Z) (fuel : nat),
  next_links s p l (heap_listp s) -> ~ In (heap_listp s) l ->
  (length l < fuel)%nat ->
  (In b l -> in_free_list fuel s p b = Some true)
  /\ (~ In b l -> in_free_list fuel s p b = Some false).
Proof.
  induction l as [|a l IH]; intros p fuel Hn Hhl Hfuel.
  - simpl in Hn. subst p. destruct fuel; [simpl in Hfuel; lia|].
    simpl. rewrite Z.eqb_refl. split; [intros []|reflexivity].
  - simpl in Hn. destruct Hn as [-> Hn].
    destruct fuel as [|fuel]; [simpl in Hfuel; lia|]. simpl.
    destruct (Z.eqb_spec a (heap_listp s)) as [E|_].
    { contradiction Hhl. left. assumption. }
    destruct (Z.eqb_spec a b) as [->|Hne].
    + split; [reflexivity|]. intros H. contradiction H. left. reflexivity.
    + destruct (IH (GET_NEXT_PTR s a) fuel Hn) as [I1 I0].
      * intros H. apply Hhl. right. assumption.
      * simpl in Hfuel. lia.
      * split.
        -- intros [E|H]; [contradiction|]. apply I1. assumption.
        -- intros H. apply I0. intros H'. apply H. right. assumption.
Qed.

(** X20.  On a heap that satisfies the invariant, the second pass of the
    checker finds every free block on the free list, and no allocated
    one: it has no reason to print that a free block is missing from
    the list. *)
Theorem free_blocks_found_on_list (s : heap) (bs fl : list Z) (fuel : nat)
    (b : Z) :
  heap_inv s bs fl -> (length fl < fuel)%nat -> In b bs ->
  in_free_list fuel s (free_listp s) b
  = Some (GET_ALLOC s (HDRP b) =? 0).
Proof.
  intros [Hsh [Hag Hco]] Hfuel Hb.
  destruct (sh_linked _ _ _ Hsh) as [Hn _].
  pose proof (sh_nodup _ _ _ Hsh) as Hnd. apply NoDup_end in Hnd.
  destruct Hnd as [_ Hhl].
  destruct (in_free_list_linked s b fl _ fuel Hn Hhl Hfuel) as [I1 I0].
  destruct (Z.eqb_spec (GET_ALLOC s (HDRP b)) 0) as [A|A].
  - apply I1. apply (Hag b Hb). assumption.
  - apply I0. intros H. apply A. apply (Hag b Hb). assumption.
Qed.

(** The links of a listed block name listed blocks, the prologue or
    null. *)
Lemma links_of_listed (s : heap) (fl : list Z) (b : Z) :
  linked s fl -> In b fl ->
  (GET_PREV_PTR s b = NULL \/ In (GET_PREV_PTR s b) fl)
  /\ In (GET_NEXT_PTR s b) (fl ++ [heap_listp s]).
Proof.
  intros [Hn Hp] Hb. destruct (in_split _ _ Hb) as (l1 & l2 & ->).
  split.
  - rewrite <- app_assoc in Hp. apply prev_links_app in Hp.
    destruct Hp as [_ Hp]. simpl in Hp. destruct Hp as [-> _].
    destruct (list_end l1) as [->|(l' & a & ->)]; [left; reflexivity|].
    right. rewrite last_last. apply in_or_app. left. apply in_or_app.
    right. left. reflexivity.
  - apply next_links_app in Hn. destruct Hn as (m & _ & Hn).
    simpl in Hn. destruct Hn as [_ Hn].
    apply next_links_target in Hn. rewrite Hn.
    rewrite <- app_assoc. apply in_or_app. right. right.
    destruct l2; simpl; auto.
Qed.

(** The blocks of a heap whose prologue is aligned are aligned. *)
Lemma blocks_aligned (s : heap) (bs fl : list Z) (b : Z) :
  heap_shape s bs fl -> heap_listp s mod DSIZE = 0 -> In b bs ->
  b mod DSIZE = 0.
Proof.
  intros Hsh Hal Hb.
  destruct (chain_aligned s _ _ _ (sh_chain _ _ _ Hsh)) as [_ A].
  specialize (A b Hb).
  replace b with ((b - heap_listp s) + heap_listp s) by lia.
  rewrite Zplus_mod, A, Hal. reflexivity.
Qed.

(** X21.  [checkblock] has nothing to report on a free block of a heap that
    satisfies the invariant, when the prologue is aligned and lies in
    the heap of the primitive. *)
Theorem checkblock_silent_on_free_block (s : heap) (bs fl : list Z) (b : Z) :
  heap_inv s bs fl -> heap_listp s mod DSIZE = 0 ->
  mem_start_brk s <= heap_listp s -> In b fl ->
  checkblock s b = [].
Proof.
  pose proof WSIZE_pos as HW. pose proof DSIZE_eq as HD.
  intros [Hsh [Hag Hco]] Hal Hstart Hb.
  pose proof (sh_chain _ _ _ Hsh) as Hch.
  pose proof (sh_sub _ _ _ Hsh b Hb) as Hbb.
  destruct (chain_facts s _ _ _ Hch b Hbb) as (_ & Hft & _).
  destruct (chain_bounds s _ _ _ Hch) as [_ Hbnd].
  assert (Hrange : forall d, In d bs ->
            mem_heap_lo s <= d <= mem_heap_hi s /\ 0 < d < word_modulus).
  { intros d Hd. destruct (Hbnd d Hd).
    destruct (chain_facts s _ _ _ Hch d Hd) as (? & _).
    destruct (shape_positive _ _ _ Hsh).
    unfold mem_heap_lo, mem_heap_hi. lia. }
  destruct (links_of_listed s fl b (sh_linked _ _ _ Hsh) Hb) as [Lp Ln].
  pose proof (shape_listed _ _ _ _ Hsh Ln) as Lnb.
  assert (E1 : (b mod DSIZE =? 0) = true).
  { apply Z.eqb_eq. apply (blocks_aligned s bs fl b Hsh Hal Hbb). }
  assert (E2 : (GET s (HDRP b) =? GET s (FTRP s b)) = true).
  { apply Z.eqb_eq. congruence. }
  destruct (Hrange _ Lnb) as [[N1 N2] _].
  assert (E3 : (GET_NEXT_PTR s b <? mem_heap_lo s)
               || (mem_heap_hi s <? GET_NEXT_PTR s b) = false).
  { rewrite (proj2 (Z.ltb_ge _ _) N1), (proj2 (Z.ltb_ge _ _) N2).
    reflexivity. }
  assert (E4 : (if negb (GET_PREV_PTR s b =? NULL) then
                  if (GET_PREV_PTR s b <? mem_heap_lo s)
                     || (mem_heap_hi s <? GET_PREV_PTR s b)
                  then [PrevOutOfBounds (GET_PREV_PTR s b)] else []
                else []) = []).
  { destruct Lp as [->|Lp]; [reflexivity|].
    destruct (Hrange _ (sh_sub _ _ _ Hsh _ Lp)) as [[P1 P2] _].
    rewrite (proj2 (Z.ltb_ge _ _) P1), (proj2 (Z.ltb_ge _ _) P2).
    destruct (negb (GET_PREV_PTR s b =? NULL)); reflexivity. }
  unfold checkblock. rewrite E1, E2, E3, E4.
  destruct (GET_ALLOC s b =? 0); reflexivity.
Qed.

(** The second loop of the checker on a chain of blocks, without
    [verbose]: one call of [checkblock] per block, in address order, no
    line about a free block missing from the list, and the loop stops at
    the epilogue. *)
Lemma check_heap_blocks_chain (s : heap) (fl : list Z)
    (pb : Z -> option (list diag)) (b : Z) (l : list Z) (e : Z) :
  chain s b l e ->
  next_links s (free_listp s) fl (heap_listp s) -> ~ In (heap_listp s) fl ->
  (forall d, In d l -> GET_ALLOC s (HDRP d) = 0 -> In d fl) ->
  forall fuel, (length l + length fl < fuel)%nat ->
  check_heap_blocks fuel pb s false b = Some (flat_map (checkblock s) l, e).
Proof.
  intros Hch Hn Hhl. induction Hch as [e He|b l e Hmin Hft Hch IH];
    intros Hag fuel Hfuel;
    (destruct fuel as [|fuel]; [simpl in Hfuel; lia|]);
    cbn [check_heap_blocks flat_map].
  - assert (Hz : is_size 0).
    { split; [|reflexivity]. pose proof (wrap_range 0). 
      destruct word_modulus_cases as [(_ & _ & W)|(_ & _ & W)];
        rewrite W; lia. }
    destruct (tag_fields s (HDRP e) 0 1 Hz (or_intror eq_refl) He) as [E _].
    rewrite E. reflexivity.
  - pose proof WSIZE_pos as HW. pose proof DSIZE_eq as HD.
    rewrite (proj2 (Z.ltb_lt 0 (GET_SIZE s (HDRP b)))) by lia.
    assert (Hflag : (if GET_ALLOC s (HDRP b) =? 0
                     then in_free_list (S fuel) s (free_listp s) b
                     else Some true) = Some true).
    { destruct (Z.eqb_spec (GET_ALLOC s (HDRP b)) 0) as [A|A];
        [|reflexivity].
      apply (in_free_list_linked s b fl _ (S fuel) Hn Hhl).
      - simpl in Hfuel. lia.
      - apply Hag; [left; reflexivity|assumption]. }
    rewrite Hflag.
    rewrite IH.
    + simpl. reflexivity.
    + intros d Hd. apply Hag. right. assumption.
    + simpl in Hfuel. lia.
Qed.

(** X19.  The second loop of [checkheap], the pass over the heap, on a
    well-formed heap, without [verbose] and with fuel above the number
    of blocks and list entries: it ends, it has called [checkblock] on
    every block after the prologue, in address order, it has printed no
    line about a free block missing from the list, and it stops at the
    epilogue. *)
Theorem heap_pass_visits_every_block (s : heap) (bs fl : list Z)
    (fuel : nat) (pb : Z -> option (list diag)) :
  heap_inv s bs fl -> (length bs + length fl < fuel)%nat ->
  check_heap_blocks fuel pb s false (NEXT_BLKP s (heap_listp s))
  = Some (flat_map (checkblock s) (tl bs), mem_brk s).
Proof.
  intros [Hsh [Hag Hco]] Hfuel.
  destruct (sh_linked _ _ _ Hsh) as [Hn _].
  pose proof (sh_nodup _ _ _ Hsh) as Hnd. apply NoDup_end in Hnd.
  destruct Hnd as [_ Hhl].
  destruct (shape_blocks s bs fl Hsh) as (l & E & Hch).
  subst bs. simpl in *.
  apply (check_heap_blocks_chain s fl pb _ l _ Hch Hn Hhl).
  - intros d Hd Ha. apply (Hag d); [right; assumption|assumption].
  - lia.
Qed.

(** X23.  [checkheap] does not return: it prints the prologue with
    [printblock], whose first statement is a call of [checkheap], so
    each call makes another before it reaches either of its loops;
    whatever the fuel, the model of the mutual recursion runs out of
    it. *)
Theorem checkheap_has_no_result (fuel : nat) (verbose : bool) (s : heap) :
  checkheap fuel verbose s = None.
Proof.
  revert verbose. induction fuel as [|fuel IH]; intros verbose.
  - reflexivity.
  - cbn [checkheap]. rewrite (IH false). reflexivity.
Qed.

End Walks.

Section FreeListPrimitives.
Context {abi : arch}.

(** Inserting a block that is not listed keeps the shape of the heap,
    with the block in front of the list. *)
Lemma link_shape (s : heap) (bs fl : list Z) (b : Z) :
  heap_shape s bs fl -> In b bs -> ~ In b fl -> b <> heap_listp s ->
  heap_shape (insert_in_free_list s b) bs (b :: fl)
  /\ free_listp (insert_in_free_list s b) = b
  /\ changed_only (link_word (b :: fl ++ [heap_listp s])) s
       (insert_in_free_list s b).
Proof.
  intros Hsh Hb Hbf Hbh.
  pose proof (sh_chain _ _ _ Hsh) as Hch.
  destruct (shape_positive _ _ _ Hsh) as [Hpos Hhigh].
  assert (Hbn : ~ In b (fl ++ [heap_listp s])).
  { intros H. apply in_app_or in H. destruct H as [H|[H|[]]];
      [contradiction|congruence]. }
  destruct (insert_linked s _ bs _ Hch Hpos Hhigh s fl b
              (sh_nodup _ _ _ Hsh) (fun d => shape_listed _ _ _ d Hsh)
              (sh_linked _ _ _ Hsh) Hb Hbn) as [L C].
  assert (Hsub : forall d, In d (b :: fl ++ [heap_listp s]) -> In d bs).
  { intros d [<-|Hd]; [assumption|]. apply (shape_listed _ _ _ d Hsh Hd). }
  assert (G : forall y, ~ link_word bs y ->
            GET (insert_in_free_list s b) y = GET s y).
  { intros y Hy. apply GET_ext. apply (changed_only_eq _ _ _ _ C).
    intros Hl. apply Hy. revert Hl. apply listed_link_word. assumption. }
  assert (Hhd : free_listp (insert_in_free_list s b) = b).
  { destruct L as [Ln _]. apply next_links_target in Ln. assumption. }
  split; [|split; assumption].
  destruct (insert_fields s b) as (_ & F1 & F2 & F3).
  constructor; rewrite ?F1, ?F2, ?F3.
  - apply (chain_ext s); [assumption| |].
    + intros d Hd. destruct (tag_not_link s _ _ _ d Hch Hd).
      split; apply G; assumption.
    + apply G. apply (epilogue_not_link s _ _ _ Hch).
  - apply (sh_prologue_in _ _ _ Hsh).
  - apply (sh_low _ _ _ Hsh).
  - apply (sh_brk _ _ _ Hsh).
  - apply (sh_max _ _ _ Hsh).
  - rewrite <- (sh_prologue _ _ _ Hsh). apply GET_ALLOC_of_GET, G.
    apply (tag_not_link s _ _ _ _ Hch (sh_prologue_in _ _ _ Hsh)).
  - assumption.
  - simpl. constructor; [assumption|]. apply (sh_nodup _ _ _ Hsh).
  - intros d [<-|Hd]; [assumption|]. apply (sh_sub _ _ _ Hsh). assumption.
Qed.

(** X15.  [insert_in_free_list] on a well-shaped heap, for a block [b]
    that is not on the free list: [b] becomes the head of the list, the
    former entries follow in their order, the block structure of the
    heap is as before, and the only words written are link words of [b],
    of the former head and of the prologue. *)
Theorem insert_in_free_list_pushes_front (s : heap) (bs fl : list Z) (b : Z) :
  heap_shape s bs fl -> In b bs -> ~ In b fl -> b <> heap_listp s ->
  heap_shape (insert_in_free_list s b) bs (b :: fl)
  /\ free_listp (insert_in_free_list s b) = b
  /\ changed_only (link_word (b :: fl ++ [heap_listp s])) s
       (insert_in_free_list s b).
Proof. apply link_shape. Qed.

(** X16.  [remove_from_free_list] on a well-shaped heap, for a listed
    block [b]: the list loses [b] and keeps its other entries in their
    order, the block structure of the heap is as before, and the only
    words written are link words of listed blocks and of the
    prologue. *)
Theorem remove_from_free_list_unlinks (s : heap) (bs fl : list Z) (b : Z) :
  heap_shape s bs fl -> In b fl ->
  heap_shape (remove_from_free_list s b) bs
    (filter (fun c => negb (c =? b)) fl)
  /\ ~ In b (filter (fun c => negb (c =? b)) fl)
  /\ changed_only (link_word (fl ++ [heap_listp s])) s
       (remove_from_free_list s b).
Proof.
  intros Hsh Hb. destruct (unlink_shape s bs fl b Hsh Hb) as (H1 & _ & H3).
  split; [assumption|]. split; [|assumption].
  intros H. apply In_filter_neq in H. destruct H as [_ H]. congruence.
Qed.

(** X17.  Round trip: removing a block right after inserting it gives the
    free list back, head and entries, and every word other than the two
    link words of the block reads as before. *)
Theorem insert_then_remove_round_trip (s : heap) (bs fl : list Z) (b : Z) :
  heap_shape s bs fl -> In b bs -> ~ In b fl -> b <> heap_listp s ->
  let s' := remove_from_free_list (insert_in_free_list s b) b in
  heap_shape s' bs fl
  /\ free_listp s' = free_listp s
  /\ forall x, x <> b -> x <> b + WSIZE -> GET s' x = GET s x.
Proof.
  intros Hsh Hb Hbf Hbh s'.
  pose proof WSIZE_pos as HW. pose proof DSIZE_eq as HD.
  destruct (link_shape s bs fl b Hsh Hb Hbf Hbh) as (S1 & Hhd & _).
  assert (Hin : In b (b :: fl)) by (left; reflexivity).
  destruct (unlink_shape _ bs (b :: fl) b S1 Hin) as (S2 & _).
  assert (Ef : filter (fun c => negb (c =? b)) (b :: fl) = fl).
  { simpl. rewrite Z.eqb_refl. simpl.
    apply forallb_filter_id, forallb_forall.
    intros x Hx. apply negb_true_iff, Z.eqb_neq. intros ->. contradiction. }
  rewrite Ef in S2. fold s' in S2.
  assert (Et : forall t, heap_shape t bs fl ->
            free_listp t = hd (heap_listp t) fl).
  { intros t Ht. destruct (sh_linked _ _ _ Ht) as [Ln _].
    apply next_links_target in Ln. assumption. }
  assert (Ehl : heap_listp s' = heap_listp s).
  { unfold s'. destruct (remove_fields (insert_in_free_list s b) b)
      as (_ & _ & _ & ->).
    destruct (insert_fields s b) as (_ & _ & _ & ->). reflexivity. }
  split; [assumption|]. split.
  { rewrite (Et s' S2), (Et s Hsh), Ehl. reflexivity. }
  (* the head of the list, and what its [prev_link] holds *)
  set (F := free_listp s).
  assert (HF : In F (fl ++ [heap_listp s])).
  { unfold F. rewrite (Et s Hsh). destruct fl; simpl; auto. }
  assert (HFp : GET s F = NULL).
  { destruct (sh_linked _ _ _ Hsh) as [_ Lp]. unfold F.
    rewrite (Et s Hsh). destruct fl as [|c fl']; simpl in *;
      destruct Lp as [Lp _]; exact Lp. }
  assert (HFb : In F bs) by (apply (shape_listed _ _ _ F Hsh HF)).
  assert (HFne : F <> b).
  { intros E. rewrite E in HF. apply in_app_or in HF.
    destruct HF as [HF|[HF|[]]]; [contradiction|congruence]. }
  destruct (shape_positive _ _ _ Hsh) as [Hpos Hhigh].
  pose proof (block_range s _ bs _ (sh_chain _ _ _ Hsh) Hpos Hhigh F HFb)
    as HFr.
  assert (Hsp : b + WSIZE <> F).
  { destruct (chain_spaced s _ _ _ (sh_chain _ _ _ Hsh) F b HFb Hb HFne);
      lia. }
  assert (EN : GET_NEXT_PTR (insert_in_free_list s b) b = F).
  { unfold GET_NEXT_PTR. rewrite GET_insert.
    rewrite (proj2 (Z.eqb_neq (b + WSIZE) b)) by lia.
    fold F. rewrite (proj2 (Z.eqb_neq (b + WSIZE) F)) by assumption.
    rewrite Z.eqb_refl. apply wrap_small. lia. }
  assert (EP : GET_PREV_PTR (insert_in_free_list s b) b = NULL).
  { unfold GET_PREV_PTR. rewrite GET_insert, Z.eqb_refl.
    apply wrap_small. unfold NULL. lia. }
  intros x Hx1 Hx2. unfold s'. rewrite GET_remove by (left; assumption).
  rewrite EN, EP.
  destruct (Z.eqb_spec x F) as [->|HxF]; [symmetry; assumption|].
  rewrite Z.eqb_refl. simpl.
  rewrite GET_insert.
  rewrite (proj2 (Z.eqb_neq x b)) by assumption. fold F.
  rewrite (proj2 (Z.eqb_neq x F)) by assumption.
  rewrite (proj2 (Z.eqb_neq x (b + WSIZE))) by assumption. reflexivity.
Qed.

End FreeListPrimitives.

Section BoundaryTags.
Context {abi : arch}.

(** X18.  Round trip of the boundary-tag macros: a word written as
    [PACK(size, alloc)] reads back as [size] with [GET_SIZE] and as
    [alloc] with [GET_ALLOC], for every block size (a multiple of
    [DSIZE] that fits a word) and either value of the bit; every other
    word reads as before. *)
Theorem boundary_tag_round_trip (s : heap) (p x al : Z) :
  is_size x -> al = 0 \/ al = 1 ->
  GET_SIZE (PUT s p (PACK x al)) p = x
  /\ GET_ALLOC (PUT s p (PACK x al)) p = al
  /\ forall q, q <> p -> GET (PUT s p (PACK x al)) q = GET s q.
Proof.
  intros Hx Hal. destruct (tag_after_PUT s p x al Hx Hal) as [H1 H2].
  split; [assumption|]. split; [assumption|].
  intros q Hq. apply GET_PUT_other. assumption.
Qed.

End BoundaryTags.

Section InterfaceInvariant.
Context {abi : arch}.

(** X1.  [mm_init] establishes the invariant.  When the heap primitive
    has room for the six words of the frame and for one chunk, [mm_init]
    returns 0 and leaves a heap of two blocks, the prologue and one free
    block of [CHUNKSIZE] bytes, which is the only entry of the free
    list. *)
Theorem mm_init_establishes_invariant (s : heap) :
  0 <= mem_brk s -> mem_max_addr s <= word_modulus ->
  mem_brk s + 6 * WSIZE + CHUNKSIZE <= mem_max_addr s ->
  let hl := mem_brk s + 2 * WSIZE in
  let b := mem_brk s + 6 * WSIZE in
  fst (mm_init s) = 0
  /\ heap_inv (snd (mm_init s)) [hl; b] [b]
  /\ heap_listp (snd (mm_init s)) = hl
  /\ free_listp (snd (mm_init s)) = b
  /\ GET_SIZE (snd (mm_init s)) (HDRP b) = CHUNKSIZE
  /\ mem_brk (snd (mm_init s)) = b + CHUNKSIZE.
Proof. apply mm_init_inv. Qed.

(** X2.  [mm_init] fails when the heap primitive lacks room: if it cannot
    give the six words of the frame and one chunk after them, the result
    is -1, whether the first or the second request is the one
    refused. *)
Theorem mm_init_fails_without_room (s : heap) :
  0 <= mem_brk s -> mem_max_addr s <= word_modulus ->
  mem_max_addr s < mem_brk s + 6 * WSIZE + CHUNKSIZE ->
  fst (mm_init s) = -1.
Proof. apply mm_init_refused. Qed.

(** X11.  [coalesce] called, as [mm_free], [place] and [extend_heap] call
    it, on a block [p] that is marked free and not yet listed, in a heap
    that is otherwise well formed: it returns the lowest block of the
    merged region, and the heap it leaves satisfies the invariant, the
    blocks from [lo] up to [hi] being the one free block [lo] of size
    [hi - lo], first on the free list, and the absorbed neighbours gone
    from the list.  Only words of [p] and of free blocks, and the link
    words of the prologue, are written. *)
Theorem coalesce_restores_invariant (st : heap) (bs fl : list Z) (p : Z) :
  heap_shape st bs fl -> In p bs -> GET_ALLOC st (HDRP p) = 0 -> ~ In p fl ->
  (forall b, In b bs -> b <> p -> (GET_ALLOC st (HDRP b) = 0 <-> In b fl)) ->
  (forall b, In b bs -> b <> p -> GET_ALLOC st (HDRP b) = 0 ->
     NEXT_BLKP st b = p \/ GET_ALLOC st (HDRP (NEXT_BLKP st b)) = 1) ->
  let q := PREV_BLKP st p in
  let n := NEXT_BLKP st p in
  let lo := if GET_ALLOC st (HDRP q) =? 0 then q else p in
  let hi := if GET_ALLOC st (HDRP n) =? 0 then NEXT_BLKP st n else n in
  fst (coalesce st p) = lo
  /\ heap_inv (snd (coalesce st p)) (merged lo hi bs) (lo :: unlisted lo hi fl)
  /\ GET_SIZE (snd (coalesce st p)) (HDRP lo) = hi - lo
  /\ changed_only (fun x => block_word st p x \/ free_word st fl x) st
       (snd (coalesce st p))
  /\ lo <= p /\ NEXT_BLKP st p <= hi.
Proof.
  intros Hsh Hp Hpf Hpn Hag Hco.
  pose proof (coalesce_pending_inv st bs fl p Hsh Hp Hpf Hpn Hag Hco) as H.
  cbv zeta in *. tauto.
Qed.

(** X6.  [mm_free] of an allocated block (not the prologue) of a
    well-formed heap keeps the invariant: the block and its free
    neighbours become one free block [lo] of size [hi - lo], which is
    the head of the free list; every other allocated block is still a
    block, and no word of it (header, payload, footer) has changed; the
    bounds of the heap are as before, and every word written lies inside
    the heap, from the prologue up to the header of the epilogue. *)
Theorem mm_free_keeps_invariant (s : heap) (bs fl : list Z) (p : Z) :
  heap_inv s bs fl -> In p bs -> p <> heap_listp s ->
  GET_ALLOC s (HDRP p) = 1 ->
  let prev := PREV_BLKP s p in
  let next := NEXT_BLKP s p in
  let lo := if GET_ALLOC s (HDRP prev) =? 0 then prev else p in
  let hi := if GET_ALLOC s (HDRP next) =? 0 then NEXT_BLKP s next else next in
  heap_inv (mm_free s p) (merged lo hi bs) (lo :: unlisted lo hi fl)
  /\ free_listp (mm_free s p) = lo
  /\ GET_SIZE (mm_free s p) (HDRP lo) = hi - lo
  /\ (forall d, In d bs -> d <> p -> GET_ALLOC s (HDRP d) = 1 ->
        In d (merged lo hi bs))
  /\ keeps_allocated s (mm_free s p) bs [heap_listp s; p]
  /\ mem_brk (mm_free s p) = mem_brk s
  /\ mem_max_addr (mm_free s p) = mem_max_addr s
  /\ heap_listp (mm_free s p) = heap_listp s
  /\ (forall x, mem (mm_free s p) x <> mem s x ->
        heap_listp s <= x < mem_brk s - WSIZE).
Proof.
  intros Hinv Hp Hne Hal.
  pose proof (mm_free_inv s bs fl p Hinv Hp Hne Hal) as H. cbv zeta in *.
  destruct H as (H1 & H2 & H3 & H4 & H5 & H6 & H7 & H8 & H9).
  repeat (split; [assumption|]).
  intros x Hx. destruct (H9 x Hx) as [Hw|Hw].
  - apply (block_word_inside s bs fl p x (proj1 Hinv) Hp Hne Hw).
  - apply (free_word_inside s bs fl x (proj1 Hinv) Hw).
Qed.

(** X12.  [place] of an adjusted size [a] in a listed block [b] that is
    large enough keeps the invariant: [b] is then an allocated block of
    at least [a] bytes, no larger than before, the blocks that were
    allocated are still blocks, only words of free blocks (and the link
    words of the prologue) are written, and the bounds of the heap are
    as before. *)
Theorem place_keeps_invariant (s : heap) (bs fl : list Z) (b a : Z) :
  heap_inv s bs fl -> In b fl -> is_size a -> 2 * DSIZE <= a ->
  a <= GET_SIZE s (HDRP b) ->
  exists bs' fl',
    heap_inv (place s b a) bs' fl'
    /\ In b bs' /\ GET_ALLOC (place s b a) (HDRP b) = 1
    /\ a <= GET_SIZE (place s b a) (HDRP b) <= GET_SIZE s (HDRP b)
    /\ (forall d, In d bs -> GET_ALLOC s (HDRP d) <> 0 -> In d bs')
    /\ changed_only (free_word s fl) s (place s b a)
    /\ mem_brk (place s b a) = mem_brk s
    /\ mem_max_addr (place s b a) = mem_max_addr s
    /\ heap_listp (place s b a) = heap_listp s.
Proof.
  intros Hinv Hb Ha Hamin Hac.
  destruct (place_inv s bs fl b a Hinv Hb Ha Hamin Hac)
    as (bs' & fl' & I1 & I2 & I3 & I4 & I5 & I6 & I7 & I8 & I9 & _).
  exists bs', fl'. tauto.
Qed.

(** The byte count that [extend_heap] computes from a word count: the
    count rounded up to an even number, times the word size. *)
Lemma extend_size (words : Z) :
  0 <= words -> (words + 1) * WSIZE < word_modulus ->
  (if negb (words mod 2 =? 0)
   then wrap ((words + 1) * WSIZE) else wrap (words * WSIZE))
  = (words + words mod 2) * WSIZE
  /\ ((words + words mod 2) * WSIZE) mod DSIZE = 0
  /\ words * WSIZE <= (words + words mod 2) * WSIZE.
Proof.
  intros Hw Hr. unfold wrap.
  destruct word_modulus_cases as [(W & D & Mo)|(W & D & Mo)];
    rewrite W, D, Mo in *.
  - destruct (Z.eqb_spec (words mod 2) 0) as [E|E]; simpl.
    + rewrite E, Z.add_0_r. rewrite Z.mod_small by lia.
      split; [reflexivity|]. split; [|lia].
      Z.to_euclidean_division_equations; lia.
    + assert (E1 : words mod 2 = 1)
        by (Z.to_euclidean_division_equations; lia).
      rewrite E1. rewrite Z.mod_small by lia.
      split; [reflexivity|]. split; [|lia].
      Z.to_euclidean_division_equations; lia.
  - destruct (Z.eqb_spec (words mod 2) 0) as [E|E]; simpl.
    + rewrite E, Z.add_0_r. rewrite Z.mod_small by lia.
      split; [reflexivity|]. split; [|lia].
      Z.to_euclidean_division_equations; lia.
    + assert (E1 : words mod 2 = 1)
        by (Z.to_euclidean_division_equations; lia).
      rewrite E1. rewrite Z.mod_small by lia.
      split; [reflexivity|]. split; [|lia].
      Z.to_euclidean_division_equations; lia.
Qed.

(** X13.  [extend_heap] on a well-formed heap, asked for at least four
    words (a count whose byte size fits a word): the request is rounded
    up to an even number of words, [size] bytes.  If the heap primitive
    has no room for them the result is NULL and the heap is untouched;
    otherwise the break moves up by [size], the new bytes become a free
    block that is merged with the last block when that one is free, the
    result [lo] is that free block, of size [e + size - lo] and first on
    the free list, and the invariant holds again.  Allocated blocks are
    still blocks. *)
Theorem extend_heap_grows_or_refuses (s : heap) (bs fl : list Z)
    (words : Z) :
  heap_inv s bs fl -> 4 <= words -> (words + 1) * WSIZE < word_modulus ->
  let size := (words + words mod 2) * WSIZE in
  let e := mem_brk s in
  let prev := PREV_BLKP s e in
  let lo := if GET_ALLOC s (HDRP prev) =? 0 then prev else e in
  let bs' := merged lo (e + size) (bs ++ [e]) in
  let fl' := lo :: unlisted lo (e + size) fl in
  size mod DSIZE = 0
  /\ (mem_max_addr s < e + size -> extend_heap s words = (NULL, s))
  /\ (e + size <= mem_max_addr s ->
        fst (extend_heap s words) = lo
        /\ heap_inv (snd (extend_heap s words)) bs' fl'
        /\ GET_SIZE (snd (extend_heap s words)) (HDRP lo) = e + size - lo
        /\ lo <= e
        /\ (forall d, In d bs -> GET_ALLOC s (HDRP d) <> 0 ->
              In d bs' /\ d <> lo)
        /\ mem_brk (snd (extend_heap s words)) = e + size
        /\ mem_max_addr (snd (extend_heap s words)) = mem_max_addr s
        /\ heap_listp (snd (extend_heap s words)) = heap_listp s).
Proof.
  intros Hinv Hw Hr size e prev lo bs' fl'.
  pose proof WSIZE_pos as HW. pose proof DSIZE_eq as HD.
  destruct (extend_size words) as (Hsz & Hmod & Hle); [lia|assumption|].
  fold size in Hsz, Hmod, Hle.
  assert (Hmin : 2 * DSIZE <= size) by nia.
  split; [assumption|]. split.
  - intros Hno. apply extend_heap_refused. cbv zeta. rewrite Hsz. assumption.
  - intros Hyes.
    pose proof (extend_heap_inv s bs fl words size Hinv Hsz Hmin Hmod Hyes)
      as H.
    cbv zeta in H. fold e prev lo bs' fl' in H. tauto.
Qed.

(** X14.  [find_fit] on a well-formed heap, with fuel above the length of
    the free list: the result is the first block, in list order, whose
    size is at least [asize], and NULL exactly when every listed block
    is too small. *)
Theorem find_fit_first_of_list (s : heap) (bs fl : list Z) (asize : Z)
    (fuel : nat) :
  heap_inv s bs fl -> (length fl < fuel)%nat ->
  (exists l1 b l2, fl = l1 ++ b :: l2
     /\ find_fit fuel s asize = Some b
     /\ b <> NULL
     /\ asize <= GET_SIZE s (HDRP b)
     /\ forall c, In c l1 -> GET_SIZE s (HDRP c) < asize)
  \/ (find_fit fuel s asize = Some NULL
      /\ forall c, In c fl -> GET_SIZE s (HDRP c) < asize).
Proof.
  intros Hinv Hfuel.
  destruct (find_fit_inv s bs fl asize fuel Hinv Hfuel)
    as [(l1 & b & l2 & E & Hf & Hs & Hl)|H]; [left|right; assumption].
  exists l1, b, l2. repeat split; try assumption.
  assert (Hb : In b bs).
  { apply (sh_sub _ _ _ (proj1 Hinv)). rewrite E.
    apply in_or_app. right. left. reflexivity. }
  destruct (chain_bounds s _ _ _ (sh_chain _ _ _ (proj1 Hinv))) as [_ Hbnd].
  destruct (Hbnd b Hb). pose proof (sh_low _ _ _ (proj1 Hinv)).
  pose proof WSIZE_pos. pose proof DSIZE_eq. unfold NULL. lia.
Qed.

(** X3.  [mm_malloc] of a size that the adjustment can hold, on a
    well-formed heap: the call returns; with NULL the heap is untouched;
    otherwise the invariant holds again, the result is an allocated
    block with room for [size] bytes of payload, it was not an allocated
    block before, every block that was allocated is still a block, and
    no word of such a block (header, payload, footer) has changed;
    every word written lies inside the heap, between the prologue and
    the new break. *)
Theorem mm_malloc_keeps_invariant (s : heap) (bs fl : list Z) (size : Z)
    (fuel : nat) :
  heap_inv s bs fl -> 0 < size ->
  size + DSIZE + (DSIZE - 1) < word_modulus ->
  (length fl < fuel)%nat ->
  exists p s',
    mm_malloc fuel s size = Some (p, s')
    /\ (p = NULL -> s' = s)
    /\ (p <> NULL ->
        exists bs' fl',
          heap_inv s' bs' fl' /\ In p bs'
          /\ GET_ALLOC s' (HDRP p) = 1
          /\ size + DSIZE <= GET_SIZE s' (HDRP p)
          /\ (In p bs -> GET_ALLOC s (HDRP p) = 0)
          /\ (forall d, In d bs -> GET_ALLOC s (HDRP d) = 1 -> In d bs')
          /\ keeps_allocated s s' bs [heap_listp s]
          /\ heap_listp s' = heap_listp s
          /\ mem_max_addr s' = mem_max_addr s
          /\ (forall x, mem s' x <> mem s x ->
                heap_listp s <= x < mem_brk s')).
Proof.
  intros Hinv Hpos Hfit Hfuel.
  destruct (mm_malloc_inv s bs fl size fuel Hinv Hpos Hfit Hfuel)
    as (p & s' & E & [(Hn & Hs & _)|(Hn & bs' & fl' & H)]);
    exists p, s'; (split; [assumption|]); split.
  - intros _. assumption.
  - intros N. contradiction.
  - intros N. contradiction.
  - intros _. exists bs', fl'.
    destruct H as (H1 & H2 & H3 & H4 & H5 & H6 & H7 & H8 & H9 & _ & H11).
    split; [assumption|]. split; [assumption|]. split; [assumption|].
    split; [lia|]. split; [assumption|]. split; [assumption|].
    split; [assumption|]. split; [assumption|]. split; assumption.
Qed.

(** X4.  [mm_malloc] gives up only when it must: on a well-formed heap
    the result is NULL exactly when every block of the free list is
    smaller than the adjusted size and the heap primitive has no room
    for [MAX(asize, CHUNKSIZE)] more bytes. *)
Theorem mm_malloc_null_iff_no_room (s : heap) (bs fl : list Z) (size : Z)
    (fuel : nat) :
  heap_inv s bs fl -> 0 < size ->
  size + DSIZE + (DSIZE - 1) < word_modulus ->
  (length fl < fuel)%nat ->
  (exists s', mm_malloc fuel s size = Some (NULL, s'))
  <-> ((forall c, In c fl -> GET_SIZE s (HDRP c) < adjust_size size)
       /\ mem_max_addr s < mem_brk s + MAX (adjust_size size) CHUNKSIZE).
Proof.
  intros Hinv Hpos Hfit Hfuel. split.
  - intros (s0 & E0).
    destruct (mm_malloc_inv s bs fl size fuel Hinv Hpos Hfit Hfuel)
      as (p & s' & E & [(Hn & Hs & H1 & H2)|(Hn & _)]).
    + split; assumption.
    + rewrite E0 in E. injection E as E1 _. congruence.
  - intros [Hsmall Hno].
    destruct (adjust_size_in_range size Hpos Hfit) as (_ & _ & Ha & _ & _).
    unfold mm_malloc. rewrite (proj2 (Z.leb_gt size 0)) by lia.
    destruct (find_fit_inv s bs fl (adjust_size size) fuel Hinv Hfuel)
      as [(l1 & b & l2 & E & Hf & Hs & _)|[Hf _]].
    + assert (Hb : In b fl).
      { rewrite E. apply in_or_app. right. left. reflexivity. }
      specialize (Hsmall b Hb). lia.
    + rewrite Hf. simpl.
      destruct (MAX_chunk (adjust_size size) Ha) as (Hx & _ & _).
      pose proof (extend_request _ Hx) as Ereq.
      rewrite extend_heap_refused by (cbv zeta; rewrite Ereq; assumption).
      simpl. exists s. reflexivity.
Qed.

(** X5.  The block that [mm_malloc] returns on a well-formed heap whose
    prologue is aligned: its address is a multiple of [DSIZE], its
    [size] bytes lie inside the heap, between the prologue and the
    epilogue header, and none of them is a word (header, payload or
    footer) of a block that was allocated before the call. *)
Theorem mm_malloc_block_is_fresh (s : heap) (bs fl : list Z) (size : Z)
    (fuel : nat) (p : Z) (s' : heap) :
  heap_inv s bs fl -> heap_listp s mod DSIZE = 0 -> 0 < size ->
  size + DSIZE + (DSIZE - 1) < word_modulus ->
  (length fl < fuel)%nat ->
  mm_malloc fuel s size = Some (p, s') -> p <> NULL ->
  p mod DSIZE = 0
  /\ heap_listp s' + 2 * DSIZE <= p
  /\ p + size <= mem_brk s' - DSIZE
  /\ forall d x, In d bs -> GET_ALLOC s (HDRP d) = 1 ->
       p <= x < p + size -> ~ block_word s d x.
Proof.
  intros Hinv Hal Hpos Hfit Hfuel E Hn.
  pose proof WSIZE_pos as HW. pose proof DSIZE_eq as HD.
  destruct (mm_malloc_inv s bs fl size fuel Hinv Hpos Hfit Hfuel)
    as (p0 & s0 & E0 & [(Hn0 & _)|(_ & bs' & fl' & H)]);
    rewrite E in E0; injection E0 as <- <-; [contradiction|].
  destruct H as (H1 & H2 & H3 & H4 & H5 & H6 & H7 & H8 & H9 & H10 & _).
  pose proof (sh_chain _ _ _ (proj1 H1)) as Hch'.
  pose proof (sh_chain _ _ _ (proj1 Hinv)) as Hch.
  destruct (chain_bounds s' _ _ _ Hch') as [_ Hbnd'].
  assert (Hhl : In (heap_listp s') bs')
    by apply (sh_prologue_in _ _ _ (proj1 H1)).
  assert (Hpne : p <> heap_listp s').
  { rewrite H8. intros ->.
    pose proof (sh_prologue _ _ _ (proj1 Hinv)) as A.
    rewrite H5 in A by apply (sh_prologue_in _ _ _ (proj1 Hinv)).
    discriminate. }
  split.
  { apply (blocks_aligned s' bs' fl' p (proj1 H1)); [|assumption].
    rewrite H8. assumption. }
  split.
  { destruct (Hbnd' p H2) as [Hlo _].
    destruct (chain_spaced s' _ _ _ Hch' _ _ Hhl H2) as [?|?];
      [congruence|lia|lia]. }
  split.
  { destruct (Hbnd' p H2) as [_ Hhi]. lia. }
  intros d x Hd Hda Hx Hw.
  assert (Hdp : d <> p).
  { intros ->. rewrite (H5 Hd) in Hda. discriminate. }
  assert (Hd' : In d bs') by (apply H6; assumption).
  assert (Hm : mem s' (HDRP d) = mem s (HDRP d)).
  { destruct (Z.eq_dec d (heap_listp s)) as [->|Hdh]; [assumption|].
    apply (H7 d); try assumption.
    - intros [E0|[]]. congruence.
    - destruct (chain_facts s _ _ _ Hch d Hd) as (? & _).
      unfold block_word, NEXT_BLKP, HDRP in *. lia. }
  assert (Hs : GET_SIZE s' (HDRP d) = GET_SIZE s (HDRP d))
    by (apply GET_SIZE_ext; assumption).
  destruct (Z.lt_ge_cases d p) as [Hlt|Hge].
  - pose proof (chain_order s' _ _ _ Hch' d p Hd' H2 Hlt) as Ho.
    rewrite Hs in Ho. unfold block_word, NEXT_BLKP, HDRP in *. lia.
  - assert (Hlt : p < d) by lia.
    pose proof (chain_order s' _ _ _ Hch' p d H2 Hd' Hlt) as Ho.
    unfold block_word, HDRP in *. lia.
Qed.

End InterfaceInvariant.

Section AllocateThenFree.
Context {abi : arch}.

(** The boundary tags of an allocated block are no words of free blocks
    and no link words of the prologue. *)
Lemma tags_not_free_word (s : heap) (bs fl : list Z) (d : Z) :
  heap_inv s bs fl -> In d bs -> GET_ALLOC s (HDRP d) = 1 ->
  ~ free_word s fl (HDRP d) /\ ~ free_word s fl (FTRP s d).
Proof.
  pose proof WSIZE_pos as HW. pose proof DSIZE_eq as HD.
  intros [Hsh [Hag Hco]] Hd Ha.
  pose proof (sh_chain _ _ _ Hsh) as Hch.
  destruct (chain_bounds s _ _ _ Hch) as [_ Hbnd]. destruct (Hbnd d Hd).
  destruct (chain_facts s _ _ _ Hch d Hd) as (Hmin & _).
  pose proof (sh_prologue_in _ _ _ Hsh) as Hp.
  assert (Hfar : d = heap_listp s \/ heap_listp s + 2 * DSIZE <= d).
  { destruct (Z.eq_dec d (heap_listp s)) as [E|N]; [left; assumption|right].
    destruct (chain_spaced s _ _ _ Hch _ _ Hp Hd); [congruence|lia|lia]. }
  assert (Hdis : forall c x, In c fl -> block_word s c x ->
            x <> HDRP d /\ x <> FTRP s d).
  { intros c x Hc Hw.
    pose proof (sh_sub _ _ _ Hsh c Hc) as Hcb.
    assert (Hcd : c <> d).
    { intros ->. apply (Hag d Hd) in Hc. congruence. }
    destruct (chain_facts s _ _ _ Hch c Hcb) as (Hcmin & _).
    pose proof (block_outside s _ _ _ Hch c d Hcb Hd).
    pose proof (block_outside s _ _ _ Hch d c Hd Hcb).
    unfold block_word, FTRP, NEXT_BLKP, HDRP in *. lia. }
  split; intros [(c & Hc & Hw)|Hw].
  - destruct (Hdis c _ Hc Hw) as [N _]. apply N. reflexivity.
  - unfold HDRP in Hw. lia.
  - destruct (Hdis c _ Hc Hw) as [_ N]. apply N. reflexivity.
  - unfold FTRP, HDRP in *. lia.
Qed.

(** Nor is the header of the epilogue. *)
Lemma epilogue_not_free_word (s : heap) (bs fl : list Z) :
  heap_inv s bs fl -> ~ free_word s fl (HDRP (mem_brk s)).
Proof.
  pose proof WSIZE_pos as HW. pose proof DSIZE_eq as HD.
  intros [Hsh _].
  pose proof (sh_chain _ _ _ Hsh) as Hch.
  destruct (chain_bounds s _ _ _ Hch) as [_ Hbnd].
  pose proof (sh_prologue_in _ _ _ Hsh) as Hp.
  destruct (Hbnd _ Hp).
  destruct (chain_facts s _ _ _ Hch _ Hp) as (Hmin & _).
  intros [(c & Hc & Hw)|Hw].
  - destruct (Hbnd c (sh_sub _ _ _ Hsh c Hc)).
    unfold block_word, NEXT_BLKP, HDRP in *. lia.
  - unfold HDRP in Hw. lia.
Qed.

(** Where a chain starts. *)
Lemma chain_start (s : heap) (b : Z) (l : list Z) (e : Z) :
  chain s b l e -> b = hd e l.
Proof. inversion 1; reflexivity. Qed.

(** The list of blocks determines their sizes. *)
Lemma chain_sizes_unique (s s' : heap) (b : Z) (l : list Z) (e : Z) :
  chain s b l e -> chain s' b l e ->
  forall d, In d l -> GET_SIZE s' (HDRP d) = GET_SIZE s (HDRP d).
Proof.
  induction 1 as [e He|b l e Hmin Hft Hch IH]; intros H' d Hd; [destruct Hd|].
  inversion H' as [|b' l' e' Hmin' Hft' Hch']; subst.
  pose proof (chain_start _ _ _ _ Hch) as E1.
  pose proof (chain_start _ _ _ _ Hch') as E2.
  assert (En : NEXT_BLKP s' b = NEXT_BLKP s b) by congruence.
  destruct Hd as [<-|Hd].
  - unfold NEXT_BLKP in En. fold (HDRP b) in En. lia.
  - apply IH; [|assumption]. rewrite <- En. assumption.
Qed.

(** Merging what a split has parted gives the blocks back. *)
Lemma merged_split_at (b r hi : Z) (l : list Z) :
  b < r < hi -> (forall d, In d l -> d <= b \/ hi <= d) ->
  merged b hi (split_at b r l) = l.
Proof.
  intros Hr. unfold merged, split_at.
  induction l as [|d l IH]; intros Hl; [reflexivity|].
  simpl. rewrite filter_app, IH by (intros; apply Hl; right; assumption).
  destruct (Z.eqb_spec d b) as [->|Hdb]; simpl.
  - rewrite Z.leb_refl. simpl.
    rewrite (proj2 (Z.leb_gt r b)) by lia.
    rewrite (proj2 (Z.leb_gt hi r)) by lia. reflexivity.
  - assert (E : (d <=? b) || (hi <=? d) = true).
    { apply orb_true_iff.
      destruct (Hl d (or_introl eq_refl)); [left|right]; apply Z.leb_le; lia. }
    rewrite E. reflexivity.
Qed.

Lemma merged_all (lo hi : Z) (l : list Z) :
  (forall d, In d l -> d <= lo \/ hi <= d) -> merged lo hi l = l.
Proof.
  intros Hl. unfold merged. apply forallb_filter_id, forallb_forall.
  intros d Hd. apply orb_true_iff.
  destruct (Hl d Hd); [left|right]; apply Z.leb_le; lia.
Qed.

Lemma unlisted_all (lo hi : Z) (l : list Z) :
  (forall d, In d l -> d < lo \/ hi <= d) -> unlisted lo hi l = l.
Proof.
  intros Hl. unfold unlisted. apply forallb_filter_id, forallb_forall.
  intros d Hd. apply orb_true_iff.
  destruct (Hl d Hd); [left; apply Z.ltb_lt|right; apply Z.leb_le]; lia.
Qed.

(** Placing a request in a free block and freeing the block again gives
    the blocks back: the same blocks with the same sizes and allocation
    bits, the block in front of the free list. *)
Lemma place_then_free_inv (s : heap) (bs fl : list Z) (b a : Z) :
  heap_inv s bs fl -> In b fl -> is_size a -> 2 * DSIZE <= a ->
  a <= GET_SIZE s (HDRP b) ->
  let s2 := mm_free (place s b a) b in
  heap_inv s2 bs (b :: filter (fun x => negb (x =? b)) fl)
  /\ free_listp s2 = b
  /\ (forall d, In d bs ->
        GET_SIZE s2 (HDRP d) = GET_SIZE s (HDRP d)
        /\ GET_ALLOC s2 (HDRP d) = GET_ALLOC s (HDRP d))
  /\ keeps_allocated s s2 bs [heap_listp s]
  /\ mem_brk s2 = mem_brk s /\ mem_max_addr s2 = mem_max_addr s
  /\ heap_listp s2 = heap_listp s.
Proof.
  pose proof WSIZE_pos as HW. pose proof DSIZE_eq as HD.
  intros Hinv Hb Ha Hamin Hac.
  pose proof Hinv as [Hsh [Hag Hco]].
  pose proof (sh_chain _ _ _ Hsh) as Hch.
  pose proof (sh_sub _ _ _ Hsh b Hb) as Hbb.
  assert (Hbf : GET_ALLOC s (HDRP b) = 0) by (apply (Hag b Hbb); assumption).
  assert (Hbhl : b <> heap_listp s).
  { intros E. pose proof (sh_prologue _ _ _ Hsh). congruence. }
  destruct (chain_facts s _ _ _ Hch b Hbb) as (Hmin & _ & Hbn).
  set (c := GET_SIZE s (HDRP b)) in *.
  assert (Enb : NEXT_BLKP s b = b + c) by reflexivity.
  destruct (place_inv s bs fl b a Hinv Hb Ha Hamin Hac)
    as (bs1 & fl1 & I1 & I2 & I3 & I4 & I5 & I6 & I7 & I8 & I9 & How).
  set (s1 := place s b a) in *.
  pose proof I1 as [Hsh1 [Hag1 Hco1]].
  pose proof (sh_chain _ _ _ Hsh1) as Hch1.
  (* the block before [b] is allocated, and its tags are as before *)
  assert (Hkeep : forall x, ~ free_word s fl x -> mem s1 x = mem s x).
  { intros x Hx. apply (changed_only_eq _ _ _ _ I6). assumption. }
  destruct (prev_block s _ _ _ Hch b Hbb Hbhl) as (Hq & Hqn & Hqf & Hqt).
  set (q := PREV_BLKP s b) in *.
  assert (Hqa : GET_ALLOC s (HDRP q) = 1).
  { destruct (alloc_bit s (HDRP q)) as [A|A]; [|assumption].
    pose proof (Hco q Hq A) as N. unfold NEXT_BLKP in N. fold (HDRP q) in N.
    rewrite Hqn in N. congruence. }
  destruct (tags_not_free_word s bs fl q Hinv Hq Hqa) as [Tq1 Tq2].
  rewrite Hqf in Tq2.
  assert (Ep1 : PREV_BLKP s1 b = q).
  { unfold q, PREV_BLKP. f_equal. apply GET_SIZE_ext, Hkeep. assumption. }
  assert (Eq1 : GET_ALLOC s1 (HDRP q) = 1).
  { rewrite <- Hqa. apply GET_ALLOC_ext, Hkeep. assumption. }
  (* what follows [b] in [s] is allocated, and its header is as before *)
  assert (Hna : GET_ALLOC s1 (HDRP (b + c)) = 1).
  { pose proof (Hco b Hbb Hbf) as A. rewrite Enb in A.
    rewrite <- A. apply GET_ALLOC_ext, Hkeep.
    destruct Hbn as [Hn|[Hn _]]; rewrite Enb in Hn.
    - apply (tags_not_free_word s bs fl _ Hinv Hn A).
    - rewrite Hn. apply (epilogue_not_free_word s bs fl Hinv). }
  assert (Hout : forall d, In d bs -> d <= b \/ b + c <= d).
  { intros d Hd. pose proof (block_outside s _ _ _ Hch b d Hbb Hd) as O.
    rewrite Enb in O. lia. }
  assert (Hne1 : b <> heap_listp s1) by (rewrite I9; assumption).
  pose proof (mm_free_inv s1 bs1 fl1 b I1 I2 Hne1 I3) as F.
  cbv zeta in F. rewrite Ep1, Eq1 in F. simpl (1 =? 0) in F. cbv iota in F.
  (* the lists after the free *)
  assert (Elists :
    merged b (if GET_ALLOC s1 (HDRP (NEXT_BLKP s1 b)) =? 0
              then NEXT_BLKP s1 (NEXT_BLKP s1 b) else NEXT_BLKP s1 b) bs1 = bs
    /\ unlisted b (if GET_ALLOC s1 (HDRP (NEXT_BLKP s1 b)) =? 0
                   then NEXT_BLKP s1 (NEXT_BLKP s1 b) else NEXT_BLKP s1 b) fl1
       = filter (fun x => negb (x =? b)) fl).
  { destruct How as [(-> & -> & Es & _)|(-> & -> & Es & Er & Hrmin)].
    - (* the whole block was used *)
      assert (En1 : NEXT_BLKP s1 b = b + c).
      { unfold NEXT_BLKP. fold (HDRP b). rewrite Es. reflexivity. }
      rewrite En1, Hna. simpl (1 =? 0). cbv iota. split.
      + apply merged_all. assumption.
      + apply unlisted_all. intros d Hd. apply In_filter_neq in Hd.
        destruct Hd as [Hd Hdb].
        destruct (Hout d (sh_sub _ _ _ Hsh d Hd)); lia.
    - (* the block was split *)
      assert (En1 : NEXT_BLKP s1 b = b + a).
      { unfold NEXT_BLKP. fold (HDRP b). rewrite Es. reflexivity. }
      assert (Era : GET_ALLOC s1 (HDRP (b + a)) = 0).
      { apply Hag1; [|left; reflexivity].
        apply In_split_at. right. auto. }
      assert (En2 : NEXT_BLKP s1 (b + a) = b + c).
      { unfold NEXT_BLKP. fold (HDRP (b + a)). rewrite Er. lia. }
      rewrite En1, Era, En2. simpl (0 =? 0). cbv iota. split.
      + apply merged_split_at; [lia|assumption].
      + unfold unlisted. cbn [filter].
        rewrite (proj2 (Z.ltb_ge (b + a) b)) by lia.
        rewrite (proj2 (Z.leb_gt (b + c) (b + a))) by lia. simpl.
        apply unlisted_all. intros d Hd. apply In_filter_neq in Hd.
        destruct Hd as [Hd Hdb].
        destruct (Hout d (sh_sub _ _ _ Hsh d Hd)); lia. }
  destruct Elists as [E1 E2]. rewrite E1, E2 in F.
  destruct F as (F1 & F2 & F3 & F4 & F5 & F6 & F7 & F8 & _).
  set (s2 := mm_free s1 b) in *.
  pose proof F1 as [Hsh2 [Hag2 Hco2]].
  split; [assumption|]. split; [assumption|].
  (* sizes and allocation bits *)
  assert (Hsame : forall d, In d bs ->
            GET_SIZE s2 (HDRP d) = GET_SIZE s (HDRP d)
            /\ GET_ALLOC s2 (HDRP d) = GET_ALLOC s (HDRP d)).
  { intros d Hd. split.
    - apply (chain_sizes_unique s s2 _ bs _ Hch); [|assumption].
      pose proof (sh_chain _ _ _ Hsh2) as Hch2.
      rewrite F8, I9, F6, I7 in Hch2. assumption.
    - assert (Hiff : In d (b :: filter (fun x => negb (x =? b)) fl)
                     <-> In d fl).
      { simpl. rewrite In_filter_neq. split.
        - intros [<-|[H _]]; assumption.
        - intros H. destruct (Z.eq_dec b d); [left|right]; auto. }
      destruct (alloc_bit s (HDRP d)) as [A|A];
        destruct (alloc_bit s2 (HDRP d)) as [A2|A2]; try congruence.
      + apply (Hag d Hd) in A. apply Hiff, (Hag2 d Hd) in A. congruence.
      + apply (Hag2 d Hd), Hiff, (Hag d Hd) in A2. congruence. }
  split; [assumption|].
  split; [|rewrite F6, F7, F8, I7, I8, I9; auto].
  (* the allocated blocks *)
  assert (K1 : keeps_allocated s s1 bs [heap_listp s]).
  { apply (frame_keeps_allocated s s1 bs fl Hinv).
    revert I6. apply changed_weaken. auto. }
  unfold keeps_allocated in K1, F5.
  intros d Hd Hex Hda x Hx.
  assert (Hdn : d <> heap_listp s)
    by (intros ->; apply Hex; left; reflexivity).
  assert (Hdb : d <> b) by (intros ->; congruence).
  assert (Hh : mem s1 (HDRP d) = mem s (HDRP d)).
  { apply (K1 d Hd Hex Hda).
    destruct (chain_facts s _ _ _ Hch d Hd) as (? & _).
    unfold block_word, NEXT_BLKP, HDRP in *. lia. }
  rewrite <- (K1 d Hd Hex Hda x Hx).
  apply (F5 d).
  - apply I5; [assumption|congruence].
  - rewrite I9. intros [E|[E|[]]]; congruence.
  - rewrite <- Hda. apply GET_ALLOC_ext. assumption.
  - unfold block_word, NEXT_BLKP in *. fold (HDRP d) in *.
    rewrite (GET_SIZE_ext s1 s (HDRP d) Hh). assumption.
Qed.

(** X7.  Round trip of the interface: when some block of the free list is
    large enough for the request, [mm_malloc] serves it from the list,
    and [mm_free] of the result gives the blocks back.  The heap is well
    formed with the same blocks, each with the size and the allocation
    bit it had; the block that served the request is first on the free
    list, the other entries keep their order; no word of an allocated
    block has changed, and the break has not moved. *)
Theorem malloc_then_free_round_trip (s : heap) (bs fl : list Z) (size : Z)
    (fuel : nat) :
  heap_inv s bs fl -> 0 < size ->
  size + DSIZE + (DSIZE - 1) < word_modulus ->
  (length fl < fuel)%nat ->
  (exists c, In c fl /\ adjust_size size <= GET_SIZE s (HDRP c)) ->
  exists p s',
    mm_malloc fuel s size = Some (p, s')
    /\ In p fl
    /\ heap_inv (mm_free s' p) bs (p :: filter (fun x => negb (x =? p)) fl)
    /\ (forall d, In d bs ->
          GET_SIZE (mm_free s' p) (HDRP d) = GET_SIZE s (HDRP d)
          /\ GET_ALLOC (mm_free s' p) (HDRP d) = GET_ALLOC s (HDRP d))
    /\ keeps_allocated s (mm_free s' p) bs [heap_listp s]
    /\ mem_brk (mm_free s' p) = mem_brk s.
Proof.
  intros Hinv Hpos Hfit Hfuel (c & Hc & Hcs).
  destruct (adjust_size_in_range size Hpos Hfit) as (_ & _ & Ha & Hamin & _).
  unfold mm_malloc. rewrite (proj2 (Z.leb_gt size 0)) by lia.
  destruct (find_fit_inv s bs fl (adjust_size size) fuel Hinv Hfuel)
    as [(l1 & b & l2 & E & Hf & Hs & _)|[_ Hsmall]].
  - assert (Hb : In b fl).
    { rewrite E. apply in_or_app. right. left. reflexivity. }
    assert (Hbn : b <> NULL).
    { pose proof (sh_sub _ _ _ (proj1 Hinv) b Hb) as Hbb.
      destruct (chain_bounds s _ _ _ (sh_chain _ _ _ (proj1 Hinv)))
        as [_ Hbnd].
      destruct (Hbnd b Hbb). pose proof (sh_low _ _ _ (proj1 Hinv)).
      pose proof WSIZE_pos. pose proof DSIZE_eq. unfold NULL. lia. }
    rewrite Hf. apply Z.eqb_neq in Hbn. rewrite Hbn. simpl.
    exists b, (place s b (adjust_size size)). split; [reflexivity|].
    split; [assumption|].
    pose proof (place_then_free_inv s bs fl b _ Hinv Hb Ha Hamin Hs) as H.
    cbv zeta in H. tauto.
  - specialize (Hsmall c Hc). lia.
Qed.

(** X8.  A freed block is reused first.  After [mm_free] of an allocated
    block [p], a request that [p] could hold is served by the block that
    the free has put in front of the list: [p] itself when the block
    before it is allocated, and that block, merged with [p], when it is
    free. *)
Theorem free_then_malloc_reuses_block (s : heap) (bs fl : list Z)
    (p size : Z) (fuel : nat) :
  heap_inv s bs fl -> In p bs -> p <> heap_listp s ->
  GET_ALLOC s (HDRP p) = 1 ->
  0 < size -> size + DSIZE + (DSIZE - 1) < word_modulus ->
  adjust_size size <= GET_SIZE s (HDRP p) ->
  (S (length fl) < fuel)%nat ->
  let lo := if GET_ALLOC s (HDRP (PREV_BLKP s p)) =? 0
            then PREV_BLKP s p else p in
  exists s', mm_malloc fuel (mm_free s p) size = Some (lo, s').
Proof.
  pose proof WSIZE_pos as HW. pose proof DSIZE_eq as HD.
  intros Hinv Hp Hne Hal Hpos Hfit Hroom Hfuel lo.
  pose proof (sh_chain _ _ _ (proj1 Hinv)) as Hch.
  pose proof (mm_free_inv s bs fl p Hinv Hp Hne Hal) as F. cbv zeta in F.
  fold lo in F.
  set (hi := if GET_ALLOC s (HDRP (NEXT_BLKP s p)) =? 0
             then NEXT_BLKP s (NEXT_BLKP s p) else NEXT_BLKP s p) in *.
  destruct F as (F1 & F2 & F3 & _).
  set (s1 := mm_free s p) in *.
  (* the merged block is at least as large as [p] *)
  assert (Hlo : lo <= p).
  { unfold lo. destruct (GET_ALLOC s (HDRP (PREV_BLKP s p)) =? 0); [|lia].
    destruct (prev_block s _ _ _ Hch p Hp Hne) as (_ & Hq & _).
    pose proof (GET_SIZE_is_size s (HDRP (PREV_BLKP s p))) as [[? ?] _].
    lia. }
  assert (Hhi : p + GET_SIZE s (HDRP p) <= hi).
  { unfold hi. fold (p + GET_SIZE s (HDRP p)).
    change (NEXT_BLKP s p) with (p + GET_SIZE s (HDRP p)).
    destruct (GET_ALLOC s (HDRP (p + GET_SIZE s (HDRP p))) =? 0); [|lia].
    unfold NEXT_BLKP at 1.
    pose proof (GET_SIZE_is_size s (p + GET_SIZE s (HDRP p) - WSIZE))
      as [[? ?] _].
    lia. }
  assert (Hbig : adjust_size size <= GET_SIZE s1 (HDRP lo)) by lia.
  assert (Hlen : (length (lo :: unlisted lo hi fl) < fuel)%nat).
  { simpl. unfold unlisted.
    pose proof (filter_length_le (fun d => (d <? lo) || (hi <=? d)) fl).
    lia. }
  unfold mm_malloc. rewrite (proj2 (Z.leb_gt size 0)) by lia.
  destruct (find_fit_inv s1 _ _ (adjust_size size) fuel F1 Hlen)
    as [(l1 & b & l2 & E & Hf & _ & Hl)|[_ Hsmall]].
  - destruct l1 as [|c l1].
    + simpl in E. injection E as E _. subst b.
      assert (Hbn : lo <> NULL).
      { pose proof (sh_sub _ _ _ (proj1 F1) lo (or_introl eq_refl)) as Hbb.
        destruct (chain_bounds s1 _ _ _ (sh_chain _ _ _ (proj1 F1)))
          as [_ Hbnd].
        destruct (Hbnd lo Hbb). pose proof (sh_low _ _ _ (proj1 F1)).
        unfold NULL. lia. }
      rewrite Hf. apply Z.eqb_neq in Hbn. rewrite Hbn. simpl.
      eexists. reflexivity.
    + simpl in E. injection E as E _. subst c.
      specialize (Hl lo (or_introl eq_refl)). lia.
  - specialize (Hsmall lo (or_introl eq_refl)). lia.
Qed.

End AllocateThenFree.

Section Runs.
Context {abi : arch}.

(** The result of the search does not depend on the fuel, once there is
    enough of it. *)
Lemma find_fit_from_fuel (s : heap) (asize : Z) (f1 : nat) :
  forall (f2 : nat) (p r1 r2 : Z),
  find_fit_from f1 s asize p = Some r1 ->
  find_fit_from f2 s asize p = Some r2 -> r1 = r2.
Proof.
  induction f1 as [|f1 IH]; intros f2 p r1 r2 H1 H2; [discriminate|].
  destruct f2 as [|f2]; [discriminate|].
  simpl in H1, H2.
  destruct (GET_ALLOC s (HDRP p) =? 0); [|congruence].
  destruct (asize <=? GET_SIZE s (HDRP p)); [congruence|].
  apply (IH f2 _ _ _ H1 H2).
Qed.

Lemma mm_malloc_fuel (s : heap) (size : Z) (f1 f2 : nat)
    (r1 r2 : Z * heap) :
  mm_malloc f1 s size = Some r1 -> mm_malloc f2 s size = Some r2 -> r1 = r2.
Proof.
  unfold mm_malloc, find_fit.
  destruct (size <=? 0); [congruence|].
  destruct (find_fit_from f1 s (adjust_size size) (free_listp s)) as [b1|] eqn:E1;
    [|discriminate].
  destruct (find_fit_from f2 s (adjust_size size) (free_listp s)) as [b2|] eqn:E2;
    [|discriminate].
  rewrite (find_fit_from_fuel _ _ _ _ _ _ _ E1 E2). congruence.
Qed.

Lemma mm_realloc_fuel (s : heap) (bp size : Z) (f1 f2 : nat)
    (r1 r2 : Z * heap) :
  mm_realloc f1 s bp size = Some r1 -> mm_realloc f2 s bp size = Some r2 ->
  r1 = r2.
Proof.
  unfold mm_realloc.
  destruct (to_int size <? 0); [congruence|].
  destruct (to_int size =? 0); [congruence|].
  destruct (0 <? size); [|congruence].
  destruct (bp =? NULL); [apply mm_malloc_fuel|].
  destruct (adjust_size size <=? GET_SIZE s (HDRP bp)); [congruence|].
  destruct ((GET_ALLOC s (HDRP (NEXT_BLKP s bp)) =? 0) &&
            (adjust_size size <=?
             wrap (GET_SIZE s (HDRP bp)
                   + GET_SIZE s (HDRP (NEXT_BLKP s bp))))); [congruence|].
  destruct (mm_malloc f1 s size) as [[p1 s1]|] eqn:E1; [|discriminate].
  destruct (mm_malloc f2 s size) as [[p2 s2]|] eqn:E2; [|discriminate].
  pose proof (mm_malloc_fuel _ _ _ _ _ _ E1 E2) as E.
  injection E as -> ->. congruence.
Qed.

(** What a run keeps: the invariant, the alignment of the prologue, and
    the held blocks being distinct allocated blocks. *)
Lemma served_inv (s : heap) (live : list Z) :
  served s live ->
  exists bs fl,
    heap_inv s bs fl /\ heap_listp s mod DSIZE = 0 /\ NoDup live
    /\ forall p, In p live ->
         In p bs /\ p <> heap_listp s /\ GET_ALLOC s (HDRP p) = 1.
Proof.
  pose proof WSIZE_pos as HW. pose proof DSIZE_eq as HD.
  induction 1 as [s Hlo Hmax Hal Hok
                 |s live size fuel p s' Hrun IH Hpos Hfit Em
                 |s live p Hrun IH Hp
                 |s live p size fuel p' s' Hrun IH Hp Hrange Hint Er Hn
                 |s live p size fuel p' s' Hrun IH Hp Hz Er].
  - (* mm_init *)
    destruct (Z.lt_ge_cases (mem_max_addr s)
                (mem_brk s + 6 * WSIZE + CHUNKSIZE)) as [Hno|Hyes].
    { rewrite (mm_init_refused s Hlo Hmax Hno) in Hok.
      discriminate. }
    pose proof (mm_init_inv s Hlo Hmax Hyes) as H. cbv zeta in H.
    destruct H as (_ & H1 & H2 & _).
    eexists _, _. split; [exact H1|]. split.
    { rewrite H2. replace (mem_brk s + 2 * WSIZE) with (mem_brk s + 1 * DSIZE)
        by lia. rewrite Z_mod_plus_full. assumption. }
    split; [constructor|]. intros p [].
  - (* mm_malloc *)
    destruct IH as (bs & fl & Hinv & Hbase & Hnd & Hlive).
    destruct (mm_malloc_inv s bs fl size (S (length fl)) Hinv Hpos Hfit
                (Nat.lt_succ_diag_r _))
      as (p0 & s0 & E0 & H).
    pose proof (mm_malloc_fuel _ _ _ _ _ _ Em E0) as E.
    injection E as <- <-.
    destruct H as [(-> & -> & _)|(Hpn & bs' & fl' & H)].
    + rewrite Z.eqb_refl. exists bs, fl. auto.
    + apply Z.eqb_neq in Hpn as Hpn'. rewrite Hpn'.
      destruct H as (H1 & H2 & H3 & H4 & H5 & H6 & H7 & H8 & H9 & H10 & _).
      exists bs', fl'. split; [assumption|]. split; [congruence|].
      assert (Hfresh : ~ In p live).
      { intros Hin. destruct (Hlive p Hin) as (Hb & _ & Ha).
        rewrite (H5 Hb) in Ha. discriminate. }
      split; [constructor; assumption|].
      intros d [<-|Hd].
      * split; [assumption|]. split; [|assumption].
        rewrite H8. intros ->.
        pose proof (sh_prologue _ _ _ (proj1 Hinv)) as A.
        rewrite H5 in A by apply (sh_prologue_in _ _ _ (proj1 Hinv)).
        discriminate.
      * destruct (Hlive d Hd) as (Hb & Hne & Ha).
        split; [apply H6; assumption|]. split; [congruence|].
        rewrite <- Ha. apply GET_ALLOC_ext.
        apply (H7 d Hb); [intros [E|[]]; congruence|assumption|].
        destruct (chain_facts s _ _ _ (sh_chain _ _ _ (proj1 Hinv)) d Hb)
          as (? & _).
        unfold block_word, NEXT_BLKP, HDRP in *. lia.
  - (* mm_free *)
    destruct IH as (bs & fl & Hinv & Hbase & Hnd & Hlive).
    destruct (Hlive p Hp) as (Hb & Hne & Ha).
    pose proof (mm_free_inv s bs fl p Hinv Hb Hne Ha) as H. cbv zeta in H.
    destruct H as (H1 & _ & _ & H4 & H5 & _ & _ & H8 & _).
    eexists _, _. split; [exact H1|]. split; [congruence|].
    split; [apply NoDup_filter; assumption|].
    intros d Hd. apply In_filter_neq in Hd. destruct Hd as [Hd Hdp].
    destruct (Hlive d Hd) as (Hdb & Hdn & Hda).
    split; [apply H4; assumption|]. split; [congruence|].
    rewrite <- Hda. apply GET_ALLOC_ext.
    apply (H5 d Hdb); [intros [E|[E|[]]]; congruence|assumption|].
    destruct (chain_facts s _ _ _ (sh_chain _ _ _ (proj1 Hinv)) d Hdb)
      as (? & _).
    unfold block_word, NEXT_BLKP, HDRP in *. lia.
  - (* mm_realloc *)
    destruct IH as (bs & fl & Hinv & Hbase & Hnd & Hlive).
    destruct (Hlive p Hp) as (Hb & Hne & Ha).
    destruct (mm_realloc_inv s bs fl p size (S (length fl)) Hinv Hb Hne Ha
                Hrange Hint (Nat.lt_succ_diag_r _))
      as (p0 & s0 & E0 & H).
    pose proof (mm_realloc_fuel _ _ _ _ _ _ _ Er E0) as E.
    injection E as <- <-.
    destruct (H Hn) as (bs' & fl' & H1 & H2 & H3 & _ & _ & H6 & H7 & H8 & H9 & _).
    exists bs', fl'. split; [assumption|]. split; [congruence|].
    assert (Hfresh : ~ In p' (filter (fun d => negb (d =? p)) live)).
    { intros Hin. apply In_filter_neq in Hin. destruct Hin as [Hin Hpp].
      destruct (Hlive p' Hin) as (Hb' & _ & Ha').
      destruct (H8 Hb') as [E|E]; [contradiction|]. rewrite E in Ha'.
      discriminate. }
    split; [constructor; [assumption|apply NoDup_filter; assumption]|].
    intros d [<-|Hd].
    + split; [assumption|]. split; [|assumption].
      rewrite H9. intros ->.
      destruct (H8 (sh_prologue_in _ _ _ (proj1 Hinv))) as [E|E];
        [congruence|].
      pose proof (sh_prologue _ _ _ (proj1 Hinv)) as A. rewrite E in A.
      discriminate.
    + apply In_filter_neq in Hd. destruct Hd as [Hd Hdp].
      destruct (Hlive d Hd) as (Hdb & Hdn & Hda).
      split; [apply H6; assumption|]. split; [congruence|].
      rewrite <- Hda. apply GET_ALLOC_ext.
      apply (H7 d Hdb); [intros [E|[E|[]]]; congruence|assumption|].
      destruct (chain_facts s _ _ _ (sh_chain _ _ _ (proj1 Hinv)) d Hdb)
        as (? & _).
      unfold block_word, NEXT_BLKP, HDRP in *. lia.
  - (* mm_realloc with a size of zero: the block is freed *)
    assert (E : s' = mm_free s p).
    { unfold mm_realloc in Er. rewrite Hz in Er. simpl in Er.
      injection Er as _ <-. reflexivity. }
    subst s'.
    destruct IH as (bs & fl & Hinv & Hbase & Hnd & Hlive).
    destruct (Hlive p Hp) as (Hb & Hne & Ha).
    pose proof (mm_free_inv s bs fl p Hinv Hb Hne Ha) as H. cbv zeta in H.
    destruct H as (H1 & _ & _ & H4 & H5 & _ & _ & H8 & _).
    eexists _, _. split; [exact H1|]. split; [congruence|].
    split; [apply NoDup_filter; assumption|].
    intros d Hd. apply In_filter_neq in Hd. destruct Hd as [Hd Hdp].
    destruct (Hlive d Hd) as (Hdb & Hdn & Hda).
    split; [apply H4; assumption|]. split; [congruence|].
    rewrite <- Hda. apply GET_ALLOC_ext.
    apply (H5 d Hdb); [intros [E|[E|[]]]; congruence|assumption|].
    destruct (chain_facts s _ _ _ (sh_chain _ _ _ (proj1 Hinv)) d Hdb)
      as (? & _).
    unfold block_word, NEXT_BLKP, HDRP in *. lia.
Qed.

(** X10.  Every heap that a run of the interface reaches is well formed:
    the invariant holds for some blocks [bs] and free list [fl]; the
    blocks the caller holds are distinct allocated blocks, none of them
    the prologue, at addresses that are multiples of [DSIZE]; and two of
    them never overlap, the whole block of one, header to footer, lying
    before the other. *)
Theorem served_heap_well_formed (s : heap) (live : list Z) :
  served s live ->
  exists bs fl,
    heap_inv s bs fl
    /\ NoDup live
    /\ (forall p, In p live ->
          In p bs /\ p <> heap_listp s /\ GET_ALLOC s (HDRP p) = 1
          /\ p mod DSIZE = 0)
    /\ (forall p q, In p live -> In q live -> p <> q ->
          p + GET_SIZE s (HDRP p) <= q \/ q + GET_SIZE s (HDRP q) <= p).
Proof.
  intros Hrun.
  destruct (served_inv s live Hrun) as (bs & fl & Hinv & Hbase & Hnd & Hlive).
  exists bs, fl. split; [assumption|]. split; [assumption|]. split.
  - intros p Hp. destruct (Hlive p Hp) as (Hb & Hne & Ha).
    split; [assumption|]. split; [assumption|]. split; [assumption|].
    apply (blocks_aligned s bs fl p (proj1 Hinv) Hbase Hb).
  - intros p q Hp Hq Hpq.
    destruct (Hlive p Hp) as (Hpb & _). destruct (Hlive q Hq) as (Hqb & _).
    pose proof (sh_chain _ _ _ (proj1 Hinv)) as Hch.
    destruct (Z.lt_ge_cases p q) as [Hlt|Hge].
    + left. apply (chain_order s _ _ _ Hch p q Hpb Hqb Hlt).
    + right. apply (chain_order s _ _ _ Hch q p Hqb Hpb). lia.
Qed.

End Runs.

(** ** The cases of coalesce and of place on a well-formed heap *)

Section PendingBlock.
Context {abi : arch}.
Variables (st : heap) (bs fl : list Z) (p : Z).
Hypothesis Hsh : heap_shape st bs fl.
Hypothesis Hp : In p bs.
Hypothesis Hpf : GET_ALLOC st (HDRP p) = 0.
Hypothesis Hpn : ~ In p fl.
Hypothesis Hag : forall b, In b bs -> b <> p ->
  (GET_ALLOC st (HDRP b) = 0 <-> In b fl).

(** The two neighbours of a block that waits for [coalesce], and the
    blocks and list entries that each of the four merges leaves. *)
Lemma pending_neighbours :
  let q := PREV_BLKP st p in
  let n := NEXT_BLKP st p in
  (In q bs /\ q <> p /\ 0 < q /\ q + GET_SIZE st (HDRP q) = p
   /\ FTRP st q = p - DSIZE
   /\ GET_ALLOC st (FTRP st q) = GET_ALLOC st (HDRP q)
   /\ n + GET_SIZE st (HDRP n) <= word_modulus
   /\ 0 <= GET_SIZE st (HDRP n))
  /\ (merged p n bs = bs /\ unlisted p n fl = fl)
  /\ (merged q n bs = filter (fun d => negb (d =? p)) bs
      /\ unlisted q n fl = filter (fun d => negb (d =? q)) fl)
  /\ (GET_ALLOC st (HDRP n) = 0 ->
      In n fl /\ n <> q
      /\ merged p (NEXT_BLKP st n) bs = filter (fun d => negb (d =? n)) bs
      /\ unlisted p (NEXT_BLKP st n) fl
         = filter (fun d => negb (d =? n)) fl
      /\ merged q (NEXT_BLKP st n) bs
         = filter (fun d => negb (d =? n))
             (filter (fun d => negb (d =? p)) bs)
      /\ unlisted q (NEXT_BLKP st n) fl
         = filter (fun d => negb (d =? n))
             (filter (fun d => negb (d =? q)) fl)).
Proof.
  pose proof WSIZE_pos as HW. pose proof DSIZE_eq as HD.
  intros q n.
  pose proof (sh_chain _ _ _ Hsh) as Hch.
  destruct (shape_positive _ _ _ Hsh) as [Hpos Hhigh].
  assert (Hphl : p <> heap_listp st).
  { intros E. pose proof (sh_prologue _ _ _ Hsh) as H. rewrite <- E in H.
    congruence. }
  destruct (prev_block st _ _ _ Hch p Hp Hphl) as (Hq & Eq & Efq & Egq).
  fold q in Hq, Eq, Efq, Egq.
  pose proof (next_block st _ _ _ Hch p Hp) as Hn. fold n in Hn.
  destruct (chain_facts st _ _ _ Hch p Hp) as (Hmin & _ & _).
  destruct (chain_facts st _ _ _ Hch q Hq) as (Hqmin & _ & _).
  destruct (chain_bounds st _ _ _ Hch) as [_ Hbnd].
  destruct (Hbnd q Hq) as [Hqlo _]. destruct (Hbnd p Hp) as [_ Hphi].
  assert (En : n = p + GET_SIZE st (HDRP p)) by reflexivity.
  assert (Hout : forall d, In d bs ->
            (d < q \/ d = q \/ d = p \/ n <= d)
            /\ (In n bs -> d < n \/ d = n \/ NEXT_BLKP st n <= d)).
  { intros d Hd.
    pose proof (block_outside st _ _ _ Hch q d Hq Hd) as O1.
    pose proof (block_outside st _ _ _ Hch p d Hp Hd) as O2.
    unfold NEXT_BLKP in O1, O2. fold (HDRP q) (HDRP p) in O1, O2.
    split; [lia|]. intros Hnb.
    pose proof (block_outside st _ _ _ Hch n d Hnb Hd). lia. }
  assert (Hlisted : forall d, In d fl -> In d bs /\ d <> p).
  { intros d Hd. split; [apply (sh_sub _ _ _ Hsh); assumption|].
    intros ->. contradiction. }
  assert (Hnsz : n + GET_SIZE st (HDRP n) <= word_modulus
                 /\ 0 <= GET_SIZE st (HDRP n)).
  { destruct Hn as [[Hnb Hfit]|(E & _ & Z0)].
    - destruct (chain_facts st _ _ _ Hch n Hnb) as (? & _). lia.
    - rewrite Z0. lia. }
  split.
  { split; [assumption|]. split; [lia|]. split; [lia|].
    split; [assumption|]. split; [assumption|].
    split; [rewrite Efq; apply GET_ALLOC_of_GET; assumption|].
    exact Hnsz. }
  split.
  { split; unfold merged, unlisted;
      apply forallb_filter_id, forallb_forall; intros d Hd.
    - destruct (Hout d Hd) as [O _]. compare_all.
    - destruct (Hlisted d Hd) as [Hdb Hdp].
      destruct (Hout d Hdb) as [O _]. compare_all. }
  split.
  { split; unfold merged, unlisted; apply filter_ext_in; intros d Hd.
    - destruct (Hout d Hd) as [O _]. compare_all.
    - destruct (Hlisted d Hd) as [Hdb Hdp].
      destruct (Hout d Hdb) as [O _]. compare_all. }
  intros An.
  assert (Hnb : In n bs).
  { destruct Hn as [[? _]|(_ & A & _)]; [assumption|congruence]. }
  destruct (chain_facts st _ _ _ Hch n Hnb) as (Hnmin & _ & _).
  assert (Enn : NEXT_BLKP st n = n + GET_SIZE st (HDRP n)) by reflexivity.
  assert (Hnp : n <> p) by lia.
  split; [apply (Hag n Hnb Hnp); assumption|].
  split; [lia|].
  split; [|split; [|split]]; unfold merged, unlisted.
  - apply filter_ext_in. intros d Hd.
    destruct (Hout d Hd) as [O O']. specialize (O' Hnb). compare_all.
  - apply filter_ext_in. intros d Hd.
    destruct (Hlisted d Hd) as [Hdb Hdp].
    destruct (Hout d Hdb) as [O O']. specialize (O' Hnb). compare_all.
  - symmetry. apply filter_both. intros d Hd.
    destruct (Hout d Hd) as [O O']. specialize (O' Hnb). compare_all.
  - symmetry. apply filter_both. intros d Hd.
    destruct (Hlisted d Hd) as [Hdb Hdp].
    destruct (Hout d Hdb) as [O O']. specialize (O' Hnb). compare_all.
Qed.

End PendingBlock.

Section MergeCases.
Context {abi : arch}.

(** C1.  [coalesce p], for a block [p] that is marked free and not yet
    on the free list, in a heap that is otherwise well formed (the state
    in which [mm_free], [place] and [extend_heap] call it), decides on
    the allocation bits in the header of the forward neighbour [next]
    and in the footer of the backward neighbour [prev].
    - Both allocated: [p] is inserted and returned; the blocks are as
      before and the free list is [p] in front of the former entries.
    - Only [next] free: [next] is removed, then the header and after it
      the footer of [p] are written with the sum of the two sizes, [p] is
      inserted and returned.  [next] was on the list; after the removal,
      before any size is written, the list is the former list without
      [next]; in the end [next] is no block any more, [p] has the sum as
      its size, and the list is [p] in front of the former entries
      without [next].
    - Only [prev] free: [prev] is removed, then its header and after it
      its footer are written with the sum, [prev] is inserted and
      returned; [p] is no block any more, and the list is [prev] in front
      of the former entries without [prev].
    - Both free: [prev] and [next] are removed, then header and footer
      of [prev] are written with the sum of the three sizes, [prev] is
      inserted and returned; [p] and [next] are no blocks any more, and
      the list is [prev] in front of the former entries without [prev]
      and [next].
    In every case the heap that [coalesce] leaves satisfies the
    invariant with these blocks and this list, so the returned block is
    [free_listp], its [prev_link] is null and its [next_link] is the
    head that the removals have left. *)
Theorem coalesce_four_cases (st : heap) (bs fl : list Z) (p : Z) :
  heap_shape st bs fl -> In p bs -> GET_ALLOC st (HDRP p) = 0 -> ~ In p fl ->
  (forall b, In b bs -> b <> p -> (GET_ALLOC st (HDRP b) = 0 <-> In b fl)) ->
  (forall b, In b bs -> b <> p -> GET_ALLOC st (HDRP b) = 0 ->
     NEXT_BLKP st b = p \/ GET_ALLOC st (HDRP (NEXT_BLKP st b)) = 1) ->
  let next := NEXT_BLKP st p in
  let prev := PREV_BLKP st p in
  let size := GET_SIZE st (HDRP p) in
  let nsize := GET_SIZE st (HDRP next) in
  let psize := GET_SIZE st (HDRP prev) in
  let next_alloc := GET_ALLOC st (HDRP next) in
  let prev_alloc := GET_ALLOC st (FTRP st prev) in
  let r := coalesce st p in
  (prev_alloc <> 0 -> next_alloc <> 0 ->
     r = (p, insert_in_free_list st p)
     /\ heap_inv (snd r) bs (p :: fl)
     /\ GET_SIZE (snd r) (HDRP p) = size)
  /\ (prev_alloc <> 0 -> next_alloc = 0 ->
      let total := size + nsize in
      let s1 := remove_from_free_list st next in
      let s2 := PUT s1 (HDRP p) (PACK total 0) in
      let s3 := PUT s2 (p + total - DSIZE) (PACK total 0) in
      r = (p, insert_in_free_list s3 p)
      /\ In next fl
      /\ linked s1 (filter (fun d => negb (d =? next)) fl)
      /\ heap_inv (snd r) (filter (fun d => negb (d =? next)) bs)
           (p :: filter (fun d => negb (d =? next)) fl)
      /\ GET_SIZE (snd r) (HDRP p) = total)
  /\ (prev_alloc = 0 -> next_alloc <> 0 ->
      let total := size + psize in
      let s1 := remove_from_free_list st prev in
      let s2 := PUT s1 (HDRP prev) (PACK total 0) in
      let s3 := PUT s2 (prev + total - DSIZE) (PACK total 0) in
      r = (prev, insert_in_free_list s3 prev)
      /\ In prev fl
      /\ linked s1 (filter (fun d => negb (d =? prev)) fl)
      /\ heap_inv (snd r) (filter (fun d => negb (d =? p)) bs)
           (prev :: filter (fun d => negb (d =? prev)) fl)
      /\ GET_SIZE (snd r) (HDRP prev) = total)
  /\ (prev_alloc = 0 -> next_alloc = 0 ->
      let total := size + (psize + nsize) in
      let s1 := remove_from_free_list st prev in
      let s2 := remove_from_free_list s1 next in
      let s3 := PUT s2 (HDRP prev) (PACK total 0) in
      let s4 := PUT s3 (prev + total - DSIZE) (PACK total 0) in
      r = (prev, insert_in_free_list s4 prev)
      /\ In prev fl /\ In next fl
      /\ linked s2
           (filter (fun d => negb (d =? next))
              (filter (fun d => negb (d =? prev)) fl))
      /\ heap_inv (snd r)
           (filter (fun d => negb (d =? next))
              (filter (fun d => negb (d =? p)) bs))
           (prev :: filter (fun d => negb (d =? next))
                      (filter (fun d => negb (d =? prev)) fl))
      /\ GET_SIZE (snd r) (HDRP prev) = total)
  /\ free_listp (snd r) = fst r
  /\ GET_PREV_PTR (snd r) (fst r) = NULL.
Proof.
  pose proof WSIZE_pos as HW. pose proof DSIZE_eq as HD.
  intros Hsh Hp Hpf Hpn Hag Hco next prev size nsize psize next_alloc
    prev_alloc r.
  pose proof (sh_chain _ _ _ Hsh) as Hch.
  destruct (shape_positive _ _ _ Hsh) as [Hpos Hhigh].
  destruct (chain_bounds st _ _ _ Hch) as [_ Hbnd].
  destruct (chain_facts st _ _ _ Hch p Hp) as (Hmin & _ & _).
  destruct (pending_neighbours st bs fl p Hsh Hp Hpf Hpn Hag)
    as ((Hq & Hqp & Hq0 & Eq & Efq & Eal & Hnfit & Hn0) & (M1 & U1)
        & (M3 & U3) & Both).
  fold prev next in Hq, Hqp, Hq0, Eq, Efq, Eal, Hnfit, Hn0, M1, U1, M3, U3,
    Both.
  fold psize nsize in Eq, Hnfit, Hn0. fold prev_alloc in Eal.
  destruct (chain_facts st _ _ _ Hch prev Hq) as (Hqmin & _ & _).
  fold psize in Hqmin. fold size in Hmin.
  assert (En : next = p + size) by reflexivity.
  destruct (coalesce_pending_inv st bs fl p Hsh Hp Hpf Hpn Hag Hco)
    as (I1 & I2 & I3 & _).
  cbv zeta in I1, I2, I3. fold prev next r in I1, I2, I3.
  rewrite <- Eal in I1, I2, I3. fold next_alloc in I1, I2, I3.
  pose proof (coalesce_store_order st p) as O. cbv zeta in O.
  fold next prev size nsize psize next_alloc prev_alloc r in O.
  destruct O as (O1 & O2 & O3 & O4 & O5 & O6).
  assert (Hprevf : prev_alloc = 0 -> In prev fl).
  { intros A. apply (Hag prev Hq Hqp). rewrite <- Eal. exact A. }
  split; [|split; [|split; [|split; [|split; assumption]]]].
  - (* both neighbours allocated *)
    intros Ap An. split; [apply O1; assumption|].
    apply Z.eqb_neq in Ap, An. rewrite Ap, An in I2, I3.
    rewrite M1, U1 in I2. split; [assumption|]. rewrite I3. lia.
  - (* only the next block is free *)
    intros Ap An total s1 s2 s3.
    destruct (Both An) as (Hnf & Hnq & M2 & U2 & _).
    assert (Ew : wrap (size + nsize) = total)
      by (apply wrap_small; unfold total; lia).
    specialize (O2 Ap An). rewrite Ew in O2. fold s1 s2 s3 in O2.
    split; [exact O2|]. split; [assumption|].
    destruct (unlink_shape st bs fl next Hsh Hnf) as (Sh1 & _).
    split; [apply (sh_linked _ _ _ Sh1)|].
    apply Z.eqb_neq in Ap. rewrite Ap in I2, I3.
    rewrite (proj2 (Z.eqb_eq _ _) An) in I2, I3.
    rewrite M2, U2 in I2. split; [assumption|].
    rewrite I3. unfold total, NEXT_BLKP. fold (HDRP next) nsize. lia.
  - (* only the previous block is free *)
    intros Ap An total s1 s2 s3.
    assert (Ew : wrap (size + psize) = total)
      by (apply wrap_small; unfold total; lia).
    specialize (O3 Ap An). rewrite Ew in O3. fold s1 s2 s3 in O3.
    split; [exact O3|]. split; [auto|].
    destruct (unlink_shape st bs fl prev Hsh (Hprevf Ap)) as (Sh1 & _).
    split; [apply (sh_linked _ _ _ Sh1)|].
    apply Z.eqb_neq in An. rewrite An in I2, I3.
    rewrite (proj2 (Z.eqb_eq _ _) Ap) in I2, I3.
    rewrite M3, U3 in I2. split; [assumption|].
    rewrite I3. unfold total. lia.
  - (* both neighbours free *)
    intros Ap An total s1 s2 s3 s4.
    destruct (Both An) as (Hnf & Hnq & _ & _ & M4 & U4).
    assert (Ew : wrap (size + wrap (psize + nsize)) = total).
    { rewrite (wrap_small (psize + nsize)) by lia.
      apply wrap_small. unfold total. lia. }
    destruct (unlink_shape st bs fl prev Hsh (Hprevf Ap)) as (Sh1 & G1 & _).
    fold s1 in Sh1, G1.
    assert (Hnf1 : In next (filter (fun c => negb (c =? prev)) fl)).
    { apply filter_In. split; [assumption|]. compare_all. }
    destruct (unlink_shape s1 bs _ next Sh1 Hnf1) as (Sh2 & G2 & _).
    fold s2 in Sh2, G2.
    destruct (tag_not_link st _ _ _ p Hch Hp) as [T1 _].
    destruct (tag_not_link st _ _ _ prev Hch Hq) as [_ T2].
    rewrite Efq in T2.
    specialize (O4 Ap An). rewrite Ew in O4. fold s1 s2 in O4.
    specialize (O4 (G1 _ T1)).
    assert (Hftr : GET s2 (p - DSIZE) = GET st (p - DSIZE))
      by (rewrite (G2 _ T2); apply (G1 _ T2)).
    specialize (O4 Hftr). fold s3 s4 in O4.
    split; [exact O4|]. split; [auto|]. split; [assumption|].
    split; [apply (sh_linked _ _ _ Sh2)|].
    rewrite (proj2 (Z.eqb_eq _ _) An) in I2, I3.
    rewrite (proj2 (Z.eqb_eq _ _) Ap) in I2, I3.
    rewrite M4, U4 in I2. split; [assumption|].
    rewrite I3. unfold total, NEXT_BLKP. fold (HDRP next) nsize. lia.
Qed.

End MergeCases.

Section PlaceCases.
Context {abi : arch}.

(** The links of a listed block name other entries of the list. *)
Lemma links_of_listed_other (s : heap) (fl : list Z) (b : Z) :
  linked s fl -> NoDup (fl ++ [heap_listp s]) -> In b fl ->
  (GET_PREV_PTR s b = NULL
   \/ (In (GET_PREV_PTR s b) fl /\ GET_PREV_PTR s b <> b))
  /\ In (GET_NEXT_PTR s b) (fl ++ [heap_listp s])
  /\ GET_NEXT_PTR s b <> b.
Proof.
  intros [Hn Hp] Hnd Hb. destruct (in_split _ _ Hb) as (l1 & l2 & ->).
  assert (Hb1 : ~ In b l1 /\ ~ In b (l2 ++ [heap_listp s])).
  { rewrite <- app_assoc in Hnd. simpl in Hnd.
    apply NoDup_remove_2 in Hnd.
    split; intros H; apply Hnd; apply in_or_app; [left|right]; assumption. }
  destruct Hb1 as [Hb1 Hb2].
  split.
  - rewrite <- app_assoc in Hp. apply prev_links_app in Hp.
    destruct Hp as [_ Hp]. simpl in Hp. destruct Hp as [E _].
    destruct (list_end l1) as [->|(l' & a & ->)]; [left; exact E|].
    right. rewrite last_last in E. rewrite E. split.
    + apply in_or_app. left. apply in_or_app. right. left. reflexivity.
    + intros ->. apply Hb1. apply in_or_app. right. left. reflexivity.
  - apply next_links_app in Hn. destruct Hn as (m & _ & Hn).
    simpl in Hn. destruct Hn as [_ Hn].
    apply next_links_target in Hn.
    assert (Hin : In (GET_NEXT_PTR s b) (l2 ++ [heap_listp s])).
    { rewrite Hn. destruct l2; simpl; auto. }
    split.
    + rewrite <- app_assoc. apply in_or_app. right. right. assumption.
    + intros E. apply Hb2. rewrite <- E. assumption.
Qed.

(** C2.  [place b a] for a block [b] on the free list of a well-formed
    heap, with size [c] in its header, and an adjusted size [a] (a
    multiple of [DSIZE], at least [2 * DSIZE]) with [a <= c].
    - If [c - a < 4 * WSIZE], header and footer of [b] are written with
      size [c] marked allocated and then [b] is removed from the free
      list.  The heap is well formed with the blocks it had, no block is
      made, and the free list is the former list without [b]; [b] is an
      allocated block of size [c].
    - If [c - a >= 4 * WSIZE], header and footer of [b] are written with
      size [a] marked allocated, then [b] is removed from the free list,
      then header and footer of the remainder at [b + a] are written
      with size [c - a] marked free, and the remainder goes through
      [coalesce], which returns it.  The heap is well formed with the
      remainder as a block of its own behind [b], and the free list is
      the remainder in front of the former list without [b]; [b] is an
      allocated block of size [a] and the remainder a free block of size
      [c - a]. *)
Theorem place_split_or_consume (s : heap) (bs fl : list Z) (b a : Z) :
  heap_inv s bs fl -> In b fl -> 2 * DSIZE <= a -> a mod DSIZE = 0 ->
  let c := GET_SIZE s (HDRP b) in
  a <= c ->
  let rest := filter (fun d => negb (d =? b)) fl in
  (c - a < 4 * WSIZE ->
     let s1 := PUT s (HDRP b) (PACK c 1) in
     let s2 := PUT s1 (b + c - DSIZE) (PACK c 1) in
     place s b a = remove_from_free_list s2 b
     /\ heap_inv (place s b a) bs rest
     /\ GET_SIZE (place s b a) (HDRP b) = c
     /\ GET_ALLOC (place s b a) (HDRP b) = 1)
  /\ (4 * WSIZE <= c - a ->
      let s1 := PUT s (HDRP b) (PACK a 1) in
      let s2 := PUT s1 (b + a - DSIZE) (PACK a 1) in
      let s3 := remove_from_free_list s2 b in
      let s4 := PUT s3 (HDRP (b + a)) (PACK (c - a) 0) in
      let s5 := PUT s4 (b + c - DSIZE) (PACK (c - a) 0) in
      place s b a = snd (coalesce s5 (b + a))
      /\ fst (coalesce s5 (b + a)) = b + a
      /\ heap_inv (place s b a) (split_at b (b + a) bs) ((b + a) :: rest)
      /\ GET_SIZE (place s b a) (HDRP b) = a
      /\ GET_ALLOC (place s b a) (HDRP b) = 1
      /\ GET_SIZE (place s b a) (HDRP (b + a)) = c - a
      /\ GET_ALLOC (place s b a) (HDRP (b + a)) = 0
      /\ free_listp (place s b a) = b + a).
Proof.
  pose proof WSIZE_pos as HW. pose proof DSIZE_eq as HD.
  intros Hinv Hb Hamin Hmod c Hac rest.
  pose proof Hinv as [Hsh _].
  pose proof (sh_chain _ _ _ Hsh) as Hch.
  pose proof (sh_sub _ _ _ Hsh b Hb) as Hbb.
  pose proof (GET_SIZE_is_size s (HDRP b)) as Hcs. fold c in Hcs.
  assert (Ha : is_size a) by (destruct Hcs; split; [lia|assumption]).
  destruct (place_inv s bs fl b a Hinv Hb Ha Hamin Hac)
    as (bs' & fl' & I1 & I2 & I3 & _ & _ & _ & _ & _ & _ & How).
  fold c in How.
  pose proof (place_store_order s b a) as O. cbv zeta in O. fold c in O.
  destruct (O (conj (ltac:(lia) : 0 <= a) Hac)) as [Ocons Osplit].
  split.
  - intros Hsmall s1 s2.
    destruct How as [(-> & -> & Es & _)|(_ & _ & _ & _ & Hbig)]; [|lia].
    split; [apply Ocons; assumption|]. split; [exact I1|].
    split; assumption.
  - intros Hbig s1 s2 s3 s4 s5.
    destruct How as [(_ & _ & _ & Hsmall)|(-> & -> & Es & Er & _)]; [lia|].
    destruct (links_of_listed_other s fl b (sh_linked _ _ _ Hsh)
                (sh_nodup _ _ _ Hsh) Hb) as (Lp & Ln & Lnb).
    assert (Hout : forall d, In d bs -> d <> b ->
              outside_block s b d /\ outside_block s b (d + WSIZE)).
    { intros d Hd Hne.
      pose proof (block_outside s _ _ _ Hch b d Hbb Hd) as O1.
      pose proof (block_outside s _ _ _ Hch d b Hd Hbb) as O2.
      destruct (chain_facts s _ _ _ Hch d Hd) as (Hdmin & _).
      unfold NEXT_BLKP in O1, O2. fold (HDRP b) (HDRP d) in O1, O2.
      unfold outside_block, NEXT_BLKP. fold (HDRP b). fold c in O1 |- *.
      generalize dependent (GET_SIZE s (HDRP d)). intros y O2 Hdmin.
      clearbody c. unfold HDRP. lia. }
    assert (H1 : GET_PREV_PTR s b = NULL
                 \/ outside_block s b (GET_PREV_PTR s b + WSIZE)).
    { destruct Lp as [E|[Hin Hne]]; [left; assumption|right].
      apply Hout; [apply (sh_sub _ _ _ Hsh)|]; assumption. }
    assert (H2 : outside_block s b (GET_NEXT_PTR s b)).
    { apply Hout; [|assumption].
      apply (shape_listed s bs fl _ Hsh). assumption. }
    destruct (Osplit Hbig Hamin Hmod H1 H2) as (E1 & E2 & E3).
    fold s1 s2 s3 s4 s5 in E1, E2.
    split; [exact E1|]. split; [exact E2|]. split; [exact I1|].
    split; [assumption|]. split; [assumption|]. split; [assumption|].
    split; [|assumption].
    destruct I1 as [Hsh' [Hag' _]]. apply Hag'.
    + apply (sh_sub _ _ _ Hsh'). left. reflexivity.
    + left. reflexivity.
Qed.

End PlaceCases.

Section BetweenCalls.
Context {abi : arch}.


End BetweenCalls.

(** ** The invariant on the concrete heaps *)

Lemma lp64_holes_shape :
  heap_shape (abi := LP64) lp64_holes
    [65552; 65584; 65616; 65648; 65680; 65712] [65648; 65584; 65712].
Proof. concrete_shape. Qed.

Lemma lp64_holes_inv :
  heap_inv (abi := LP64) lp64_holes
    [65552; 65584; 65616; 65648; 65680; 65712] [65648; 65584; 65712].
Proof.
  split; [apply lp64_holes_shape|]. split.
  - intros b Hb.
    each_block Hb ltac:(split; intros H; vm_compute in H |- *;
                        first [discriminate H | lia | concrete_in]).
  - intros b Hb H.
    each_block Hb ltac:(first [vm_compute in H; discriminate H
                              | vm_compute; reflexivity]).
Qed.

Lemma lp64_holes_marked_shape :
  heap_shape (abi := LP64) lp64_holes_marked
    [65552; 65584; 65616; 65648; 65680; 65712] [65648; 65584; 65712].
Proof. concrete_shape. Qed.

Lemma lp64_tight_inv :
  heap_inv (abi := LP64) lp64_tight [65552; 65584; 65616] [65616].
Proof.
  split; [concrete_shape|]. split.
  - intros b Hb.
    each_block Hb ltac:(split; intros H; vm_compute in H |- *;
                        first [discriminate H | lia | concrete_in]).
  - intros b Hb H.
    each_block Hb ltac:(first [vm_compute in H; discriminate H
                              | vm_compute; reflexivity]).
Qed.

(** The run that leads to [lp64_two]: [mm_init] and two calls of
    [mm_malloc(16)]; the caller holds 65584 and 65616. *)
Lemma lp64_two_served : served (abi := LP64) lp64_two [65616; 65584].
Proof.
  assert (H0 : served (abi := LP64) lp64_init []).
  { apply (served_init (abi := LP64) (fresh 65536 (65536 + 1048576))).
    - vm_compute. discriminate.
    - vm_compute. discriminate.
    - vm_compute. reflexivity.
    - vm_compute. reflexivity. }
  assert (E1 : mm_malloc (abi := LP64) 64 lp64_init 16
               = Some (65584, snd (malloc64 lp64_init 16)))
    by (vm_compute; reflexivity).
  assert (H1 : served (abi := LP64) (snd (malloc64 lp64_init 16)) [65584]).
  { refine (served_malloc (abi := LP64) _ _ 16 64 _ _ H0 _ _ E1).
    - reflexivity.
    - vm_compute. reflexivity. }
  assert (E2 : mm_malloc (abi := LP64) 64 (snd (malloc64 lp64_init 16)) 16
               = Some (65616, lp64_two))
    by (vm_compute; reflexivity).
  refine (served_malloc (abi := LP64) _ _ 16 64 _ _ H1 _ _ E2).
  - reflexivity.
  - vm_compute. reflexivity.
Qed.

(** ** The properties on concrete heaps *)

(** A header of 32 bytes, allocated, written over the free block of
    [lp64_init]. *)
Lemma boundary_tag_round_trip_witness :
  GET_SIZE (abi := LP64) (PUT lp64_init 65576 (PACK 32 1)) 65576
  = 32
  /\ GET_ALLOC (abi := LP64) (PUT lp64_init 65576 (PACK 32 1))
       65576 = 1.
Proof.
  destruct (boundary_tag_round_trip (abi := LP64) lp64_init 65576 32 1)
    as (H1 & H2 & _).
  - split; [split; vm_compute; [discriminate|reflexivity]
           |vm_compute; reflexivity].
  - right. reflexivity.
  - split; assumption.
Defined.

(** On [lp64_holes_marked] the block at 65616 is not listed; inserted,
    it is the head of the list. *)
Lemma insert_in_free_list_pushes_front_witness :
  heap_shape (abi := LP64)
    (insert_in_free_list (abi := LP64) lp64_holes_marked 65616)
    [65552; 65584; 65616; 65648; 65680; 65712]
    [65616; 65648; 65584; 65712]
  /\ free_listp (insert_in_free_list (abi := LP64) lp64_holes_marked 65616)
     = 65616.
Proof.
  destruct (insert_in_free_list_pushes_front (abi := LP64) lp64_holes_marked
              _ _ 65616 lp64_holes_marked_shape) as (H1 & H2 & _).
  - concrete_in.
  - vm_compute. lia.
  - vm_compute. discriminate.
  - split; assumption.
Defined.

(** Removing the second entry, 65584, of the free list of
    [lp64_holes]. *)
Lemma remove_from_free_list_unlinks_witness :
  heap_shape (abi := LP64)
    (remove_from_free_list (abi := LP64) lp64_holes 65584)
    [65552; 65584; 65616; 65648; 65680; 65712] [65648; 65712].
Proof.
  destruct (remove_from_free_list_unlinks (abi := LP64) lp64_holes
              _ _ 65584 lp64_holes_shape) as (H1 & _).
  - concrete_in.
  - exact H1.
Defined.

(** Inserting 65616 into the free list of [lp64_holes_marked] and
    removing it again. *)
Lemma insert_then_remove_round_trip_witness :
  free_listp
    (remove_from_free_list (abi := LP64)
       (insert_in_free_list (abi := LP64) lp64_holes_marked 65616) 65616)
  = free_listp lp64_holes_marked
  /\ GET (abi := LP64)
       (remove_from_free_list (abi := LP64)
          (insert_in_free_list (abi := LP64) lp64_holes_marked 65616) 65616)
       65648
     = GET (abi := LP64) lp64_holes_marked 65648.
Proof.
  pose proof (insert_then_remove_round_trip (abi := LP64) lp64_holes_marked
                _ _ 65616 lp64_holes_marked_shape) as H.
  cbv zeta in H. destruct H as (_ & H2 & H3).
  - concrete_in.
  - vm_compute. lia.
  - vm_compute. discriminate.
  - split; [exact H2|]. apply H3.
    + discriminate.
    + vm_compute. discriminate.
Defined.

(** Coalescing with both neighbours free, on [lp64_holes_marked]: the
    blocks at 65584, 65616 and 65648 become the free block 65584 of 96
    bytes, and the heap is well formed again. *)
Lemma coalesce_restores_invariant_witness :
  heap_inv (abi := LP64) (snd (coalesce (abi := LP64) lp64_holes_marked 65616))
    [65552; 65584; 65680; 65712] [65584; 65712]
  /\ GET_SIZE (abi := LP64)
       (snd (coalesce (abi := LP64) lp64_holes_marked 65616))
       (HDRP (abi := LP64) 65584) = 96.
Proof.
  pose proof (coalesce_restores_invariant (abi := LP64) lp64_holes_marked
                _ _ 65616 lp64_holes_marked_shape) as H.
  cbv zeta in H. destruct H as (_ & H2 & H3 & _).
  - concrete_in.
  - vm_compute. reflexivity.
  - vm_compute. lia.
  - intros b Hb Hne.
    each_block Hb ltac:(first [exfalso; apply Hne; reflexivity
                              |split; intros H; vm_compute in H |- *;
                               first [discriminate H | lia | concrete_in]]).
  - intros b Hb Hne H.
    each_block Hb ltac:(first [exfalso; apply Hne; reflexivity
                              |vm_compute in H; discriminate H
                              |left; vm_compute; reflexivity
                              |right; vm_compute; reflexivity]).
  - split.
    + match type of H2 with
      | heap_inv _ ?l ?f =>
          replace l with [65552; 65584; 65680; 65712] in H2
            by (vm_compute; reflexivity);
          replace f with [65584; 65712] in H2 by (vm_compute; reflexivity)
      end.
      exact H2.
    + match type of H3 with
      | GET_SIZE _ (HDRP ?lo) = _ =>
          replace lo with 65584 in H3 by (vm_compute; reflexivity)
      end.
      rewrite H3. vm_compute. reflexivity.
Defined.

(** One more chunk for [lp64_holes]: its last block, 65712, is free and
    takes the new bytes in. *)
Lemma extend_heap_grows_or_refuses_witness :
  fst (extend_heap (abi := LP64) lp64_holes 512) = 65712
  /\ mem_brk (snd (extend_heap (abi := LP64) lp64_holes 512)) = 73776.
Proof.
  pose proof (extend_heap_grows_or_refuses (abi := LP64) lp64_holes _ _ 512
                lp64_holes_inv) as H.
  cbv zeta in H. destruct H as (_ & _ & H).
  - vm_compute. discriminate.
  - vm_compute. reflexivity.
  - destruct H as (H1 & _ & _ & _ & _ & H6 & _).
    + vm_compute. discriminate.
    + split.
      * rewrite H1. vm_compute. reflexivity.
      * rewrite H6. vm_compute. reflexivity.
Defined.

(** On [lp64_holes] a block of 64 bytes is found behind two blocks of
    32. *)
Lemma find_fit_first_of_list_witness :
  find_fit (abi := LP64) 4 lp64_holes 64 = Some 65712.
Proof.
  destruct (find_fit_first_of_list (abi := LP64) lp64_holes _ _ 64 4
              lp64_holes_inv)
    as [(l1 & b & l2 & _ & Hf & _ & Hs & _)|[_ Hs]].
  - simpl. lia.
  - rewrite Hf. f_equal.
    assert (E : find_fit (abi := LP64) 4 lp64_holes 64 = Some 65712)
      by (vm_compute; reflexivity).
    rewrite Hf in E. injection E as E. exact E.
  - exfalso.
    assert (Hin : In 65712 [65648; 65584; 65712]) by concrete_in.
    specialize (Hs 65712 Hin). vm_compute in Hs. discriminate Hs.
Defined.

(** Placing 64 bytes in the last block of [lp64_holes]. *)
Lemma place_keeps_invariant_witness :
  exists bs' fl',
    heap_inv (abi := LP64) (place (abi := LP64) lp64_holes 65712 64) bs' fl'
    /\ In 65712 bs'
    /\ GET_ALLOC (abi := LP64) (place (abi := LP64) lp64_holes 65712 64)
         (HDRP (abi := LP64) 65712) = 1.
Proof.
  destruct (place_keeps_invariant (abi := LP64) lp64_holes _ _ 65712 64
              lp64_holes_inv) as (bs' & fl' & H1 & H2 & H3 & _).
  - concrete_in.
  - split; [split; vm_compute; [discriminate|reflexivity]
           |vm_compute; reflexivity].
  - vm_compute. discriminate.
  - vm_compute. discriminate.
  - exists bs', fl'. split; [exact H1|]. split; [exact H2|exact H3].
Defined.

(** [mm_init] on a heap primitive that starts at 65536 with a megabyte
    to give. *)
Lemma mm_init_establishes_invariant_witness :
  fst (mm_init (abi := LP64) (fresh 65536 (65536 + 1048576))) = 0
  /\ heap_inv (abi := LP64) lp64_init [65552; 65584] [65584].
Proof.
  pose proof (mm_init_establishes_invariant (abi := LP64)
                (fresh 65536 (65536 + 1048576))) as H.
  cbv zeta in H. destruct H as (H1 & H2 & _).
  - vm_compute. discriminate.
  - vm_compute. discriminate.
  - vm_compute. discriminate.
  - split; [exact H1|exact H2].
Defined.

(** [mm_init] on a heap primitive with 4000 bytes to give: the frame
    fits, the first chunk does not. *)
Lemma mm_init_fails_without_room_witness :
  fst (mm_init (abi := LP64) (fresh 65536 (65536 + 4000))) = -1.
Proof.
  apply (mm_init_fails_without_room (abi := LP64)).
  - vm_compute. discriminate.
  - vm_compute. discriminate.
  - vm_compute. reflexivity.
Defined.

(** [mm_malloc(16)] on [lp64_holes]. *)
Lemma mm_malloc_keeps_invariant_witness :
  exists p s',
    mm_malloc (abi := LP64) 64 lp64_holes 16 = Some (p, s')
    /\ (p <> NULL ->
        exists bs' fl', heap_inv (abi := LP64) s' bs' fl' /\ In p bs').
Proof.
  destruct (mm_malloc_keeps_invariant (abi := LP64) lp64_holes _ _ 16 64
              lp64_holes_inv) as (p & s' & E & _ & H).
  - reflexivity.
  - vm_compute. reflexivity.
  - simpl. lia.
  - exists p, s'. split; [exact E|]. intros Hn.
    destruct (H Hn) as (bs' & fl' & H1 & H2 & _).
    exists bs', fl'. split; [exact H1|exact H2].
Defined.

(** On [lp64_tight] the only free block has 4064 bytes and the heap
    primitive gives nothing more: [mm_malloc(5000)] returns NULL. *)
Lemma mm_malloc_null_iff_no_room_witness :
  exists s', mm_malloc (abi := LP64) 64 lp64_tight 5000 = Some (NULL, s').
Proof.
  apply (proj2 (mm_malloc_null_iff_no_room (abi := LP64) lp64_tight _ _ 5000 64
                  lp64_tight_inv eq_refl eq_refl
                  (Nat.lt_le_trans _ _ _ (Nat.lt_succ_diag_r 1)
                     (Nat.le_add_l 2 62)))).
  split.
  - intros c [<-|[]]. vm_compute. reflexivity.
  - vm_compute. reflexivity.
Defined.

(** The block that [mm_malloc(16)] returns on [lp64_holes], 65648, is
    aligned, and its word at 65656 is not a word of the block 65616,
    which was allocated before. *)
Lemma mm_malloc_block_is_fresh_witness :
  65648 mod DSIZE (abi := LP64) = 0
  /\ ~ block_word (abi := LP64) lp64_holes 65616 65656.
Proof.
  assert (E : mm_malloc (abi := LP64) 64 lp64_holes 16
              = Some (65648, snd (malloc64 lp64_holes 16)))
    by (vm_compute; reflexivity).
  destruct (mm_malloc_block_is_fresh (abi := LP64) lp64_holes _ _ 16 64
              65648 (snd (malloc64 lp64_holes 16)) lp64_holes_inv)
    as (H1 & _ & _ & H4).
  - vm_compute. reflexivity.
  - reflexivity.
  - vm_compute. reflexivity.
  - simpl. lia.
  - exact E.
  - discriminate.
  - split; [exact H1|]. apply (H4 65616 65656).
    + concrete_in.
    + vm_compute. reflexivity.
    + split; [discriminate|reflexivity].
Defined.

(** Freeing the block at 65616 of [lp64_holes]: it merges with both
    neighbours into the free block 65584 of 96 bytes. *)
Lemma mm_free_keeps_invariant_witness :
  heap_inv (abi := LP64) (mm_free (abi := LP64) lp64_holes 65616)
    [65552; 65584; 65680; 65712] [65584; 65712]
  /\ free_listp (mm_free (abi := LP64) lp64_holes 65616) = 65584.
Proof.
  pose proof (mm_free_keeps_invariant (abi := LP64) lp64_holes _ _ 65616
                lp64_holes_inv) as H.
  cbv zeta in H. destruct H as (H1 & H2 & _).
  - concrete_in.
  - vm_compute. discriminate.
  - vm_compute. reflexivity.
  - split.
    + match type of H1 with
      | heap_inv _ ?l ?f =>
          replace l with [65552; 65584; 65680; 65712] in H1
            by (vm_compute; reflexivity);
          replace f with [65584; 65712] in H1 by (vm_compute; reflexivity)
      end.
      exact H1.
    + rewrite H2. vm_compute. reflexivity.
Defined.

(** [mm_realloc] of the block at 65616 of [lp64_holes] to 100 bytes:
    the last block of the free list, 65712, can hold the 128 bytes of
    the adjusted size. *)
Lemma mm_realloc_keeps_invariant_witness :
  exists p s',
    mm_realloc (abi := LP64) 64 lp64_holes 65616 100 = Some (p, s')
    /\ p <> NULL
    /\ exists bs' fl', heap_inv (abi := LP64) s' bs' fl' /\ In p bs'.
Proof.
  destruct (mm_realloc_keeps_invariant (abi := LP64) lp64_holes _ _ 65616 100
              64 lp64_holes_inv) as (p & s' & E & Hn & H).
  - concrete_in.
  - vm_compute. discriminate.
  - vm_compute. reflexivity.
  - split; vm_compute; [discriminate|reflexivity].
  - vm_compute. reflexivity.
  - simpl. lia.
  - right. right. left. exists 65712.
    split; [concrete_in|vm_compute; discriminate].
  - exists p, s'. split; [exact E|]. split; [exact Hn|].
    destruct H as (bs' & fl' & H1 & H2 & _).
    exists bs', fl'. split; [exact H1|exact H2].
Defined.

(** After [mm_init] and two calls of [mm_malloc(16)] the caller holds
    two distinct blocks. *)
Lemma served_heap_well_formed_witness :
  exists bs fl,
    heap_inv (abi := LP64) lp64_two bs fl /\ NoDup [65616; 65584].
Proof.
  destruct (served_heap_well_formed (abi := LP64) lp64_two [65616; 65584]
              lp64_two_served) as (bs & fl & H1 & H2 & _).
  exists bs, fl. split; [exact H1|exact H2].
Defined.

(** The two walks on [lp64_holes]. *)
Lemma invariant_seen_by_walks_witness :
  free_walk (abi := LP64) 64 lp64_holes (free_listp lp64_holes)
  = [65648; 65584; 65712]
  /\ free_iff_listed_once (abi := LP64) 64 lp64_holes = true.
Proof.
  destruct (invariant_seen_by_walks (abi := LP64) lp64_holes _ _ 64
              lp64_holes_inv) as (H1 & _ & H3).
  - simpl. lia.
  - simpl. lia.
  - split; [exact H1|exact H3].
Defined.

(** The free block 65648 of [lp64_holes] is met on the list. *)
Lemma free_blocks_found_on_list_witness :
  in_free_list (abi := LP64) 64 lp64_holes (free_listp lp64_holes) 65648
  = Some true.
Proof.
  rewrite (free_blocks_found_on_list (abi := LP64) lp64_holes _ _ 64 65648
             lp64_holes_inv).
  - vm_compute. reflexivity.
  - simpl. lia.
  - concrete_in.
Defined.

(** [checkblock] on the free block 65584 of [lp64_holes]. *)
Lemma checkblock_silent_on_free_block_witness :
  checkblock (abi := LP64) lp64_holes 65584 = [].
Proof.
  apply (checkblock_silent_on_free_block (abi := LP64) lp64_holes _ _ 65584
           lp64_holes_inv).
  - vm_compute. reflexivity.
  - vm_compute. discriminate.
  - concrete_in.
Defined.

(** The pass over the heap on [lp64_holes] calls [checkblock] on the
    five blocks behind the prologue and stops at the epilogue. *)
Lemma heap_pass_visits_every_block_witness :
  check_heap_blocks (abi := LP64) 64 (fun _ => None) lp64_holes false
    (NEXT_BLKP (abi := LP64) lp64_holes (heap_listp lp64_holes))
  = Some (flat_map (checkblock (abi := LP64) lp64_holes)
            [65584; 65616; 65648; 65680; 65712], mem_brk lp64_holes).
Proof.
  refine (heap_pass_visits_every_block (abi := LP64) lp64_holes _ _ 64
            (fun _ => None) lp64_holes_inv _).
  simpl. lia.
Defined.

(** [mm_malloc(16)] on [lp64_holes] takes the block at 65648 from the
    list; freeing it gives the blocks of [lp64_holes] back. *)
Lemma malloc_then_free_round_trip_witness :
  exists p s',
    mm_malloc (abi := LP64) 64 lp64_holes 16 = Some (p, s')
    /\ heap_inv (abi := LP64) (mm_free (abi := LP64) s' p)
         [65552; 65584; 65616; 65648; 65680; 65712]
         (p :: filter (fun x => negb (x =? p)) [65648; 65584; 65712]).
Proof.
  destruct (malloc_then_free_round_trip (abi := LP64) lp64_holes _ _ 16 64
              lp64_holes_inv) as (p & s' & E & _ & H & _).
  - reflexivity.
  - vm_compute. reflexivity.
  - simpl. lia.
  - exists 65648. split; [concrete_in|vm_compute; discriminate].
  - exists p, s'. split; [exact E|exact H].
Defined.

(** After [mm_free] of the block at 65680 of [lp64_holes], whose
    neighbour in front is free, [mm_malloc(16)] returns that neighbour,
    65648. *)
Lemma free_then_malloc_reuses_block_witness :
  exists s',
    mm_malloc (abi := LP64) 64 (mm_free (abi := LP64) lp64_holes 65680) 16
    = Some (65648, s').
Proof.
  pose proof (free_then_malloc_reuses_block (abi := LP64) lp64_holes _ _
                65680 16 64 lp64_holes_inv) as H.
  cbv zeta in H.
  replace (if GET_ALLOC (abi := LP64) lp64_holes
                (HDRP (abi := LP64) (PREV_BLKP (abi := LP64) lp64_holes 65680))
              =? 0
           then PREV_BLKP (abi := LP64) lp64_holes 65680 else 65680)
    with 65648 in H by (vm_compute; reflexivity).
  apply H.
  - concrete_in.
  - vm_compute. discriminate.
  - vm_compute. reflexivity.
  - reflexivity.
  - vm_compute. reflexivity.
  - vm_compute. discriminate.
  - simpl. lia.
Defined.

(** Coalescing with both neighbours free, on [lp64_holes_marked]: the
    free list is 65648, 65584, 65712; the blocks 65584 and 65648 leave
    it, the blocks 65616 and 65648 are no blocks any more, and 65584,
    with 96 bytes, is in front of 65712. *)
Lemma coalesce_four_cases_witness :
  heap_inv (abi := LP64) (snd (coalesce (abi := LP64) lp64_holes_marked 65616))
    [65552; 65584; 65680; 65712] [65584; 65712]
  /\ fst (coalesce (abi := LP64) lp64_holes_marked 65616) = 65584
  /\ GET_SIZE (abi := LP64)
       (snd (coalesce (abi := LP64) lp64_holes_marked 65616))
       (HDRP (abi := LP64) 65584) = 96.
Proof.
  pose proof (coalesce_four_cases (abi := LP64) lp64_holes_marked
                _ _ 65616 lp64_holes_marked_shape) as H.
  cbv zeta in H. destruct H as (_ & _ & _ & H & _).
  - concrete_in.
  - vm_compute. reflexivity.
  - vm_compute. lia.
  - intros b Hb Hne.
    each_block Hb ltac:(first [exfalso; apply Hne; reflexivity
                              |split; intros H; vm_compute in H |- *;
                               first [discriminate H | lia | concrete_in]]).
  - intros b Hb Hne H.
    each_block Hb ltac:(first [exfalso; apply Hne; reflexivity
                              |vm_compute in H; discriminate H
                              |left; vm_compute; reflexivity
                              |right; vm_compute; reflexivity]).
  - destruct H as (H1 & _ & _ & _ & H2 & H3).
    + vm_compute. reflexivity.
    + vm_compute. reflexivity.
    + split; [|split].
      * match type of H2 with
        | heap_inv _ ?l ?f =>
            replace l with [65552; 65584; 65680; 65712] in H2
              by (vm_compute; reflexivity);
            replace f with [65584; 65712] in H2 by (vm_compute; reflexivity)
        end.
        exact H2.
      * rewrite H1. vm_compute. reflexivity.
      * match type of H3 with
        | GET_SIZE _ (HDRP ?lo) = _ =>
            replace lo with 65584 in H3 by (vm_compute; reflexivity)
        end.
        rewrite H3. vm_compute. reflexivity.
Defined.

(** Placing 64 bytes in the last block of [lp64_holes], of 3968 bytes,
    splits it: 65712 leaves the free list and the remainder 65776 is in
    front of it.  Placing 32 bytes in the block at 65648, of 32 bytes,
    takes the whole block, and the list is left without it. *)
Lemma place_split_or_consume_witness :
  heap_inv (abi := LP64) (place (abi := LP64) lp64_holes 65712 64)
    [65552; 65584; 65616; 65648; 65680; 65712; 65776] [65776; 65648; 65584]
  /\ GET_SIZE (abi := LP64) (place (abi := LP64) lp64_holes 65712 64)
       (HDRP (abi := LP64) 65712) = 64
  /\ heap_inv (abi := LP64) (place (abi := LP64) lp64_holes 65648 32)
       [65552; 65584; 65616; 65648; 65680; 65712] [65584; 65712].
Proof.
  pose proof (place_split_or_consume (abi := LP64) lp64_holes _ _ 65712 64
                lp64_holes_inv) as H.
  pose proof (place_split_or_consume (abi := LP64) lp64_holes _ _ 65648 32
                lp64_holes_inv) as K.
  cbv zeta in H, K.
  destruct H as [_ H].
  - concrete_in.
  - vm_compute. discriminate.
  - vm_compute. reflexivity.
  - vm_compute. discriminate.
  - destruct K as [K _].
    + concrete_in.
    + vm_compute. discriminate.
    + vm_compute. reflexivity.
    + vm_compute. discriminate.
    + destruct H as (_ & _ & H1 & H2 & _); [vm_compute; discriminate|].
      destruct K as (_ & K1 & _); [vm_compute; reflexivity|].
      split; [|split].
      * match type of H1 with
        | heap_inv _ ?l ?f =>
            replace l with [65552; 65584; 65616; 65648; 65680; 65712; 65776]
              in H1 by (vm_compute; reflexivity);
            replace f with [65776; 65648; 65584] in H1
              by (vm_compute; reflexivity)
        end.
        exact H1.
      * exact H2.
      * match type of K1 with
        | heap_inv _ _ ?f =>
            replace f with [65584; 65712] in K1 by (vm_compute; reflexivity)
        end.
        exact K1.
Defined.

